(** * Raster I/O engine: a shallow embedding of [rasterio.cpp]

    The development follows the C++ source of the raster I/O core
    ([GDALRasterBand::IRasterIO], [GDALCopyWords] and its helpers,
    [GDALBandGetBestOverviewLevel2]).

    Modelling conventions.
    - C [int] and [GSpacing] values are integers in [Z]; signed overflow is
      undefined behaviour in C++, so no wrap-around is written out.  Integer
      division and remainder are the truncating [Z.quot] and [Z.rem].
    - C [double] values are modelled by the exact rationals of [Q]; a cast
      [(int)] truncates toward zero.
    - Raw buffers are byte memories addressed by integers; a pointer is an
      address.  The source and the destination of a copy are distinct
      memories, which is what [CPL_RESTRICT] promises.
    - Multi-byte words are little endian (the SSE2 kernels only exist in
      the x86-64 build). *)

From Stdlib Require Import ZArith List Bool Lia Lqa QArith Qround Qminmax.
From Stdlib Require Import Strings.Byte FunctionalExtensionality.
From Stdlib Require String Ascii.
Import ListNotations.
Local Open Scope Z_scope.

Set Implicit Arguments.

(* ------------------------------------------------------------------ *)
(** ** Bytes and byte memories *)

Definition Z_of_byte (b : byte) : Z := Z.of_N (Byte.to_N b).

Definition byte_of_Z (z : Z) : byte :=
  match Byte.of_N (Z.to_N (z mod 256)) with
  | Some b => b
  | None => x00
  end.

(** A byte memory: every address holds a byte. *)
Definition mem := Z -> byte.

Definition load_bytes (m : mem) (a : Z) (n : nat) : list byte :=
  map (fun k => m (a + Z.of_nat k)) (seq 0 n).

Definition store_bytes (m : mem) (a : Z) (bs : list byte) : mem :=
  fun x =>
    if (a <=? x) && (x <? a + Z.of_nat (length bs))
    then nth (Z.to_nat (x - a)) bs x00
    else m x.

(** [memcpy(dst + pD, src + pS, n)] between two distinct memories. *)
Definition memcpy (dst : mem) (pD : Z) (src : mem) (pS : Z) (n : Z) : mem :=
  fun x => if (pD <=? x) && (x <? pD + n) then src (pS + (x - pD)) else dst x.

(** [memset(dst + pD, c, n)]. *)
Definition memset (dst : mem) (pD : Z) (c : byte) (n : Z) : mem :=
  fun x => if (pD <=? x) && (x <? pD + n) then c else dst x.

(** [fit n bs]: exactly [n] bytes, the object representation of a word of
    size [n] (shorter lists are padded with zero bytes). *)
Fixpoint fit (n : nat) (bs : list byte) : list byte :=
  match n with
  | O => []
  | S n' => match bs with
            | [] => x00 :: fit n' []
            | b :: r => b :: fit n' r
            end
  end.

(** Little-endian encoding of the low [n] bytes of an integer, and the
    unsigned and signed decodings. *)
Fixpoint le_bytes (n : nat) (v : Z) : list byte :=
  match n with
  | O => []
  | S n' => byte_of_Z v :: le_bytes n' (v / 256)
  end.

Fixpoint le_unsigned (bs : list byte) : Z :=
  match bs with
  | [] => 0
  | b :: r => Z_of_byte b + 256 * le_unsigned r
  end.

Definition le_signed (bs : list byte) : Z :=
  let u := le_unsigned bs in
  let w := 2 ^ (8 * Z.of_nat (length bs)) in
  if u <? w / 2 then u else u - w.

(** Counted loop [for (i = i0; <n iterations>; i++) s = body i s]. *)
Fixpoint for_loop (S : Type) (n : nat) (i : Z) (body : Z -> S -> S) (s : S) : S :=
  match n with
  | O => s
  | Datatypes.S n' => for_loop n' (i + 1) body (body i s)
  end.

(* ------------------------------------------------------------------ *)
(** ** Pixel data types *)

Inductive GDALDataType :=
| GDT_Unknown | GDT_Byte | GDT_UInt16 | GDT_Int16 | GDT_UInt32 | GDT_Int32
| GDT_Float32 | GDT_Float64
| GDT_CInt16 | GDT_CInt32 | GDT_CFloat32 | GDT_CFloat64.

Definition GDALDataType_eqb (a b : GDALDataType) : bool :=
  match a, b with
  | GDT_Unknown, GDT_Unknown | GDT_Byte, GDT_Byte | GDT_UInt16, GDT_UInt16
  | GDT_Int16, GDT_Int16 | GDT_UInt32, GDT_UInt32 | GDT_Int32, GDT_Int32
  | GDT_Float32, GDT_Float32 | GDT_Float64, GDT_Float64
  | GDT_CInt16, GDT_CInt16 | GDT_CInt32, GDT_CInt32
  | GDT_CFloat32, GDT_CFloat32 | GDT_CFloat64, GDT_CFloat64 => true
  | _, _ => false
  end.

(** The C scalar types the templates are instantiated at. *)
Inductive CType :=
| TByte | TUInt16 | TInt16 | TUInt32 | TInt32 | TFloat | TDouble.

Definition CType_eqb (a b : CType) : bool :=
  match a, b with
  | TByte, TByte | TUInt16, TUInt16 | TInt16, TInt16 | TUInt32, TUInt32
  | TInt32, TInt32 | TFloat, TFloat | TDouble, TDouble => true
  | _, _ => false
  end.

Definition sizeof (t : CType) : nat :=
  match t with
  | TByte => 1
  | TUInt16 | TInt16 => 2
  | TUInt32 | TInt32 | TFloat => 4
  | TDouble => 8
  end%nat.

Definition zsizeof (t : CType) : Z := Z.of_nat (sizeof t).

(** Modelled from the spec: [GDALGetDataTypeSizeBytes] (gdal_misc.cpp is
    not part of the sources at hand); the size in bytes of one pixel word,
    twice the component size for the complex types, 0 for [GDT_Unknown]. *)
Definition GDALGetDataTypeSizeBytes (t : GDALDataType) : Z :=
  match t with
  | GDT_Unknown => 0
  | GDT_Byte => 1
  | GDT_UInt16 | GDT_Int16 => 2
  | GDT_UInt32 | GDT_Int32 | GDT_Float32 | GDT_CInt16 => 4
  | GDT_Float64 | GDT_CInt32 | GDT_CFloat32 => 8
  | GDT_CFloat64 => 16
  end.

(** Modelled from the spec: [GDALDataTypeIsComplex] (gdal_misc.cpp). *)
Definition GDALDataTypeIsComplex (t : GDALDataType) : bool :=
  match t with
  | GDT_CInt16 | GDT_CInt32 | GDT_CFloat32 | GDT_CFloat64 => true
  | _ => false
  end.

(** Typed accesses: [*(T* )(m + a)] reads or writes [sizeof(T)] bytes. *)
Definition load (t : CType) (m : mem) (a : Z) : list byte :=
  load_bytes m a (sizeof t).

Definition store (t : CType) (m : mem) (a : Z) (v : list byte) : mem :=
  store_bytes m a (fit (sizeof t) v).

(** Stepped loop [for (; n < lim; n += step) s = body n s]: the condition
    is tested before each iteration; [fuel] bounds the number of
    iterations.  The final value of [n] is returned with the state. *)
Fixpoint for_step (S : Type) (fuel : nat) (n lim step : Z)
         (body : Z -> S -> S) (s : S) : Z * S :=
  match fuel with
  | O => (n, s)
  | Datatypes.S f =>
      if n <? lim then for_step f (n + step) lim step body (body n s)
      else (n, s)
  end.

(* ------------------------------------------------------------------ *)
(** ** SSE2 intrinsics

    A 128-bit register is the list of its 16 bytes, lowest first. *)

Definition _mm_setzero_si128 : list byte := repeat x00 16.
Definition _mm_loadu_si128 (m : mem) (a : Z) : list byte := load_bytes m a 16.
Definition _mm_storeu_si128 (m : mem) (a : Z) (v : list byte) : mem :=
  store_bytes m a (fit 16 v).

Fixpoint interleave1 (a b : list byte) : list byte :=
  match a, b with
  | x :: a', y :: b' => x :: y :: interleave1 a' b'
  | _, _ => []
  end.

Fixpoint interleave2 (a b : list byte) : list byte :=
  match a, b with
  | x1 :: x2 :: a', y1 :: y2 :: b' => x1 :: x2 :: y1 :: y2 :: interleave2 a' b'
  | _, _ => []
  end.

Fixpoint lanes2 (v : list byte) : list (list byte) :=
  match v with
  | x :: y :: r => [x; y] :: lanes2 r
  | _ => []
  end.

Fixpoint lanes4 (v : list byte) : list (list byte) :=
  match v with
  | x :: y :: z :: t :: r => [x; y; z; t] :: lanes4 r
  | _ => []
  end.

Fixpoint zip_with (A B C : Type) (f : A -> B -> C) (a : list A) (b : list B) : list C :=
  match a, b with
  | x :: a', y :: b' => f x y :: zip_with f a' b'
  | _, _ => []
  end.

Definition _mm_unpacklo_epi8 (a b : list byte) := interleave1 (firstn 8 a) (firstn 8 b).
Definition _mm_unpackhi_epi8 (a b : list byte) := interleave1 (skipn 8 a) (skipn 8 b).
Definition _mm_unpacklo_epi16 (a b : list byte) := interleave2 (firstn 8 a) (firstn 8 b).
Definition _mm_unpackhi_epi16 (a b : list byte) := interleave2 (skipn 8 a) (skipn 8 b).

Definition _mm_set1_epi16 (c : Z) : list byte := concat (repeat (le_bytes 2 c) 8).
Definition _mm_set1_epi32 (c : Z) : list byte := concat (repeat (le_bytes 4 c) 4).

Definition _mm_add_epi16 (a b : list byte) : list byte :=
  concat (zip_with (fun x y => le_bytes 2 (le_signed x + le_signed y)) (lanes2 a) (lanes2 b)).
Definition _mm_sub_epi16 (a b : list byte) : list byte :=
  concat (zip_with (fun x y => le_bytes 2 (le_signed x - le_signed y)) (lanes2 a) (lanes2 b)).
Definition _mm_min_epi16 (a b : list byte) : list byte :=
  concat (zip_with (fun x y => le_bytes 2 (Z.min (le_signed x) (le_signed y))) (lanes2 a) (lanes2 b)).

Definition saturate (lo hi v : Z) : Z := Z.max lo (Z.min hi v).

(** Signed 16-bit lanes packed to unsigned bytes with saturation. *)
Definition _mm_packus_epi16 (a b : list byte) : list byte :=
  map (fun x => byte_of_Z (saturate 0 255 (le_signed x))) (lanes2 a ++ lanes2 b).
(** Signed 32-bit lanes packed to signed 16-bit lanes with saturation. *)
Definition _mm_packs_epi32 (a b : list byte) : list byte :=
  concat (map (fun x => le_bytes 2 (saturate (-32768) 32767 (le_signed x)))
              (lanes4 a ++ lanes4 b)).

Definition _mm_and_si128 (a b : list byte) : list byte :=
  zip_with (fun x y => byte_of_Z (Z.land (Z_of_byte x) (Z_of_byte y))) a b.
Definition _mm_or_si128 (a b : list byte) : list byte :=
  zip_with (fun x y => byte_of_Z (Z.lor (Z_of_byte x) (Z_of_byte y))) a b.

(** Whole-register byte shifts by 8 bytes. *)
Definition _mm_slli_si128_8 (a : list byte) : list byte := repeat x00 8 ++ firstn 8 a.
Definition _mm_srli_si128_8 (a : list byte) : list byte := skipn 8 a ++ repeat x00 8.

(** Modelled from the spec: [GDALCopyXMMToInt32] and [GDALCopyXMMToInt64]
    (gdalsse_priv.h is not part of the sources at hand) store the low 4,
    respectively 8, bytes of a register. *)
Definition GDALCopyXMMToInt32 (xmm : list byte) (m : mem) (a : Z) : mem :=
  store_bytes m a (fit 4 xmm).
Definition GDALCopyXMMToInt64 (xmm : list byte) (m : mem) (a : Z) : mem :=
  store_bytes m a (fit 8 xmm).

(** Build options of the translation unit. *)
Record BuildConfig := {
  cfg_x86_64 : bool;           (* defined(__x86_64) || defined(_M_X64) *)
  cfg_aligned_access : bool;   (* CPL_CPU_REQUIRES_ALIGNED_ACCESS *)
  cfg_ssse3 : bool             (* HAVE_SSSE3_AT_COMPILE_TIME && CPLHaveRuntimeSSSE3() *)
}.

Section Engine.

Variable cfg : BuildConfig.

(** The hardware conversions to and from IEEE-754 values stay abstract:
    [i2f32 v] and [i2f64 v] are the object representations of [(float)v]
    and [(double)v] for an integer [v] (the scalar cast and the packed
    [cvtdq2ps]/[cvtdq2pd] instructions compute the same function), and
    [fconv] converts a [float] or [double] source word. *)
Variable i2f32 : Z -> list byte.
Variable i2f64 : Z -> list byte.
Variable fconv : CType -> CType -> list byte -> list byte.

(* ------------------------------------------------------------------ *)
(** ** Word Converter *)

Definition is_float (t : CType) : bool :=
  match t with TFloat | TDouble => true | _ => false end.

Definition type_min (t : CType) : Z :=
  match t with TInt16 => -32768 | TInt32 => -2147483648 | _ => 0 end.

Definition type_max (t : CType) : Z :=
  match t with
  | TByte => 255 | TUInt16 => 65535 | TInt16 => 32767
  | TUInt32 => 4294967295 | TInt32 => 2147483647
  | TFloat | TDouble => 0
  end.

(** The integer held by a word of an integer type. *)
Definition decode (t : CType) (bs : list byte) : Z :=
  match t with
  | TInt16 | TInt32 => le_signed (fit (sizeof t) bs)
  | _ => le_unsigned (fit (sizeof t) bs)
  end.

(** C conversion of an integer value to [tout] (implicit conversion in an
    assignment, or [static_cast]): modular for integers. *)
Definition c_int_to (tout : CType) (v : Z) : list byte :=
  match tout with
  | TFloat => i2f32 v
  | TDouble => i2f64 v
  | _ => le_bytes (sizeof tout) v
  end.

(** Modelled from the spec: [GDALCopyWord] (gdal_priv_templates.hpp is not
    part of the sources at hand).  Identical types: the value is copied
    unchanged; integer to integer: the value saturated to the destination
    range; integer to floating point: the value converted; floating-point
    source: the abstract [fconv]. *)
Definition GDALCopyWord (tin tout : CType) (bs : list byte) : list byte :=
  if CType_eqb tin tout then bs
  else if is_float tin then fconv tin tout bs
  else match tout with
       | TFloat => i2f32 (decode tin bs)
       | TDouble => i2f64 (decode tin bs)
       | _ => le_bytes (sizeof tout)
                (saturate (type_min tout) (type_max tout) (decode tin bs))
       end.

(** One step of the per-word loops: convert the word at [src + a] into the
    word at [dst + b]. *)
Definition copy_word (tin tout : CType) (src : mem) (a : Z) (dst : mem) (b : Z) : mem :=
  store tout dst b (GDALCopyWord tin tout (load tin src a)).

(** Modelled from the spec: [GDALCopy8Words] (gdal_priv_templates.hpp);
    the SIMD kernels must not change the output of the per-word
    converter, so eight consecutive words are converted in turn. *)
Definition GDALCopy8Words (tin tout : CType) (src : mem) (a : Z) (dst : mem) (b : Z) : mem :=
  for_loop 8 0
    (fun k d => copy_word tin tout src (a + k * zsizeof tin) d (b + k * zsizeof tout)) dst.

(* ------------------------------------------------------------------ *)
(** ** Bulk Copy Engine: per-word loops *)

Definition GDALCopyWordsGenericT (tin tout : CType)
    (src : mem) (pSrcData nSrcPixelStride : Z)
    (dst : mem) (pDstData nDstPixelStride : Z) (nWordCount : Z) : mem :=
  for_loop (Z.to_nat nWordCount) 0
    (fun n d => copy_word tin tout src (pSrcData + n * nSrcPixelStride)
                          d (pDstData + n * nDstPixelStride)) dst.

Definition GDALCopyWordsT_8atatime (tin tout : CType)
    (src : mem) (pSrcData nSrcPixelStride : Z)
    (dst : mem) (pDstData nDstPixelStride : Z) (nWordCount : Z) : mem :=
  let fuel := Z.to_nat nWordCount in
  let '(n, d1) :=
    if (nSrcPixelStride =? zsizeof tin) && (nDstPixelStride =? zsizeof tout)
    then for_step fuel 0 (nWordCount - 7) 8
           (fun n d => GDALCopy8Words tin tout src (pSrcData + n * nSrcPixelStride)
                                      d (pDstData + n * nDstPixelStride)) dst
    else (0, dst) in
  snd (for_step fuel n nWordCount 1
         (fun n d => copy_word tin tout src (pSrcData + n * nSrcPixelStride)
                               d (pDstData + n * nDstPixelStride)) d1).

(** The scalar tail [pDstData[n] = pSrcData[n]] of the SSE2 kernels. *)
Definition assign_word (tin tout : CType) (src : mem) (a : Z) (dst : mem) (b : Z) : mem :=
  store tout dst b (c_int_to tout (decode tin (load tin src a))).

Definition GDALCopyWordsByteTo16Bit (tout : CType)
    (src : mem) (pSrcData nSrcPixelStride : Z)
    (dst : mem) (pDstData nDstPixelStride : Z) (nWordCount : Z) : mem :=
  if (nSrcPixelStride =? 1) && (nDstPixelStride =? 2) then
    let fuel := Z.to_nat nWordCount in
    let xmm_zero := _mm_setzero_si128 in
    let '(n, d1) :=
      for_step fuel 0 (nWordCount - 15) 16
        (fun n d =>
           let xmm := _mm_loadu_si128 src (pSrcData + n) in
           let xmm0 := _mm_unpacklo_epi8 xmm xmm_zero in
           let xmm1 := _mm_unpackhi_epi8 xmm xmm_zero in
           let d := _mm_storeu_si128 d (pDstData + n * 2) xmm0 in
           _mm_storeu_si128 d (pDstData + n * 2 + 16) xmm1) dst in
    snd (for_step fuel n nWordCount 1
           (fun n d => assign_word TByte tout src (pSrcData + n) d (pDstData + 2 * n)) d1)
  else GDALCopyWordsGenericT TByte tout src pSrcData nSrcPixelStride
                             dst pDstData nDstPixelStride nWordCount.

(** The four zero-extended 32-bit quarters of a 16-byte load. *)
Definition unpack_bytes_to_32 (xmm : list byte) : list (list byte) :=
  let xmm_zero := _mm_setzero_si128 in
  let xmm_low := _mm_unpacklo_epi8 xmm xmm_zero in
  let xmm_high := _mm_unpackhi_epi8 xmm xmm_zero in
  [ _mm_unpacklo_epi16 xmm_low xmm_zero; _mm_unpackhi_epi16 xmm_low xmm_zero;
    _mm_unpacklo_epi16 xmm_high xmm_zero; _mm_unpackhi_epi16 xmm_high xmm_zero ].

(** Store the registers [vs] at [a], [a + 16], [a + 32], ... *)
Fixpoint store_regs (d : mem) (a : Z) (vs : list (list byte)) : mem :=
  match vs with
  | [] => d
  | v :: r => store_regs (_mm_storeu_si128 d a v) (a + 16) r
  end.

Definition GDALCopyWordsByteTo32Bit (tout : CType)
    (src : mem) (pSrcData nSrcPixelStride : Z)
    (dst : mem) (pDstData nDstPixelStride : Z) (nWordCount : Z) : mem :=
  if (nSrcPixelStride =? 1) && (nDstPixelStride =? 4) then
    let fuel := Z.to_nat nWordCount in
    let '(n, d1) :=
      for_step fuel 0 (nWordCount - 15) 16
        (fun n d =>
           let xmm := _mm_loadu_si128 src (pSrcData + n) in
           store_regs d (pDstData + n * 4) (unpack_bytes_to_32 xmm)) dst in
    snd (for_step fuel n nWordCount 1
           (fun n d => assign_word TByte tout src (pSrcData + n) d (pDstData + 4 * n)) d1)
  else GDALCopyWordsGenericT TByte tout src pSrcData nSrcPixelStride
                             dst pDstData nDstPixelStride nWordCount.

Definition _mm_cvtepi32_ps (a : list byte) : list byte :=
  concat (map (fun l => fit 4 (i2f32 (le_signed l))) (lanes4 a)).
(** The two low 32-bit lanes converted to doubles. *)
Definition _mm_cvtepi32_pd (a : list byte) : list byte :=
  concat (map (fun l => fit 8 (i2f64 (le_signed l))) (firstn 2 (lanes4 a))).

Definition GDALCopyWordsT_Byte_float
    (src : mem) (pSrcData nSrcPixelStride : Z)
    (dst : mem) (pDstData nDstPixelStride : Z) (nWordCount : Z) : mem :=
  if (nSrcPixelStride =? 1) && (nDstPixelStride =? 4) then
    let fuel := Z.to_nat nWordCount in
    let '(n, d1) :=
      for_step fuel 0 (nWordCount - 15) 16
        (fun n d =>
           let xmm := _mm_loadu_si128 src (pSrcData + n) in
           store_regs d (pDstData + n * 4)
                      (map _mm_cvtepi32_ps (unpack_bytes_to_32 xmm))) dst in
    snd (for_step fuel n nWordCount 1
           (fun n d => assign_word TByte TFloat src (pSrcData + n) d (pDstData + 4 * n)) d1)
  else GDALCopyWordsGenericT TByte TFloat src pSrcData nSrcPixelStride
                             dst pDstData nDstPixelStride nWordCount.

(** [xmm_low_d = cvtepi32_pd(xmm); xmm = srli(xmm, 8); xmm_high_d =
    cvtepi32_pd(xmm)]: the low and the high pair of a register. *)
Definition cvt_pd_pair (xmm : list byte) : list (list byte) :=
  [ _mm_cvtepi32_pd xmm; _mm_cvtepi32_pd (_mm_srli_si128_8 xmm) ].

Definition GDALCopyWordsT_Byte_double
    (src : mem) (pSrcData nSrcPixelStride : Z)
    (dst : mem) (pDstData nDstPixelStride : Z) (nWordCount : Z) : mem :=
  if (nSrcPixelStride =? 1) && (nDstPixelStride =? 8) then
    let fuel := Z.to_nat nWordCount in
    let '(n, d1) :=
      for_step fuel 0 (nWordCount - 15) 16
        (fun n d =>
           let xmm := _mm_loadu_si128 src (pSrcData + n) in
           store_regs d (pDstData + n * 8)
                      (concat (map cvt_pd_pair (unpack_bytes_to_32 xmm)))) dst in
    snd (for_step fuel n nWordCount 1
           (fun n d => assign_word TByte TDouble src (pSrcData + n) d (pDstData + 8 * n)) d1)
  else GDALCopyWordsGenericT TByte TDouble src pSrcData nSrcPixelStride
                             dst pDstData nDstPixelStride nWordCount.

Definition GDALCopyWordsT_UInt16_Byte
    (src : mem) (pSrcData nSrcPixelStride : Z)
    (dst : mem) (pDstData nDstPixelStride : Z) (nWordCount : Z) : mem :=
  if (nSrcPixelStride =? 2) && (nDstPixelStride =? 1) then
    let fuel := Z.to_nat nWordCount in
    let xmm_UINT16_to_INT16 := _mm_set1_epi16 (-32768) in
    let xmm_m255_shifted := _mm_set1_epi16 (255 - 32768) in
    let '(n, d1) :=
      for_step fuel 0 (nWordCount - 7) 8
        (fun n d =>
           let xmm := _mm_loadu_si128 src (pSrcData + 2 * n) in
           let xmm := _mm_add_epi16 xmm xmm_UINT16_to_INT16 in
           let xmm := _mm_min_epi16 xmm xmm_m255_shifted in
           let xmm := _mm_sub_epi16 xmm xmm_UINT16_to_INT16 in
           let xmm := _mm_packus_epi16 xmm xmm in
           GDALCopyXMMToInt64 xmm d (pDstData + n)) dst in
    snd (for_step fuel n nWordCount 1
           (fun n d =>
              let v := decode TUInt16 (load TUInt16 src (pSrcData + 2 * n)) in
              store TByte d (pDstData + n)
                    (if 255 <=? v then le_bytes 1 255 else c_int_to TByte v)) d1)
  else GDALCopyWordsGenericT TUInt16 TByte src pSrcData nSrcPixelStride
                             dst pDstData nDstPixelStride nWordCount.

Definition GDALCopyWordsT_UInt16_Int16
    (src : mem) (pSrcData nSrcPixelStride : Z)
    (dst : mem) (pDstData nDstPixelStride : Z) (nWordCount : Z) : mem :=
  if (nSrcPixelStride =? 2) && (nDstPixelStride =? 2) then
    let fuel := Z.to_nat nWordCount in
    let xmm_UINT16_to_INT16 := _mm_set1_epi16 (-32768) in
    let xmm_32767_shifted := _mm_set1_epi16 (32767 - 32768) in
    let '(n, d1) :=
      for_step fuel 0 (nWordCount - 7) 8
        (fun n d =>
           let xmm := _mm_loadu_si128 src (pSrcData + 2 * n) in
           let xmm := _mm_add_epi16 xmm xmm_UINT16_to_INT16 in
           let xmm := _mm_min_epi16 xmm xmm_32767_shifted in
           let xmm := _mm_sub_epi16 xmm xmm_UINT16_to_INT16 in
           _mm_storeu_si128 d (pDstData + 2 * n) xmm) dst in
    snd (for_step fuel n nWordCount 1
           (fun n d =>
              let v := decode TUInt16 (load TUInt16 src (pSrcData + 2 * n)) in
              store TInt16 d (pDstData + 2 * n)
                    (if 32767 <=? v then le_bytes 2 32767 else c_int_to TInt16 v)) d1)
  else GDALCopyWordsGenericT TUInt16 TInt16 src pSrcData nSrcPixelStride
                             dst pDstData nDstPixelStride nWordCount.

(** The two zero-extended 32-bit halves of a load of eight 16-bit words. *)
Definition unpack_16_to_32 (xmm : list byte) : list (list byte) :=
  let xmm_zero := _mm_setzero_si128 in
  [ _mm_unpacklo_epi16 xmm xmm_zero; _mm_unpackhi_epi16 xmm xmm_zero ].

Definition GDALCopyWordsT_UInt16_float
    (src : mem) (pSrcData nSrcPixelStride : Z)
    (dst : mem) (pDstData nDstPixelStride : Z) (nWordCount : Z) : mem :=
  if (nSrcPixelStride =? 2) && (nDstPixelStride =? 4) then
    let fuel := Z.to_nat nWordCount in
    let '(n, d1) :=
      for_step fuel 0 (nWordCount - 7) 8
        (fun n d =>
           let xmm := _mm_loadu_si128 src (pSrcData + 2 * n) in
           store_regs d (pDstData + n * 4)
                      (map _mm_cvtepi32_ps (unpack_16_to_32 xmm))) dst in
    snd (for_step fuel n nWordCount 1
           (fun n d => assign_word TUInt16 TFloat src (pSrcData + 2 * n) d (pDstData + 4 * n)) d1)
  else GDALCopyWordsGenericT TUInt16 TFloat src pSrcData nSrcPixelStride
                             dst pDstData nDstPixelStride nWordCount.

Definition GDALCopyWordsT_UInt16_double
    (src : mem) (pSrcData nSrcPixelStride : Z)
    (dst : mem) (pDstData nDstPixelStride : Z) (nWordCount : Z) : mem :=
  if (nSrcPixelStride =? 2) && (nDstPixelStride =? 8) then
    let fuel := Z.to_nat nWordCount in
    let '(n, d1) :=
      for_step fuel 0 (nWordCount - 7) 8
        (fun n d =>
           let xmm := _mm_loadu_si128 src (pSrcData + 2 * n) in
           store_regs d (pDstData + n * 8)
                      (concat (map cvt_pd_pair (unpack_16_to_32 xmm)))) dst in
    snd (for_step fuel n nWordCount 1
           (fun n d => assign_word TUInt16 TDouble src (pSrcData + 2 * n) d (pDstData + 8 * n)) d1)
  else GDALCopyWordsGenericT TUInt16 TDouble src pSrcData nSrcPixelStride
                             dst pDstData nDstPixelStride nWordCount.

(** [GDALCopyWordsT<Tin,Tout>]: the primary template is the generic loop;
    the specialisations between [#if defined(__x86_64)] and [#endif] only
    exist in the x86-64 build, the [float] ones in every build. *)
Definition GDALCopyWordsT (tin tout : CType)
    (src : mem) (pS sS : Z) (dst : mem) (pD dS : Z) (n : Z) : mem :=
  let x86 := cfg_x86_64 cfg in
  match tin, tout with
  | TByte, TUInt16 | TByte, TInt16 =>
      if x86 then GDALCopyWordsByteTo16Bit tout src pS sS dst pD dS n
      else GDALCopyWordsGenericT tin tout src pS sS dst pD dS n
  | TByte, TUInt32 | TByte, TInt32 =>
      if x86 then GDALCopyWordsByteTo32Bit tout src pS sS dst pD dS n
      else GDALCopyWordsGenericT tin tout src pS sS dst pD dS n
  | TByte, TFloat =>
      if x86 then GDALCopyWordsT_Byte_float src pS sS dst pD dS n
      else GDALCopyWordsGenericT tin tout src pS sS dst pD dS n
  | TByte, TDouble =>
      if x86 then GDALCopyWordsT_Byte_double src pS sS dst pD dS n
      else GDALCopyWordsGenericT tin tout src pS sS dst pD dS n
  | TUInt16, TByte =>
      if x86 then GDALCopyWordsT_UInt16_Byte src pS sS dst pD dS n
      else GDALCopyWordsGenericT tin tout src pS sS dst pD dS n
  | TUInt16, TInt16 =>
      if x86 then GDALCopyWordsT_UInt16_Int16 src pS sS dst pD dS n
      else GDALCopyWordsGenericT tin tout src pS sS dst pD dS n
  | TUInt16, TFloat =>
      if x86 then GDALCopyWordsT_UInt16_float src pS sS dst pD dS n
      else GDALCopyWordsGenericT tin tout src pS sS dst pD dS n
  | TUInt16, TDouble =>
      if x86 then GDALCopyWordsT_UInt16_double src pS sS dst pD dS n
      else GDALCopyWordsGenericT tin tout src pS sS dst pD dS n
  | TDouble, TUInt16 =>
      if x86 then GDALCopyWordsT_8atatime tin tout src pS sS dst pD dS n
      else GDALCopyWordsGenericT tin tout src pS sS dst pD dS n
  | TFloat, TByte | TFloat, TInt16 | TFloat, TUInt16 =>
      GDALCopyWordsT_8atatime tin tout src pS sS dst pD dS n
  | _, _ => GDALCopyWordsGenericT tin tout src pS sS dst pD dS n
  end.

(** Complex to complex: both components converted independently. *)
Definition GDALCopyWordsComplexT (tin tout : CType)
    (src : mem) (pSrcData nSrcPixelStride : Z)
    (dst : mem) (pDstData nDstPixelStride : Z) (nWordCount : Z) : mem :=
  for_loop (Z.to_nat nWordCount) 0
    (fun n d =>
       let pPixelIn := pSrcData + n * nSrcPixelStride in
       let pPixelOut := pDstData + n * nDstPixelStride in
       let d := copy_word tin tout src pPixelIn d pPixelOut in
       copy_word tin tout src (pPixelIn + zsizeof tin) d (pPixelOut + zsizeof tout)) dst.

(** Real to complex: the imaginary part is [static_cast<Tout>(0)]. *)
Definition GDALCopyWordsComplexOutT (tin tout : CType)
    (src : mem) (pSrcData nSrcPixelStride : Z)
    (dst : mem) (pDstData nDstPixelStride : Z) (nWordCount : Z) : mem :=
  let tOutZero := c_int_to tout 0 in
  for_loop (Z.to_nat nWordCount) 0
    (fun n d =>
       let pPixelOut := pDstData + n * nDstPixelStride in
       let d := copy_word tin tout src (pSrcData + n * nSrcPixelStride) d pPixelOut in
       store tout d (pPixelOut + zsizeof tout) tOutZero) dst.

(** [GDALCopyWordsFromT<T>]: dispatch on the destination type. *)
Definition GDALCopyWordsFromT (t : CType)
    (src : mem) (pSrcData nSrcPixelStride : Z) (bInComplex : bool)
    (dst : mem) (pDstData : Z) (eDstType : GDALDataType)
    (nDstPixelStride nWordCount : Z) : mem :=
  let real tout :=
    GDALCopyWordsT t tout src pSrcData nSrcPixelStride
                   dst pDstData nDstPixelStride nWordCount in
  let cplx tout :=
    if bInComplex
    then GDALCopyWordsComplexT t tout src pSrcData nSrcPixelStride
                               dst pDstData nDstPixelStride nWordCount
    else GDALCopyWordsComplexOutT t tout src pSrcData nSrcPixelStride
                                  dst pDstData nDstPixelStride nWordCount in
  match eDstType with
  | GDT_Byte => real TByte
  | GDT_UInt16 => real TUInt16
  | GDT_Int16 => real TInt16
  | GDT_UInt32 => real TUInt32
  | GDT_Int32 => real TInt32
  | GDT_Float32 => real TFloat
  | GDT_Float64 => real TDouble
  | GDT_CInt16 => cplx TInt16
  | GDT_CInt32 => cplx TInt32
  | GDT_CFloat32 => cplx TFloat
  | GDT_CFloat64 => cplx TDouble
  | GDT_Unknown => dst          (* CPLAssert(false) *)
  end.

(* ------------------------------------------------------------------ *)
(** ** Replication of one word *)

(** [GDALReplicateWordT<T>]: [nWordCount] copies of the word at
    [pDstData], written after it. *)
Definition GDALReplicateWordT (t : CType)
    (dst : mem) (pDstData nDstPixelStride nWordCount : Z) : mem :=
  let valSet := load t dst pDstData in
  if nDstPixelStride =? zsizeof t then
    let pDstPtr := pDstData + zsizeof t in
    let q := Z.quot nWordCount 4 in
    let d1 :=
      for_loop (Z.to_nat q) 0
        (fun i d =>
           let p := pDstPtr + 4 * i * zsizeof t in
           let d := store t d p valSet in
           let d := store t d (p + zsizeof t) valSet in
           let d := store t d (p + 2 * zsizeof t) valSet in
           store t d (p + 3 * zsizeof t) valSet) dst in
    for_loop (Z.to_nat (nWordCount - 4 * q)) (4 * q)
      (fun i d => store t d (pDstPtr + i * zsizeof t) valSet) d1
  else
    let pabyDstPtr := pDstData + nDstPixelStride in
    for_loop (Z.to_nat nWordCount) 0
      (fun i d => store t d (pabyDstPtr + i * nDstPixelStride) valSet) dst.

(** The [CASE_DUPLICATE_COMPLEX] loop. *)
Definition replicate_complex (t : CType)
    (dst : mem) (pDstData nDstPixelStride nWordCount : Z) : mem :=
  let valSet1 := load t dst pDstData in
  let valSet2 := load t dst (pDstData + zsizeof t) in
  let pabyDstWord := pDstData + nDstPixelStride in
  for_loop (Z.to_nat nWordCount) 0
    (fun i d =>
       let p := pabyDstWord + i * nDstPixelStride in
       store t (store t d p valSet1) (p + zsizeof t) valSet2) dst.

(** [GDALReplicateWord], after its first statement: [d1] is the
    destination once the single word has been converted by
    [GDALCopyWords(pSrcData, eSrcType, 0, pDstData, eDstType, 0, 1)]. *)
Definition GDALReplicateWord_tail (d1 : mem) (pDstData : Z)
    (eDstType : GDALDataType) (nDstPixelStride nWordCount : Z) : mem :=
  let nWordCount := nWordCount - 1 in
  let pabyDstWord := pDstData + nDstPixelStride in
  match eDstType with
  | GDT_Byte =>
      if nDstPixelStride =? 1 then
        if 0 <? nWordCount then memset d1 pabyDstWord (d1 pDstData) nWordCount
        else d1
      else
        let valSet := d1 pDstData in
        for_loop (Z.to_nat nWordCount) 0
          (fun i d => store TByte d (pabyDstWord + i * nDstPixelStride) [valSet]) d1
  | GDT_UInt16 => GDALReplicateWordT TUInt16 d1 pDstData nDstPixelStride nWordCount
  | GDT_Int16 => GDALReplicateWordT TInt16 d1 pDstData nDstPixelStride nWordCount
  | GDT_UInt32 => GDALReplicateWordT TUInt32 d1 pDstData nDstPixelStride nWordCount
  | GDT_Int32 => GDALReplicateWordT TInt32 d1 pDstData nDstPixelStride nWordCount
  | GDT_Float32 => GDALReplicateWordT TFloat d1 pDstData nDstPixelStride nWordCount
  | GDT_Float64 => GDALReplicateWordT TDouble d1 pDstData nDstPixelStride nWordCount
  | GDT_CInt16 => replicate_complex TInt16 d1 pDstData nDstPixelStride nWordCount
  | GDT_CInt32 => replicate_complex TInt32 d1 pDstData nDstPixelStride nWordCount
  | GDT_CFloat32 => replicate_complex TFloat d1 pDstData nDstPixelStride nWordCount
  | GDT_CFloat64 => replicate_complex TDouble d1 pDstData nDstPixelStride nWordCount
  | GDT_Unknown => d1           (* CPLAssert(false) *)
  end.


(* ------------------------------------------------------------------ *)
(** ** Same-type strided copies *)

(** [GDALUnrolledCopyGeneric<T,srcStride,dstStride>]; the strides count
    elements of [T]. *)
Definition GDALUnrolledCopyGeneric (t : CType) (srcStride dstStride : Z)
    (dst : mem) (pDest : Z) (src : mem) (pSrc : Z) (nIters : Z) : mem :=
  let sz := zsizeof t in
  let q := if 16 <=? nIters then Z.quot nIters 16 else 0 in
  let d1 :=
    for_loop (Z.to_nat q) 0
      (fun i d =>
         for_loop 16 0
           (fun j d => store t d (pDest + (16 * i + j) * dstStride * sz)
                             (load t src (pSrc + (16 * i + j) * srcStride * sz))) d)
      dst in
  let nIters := if 16 <=? nIters then Z.rem nIters 16 else nIters in
  for_loop (Z.to_nat nIters) 0
    (fun i d => store t d (pDest + (16 * q + i) * dstStride * sz)
                      (load t src (pSrc + (16 * q + i) * srcStride * sz))) d1.

(** Modelled from the spec: [GDALUnrolledCopy_GByte_2_1_SSSE3],
    [.._3_1_SSSE3] and [.._4_1_SSSE3] are only declared here (their bodies
    are in another translation unit); as fast paths they produce the
    strided byte copy of the generic template. *)
Definition GDALUnrolledCopy_GByte_SSSE3 (srcStride : Z)
    (dst : mem) (pDest : Z) (src : mem) (pSrc : Z) (nIters : Z) : mem :=
  GDALUnrolledCopyGeneric TByte srcStride 1 dst pDest src pSrc nIters.

Definition GDALUnrolledCopy_GByte_2_1
    (dst : mem) (pDest : Z) (src : mem) (pSrc : Z) (nIters : Z) : mem :=
  let fuel := Z.to_nat nIters in
  let tail i d :=
    snd (for_step fuel i nIters 1
           (fun i d => store TByte d (pDest + i) (load TByte src (pSrc + 2 * i))) d) in
  if 16 <? nIters then
    if cfg_ssse3 cfg then GDALUnrolledCopy_GByte_SSSE3 2 dst pDest src pSrc nIters
    else
      let xmm_zero := _mm_setzero_si128 in
      let xmm_mask := _mm_set1_epi16 255 in
      let '(i, d1) :=
        for_step fuel 0 (nIters - 16) 16
          (fun i d =>
             let xmm0 := _mm_loadu_si128 src (pSrc + 2 * i) in
             let xmm1 := _mm_loadu_si128 src (pSrc + 2 * i + 16) in
             let xmm0 := _mm_and_si128 xmm0 xmm_mask in
             let xmm1 := _mm_and_si128 xmm1 xmm_mask in
             let xmm0 := _mm_packus_epi16 xmm0 xmm_zero in
             let xmm1 := _mm_packus_epi16 xmm1 xmm_zero in
             let xmm1 := _mm_slli_si128_8 xmm1 in
             let xmm0 := _mm_or_si128 xmm0 xmm1 in
             _mm_storeu_si128 d (pDest + i) xmm0) dst in
      tail i d1
  else tail 0 dst.

Definition GDALUnrolledCopy_GByte_4_1
    (dst : mem) (pDest : Z) (src : mem) (pSrc : Z) (nIters : Z) : mem :=
  let fuel := Z.to_nat nIters in
  let tail i d :=
    snd (for_step fuel i nIters 1
           (fun i d => store TByte d (pDest + i) (load TByte src (pSrc + 4 * i))) d) in
  if 16 <? nIters then
    if cfg_ssse3 cfg then GDALUnrolledCopy_GByte_SSSE3 4 dst pDest src pSrc nIters
    else
      let xmm_mask := _mm_set1_epi32 255 in
      let quarter (a : Z) :=
        let xmm := _mm_loadu_si128 src a in
        let xmm := _mm_and_si128 xmm xmm_mask in
        let xmm := _mm_packs_epi32 xmm xmm in
        _mm_packus_epi16 xmm xmm in
      let '(i, d1) :=
        for_step fuel 0 (nIters - 16) 16
          (fun i d =>
             let xmm0 := quarter (pSrc + 4 * i) in
             let xmm1 := quarter (pSrc + 4 * i + 16) in
             let xmm2 := quarter (pSrc + 4 * i + 32) in
             let xmm3 := quarter (pSrc + 4 * i + 48) in
             let d := GDALCopyXMMToInt32 xmm0 d (pDest + i + 0) in
             let d := GDALCopyXMMToInt32 xmm1 d (pDest + i + 4) in
             let d := GDALCopyXMMToInt32 xmm2 d (pDest + i + 8) in
             GDALCopyXMMToInt32 xmm3 d (pDest + i + 12)) dst in
      tail i d1
  else tail 0 dst.

(** [GDALUnrolledCopy<T,srcStride,dstStride>] with its [GByte]
    specialisations of the x86-64 build. *)
Definition GDALUnrolledCopy (t : CType) (srcStride dstStride : Z)
    (dst : mem) (pDest : Z) (src : mem) (pSrc : Z) (nIters : Z) : mem :=
  let generic := GDALUnrolledCopyGeneric t srcStride dstStride dst pDest src pSrc nIters in
  if cfg_x86_64 cfg && CType_eqb t TByte && (dstStride =? 1) then
    if srcStride =? 2 then GDALUnrolledCopy_GByte_2_1 dst pDest src pSrc nIters
    else if srcStride =? 3 then
      if cfg_ssse3 cfg && (16 <? nIters)
      then GDALUnrolledCopy_GByte_SSSE3 3 dst pDest src pSrc nIters
      else generic
    else if srcStride =? 4 then GDALUnrolledCopy_GByte_4_1 dst pDest src pSrc nIters
    else generic
  else generic.

(** [GDALFastCopy<T>]; the strides are in bytes. *)
Definition GDALFastCopy (t : CType)
    (dst : mem) (pDest nDestStride : Z) (src : mem) (pSrc nSrcStride : Z)
    (nIters : Z) : mem :=
  let sz := zsizeof t in
  let strided (se de : Z) :=
    for_loop (Z.to_nat nIters) 0
      (fun i d => store t d (pDest + i * de * sz) (load t src (pSrc + i * se * sz))) dst in
  if nIters =? 1 then store t dst pDest (load t src pSrc)
  else if nDestStride =? sz then
    if nSrcStride =? sz then memcpy dst pDest src pSrc (nIters * sz)
    else if nSrcStride =? 2 * sz then GDALUnrolledCopy t 2 1 dst pDest src pSrc nIters
    else if nSrcStride =? 3 * sz then GDALUnrolledCopy t 3 1 dst pDest src pSrc nIters
    else if nSrcStride =? 4 * sz then GDALUnrolledCopy t 4 1 dst pDest src pSrc nIters
    else strided (Z.quot nSrcStride sz) 1
  else if nSrcStride =? sz then
    if nDestStride =? 2 * sz then GDALUnrolledCopy t 1 2 dst pDest src pSrc nIters
    else if nDestStride =? 3 * sz then GDALUnrolledCopy t 1 3 dst pDest src pSrc nIters
    else if nDestStride =? 4 * sz then GDALUnrolledCopy t 1 4 dst pDest src pSrc nIters
    else strided 1 (Z.quot nDestStride sz)
  else strided (Z.quot nSrcStride sz) (Z.quot nDestStride sz).


(* ------------------------------------------------------------------ *)
(** ** [GDALCopyWords] *)

Definition zero_mem : mem := fun _ => x00.

(** The [switch (eSrcType)] closing [GDALCopyWords]. *)
Definition GDALCopyWords_switch
    (src : mem) (pSrcData : Z) (eSrcType : GDALDataType) (nSrcPixelStride : Z)
    (dst : mem) (pDstData : Z) (eDstType : GDALDataType) (nDstPixelStride : Z)
    (nWordCount : Z) : mem :=
  let from t bInComplex :=
    GDALCopyWordsFromT t src pSrcData nSrcPixelStride bInComplex
                       dst pDstData eDstType nDstPixelStride nWordCount in
  match eSrcType with
  | GDT_Byte => from TByte false
  | GDT_UInt16 => from TUInt16 false
  | GDT_Int16 => from TInt16 false
  | GDT_UInt32 => from TUInt32 false
  | GDT_Int32 => from TInt32 false
  | GDT_Float32 => from TFloat false
  | GDT_Float64 => from TDouble false
  | GDT_CInt16 => from TInt16 true
  | GDT_CInt32 => from TInt32 true
  | GDT_CFloat32 => from TFloat true
  | GDT_CFloat64 => from TDouble true
  | GDT_Unknown => dst          (* CPLAssert(false) *)
  end.

(** [GDALCopyWords] from the test [eSrcType == eDstType] on. *)
Definition GDALCopyWords_main
    (src : mem) (pSrcData : Z) (eSrcType : GDALDataType) (nSrcPixelStride : Z)
    (dst : mem) (pDstData : Z) (eDstType : GDALDataType) (nDstPixelStride : Z)
    (nWordCount : Z) : mem :=
  let nSrcDataTypeSize := GDALGetDataTypeSizeBytes eSrcType in
  let general :=
    GDALCopyWords_switch src pSrcData eSrcType nSrcPixelStride
                         dst pDstData eDstType nDstPixelStride nWordCount in
  if GDALDataType_eqb eSrcType eDstType then
    if GDALDataType_eqb eSrcType GDT_Byte then
      GDALFastCopy TByte dst pDstData nDstPixelStride src pSrcData nSrcPixelStride nWordCount
    else if (nSrcDataTypeSize =? 2) && (Z.rem nSrcPixelStride 2 =? 0)
            && (Z.rem nDstPixelStride 2 =? 0) then
      GDALFastCopy TInt16 dst pDstData nDstPixelStride src pSrcData nSrcPixelStride nWordCount
    else if nWordCount =? 1 then
      if nSrcDataTypeSize =? 2 then memcpy dst pDstData src pSrcData 2
      else if nSrcDataTypeSize =? 4 then memcpy dst pDstData src pSrcData 4
      else if nSrcDataTypeSize =? 8 then memcpy dst pDstData src pSrcData 8
      else memcpy dst pDstData src pSrcData 16
    else if (nSrcPixelStride =? nDstPixelStride) && (nSrcPixelStride =? nSrcDataTypeSize) then
      memcpy dst pDstData src pSrcData (nWordCount * nSrcDataTypeSize)
    else general
  else general.

(** The body of [GDALCopyWords].  The function calls itself for single
    words (from the aligned-access loop and from [GDALReplicateWord]);
    [self] stands for these calls. *)
Definition GDALCopyWords_body
    (self : mem -> Z -> GDALDataType -> Z ->
            mem -> Z -> GDALDataType -> Z -> Z -> option mem)
    (src : mem) (pSrcData : Z) (eSrcType : GDALDataType) (nSrcPixelStride : Z)
    (dst : mem) (pDstData : Z) (eDstType : GDALDataType) (nDstPixelStride : Z)
    (nWordCount : Z) : option mem :=
  let nSrcDataTypeSize := GDALGetDataTypeSizeBytes eSrcType in
  let nDstDataTypeSize := GDALGetDataTypeSizeBytes eDstType in
  let same := GDALDataType_eqb eSrcType eDstType in
  if cfg_aligned_access cfg
     && negb (same && (nSrcPixelStride =? nDstPixelStride))
     && (negb (Z.rem pSrcData nSrcDataTypeSize =? 0)
         || negb (Z.rem pDstData nDstDataTypeSize =? 0)
         || negb (Z.rem nSrcPixelStride nSrcDataTypeSize =? 0)
         || negb (Z.rem nDstPixelStride nDstDataTypeSize =? 0))
  then
    if same then
      Some (for_loop (Z.to_nat nWordCount) 0
              (fun i d => memcpy d (pDstData + nDstPixelStride * i)
                                 src (pSrcData + nSrcPixelStride * i)
                                 nDstDataTypeSize) dst)
    else
      (* abySrcBuffer and abyDstBuffer live across the iterations *)
      option_map fst
        (for_loop (Z.to_nat nWordCount) 0
           (fun i st =>
              match st with
              | None => None
              | Some (d, (abySrcBuffer, abyDstBuffer)) =>
                  let abySrcBuffer :=
                    memcpy abySrcBuffer 0 src (pSrcData + nSrcPixelStride * i)
                           nSrcDataTypeSize in
                  match self abySrcBuffer 0 eSrcType 0 abyDstBuffer 0 eDstType 0 1 with
                  | None => None
                  | Some abyDstBuffer =>
                      Some (memcpy d (pDstData + nDstPixelStride * i)
                                   abyDstBuffer 0 nDstDataTypeSize,
                            (abySrcBuffer, abyDstBuffer))
                  end
              end)
           (Some (dst, (zero_mem, zero_mem))))
  else if (nSrcPixelStride =? 0) && (1 <? nWordCount) then
    (* GDALReplicateWord *)
    match self src pSrcData eSrcType 0 dst pDstData eDstType 0 1 with
    | None => None
    | Some d1 =>
        Some (GDALReplicateWord_tail d1 pDstData eDstType nDstPixelStride nWordCount)
    end
  else
    Some (GDALCopyWords_main src pSrcData eSrcType nSrcPixelStride
                             dst pDstData eDstType nDstPixelStride nWordCount).

(** [fuel] bounds the depth of the calls of [GDALCopyWords] to itself. *)
Fixpoint GDALCopyWords_fuel (fuel : nat) :
    mem -> Z -> GDALDataType -> Z ->
    mem -> Z -> GDALDataType -> Z -> Z -> option mem :=
  match fuel with
  | O => fun _ _ _ _ _ _ _ _ _ => None
  | Datatypes.S fuel' => GDALCopyWords_body (GDALCopyWords_fuel fuel')
  end.

(** Three levels of calls are never exceeded (lemma
    [GDALCopyWords_fuel_enough] below); the default is never taken. *)
Definition GDALCopyWords
    (src : mem) (pSrcData : Z) (eSrcType : GDALDataType) (nSrcPixelStride : Z)
    (dst : mem) (pDstData : Z) (eDstType : GDALDataType) (nDstPixelStride : Z)
    (nWordCount : Z) : mem :=
  match GDALCopyWords_fuel 3 src pSrcData eSrcType nSrcPixelStride
                           dst pDstData eDstType nDstPixelStride nWordCount with
  | Some d => d
  | None => dst
  end.


(* ------------------------------------------------------------------ *)
(** ** Block-Aligned RasterIO: data model *)

Inductive CPLErr :=
| CE_None | CE_Debug | CE_Warning | CE_Failure | CE_Fatal | CE_Interrupted.

Inductive GDALRWFlag := GF_Read | GF_Write.

Inductive GDALRIOResampleAlg :=
| GRIORA_NearestNeighbour | GRIORA_Bilinear | GRIORA_Cubic | GRIORA_CubicSpline
| GRIORA_Lanczos | GRIORA_Average | GRIORA_Mode | GRIORA_Gauss.

Definition is_write (f : GDALRWFlag) : bool :=
  match f with GF_Write => true | GF_Read => false end.

Record GDALRasterIOExtraArg := {
  eResampleAlg : GDALRIOResampleAlg;
  pfnProgress : option (Q -> bool);     (* nullptr, or the callback *)
  bFloatingPointWindowValidity : bool;
  dfXOff : Q; dfYOff : Q; dfXSize : Q; dfYSize : Q
}.

(** What the call does to its collaborators, in order (newest first in
    the trace). *)
Inductive Event :=
| EvPoll (interrupted : bool)                 (* poDS->Interrupted() *)
| EvFetch (x y : Z) (bJustInitialize ok : bool)   (* GetLockedBlockRef *)
| EvDirty (x y : Z)                           (* poBlock->MarkDirty() *)
| EvDrop (x y : Z)                            (* poBlock->DropLock() *)
| EvProgress (done : Q) (go_on : bool).       (* pfnProgress *)

(** The mutable state a call works on: the band's deferred flush error,
    the caller's buffer, the data of the blocks of the band, and the trace
    of the collaborator calls. *)
Record IOState := {
  eFlushBlockErr : CPLErr;
  buf : mem;
  blocks : Z -> Z -> mem;
  trace : list Event
}.

Definition set_flush (e : CPLErr) (s : IOState) : IOState :=
  {| eFlushBlockErr := e; buf := buf s; blocks := blocks s; trace := trace s |}.
Definition set_buf (m : mem) (s : IOState) : IOState :=
  {| eFlushBlockErr := eFlushBlockErr s; buf := m; blocks := blocks s; trace := trace s |}.
Definition set_block (x y : Z) (m : mem) (s : IOState) : IOState :=
  {| eFlushBlockErr := eFlushBlockErr s; buf := buf s;
     blocks := fun x' y' => if (x' =? x) && (y' =? y) then m else blocks s x' y';
     trace := trace s |}.
Definition log (e : Event) (s : IOState) : IOState :=
  {| eFlushBlockErr := eFlushBlockErr s; buf := buf s; blocks := blocks s;
     trace := e :: trace s |}.

Record RasterIOArgs := {
  eRWFlag : GDALRWFlag;
  nXOff : Z; nYOff : Z; nXSize : Z; nYSize : Z;
  pData : Z;                      (* address of the buffer in [buf] *)
  nBufXSize : Z; nBufYSize : Z;
  eBufType : GDALDataType;
  nPixelSpace : Z; nLineSpace : Z;
  psExtraArg : GDALRasterIOExtraArg
}.

(** What is consulted of an overview band. *)
Record OverviewBand := {
  ovr_XSize : Z; ovr_YSize : Z;
  ovr_RESAMPLING : option String.string     (* GetMetadataItem("RESAMPLING") *)
}.

(** The band and the collaborators [IRasterIO] consults.  The oracles take
    the number of collaborator calls made so far, so that their answers may
    change during a call. *)
Record Band := {
  nBlockXSize : Z; nBlockYSize : Z;
  nRasterXSize : Z; nRasterYSize : Z;         (* GetXSize(), GetYSize() *)
  eDataType : GDALDataType;
  poDS : option (nat -> bool);                (* the dataset's Interrupted() *)
  block_ok : nat -> Z -> Z -> bool -> bool;   (* does GetLockedBlockRef succeed *)
  block_cached : nat -> Z -> Z -> bool;       (* is the block still in the cache *)
  block_init : nat -> Z -> Z -> mem;          (* data of a block created with
                                                 bJustInitialize: not loaded *)
  overviews : list (option OverviewBand);     (* GetOverview(i), or nullptr *)
  has_color_table : bool;                     (* GetColorTable() != nullptr *)
  GDAL_NO_COSTLY_OVERVIEW : bool;             (* the configuration option *)
  (* calls that leave this function *)
  overview_RasterIO : Z -> RasterIOArgs -> IOState -> CPLErr * IOState;
  RasterIOResampled : RasterIOArgs -> IOState -> CPLErr * IOState
}.

Definition Interrupted (b : Band) (s : IOState) : bool * IOState :=
  match poDS b with
  | None => (false, s)
  | Some f => let r := f (List.length (trace s)) in (r, log (EvPoll r) s)
  end.

(** [GetLockedBlockRef(x, y, bJustInitialize)]: on success the block is
    locked.  A block found in the cache, or loaded from storage, holds the
    current data of the band; a block created with [bJustInitialize] holds
    data that was not loaded.  [GetDataRef()] of a locked block is never
    null, so the branches of the source that test it are left out. *)
Definition GetLockedBlockRef (b : Band) (x y : Z) (bJustInitialize : bool)
    (s : IOState) : bool * IOState :=
  let t := List.length (trace s) in
  let ok := block_ok b t x y bJustInitialize in
  let s1 := log (EvFetch x y bJustInitialize ok) s in
  if ok then
    (true, if bJustInitialize && negb (block_cached b t x y)
           then set_block x y (block_init b t x y) s1 else s1)
  else (false, s1).

Definition DropLock (poBlock : option (Z * Z)) (s : IOState) : IOState :=
  match poBlock with
  | Some (x, y) => log (EvDrop x y) s
  | None => s
  end.

Definition MarkDirty (x y : Z) (s : IOState) : IOState := log (EvDirty x y) s.

(** [pfnProgress != nullptr && !pfnProgress(done, ...)]. *)
Definition progress_stops (a : RasterIOArgs) (done : Q) (s : IOState) : bool * IOState :=
  match pfnProgress (psExtraArg a) with
  | None => (false, s)
  | Some f => let r := f done in (negb r, log (EvProgress done r) s)
  end.

(** Control flow of a loop body. *)
Inductive Ctl (S : Type) :=
| Next (s : S)                          (* go on with the next iteration *)
| Break (s : S)                         (* [break] *)
| Return (e : CPLErr) (io : IOState)    (* [return e] *)
| Fuel.                                 (* the bound of the model was hit *)
Arguments Return {S} e io.
Arguments Fuel {S}.

Fixpoint for_ctl (S : Type) (n : nat) (i : Z) (body : Z -> S -> Ctl S) (s : S) : Ctl S :=
  match n with
  | O => Next s
  | Datatypes.S n' =>
      match body i s with
      | Next s' => for_ctl n' (i + 1) body s'
      | c => c
      end
  end.

Fixpoint while_ctl (S : Type) (fuel : nat) (cond : S -> bool) (body : S -> Ctl S)
         (s : S) : Ctl S :=
  if cond s then
    match fuel with
    | O => Fuel
    | Datatypes.S f =>
        match body s with
        | Next s' => while_ctl f cond body s'
        | c => c
        end
    end
  else Next s.

Definition INT_MAX : Z := 2147483647.

(** [(int) x] for a double [x]: truncation toward zero. *)
Definition trunc (q : Q) : Z := Z.quot (Qnum q) (Zpos (Qden q)).


Definition Qltb (x y : Q) : bool := negb (Qle_bool y x).

(* ------------------------------------------------------------------ *)
(** ** Best-overview selection *)

Definition toupper (c : Ascii.ascii) : Ascii.ascii :=
  let n := Ascii.N_of_ascii c in
  if (N.leb 97 n && N.leb n 122)%bool then Ascii.ascii_of_N (n - 32) else c.

(** Modelled from the spec: [STARTS_WITH_CI] (cpl_port.h), the
    case-insensitive test that [p] is a prefix of [s]. *)
Fixpoint STARTS_WITH_CI (s p : String.string) : bool :=
  match p with
  | String.EmptyString => true
  | String.String c p' =>
      match s with
      | String.EmptyString => false
      | String.String d s' => Ascii.eqb (toupper c) (toupper d) && STARTS_WITH_CI s' p'
      end
  end.

(** The decimation of an overview relative to the band:
    [dfResolution] of the loop. *)
Definition overview_resolution (b : Band) (o : OverviewBand) : Q :=
  let rx := (inject_Z (nRasterXSize b) / inject_Z (ovr_XSize o))%Q in
  let ry := (inject_Z (nRasterYSize b) / inject_Z (ovr_YSize o))%Q in
  if Qltb rx ry then rx else ry.

Definition desired_resolution (nXSize nYSize nBufXSize nBufYSize : Z) : Q :=
  let rx := (inject_Z nXSize / inject_Z nBufXSize)%Q in
  let ry := (inject_Z nYSize / inject_Z nBufYSize)%Q in
  if Qltb rx ry || (nBufYSize =? 1) then rx else ry.

(** The string literal AVERAGE_BIT2, by its character codes. *)
Definition AVERAGE_BIT2 : String.string :=
  String.string_of_list_byte
    [x41; x56; x45; x52; x41; x47; x45; x5f; x42; x49; x54; x32].

(** One iteration of the scan: the state is [(poBestOverview,
    dfBestResolution, nBestOverviewLevel)]. *)
Definition overview_step (b : Band) (dfDesiredResolution : Q) (iOverview : Z)
    (poOverview : option OverviewBand)
    (st : option OverviewBand * Q * Z) : option OverviewBand * Q * Z :=
  let '(poBestOverview, dfBestResolution, nBestOverviewLevel) := st in
  match poOverview with
  | None => st
  | Some o =>
      let dfResolution := overview_resolution b o in
      if Qle_bool (dfDesiredResolution * (12 # 10))%Q dfResolution
         || Qle_bool dfResolution dfBestResolution
      then st
      else
        match ovr_RESAMPLING o with
        | Some pszResampling =>
            if STARTS_WITH_CI pszResampling AVERAGE_BIT2 then st
            else (Some o, dfResolution, iOverview)
        | None => (Some o, dfResolution, iOverview)
        end
  end.

Fixpoint overview_scan (b : Band) (dfDesiredResolution : Q) (iOverview : Z)
    (ovs : list (option OverviewBand))
    (st : option OverviewBand * Q * Z) : option OverviewBand * Q * Z :=
  match ovs with
  | [] => st
  | o :: r =>
      overview_scan b dfDesiredResolution (iOverview + 1) r
                    (overview_step b dfDesiredResolution iOverview o st)
  end.

(** The window [nXOff, nYOff, nXSize, nYSize] is passed by reference. *)
Record Window := { wXOff : Z; wYOff : Z; wXSize : Z; wYSize : Z }.

Definition GDALBandGetBestOverviewLevel2 (b : Band) (w : Window)
    (nBufXSize nBufYSize : Z) (psExtraArg : option GDALRasterIOExtraArg)
  : Z * Window * option GDALRasterIOExtraArg :=
  let dfDesiredResolution :=
    desired_resolution (wXSize w) (wYSize w) nBufXSize nBufYSize in
  let '(poBestOverview, _, nBestOverviewLevel) :=
    overview_scan b dfDesiredResolution 0 (overviews b) (None, 0%Q, -1) in
  match poBestOverview with
  | None => (-1, w, psExtraArg)
  | Some o =>
    if nBestOverviewLevel <? 0 then (-1, w, psExtraArg) else
    let dfXRes := (inject_Z (nRasterXSize b) / inject_Z (ovr_XSize o))%Q in
    let dfYRes := (inject_Z (nRasterYSize b) / inject_Z (ovr_YSize o))%Q in
    let nOXOff := Z.min (ovr_XSize o - 1) (trunc (inject_Z (wXOff w) / dfXRes + (1 # 2))%Q) in
    let nOYOff := Z.min (ovr_YSize o - 1) (trunc (inject_Z (wYOff w) / dfYRes + (1 # 2))%Q) in
    let nOXSize := Z.max 1 (trunc (inject_Z (wXSize w) / dfXRes + (1 # 2))%Q) in
    let nOYSize := Z.max 1 (trunc (inject_Z (wYSize w) / dfYRes + (1 # 2))%Q) in
    let nOXSize := if ovr_XSize o <? nOXOff + nOXSize then ovr_XSize o - nOXOff else nOXSize in
    let nOYSize := if ovr_YSize o <? nOYOff + nOYSize then ovr_YSize o - nOYOff else nOYSize in
    let extra :=
      match psExtraArg with
      | Some e =>
          if bFloatingPointWindowValidity e then
            Some {| eResampleAlg := eResampleAlg e; pfnProgress := pfnProgress e;
                    bFloatingPointWindowValidity := true;
                    dfXOff := (dfXOff e / dfXRes)%Q; dfYOff := (dfYOff e / dfYRes)%Q;
                    dfXSize := (dfXSize e / dfXRes)%Q; dfYSize := (dfYSize e / dfYRes)%Q |}
          else Some e
      | None => None
      end in
    (nBestOverviewLevel,
     {| wXOff := nOXOff; wYOff := nOYOff; wXSize := nOXSize; wYSize := nOYSize |},
     extra)
  end.


(* ------------------------------------------------------------------ *)
(** ** [GDALRasterBand::IRasterIO] *)

Section RasterIO.

Variable b : Band.
Variable a : RasterIOArgs.

Let bw := nBlockXSize b.
Let bh := nBlockYSize b.
Let nBandDataSize := GDALGetDataTypeSizeBytes (eDataType b).
Let nBufDataSize := GDALGetDataTypeSizeBytes (eBufType a).
Let writing := is_write (eRWFlag a).
Let same_type := GDALDataType_eqb (eDataType b) (eBufType a).

Definition bUseIntegerRequestCoords : bool :=
  let e := psExtraArg a in
  negb (bFloatingPointWindowValidity e)
  || (Qeq_bool (inject_Z (nXOff a)) (dfXOff e) && Qeq_bool (inject_Z (nYOff a)) (dfYOff e)
      && Qeq_bool (inject_Z (nXSize a)) (dfXSize e)
      && Qeq_bool (inject_Z (nYSize a)) (dfYSize e)).

(** Move [n] words between the locked block [(x, y)], at byte offset
    [off], and the buffer, at byte offset [boff] from [pData]: the
    [GDALCopyWords] calls of the 1:1 cases. *)
Definition copy_words_rw (x y off boff n : Z) (s : IOState) : IOState :=
  if writing then
    set_block x y
      (GDALCopyWords (buf s) (pData a + boff) (eBufType a) (nPixelSpace a)
                     (blocks s x y) off (eDataType b) nBandDataSize n) s
  else
    set_buf
      (GDALCopyWords (blocks s x y) off (eDataType b) nBandDataSize
                     (buf s) (pData a + boff) (eBufType a) (nPixelSpace a) n) s.

(** The [memcpy] of [len] bytes in the direction of the request. *)
Definition memcpy_rw (x y off boff len : Z) (s : IOState) : IOState :=
  if writing then set_block x y (memcpy (blocks s x y) off (buf s) (pData a + boff) len) s
  else set_buf (memcpy (buf s) (pData a + boff) (blocks s x y) off len) s.

Definition zero_block (x y : Z) (s : IOState) : IOState :=
  set_block x y (memset (blocks s x y) 0 x00 (nBandDataSize * bw * bh)) s.

(** *** The packed full-width case.
    Loop state: [(eErr, poBlock, nLBlockY, io)]. *)

(** The body of the loop once the block of line [iSrcY] is locked: one
    scanline is moved and the progress is reported. *)
Definition packed_copy_row (iBufYOff : Z) (eErr : CPLErr)
    (poBlock : option (Z * Z)) (nLBlockY : Z) (s : IOState)
  : Ctl (CPLErr * option (Z * Z) * Z * IOState) :=
  let iSrcY := iBufYOff + nYOff a in
  let nSrcByteOffset := ((iSrcY - nLBlockY * bh) * bw + nXOff a) * nBandDataSize in
  let s :=
    if same_type
    then memcpy_rw 0 nLBlockY nSrcByteOffset (iBufYOff * nLineSpace a) (nLineSpace a) s
    else copy_words_rw 0 nLBlockY nSrcByteOffset (iBufYOff * nLineSpace a) (nBufXSize a) s in
  let '(stop, s) :=
    progress_stops a (inject_Z (iBufYOff + 1) / inject_Z (nBufYSize a))%Q s in
  if stop then Break (CE_Failure, poBlock, nLBlockY, s)
  else Next (eErr, poBlock, nLBlockY, s).

Definition packed_body (iBufYOff : Z)
    (st : CPLErr * option (Z * Z) * Z * IOState)
  : Ctl (CPLErr * option (Z * Z) * Z * IOState) :=
  let '(eErr, poBlock, nLBlockY, s) := st in
  let iSrcY := iBufYOff + nYOff a in
  if (iSrcY <? nLBlockY * bh) || (nLBlockY * bh <=? iSrcY - bh) then
    let nLBlockY := Z.quot iSrcY bh in
    let bJustInitialize :=
      writing && (nXOff a =? 0) && (nXSize a =? bw)
      && (nYOff a <=? nLBlockY * bh)
      && (nLBlockY * bh <=? nYOff a + nYSize a - bh) in
    let bMemZeroBuffer :=
      writing && negb bJustInitialize
      && (nXOff a =? 0) && (nXSize a =? bw)
      && (nYOff a <=? nLBlockY * bh)
      && (nYOff a + nYSize a =? nRasterYSize b)
      && (nRasterYSize b - bh <? nLBlockY * bh) in
    let bJustInitialize := bJustInitialize || bMemZeroBuffer in
    let s := DropLock poBlock s in
    let '(intr, s) := Interrupted b s in
    if intr then Return CE_Interrupted s
    else
      let '(ok, s) := GetLockedBlockRef b 0 nLBlockY bJustInitialize s in
      if negb ok then Break (CE_Failure, None, nLBlockY, s)
      else
        let s := if writing then MarkDirty 0 nLBlockY s else s in
        let s := if bMemZeroBuffer then zero_block 0 nLBlockY s else s in
        packed_copy_row iBufYOff eErr (Some (0, nLBlockY)) nLBlockY s
  else packed_copy_row iBufYOff eErr poBlock nLBlockY s.

Definition IRasterIO_packed (s : IOState) : option (CPLErr * IOState) :=
  match for_ctl (Z.to_nat (nBufYSize a)) 0 packed_body (CE_None, None, -1, s) with
  | Next (eErr, poBlock, _, s) | Break (eErr, poBlock, _, s) =>
      Some (eErr, DropLock poBlock s)
  | Return e s => Some (e, s)
  | Fuel => None
  end.

(** *** The 1:1 arbitrary-window case.
    State of the inner [while]: [(iSrcX, nLBlockX, iBufOffset, io)]. *)
Definition window_inner_body (iBufYOff iSrcY nLBlockY nXSpanEnd : Z)
    (st : Z * Z * Z * IOState) : Ctl (Z * Z * Z * IOState) :=
  let '(iSrcX, nLBlockX, iBufOffset, s) := st in
  let nXSpan := nLBlockX * bw in
  let nXSpan := if nXSpan <? INT_MAX - bw then nXSpan + bw else INT_MAX in
  let nXRight := nXSpan in
  let nXSpan := (if nXSpan <? nXSpanEnd then nXSpan else nXSpanEnd) - iSrcX in
  let nXSpanSize := nXSpan * nPixelSpace a in
  let bJustInitialize :=
    writing
    && (nYOff a <=? nLBlockY * bh)
    && (nLBlockY * bh <=? nYOff a + nYSize a - bh)
    && (nXOff a <=? nLBlockX * bw)
    && (nXRight <=? nXOff a + nXSize a) in
  let bMemZeroBuffer :=
    writing && negb bJustInitialize
    && (nXOff a <=? nLBlockX * bw)
    && (nYOff a <=? nLBlockY * bh)
    && ((nXRight <=? nXOff a + nXSize a)
        || ((nXOff a + nXSize a =? nRasterXSize b) && (nRasterXSize b <? nXRight)))
    && ((nLBlockY * bh <=? nYOff a + nYSize a - bh)
        || ((nYOff a + nYSize a =? nRasterYSize b)
            && (nRasterYSize b - bh <? nLBlockY * bh))) in
  let bJustInitialize := bJustInitialize || bMemZeroBuffer in
  let '(intr, s) := Interrupted b s in
  if intr then Return CE_Interrupted s
  else
    let '(ok, s) := GetLockedBlockRef b nLBlockX nLBlockY bJustInitialize s in
    if negb ok then Return CE_Failure s
    else
      let s := if writing then MarkDirty nLBlockX nLBlockY s else s in
      let s := if bMemZeroBuffer then zero_block nLBlockX nLBlockY s else s in
      let iSrcOffset :=
        (iSrcX - nLBlockX * bw + (iSrcY - nLBlockY * bh) * bw) * nBandDataSize in
      let kmax := Z.min (bh - Z.rem iSrcY bh) (nBufYSize a - iBufYOff) in
      let s :=
        for_loop (Z.to_nat kmax) 0
          (fun k s =>
             let off := iSrcOffset + k * (bw * nBandDataSize) in
             let boff := iBufOffset + k * nLineSpace a in
             if same_type && (nPixelSpace a =? nBufDataSize)
             then memcpy_rw nLBlockX nLBlockY off boff nXSpanSize s
             else copy_words_rw nLBlockX nLBlockY off boff nXSpan s) s in
      let s := DropLock (Some (nLBlockX, nLBlockY)) s in
      Next (iSrcX + nXSpan, nLBlockX + 1, iBufOffset + nXSpanSize, s).

(** State of the outer loop: [(iBufYOff, iSrcY, io)]. *)
Definition window_outer_body (st : Z * Z * IOState) : Ctl (Z * Z * IOState) :=
  let '(iBufYOff, iSrcY, s) := st in
  let nLBlockXStart := Z.quot (nXOff a) bw in
  let nXSpanEnd := nBufXSize a + nXOff a in
  let iBufOffset := iBufYOff * nLineSpace a in
  let nLBlockY := Z.quot iSrcY bh in
  match while_ctl (Z.to_nat (nBufXSize a))
          (fun st => let '(iSrcX, _, _, _) := st in iSrcX <? nXSpanEnd)
          (window_inner_body iBufYOff iSrcY nLBlockY nXSpanEnd)
          (nXOff a, nLBlockXStart, iBufOffset, s) with
  | Next (_, _, _, s) | Break (_, _, _, s) =>
      let nYInc := bh - Z.rem iSrcY bh in
      let '(stop, s) :=
        progress_stops a
          (inject_Z (Z.min (nBufYSize a) (iBufYOff + nYInc)) / inject_Z (nBufYSize a))%Q s in
      if stop then Return CE_Failure s
      else Next (iBufYOff + nYInc, iSrcY + nYInc, s)
  | Return e s => Return e s
  | Fuel => Fuel
  end.

Definition IRasterIO_window (s : IOState) : option (CPLErr * IOState) :=
  match while_ctl (Z.to_nat (nBufYSize a))
          (fun st => let '(iBufYOff, _, _) := st in iBufYOff <? nBufYSize a)
          window_outer_body (0, nYOff a, s) with
  | Next (_, _, s) | Break (_, _, s) => Some (CE_None, s)
  | Return e s => Some (e, s)
  | Fuel => None
  end.

(** *** The general case: stepping increments. *)
Definition dfSrcXInc : Q :=
  let dfXSize := if bFloatingPointWindowValidity (psExtraArg a)
                 then dfXSize (psExtraArg a) else inject_Z (nXSize a) in
  (dfXSize / inject_Z (nBufXSize a))%Q.

Definition dfSrcYInc : Q :=
  let dfYSize := if bFloatingPointWindowValidity (psExtraArg a)
                 then dfYSize (psExtraArg a) else inject_Z (nYSize a) in
  (dfYSize / inject_Z (nBufYSize a))%Q.

(** *** The general write case.
    Loop state: [(eErr, poBlock, nLBlockX, nLBlockY, io)]. *)
Definition gwrite_pixel (iDstY iBufYOff iDstX : Z)
    (st : CPLErr * option (Z * Z) * Z * Z * IOState)
  : Ctl (CPLErr * option (Z * Z) * Z * Z * IOState) :=
  let '(eErr, poBlock, nLBlockX, nLBlockY, s) := st in
  let iBufXOff := trunc (inject_Z (iDstX - nXOff a) / dfSrcXInc)%Q in
  let iBufOffset := iBufYOff * nLineSpace a + iBufXOff * nPixelSpace a in
  let copy (nLBlockX nLBlockY : Z) (s : IOState) : IOState :=
    let iDstOffset :=
      (iDstX - nLBlockX * bw + (iDstY - nLBlockY * bh) * bw) * nBandDataSize in
    if same_type then
      set_block nLBlockX nLBlockY
        (memcpy (blocks s nLBlockX nLBlockY) iDstOffset
                (buf s) (pData a + iBufOffset) nBandDataSize) s
    else
      set_block nLBlockX nLBlockY
        (GDALCopyWords (buf s) (pData a + iBufOffset) (eBufType a) 0
                       (blocks s nLBlockX nLBlockY) iDstOffset (eDataType b) 0 1) s in
  if (iDstX <? nLBlockX * bw) || (nLBlockX * bw <=? iDstX - bw)
     || (iDstY <? nLBlockY * bh) || (nLBlockY * bh <=? iDstY - bh) then
    let nLBlockX := Z.quot iDstX bw in
    let nLBlockY := Z.quot iDstY bh in
    let bJustInitialize :=
      (nYOff a <=? nLBlockY * bh)
      && (nLBlockY * bh <=? nYOff a + nYSize a - bh)
      && (nXOff a <=? nLBlockX * bw)
      && (nLBlockX * bw <=? nXOff a + nXSize a - bw) in
    let s := DropLock poBlock s in
    let '(ok, s) := GetLockedBlockRef b nLBlockX nLBlockY bJustInitialize s in
    if negb ok then Return CE_Failure s
    else
      let s := MarkDirty nLBlockX nLBlockY s in
      Next (eErr, Some (nLBlockX, nLBlockY), nLBlockX, nLBlockY, copy nLBlockX nLBlockY s)
  else Next (eErr, poBlock, nLBlockX, nLBlockY, copy nLBlockX nLBlockY s).

Definition gwrite_row (iDstY : Z)
    (st : CPLErr * option (Z * Z) * Z * Z * IOState)
  : Ctl (CPLErr * option (Z * Z) * Z * Z * IOState) :=
  let iBufYOff := trunc (inject_Z (iDstY - nYOff a) / dfSrcYInc)%Q in
  match for_ctl (Z.to_nat (nXSize a)) (nXOff a) (gwrite_pixel iDstY iBufYOff) st with
  | Next (eErr, poBlock, nLBlockX, nLBlockY, s)
  | Break (eErr, poBlock, nLBlockX, nLBlockY, s) =>
      let '(stop, s) :=
        progress_stops a (inject_Z (iDstY - nYOff a + 1) / inject_Z (nYSize a))%Q s in
      if stop then Break (CE_Failure, poBlock, nLBlockX, nLBlockY, s)
      else Next (eErr, poBlock, nLBlockX, nLBlockY, s)
  | c => c
  end.

Definition IRasterIO_general_write (s : IOState) : option (CPLErr * IOState) :=
  match for_ctl (Z.to_nat (nYSize a)) (nYOff a) gwrite_row (CE_None, None, -1, -1, s) with
  | Next (eErr, poBlock, _, _, s) | Break (eErr, poBlock, _, _, s) =>
      Some (eErr, DropLock poBlock s)
  | Return e s => Some (e, s)
  | Fuel => None
  end.

(** *** The general read case (nearest neighbour).
    Loop state: [(eErr, poBlock, io)]. *)
Definition EPS : Q := 1 # 10000000000.

(** The source coordinate of destination index [i], kept inside the
    block [blk] of size [bsz]. *)
Definition src_coord (i : Z) (inc : Q) (off blk bsz : Z) : Z :=
  let iSrc := trunc ((inject_Z i + (1 # 2)) * inc + inject_Z off + EPS)%Q in
  if iSrc <? blk * bsz then blk * bsz
  else if (blk + 1) * bsz <=? iSrc then (blk + 1) * bsz - 1
  else iSrc.

(** The destination indices served by block [blk]: [[lo, lim)]. *)
Definition buf_lo (blk bsz off : Z) (inc : Q) : Z :=
  let i := trunc (inject_Z (blk * bsz - off) / inc)%Q in
  if i <? 0 then 0 else i.

Definition buf_lim (blk bsz off : Z) (inc : Q) (nBufSize : Z) : Z :=
  let i := Qceiling (inject_Z ((blk + 1) * bsz - off) / inc)%Q in
  if nBufSize <? i then nBufSize else i.

Definition gread_pixel (nLBlockX nLBlockY iBufYOff iSrcY iBufXOff0 : Z)
    (iBufXOff : Z) (s : IOState) : IOState :=
  let iBufOffset :=
    iBufYOff * nLineSpace a + iBufXOff0 * nPixelSpace a
    + (iBufXOff - iBufXOff0) * nPixelSpace a in
  let iSrcOffsetCst := (iSrcY - nLBlockY * bh) * bw in
  let iSrcX := src_coord iBufXOff dfSrcXInc (nXOff a) nLBlockX bw in
  let nDiffX := iSrcX - nLBlockX * bw in
  let blk := blocks s nLBlockX nLBlockY in
  let bByteCopy := same_type && (nBandDataSize =? 1) in
  if bByteCopy then
    set_buf (fun x => if x =? pData a + iBufOffset then blk (nDiffX + iSrcOffsetCst)
                      else buf s x) s
  else if same_type then
    set_buf (memcpy (buf s) (pData a + iBufOffset)
                    blk ((nDiffX + iSrcOffsetCst) * nBandDataSize) nBandDataSize) s
  else
    set_buf (GDALCopyWords blk ((nDiffX + iSrcOffsetCst) * nBandDataSize) (eDataType b) 0
                           (buf s) (pData a + iBufOffset) (eBufType a) 0 1) s.

Definition gread_row (nLBlockX nLBlockY : Z) (iBufYOff : Z)
    (st : CPLErr * option (Z * Z) * IOState)
  : Ctl (CPLErr * option (Z * Z) * IOState) :=
  let '(eErr, poBlock, s) := st in
  let iSrcY := src_coord iBufYOff dfSrcYInc (nYOff a) nLBlockY bh in
  let iBufXOff := buf_lo nLBlockX bw (nXOff a) dfSrcXInc in
  let iBufXLim := buf_lim nLBlockX bw (nXOff a) dfSrcXInc (nBufXSize a) in
  let s := for_loop (Z.to_nat (iBufXLim - iBufXOff)) iBufXOff
             (gread_pixel nLBlockX nLBlockY iBufYOff iSrcY iBufXOff) s in
  match eErr with
  | CE_Failure => Break (eErr, poBlock, s)
  | _ =>
      let '(stop, s) :=
        progress_stops a (inject_Z (iBufYOff + 1) / inject_Z (nBufYSize a))%Q s in
      if stop then Break (CE_Failure, poBlock, s) else Next (eErr, poBlock, s)
  end.

Definition gread_block (nLBlockY nLBlockX : Z)
    (st : CPLErr * option (Z * Z) * IOState)
  : Ctl (CPLErr * option (Z * Z) * IOState) :=
  let '(eErr, poBlock, s) := st in
  let s := DropLock poBlock s in
  let '(intr, s) := Interrupted b s in
  if intr then Return CE_Interrupted s
  else
    let '(ok, s) := GetLockedBlockRef b nLBlockX nLBlockY false s in
    if negb ok then Break (CE_Failure, None, s)
    else
      let iBufYOff := buf_lo nLBlockY bh (nYOff a) dfSrcYInc in
      let iBufYLim := buf_lim nLBlockY bh (nYOff a) dfSrcYInc (nBufYSize a) in
      match for_ctl (Z.to_nat (iBufYLim - iBufYOff)) iBufYOff
              (gread_row nLBlockX nLBlockY)
              (eErr, Some (nLBlockX, nLBlockY), s) with
      | Break st' => Next st'       (* leaves the loop over the buffer rows *)
      | c => c
      end.

Definition gread_block_row (nStartBlockX nEndBlockX : Z) (nLBlockY : Z)
    (st : CPLErr * option (Z * Z) * IOState)
  : Ctl (CPLErr * option (Z * Z) * IOState) :=
  match for_ctl (Z.to_nat (nEndBlockX - nStartBlockX + 1)) nStartBlockX
          (gread_block nLBlockY) st with
  | Break st' => Next st'           (* leaves the loop over the block columns *)
  | c => c
  end.

Definition IRasterIO_general_read (s : IOState) : option (CPLErr * IOState) :=
  let nStartBlockX := Z.quot (nXOff a) bw in
  let nStartBlockY := Z.quot (nYOff a) bh in
  let nEndBlockX := Z.quot (nXOff a + nXSize a - 1) bw in
  let nEndBlockY := Z.quot (nYOff a + nYSize a - 1) bh in
  match for_ctl (Z.to_nat (nEndBlockY - nStartBlockY + 1)) nStartBlockY
          (gread_block_row nStartBlockX nEndBlockX) (CE_None, None, s) with
  | Next (eErr, poBlock, s) | Break (eErr, poBlock, s) =>
      Some (eErr, DropLock poBlock s)
  | Return e s => Some (e, s)
  | Fuel => None
  end.


Definition CPLErr_eqb (x y : CPLErr) : bool :=
  match x, y with
  | CE_None, CE_None | CE_Debug, CE_Debug | CE_Warning, CE_Warning
  | CE_Failure, CE_Failure | CE_Fatal, CE_Fatal | CE_Interrupted, CE_Interrupted => true
  | _, _ => false
  end.

Definition is_packed_case : bool :=
  (nPixelSpace a =? nBufDataSize)
  && (nLineSpace a =? nPixelSpace a * nXSize a)
  && (bw =? nRasterXSize b)
  && (nBufXSize a =? nXSize a)
  && (nBufYSize a =? nYSize a)
  && bUseIntegerRequestCoords.

Definition is_window_case : bool :=
  (nXSize a =? nBufXSize a) && (nYSize a =? nBufYSize a) && bUseIntegerRequestCoords.

(** The request reissued on the overview band [poOverviewBand->RasterIO]. *)
Definition overview_args (w : Window) (e : GDALRasterIOExtraArg) : RasterIOArgs :=
  {| eRWFlag := eRWFlag a;
     nXOff := wXOff w; nYOff := wYOff w; nXSize := wXSize w; nYSize := wYSize w;
     pData := pData a; nBufXSize := nBufXSize a; nBufYSize := nBufYSize a;
     eBufType := eBufType a; nPixelSpace := nPixelSpace a; nLineSpace := nLineSpace a;
     psExtraArg := e |}.

(** [IRasterIO] from the general case on. *)
Definition IRasterIO_general (s : IOState) : option (CPLErr * IOState) :=
  if writing then IRasterIO_general_write s
  else
    let alg := eResampleAlg (psExtraArg a) in
    let nearest :=
      match alg with
      | GRIORA_NearestNeighbour => true
      | GRIORA_Cubic | GRIORA_CubicSpline | GRIORA_Bilinear | GRIORA_Lanczos =>
          has_color_table b       (* warning, falls back to nearest neighbour *)
      | GRIORA_Gauss => GDALDataTypeIsComplex (eDataType b)
      | _ => false
      end in
    if nearest then IRasterIO_general_read s
    else Some (RasterIOResampled b a s).

Definition IRasterIO (s : IOState) : option (CPLErr * IOState) :=
  if writing && negb (CPLErr_eqb (eFlushBlockErr s) CE_None) then
    let eErr := eFlushBlockErr s in
    Some (eErr, set_flush CE_None s)
  else if (bw <=? 0) || (bh <=? 0) then Some (CE_Failure, s)
  else if is_packed_case then IRasterIO_packed s
  else
    let after_overviews :=
      if negb writing
         && (nBufXSize a <? Z.quot (nXSize a) 100) && (nBufYSize a <? Z.quot (nYSize a) 100)
         && (nPixelSpace a =? nBufDataSize)
         && (nLineSpace a =? nPixelSpace a * nBufXSize a)
         && GDAL_NO_COSTLY_OVERVIEW b
      then Some (CE_None,
                 set_buf (memset (buf s) (pData a) x00 (nLineSpace a * nBufYSize a)) s)
      else if is_window_case then IRasterIO_window s
      else IRasterIO_general s in
    if ((nBufXSize a <? nXSize a) || (nBufYSize a <? nYSize a))
       && (0 <? Z.of_nat (List.length (overviews b))) && negb writing
    then
      let w := {| wXOff := nXOff a; wYOff := nYOff a;
                  wXSize := nXSize a; wYSize := nYSize a |} in
      let '(nOverview, w', sExtraArg) :=
        GDALBandGetBestOverviewLevel2 b w (nBufXSize a) (nBufYSize a)
                                      (Some (psExtraArg a)) in
      if 0 <=? nOverview then
        match nth_error (overviews b) (Z.to_nat nOverview), sExtraArg with
        | Some (Some _), Some e =>
            Some (overview_RasterIO b nOverview (overview_args w' e) s)
        | _, _ => Some (CE_Failure, s)       (* GetOverview returned nullptr *)
        end
      else after_overviews
    else after_overviews.


End RasterIO.


End Engine.

Arguments Return {S} e io.
Arguments Fuel {S}.

(** The large definitions are only unfolded on demand. *)
Arguments GDALCopyWords : simpl never.
Arguments GDALCopyWords_fuel : simpl never.
Arguments GDALCopyWords_main : simpl never.
Arguments copy_words_rw : simpl never.
Arguments memcpy_rw : simpl never.
Arguments zero_block : simpl never.
Arguments Interrupted : simpl never.
Arguments GetLockedBlockRef : simpl never.
Arguments progress_stops : simpl never.
Arguments packed_copy_row : simpl never.

(* ------------------------------------------------------------------ *)
(** ** Concrete instances used by the examples

    A build configuration, stand-ins for the abstract floating-point
    conversions, and a 4x4 byte raster. *)

Definition cfg_sse2 : BuildConfig :=
  {| cfg_x86_64 := true; cfg_aligned_access := false; cfg_ssse3 := false |}.

Definition cfg_strict : BuildConfig :=
  {| cfg_x86_64 := false; cfg_aligned_access := true; cfg_ssse3 := false |}.

Definition ex_i2f32 (v : Z) : list byte := le_bytes 4 v.
Definition ex_i2f64 (v : Z) : list byte := le_bytes 8 v.
Definition ex_fconv (tin tout : CType) (bs : list byte) : list byte := bs.

Definition ex_extra : GDALRasterIOExtraArg :=
  {| eResampleAlg := GRIORA_NearestNeighbour; pfnProgress := None;
     bFloatingPointWindowValidity := false;
     dfXOff := 0; dfYOff := 0; dfXSize := 0; dfYSize := 0 |}.

(** A [w] x [h] byte band in blocks of [bw] x [bh], without overviews,
    whose block fetches succeed. *)
Definition ex_band (w h bw bh : Z) (ds : option (nat -> bool)) : Band :=
  {| nBlockXSize := bw; nBlockYSize := bh; nRasterXSize := w; nRasterYSize := h;
     eDataType := GDT_Byte; poDS := ds;
     block_ok := fun _ _ _ _ => true;
     block_cached := fun _ _ _ => false;
     block_init := fun _ _ _ _ => xee;
     overviews := []; has_color_table := false; GDAL_NO_COSTLY_OVERVIEW := false;
     overview_RasterIO := fun _ _ s => (CE_Failure, s);
     RasterIOResampled := fun _ s => (CE_Failure, s) |}.

(** The blocks of a raster whose pixel [(x, y)] holds [px x y]. *)
Definition ex_blocks (px : Z -> Z -> byte) (bw bh : Z) : Z -> Z -> mem :=
  fun bx by_ o => px (bx * bw + o mod bw) (by_ * bh + o / bw).

Definition ex_state (px : Z -> Z -> byte) (bw bh : Z) (flush : CPLErr) : IOState :=
  {| eFlushBlockErr := flush; buf := fun _ => x00;
     blocks := ex_blocks px bw bh; trace := [] |}.

(** A request on the window [(0, 0, 4, 4)] with a packed byte buffer of
    [bx] x [by_] pixels. *)
Definition ex_args (rw : GDALRWFlag) (bx by_ : Z) : RasterIOArgs :=
  {| eRWFlag := rw; nXOff := 0; nYOff := 0; nXSize := 4; nYSize := 4; pData := 0;
     nBufXSize := bx; nBufYSize := by_; eBufType := GDT_Byte;
     nPixelSpace := 1; nLineSpace := bx; psExtraArg := ex_extra |}.

Definition ex_px (x y : Z) : byte := byte_of_Z (10 * y + x + 1).

(** The bytes of the caller's buffer after a call, when it returned. *)
Definition result_bytes (n : nat) (r : option (CPLErr * IOState)) : option (list byte) :=
  option_map (fun p => load_bytes (buf (snd p)) 0 n) r.
Definition result_err (r : option (CPLErr * IOState)) : option CPLErr :=
  option_map fst r.
Definition result_flush (r : option (CPLErr * IOState)) : option CPLErr :=
  option_map (fun p => eFlushBlockErr (snd p)) r.
Definition result_trace (r : option (CPLErr * IOState)) : option (list Event) :=
  option_map (fun p => rev (trace (snd p))) r.

(** A square band of side [n] whose overviews have the sides [sides]. *)
Definition ex_ovr_band (n : Z) (sides : list Z) : Band :=
  {| nBlockXSize := n; nBlockYSize := 1; nRasterXSize := n; nRasterYSize := n;
     eDataType := GDT_Byte; poDS := None;
     block_ok := fun _ _ _ _ => true;
     block_cached := fun _ _ _ => false;
     block_init := fun _ _ _ _ => xee;
     overviews := map (fun k => Some {| ovr_XSize := k; ovr_YSize := k;
                                        ovr_RESAMPLING := None |}) sides;
     has_color_table := false; GDAL_NO_COSTLY_OVERVIEW := false;
     overview_RasterIO := fun _ _ s => (CE_Failure, s);
     RasterIOResampled := fun _ s => (CE_Failure, s) |}.

Definition ex_window (n : Z) : Window :=
  {| wXOff := 0; wYOff := 0; wXSize := n; wYSize := n |}.

(** The level returned by the selection. *)
Definition best_level (b : Band) (w : Window) (nBufXSize nBufYSize : Z) : Z :=
  fst (fst (GDALBandGetBestOverviewLevel2 b w nBufXSize nBufYSize None)).

(* ------------------------------------------------------------------ *)
(** ** Vocabulary of the statements *)

(** An overview is skipped when its RESAMPLING metadata starts with
    AVERAGE_BIT2. *)
Definition ovr_skipped (o : OverviewBand) : bool :=
  match ovr_RESAMPLING o with
  | Some r => STARTS_WITH_CI r AVERAGE_BIT2
  | None => false
  end.

(** An overview qualifies for the desired resolution [r] when its own
    resolution is strictly below [1.2 * r] and it is not skipped. *)
Definition qualifies (b : Band) (r : Q) (o : OverviewBand) : bool :=
  Qltb (overview_resolution b o) (r * (12 # 10))%Q && negb (ovr_skipped o).


(** What the scan has established after the overviews [pre]. *)
Definition scan_inv (b : Band) (r : Q) (pre : list (option OverviewBand))
    (st : option OverviewBand * Q * Z) : Prop :=
  let '(best, bres, lvl) := st in
  (best = None /\ lvl = -1 /\ bres = 0%Q
   /\ forall j o, nth_error pre j = Some (Some o) -> qualifies b r o = false)
  \/ (exists o,
        best = Some o /\ 0 <= lvl
        /\ nth_error pre (Z.to_nat lvl) = Some (Some o)
        /\ bres = overview_resolution b o
        /\ qualifies b r o = true
        /\ forall j o', nth_error pre j = Some (Some o') -> qualifies b r o' = true ->
             (overview_resolution b o' <= overview_resolution b o)%Q
             /\ ((j < Z.to_nat lvl)%nat ->
                 (overview_resolution b o' < overview_resolution b o)%Q)).

(** The number of block locks held after the trace [tr] (newest event
    first): a successful fetch takes a lock, a drop releases one. *)
Fixpoint held (tr : list Event) : Z :=
  match tr with
  | [] => 0
  | EvFetch _ _ _ true :: r => held r + 1
  | EvDrop _ _ :: r => held r - 1
  | _ :: r => held r
  end.

(** Lock discipline of a trace: at every point zero or one lock is held,
    and a block is only requested from the cache while no lock is held. *)
Fixpoint locks_ok (tr : list Event) : Prop :=
  match tr with
  | [] => True
  | e :: r =>
      locks_ok r
      /\ 0 <= held (e :: r) <= 1
      /\ match e with
         | EvFetch _ _ _ _ => held r = 0
         | _ => True
         end
  end.

(** The lock invariant of the loops: the trace is disciplined and the lock
    held is the one of [poBlock]. *)
Definition lock_inv (poBlock : option (Z * Z)) (s : IOState) : Prop :=
  locks_ok (trace s)
  /\ held (trace s) = match poBlock with Some _ => 1 | None => 0 end.

(** A step that takes and releases no lock. *)
Definition quiet (s s' : IOState) : Prop :=
  held (trace s') = held (trace s)
  /\ (locks_ok (trace s) -> 0 <= held (trace s) <= 1 -> locks_ok (trace s')).

(** What a loop may end with, given an invariant [P] of its state and a
    postcondition [R] of its early returns. *)
Definition ctl_post (S : Type) (P : S -> Prop) (R : CPLErr -> IOState -> Prop)
    (c : Ctl S) : Prop :=
  match c with
  | Next s | Break s => P s
  | Return e io => R e io
  | Fuel => False
  end.


(** The invariants of the loop states and of the early returns. *)
Definition st_inv4 (st : CPLErr * option (Z * Z) * Z * IOState) : Prop :=
  let '(_, p, _, s) := st in lock_inv p s.
Definition ret_inv (e : CPLErr) (s : IOState) : Prop := lock_inv None s.

(** Invariant and measure of the inner loop of the 1:1 window case. *)
Definition inner_inv (b : Band) (a : RasterIOArgs) (st : Z * Z * Z * IOState) : Prop :=
  let '(iSrcX, nLBlockX, _, s) := st in
  lock_inv None s
  /\ (iSrcX < nBufXSize a + nXOff a ->
      nLBlockX * nBlockXSize b <= iSrcX < (nLBlockX + 1) * nBlockXSize b).

Definition inner_measure (a : RasterIOArgs) (st : Z * Z * Z * IOState) : Z :=
  let '(iSrcX, _, _, _) := st in nBufXSize a + nXOff a - iSrcX.

(** Invariant and measure of the outer loop of the 1:1 window case. *)
Definition outer_inv (st : Z * Z * IOState) : Prop :=
  let '(_, iSrcY, s) := st in lock_inv None s /\ 0 <= iSrcY.

Definition outer_measure (a : RasterIOArgs) (st : Z * Z * IOState) : Z :=
  let '(iBufYOff, _, _) := st in nBufYSize a - iBufYOff.

(** The signed value of a 16-bit lane holding [z]. *)
Definition wrap16 (z : Z) : Z := (z + 32768) mod 65536 - 32768.

(* ------------------------------------------------------------------ *)
(** ** The generic fallback of [GDALCopyWords]

    The reference the fast paths are compared with: the per-word loop of
    [GDALCopyWordsGenericT], [GDALCopyWordsComplexT] and
    [GDALCopyWordsComplexOutT] over the word converter, for a pixel type
    given by its component type and its complex flag. *)

Definition component_type (e : GDALDataType) : CType :=
  match e with
  | GDT_Byte | GDT_Unknown => TByte
  | GDT_UInt16 => TUInt16
  | GDT_Int16 | GDT_CInt16 => TInt16
  | GDT_UInt32 => TUInt32
  | GDT_Int32 | GDT_CInt32 => TInt32
  | GDT_Float32 | GDT_CFloat32 => TFloat
  | GDT_Float64 | GDT_CFloat64 => TDouble
  end.

Definition known_type (e : GDALDataType) : bool :=
  negb (GDALDataType_eqb e GDT_Unknown).

(** The number of bytes of a pixel. *)
Definition pixel_size (t : CType) (cplx : bool) : nat :=
  if cplx then (sizeof t + sizeof t)%nat else sizeof t.

Section Fallback.

Variable i2f32 : Z -> list byte.
Variable i2f64 : Z -> list byte.
Variable fconv : CType -> CType -> list byte -> list byte.

(** One pixel converted by the word converter: the body of the three
    generic loops. *)
Definition convert_pixel_t (tin : CType) (cin : bool) (tout : CType) (cout : bool)
    (src : mem) (a : Z) (dst : mem) (b : Z) : mem :=
  let d := copy_word i2f32 i2f64 fconv tin tout src a dst b in
  if cout then
    if cin then copy_word i2f32 i2f64 fconv tin tout src (a + zsizeof tin)
                          d (b + zsizeof tout)
    else store tout d (b + zsizeof tout) (c_int_to i2f32 i2f64 tout 0)
  else d.

Definition convert_pixel (eSrcType eDstType : GDALDataType)
    (src : mem) (a : Z) (dst : mem) (b : Z) : mem :=
  convert_pixel_t (component_type eSrcType) (GDALDataTypeIsComplex eSrcType)
                  (component_type eDstType) (GDALDataTypeIsComplex eDstType)
                  src a dst b.

(** The generic fallback: pixel [n] is converted from
    [pSrcData + n * nSrcPixelStride] to [pDstData + n * nDstPixelStride]. *)
Definition GDALCopyWords_generic
    (src : mem) (pSrcData : Z) (eSrcType : GDALDataType) (nSrcPixelStride : Z)
    (dst : mem) (pDstData : Z) (eDstType : GDALDataType) (nDstPixelStride : Z)
    (nWordCount : Z) : mem :=
  for_loop (Z.to_nat nWordCount) 0
    (fun n d => convert_pixel eSrcType eDstType
                  src (pSrcData + n * nSrcPixelStride)
                  d (pDstData + n * nDstPixelStride)) dst.

(** The bytes of the converted pixel, from the bytes of the source
    pixel. *)
Definition pixel_bytes_t (tin : CType) (cin : bool) (tout : CType) (cout : bool)
    (w : list byte) : list byte :=
  let re := fit (sizeof tout)
                (GDALCopyWord i2f32 i2f64 fconv tin tout (firstn (sizeof tin) w)) in
  if cout then
    re ++ fit (sizeof tout)
              (if cin
               then GDALCopyWord i2f32 i2f64 fconv tin tout (skipn (sizeof tin) w)
               else c_int_to i2f32 i2f64 tout 0)
  else re.

Definition pixel_bytes (eSrcType eDstType : GDALDataType) (w : list byte) : list byte :=
  pixel_bytes_t (component_type eSrcType) (GDALDataTypeIsComplex eSrcType)
                (component_type eDstType) (GDALDataTypeIsComplex eDstType) w.

End Fallback.


(** A source memory for the examples of [GDALCopyWords]. *)
Definition ex_src : mem := fun a => byte_of_Z (3 * a + 7).


(* ------------------------------------------------------------------ *)
(** ** Edge blocks of a write *)

(** The window of the request covers the part of block [(x, y)] that lies
    within the raster. *)
Definition covers (b : Band) (a : RasterIOArgs) (x y : Z) : bool :=
  (nXOff a <=? x * nBlockXSize b)
  && (Z.min ((x + 1) * nBlockXSize b) (nRasterXSize b) <=? nXOff a + nXSize a)
  && (nYOff a <=? y * nBlockYSize b)
  && (Z.min ((y + 1) * nBlockYSize b) (nRasterYSize b) <=? nYOff a + nYSize a).

(** Byte [o] of block [(x, y)] belongs to a pixel of the block that lies
    outside the raster. *)
Definition padding (b : Band) (x y o : Z) : Prop :=
  exists px py k,
    0 <= px < nBlockXSize b /\ 0 <= py < nBlockYSize b
    /\ 0 <= k < GDALGetDataTypeSizeBytes (eDataType b)
    /\ o = (py * nBlockXSize b + px) * GDALGetDataTypeSizeBytes (eDataType b) + k
    /\ (nRasterXSize b <= x * nBlockXSize b + px
        \/ nRasterYSize b <= y * nBlockYSize b + py).

(** What holds of the blocks fetched since the trace was [t0]: a block is
    created without being loaded exactly when the window covers it, and
    the padding of such a block is zero. *)
Definition fill_inv (b : Band) (a : RasterIOArgs) (t0 : list Event) (s : IOState) : Prop :=
  exists new,
    trace s = new ++ t0
    /\ (forall x y ji ok, In (EvFetch x y ji ok) new -> ji = covers b a x y)
    /\ (forall x y o, In (EvFetch x y true true) new -> padding b x y o ->
                      blocks s x y o = x00).

(** A step that only writes pixels of block [(x, y)] that lie within the
    raster, and calls no collaborator. *)
Definition raster_write (b : Band) (x y : Z) (s s' : IOState) : Prop :=
  trace s' = trace s
  /\ (forall x' y' o, x' <> x \/ y' <> y \/ padding b x y o ->
                      blocks s' x' y' o = blocks s x' y' o).

(** A step that leaves the blocks alone and fetches none. *)
Definition no_fetch (s s' : IOState) : Prop :=
  blocks s' = blocks s
  /\ exists evs, trace s' = evs ++ trace s
                 /\ forall x y ji ok, ~ In (EvFetch x y ji ok) evs.


(** Invariants of the loops of the 1:1 cases, for a write within the
    raster: the state of the inner and of the outer loop of the window
    case, the state of the loop of the packed case, the early returns. *)
Definition inner_fill (b : Band) (a : RasterIOArgs) (t0 : list Event)
    (st : Z * Z * Z * IOState) : Prop :=
  let '(iSrcX, nLBlockX, _, s) := st in
  fill_inv b a t0 s
  /\ (iSrcX < nBufXSize a + nXOff a ->
      nLBlockX * nBlockXSize b <= iSrcX < (nLBlockX + 1) * nBlockXSize b).

Definition outer_fill (b : Band) (a : RasterIOArgs) (t0 : list Event)
    (st : Z * Z * IOState) : Prop :=
  let '(iBufYOff, iSrcY, s) := st in
  fill_inv b a t0 s /\ 0 <= iBufYOff /\ iSrcY = nYOff a + iBufYOff.

Definition packed_fill (b : Band) (a : RasterIOArgs) (t0 : list Event)
    (st : CPLErr * option (Z * Z) * Z * IOState) : Prop :=
  let '(_, _, _, s) := st in fill_inv b a t0 s.

Definition ret_fill (b : Band) (a : RasterIOArgs) (t0 : list Event)
    (e : CPLErr) (s : IOState) : Prop := fill_inv b a t0 s.


(** A request on the whole of a 3 x 3 raster, with a packed byte buffer
    of [n] x [n] pixels. *)
Definition ex_edge_args (rw : GDALRWFlag) (n : Z) : RasterIOArgs :=
  {| eRWFlag := rw; nXOff := 0; nYOff := 0; nXSize := 3; nYSize := 3; pData := 0;
     nBufXSize := n; nBufYSize := n; eBufType := GDT_Byte;
     nPixelSpace := 1; nLineSpace := n; psExtraArg := ex_extra |}.

(** Byte [o] of block [(x, y)] after a call, when it returned. *)
Definition result_block (x y o : Z) (r : option (CPLErr * IOState)) : option byte :=
  option_map (fun p => blocks (snd p) x y o) r.


(** Pointwise equalities of byte memories: case analysis on the address
    comparisons. *)
Ltac mem_cases :=
  repeat match goal with
         | |- context [?a <=? ?b] => destruct (Z.leb_spec a b)
         | |- context [?a <? ?b] => destruct (Z.ltb_spec a b)
         end;
  cbn [andb]; try reflexivity; try lia; try (f_equal; lia).

(** What a loop may end with when it need not end: as [ctl_post], a loop
    that ran out of fuel promising nothing. *)
Definition ctl_keeps (S : Type) (P : S -> Prop) (R : CPLErr -> IOState -> Prop)
    (c : Ctl S) : Prop :=
  match c with
  | Next s | Break s => P s
  | Return e io => R e io
  | Fuel => True
  end.


(** The request is served by the loops of [IRasterIO] itself: a write, or
    a nearest-neighbour read of a band without overviews. *)
Definition own_loops (b : Band) (a : RasterIOArgs) : bool :=
  is_write (eRWFlag a)
  || ((List.length (overviews b) =? 0)%nat
      && match eResampleAlg (psExtraArg a) with
         | GRIORA_NearestNeighbour => true
         | _ => false
         end).

(** The collaborator calls a read may make: it marks no block dirty and
    fetches no block with [bJustInitialize]. *)
Definition read_event (ev : Event) : bool :=
  match ev with
  | EvDirty _ _ => false
  | EvFetch _ _ bJustInitialize _ => negb bJustInitialize
  | _ => true
  end.

(** The answers of the collaborators that end a request: an
    interruption, a block that cannot be fetched, a progress callback
    that asks to stop. *)
Definition interrupt_event (ev : Event) : bool :=
  match ev with EvPoll true => true | _ => false end.

Definition failure_event (ev : Event) : bool :=
  match ev with
  | EvFetch _ _ _ false | EvProgress _ false => true
  | _ => false
  end.

Definition result_code (new : list Event) : CPLErr :=
  if existsb interrupt_event new then CE_Interrupted
  else if existsb failure_event new then CE_Failure
  else CE_None.


(* ------------------------------------------------------------------ *)
(** ** Byte swapping: [GDALSwapWords], [GDALSwapWordsEx]

    The words are swapped in place, in one memory.  [CPLAssert] is
    compiled out of a release build and is left out; [CPL_HAS_GINT64] is
    defined. *)

(** The bytes at two addresses exchanged. *)
Definition exchange (m : mem) (i j : Z) : mem :=
  fun x => if x =? i then m j else if x =? j then m i else m x.

(** Modelled from the spec: [CPL_SWAP16PTR], [CPL_SWAP32PTR] and
    [CPL_SWAP64PTR] (cpl_port.h) exchange the bytes of the word at [p],
    the first with the last, the second with the last but one, and so
    on. *)
Definition CPL_SWAP16PTR (m : mem) (p : Z) : mem := exchange m p (p + 1).

Definition CPL_SWAP32PTR (m : mem) (p : Z) : mem :=
  exchange (exchange m p (p + 3)) (p + 1) (p + 2).

Definition CPL_SWAP64PTR (m : mem) (p : Z) : mem :=
  exchange (exchange (exchange (exchange m p (p + 7)) (p + 1) (p + 6)) (p + 2) (p + 5))
           (p + 3) (p + 4).

(** Modelled from the spec: [CPL_SWAP32] and [CPL_SWAP64] (cpl_port.h),
    on the value of an unsigned word. *)
Definition CPL_SWAP32 (x : Z) : Z :=
  Z.lor (Z.lor (Z.lor (Z.shiftl (Z.land x 0xff) 24)
                      (Z.shiftl (Z.land x 0xff00) 8))
               (Z.shiftr (Z.land x 0xff0000) 8))
        (Z.shiftr (Z.land x 0xff000000) 24).

Definition CPL_SWAP64 (x : Z) : Z :=
  Z.lor (Z.lor (Z.lor (Z.lor (Z.lor (Z.lor (Z.lor
    (Z.shiftl (Z.land x 0xff) 56)
    (Z.shiftl (Z.land x 0xff00) 40))
    (Z.shiftl (Z.land x 0xff0000) 24))
    (Z.shiftl (Z.land x 0xff000000) 8))
    (Z.shiftr (Z.land x 0xff00000000) 8))
    (Z.shiftr (Z.land x 0xff0000000000) 24))
    (Z.shiftr (Z.land x 0xff000000000000) 40))
    (Z.shiftr (Z.land x 0xff00000000000000) 56).

(** [CPL_IS_ALIGNED(p, n)]: the address, as a [size_t], is a multiple of
    [n]. *)
Definition CPL_IS_ALIGNED (p n : Z) : bool := p mod n =? 0.

(** [*(GUInt32* )p = CPL_SWAP32( *(const GUInt32* )p)] and its 64-bit
    counterpart. *)
Definition swap32_aligned (m : mem) (p : Z) : mem :=
  store_bytes m p (le_bytes 4 (CPL_SWAP32 (le_unsigned (load_bytes m p 4)))).

Definition swap64_aligned (m : mem) (p : Z) : mem :=
  store_bytes m p (le_bytes 8 (CPL_SWAP64 (le_unsigned (load_bytes m p 8)))).

(** [for (i = 0; i < nWordCount; i++) { swap(pabyData); pabyData += nWordSkip; }],
    on the state [(pabyData, memory)]. *)
Definition swap_loop (swap : mem -> Z -> mem) (m : mem)
    (pabyData nWordCount nWordSkip : Z) : mem :=
  snd (for_loop (Z.to_nat nWordCount) 0
         (fun _ (st : Z * mem) => let '(p, m) := st in (p + nWordSkip, swap m p))
         (pabyData, m)).

(** [VALIDATE_POINTER0] returns at once when the pointer is null. *)
Definition GDALSwapWords (m : mem) (pData nWordSize nWordCount nWordSkip : Z) : mem :=
  if (0 <? nWordCount) && (pData =? 0) then m
  else if nWordSize =? 1 then m
  else if nWordSize =? 2 then swap_loop CPL_SWAP16PTR m pData nWordCount nWordSkip
  else if nWordSize =? 4 then
    if CPL_IS_ALIGNED pData 4 && (Z.rem nWordSkip 4 =? 0)
    then swap_loop swap32_aligned m pData nWordCount nWordSkip
    else swap_loop CPL_SWAP32PTR m pData nWordCount nWordSkip
  else if nWordSize =? 8 then
    if CPL_IS_ALIGNED pData 8 && (Z.rem nWordSkip 8 =? 0)
    then swap_loop swap64_aligned m pData nWordCount nWordSkip
    else swap_loop CPL_SWAP64PTR m pData nWordCount nWordSkip
  else m.

(** [GDALSwapWordsEx]: the words are handed to [GDALSwapWords] in chunks
    of at most [1 << 30] words.  State of the loop:
    [(pabyData, nWordCount, memory)]; [nWordCount] is a [size_t]. *)
Definition GDALSwapWordsEx_body (nWordSize nWordSkip : Z) (st : Z * Z * mem)
  : Ctl (Z * Z * mem) :=
  let '(pabyData, nWordCount, m) := st in
  let nWordCountSmall :=
    if Z.shiftl 1 30 <? nWordCount then Z.shiftl 1 30 else nWordCount in
  let m := GDALSwapWords m pabyData nWordSize nWordCountSmall nWordSkip in
  Next (pabyData + nWordSkip * nWordCountSmall, nWordCount - nWordCountSmall, m).

Definition GDALSwapWordsEx (m : mem) (pData nWordSize nWordCount nWordSkip : Z)
  : option mem :=
  match while_ctl (Datatypes.S (Z.to_nat (nWordCount / Z.shiftl 1 30)))
          (fun st => let '(_, n, _) := st in negb (n =? 0))
          (GDALSwapWordsEx_body nWordSize nWordSkip)
          (pData, nWordCount, m) with
  | Next (_, _, m) | Break (_, _, m) => Some m
  | _ => None
  end.

(** The word of [sz] bytes at [p] with its bytes in reverse order. *)
Definition reverse_word (sz : Z) (m : mem) (p : Z) : mem :=
  fun x => if (p <=? x) && (x <? p + sz) then m (p + (sz - 1 - (x - p))) else m x.


(** What [GDALSwapWords] does to one word of [sz] bytes: words of 2, 4
    and 8 bytes are reversed, any other size is left alone. *)
Definition swap_word (sz : Z) (m : mem) (p : Z) : mem :=
  if (sz =? 2) || (sz =? 4) || (sz =? 8) then reverse_word sz m p else m.


(* ------------------------------------------------------------------ *)
(** ** Bitwise copying: [GDALCopyBits]

    The two pointers are not declared [CPL_RESTRICT]: the source and the
    destination live in one memory. *)

(** [0x80 >> (n & 7)]. *)
Definition bit_mask (n : Z) : Z := Z.shiftr 0x80 (Z.land n 7).

(** The body of the inner loop, on the state
    [(nSrcOffset, nDstOffset, memory)]. *)
Definition copy_bit (pabySrcData pabyDstData : Z) (st : Z * Z * mem) : Z * Z * mem :=
  let '(nSrcOffset, nDstOffset, m) := st in
  let a := pabyDstData + Z.shiftr nDstOffset 3 in
  let d := Z_of_byte (m a) in
  let d' :=
    if negb (Z.land (Z_of_byte (m (pabySrcData + Z.shiftr nSrcOffset 3)))
                    (bit_mask nSrcOffset) =? 0)
    then Z.lor d (bit_mask nDstOffset)
    else Z.land d (Z.lnot (bit_mask nDstOffset)) in
  (nSrcOffset + 1, nDstOffset + 1, fun x => if x =? a then byte_of_Z d' else m x).

Definition copy_bits_word (pabySrcData nSrcStep pabyDstData nDstStep nBitCount : Z)
    (st : Z * Z * mem) : Z * Z * mem :=
  let '(nSrcOffset, nDstOffset, m) :=
    for_loop (Z.to_nat nBitCount) 0 (fun _ => copy_bit pabySrcData pabyDstData) st in
  (nSrcOffset + (nSrcStep - nBitCount), nDstOffset + (nDstStep - nBitCount), m).

Definition GDALCopyBits (m : mem) (pabySrcData nSrcOffset nSrcStep : Z)
    (pabyDstData nDstOffset nDstStep nBitCount nStepCount : Z) : mem :=
  if pabySrcData =? 0 then m                      (* VALIDATE_POINTER0 *)
  else
    snd (for_loop (Z.to_nat nStepCount) 0
           (fun _ => copy_bits_word pabySrcData nSrcStep pabyDstData nDstStep nBitCount)
           (nSrcOffset, nDstOffset, m)).

(** Bit [n] of the bit buffer at [p], the most significant bit of a byte
    first. *)
Definition get_bit (m : mem) (p n : Z) : bool :=
  Z.testbit (Z_of_byte (m (p + n / 8))) (7 - n mod 8).


(* ------------------------------------------------------------------ *)
(** ** Requests recast on an overview *)

Definition GDALBandGetBestOverviewLevel (b : Band) (w : Window)
    (nBufXSize nBufYSize : Z) : Z * Window :=
  let '(nOverview, w', _) := GDALBandGetBestOverviewLevel2 b w nBufXSize nBufYSize None in
  (nOverview, w').

(** Modelled from the spec: [INIT_RASTERIO_EXTRA_ARG] (gdal.h) selects the
    nearest-neighbour resampling, no progress callback and no
    floating-point window; it does not assign the four window fields. *)
Definition INIT_RASTERIO_EXTRA_ARG (s : GDALRasterIOExtraArg) : GDALRasterIOExtraArg :=
  {| eResampleAlg := GRIORA_NearestNeighbour; pfnProgress := None;
     bFloatingPointWindowValidity := false;
     dfXOff := dfXOff s; dfYOff := dfYOff s; dfXSize := dfXSize s; dfYSize := dfYSize s |}.

(** [psDestArg] comes in with whatever the uninitialised destination
    holds. *)
Definition GDALCopyRasterIOExtraArg (psDestArg : GDALRasterIOExtraArg)
    (psSrcArg : option GDALRasterIOExtraArg) : GDALRasterIOExtraArg :=
  let d := INIT_RASTERIO_EXTRA_ARG psDestArg in
  match psSrcArg with
  | None => d
  | Some s =>
      let f := bFloatingPointWindowValidity s in
      {| eResampleAlg := eResampleAlg s; pfnProgress := pfnProgress s;
         bFloatingPointWindowValidity := f;
         dfXOff := if f then dfXOff s else dfXOff d;
         dfYOff := if f then dfYOff s else dfYOff d;
         dfXSize := if f then dfXSize s else dfXSize d;
         dfYSize := if f then dfYSize s else dfYSize d |}
  end.

Definition request_window (a : RasterIOArgs) : Window :=
  {| wXOff := nXOff a; wYOff := nYOff a; wXSize := nXSize a; wYSize := nYSize a |}.

(** [GDALRasterBand::OverviewRasterIO]; [sExtraArg] is the local variable
    before it is assigned. *)
Definition OverviewRasterIO (b : Band) (a : RasterIOArgs)
    (sExtraArg : GDALRasterIOExtraArg) (s : IOState) : CPLErr * IOState :=
  let sExtraArg := GDALCopyRasterIOExtraArg sExtraArg (Some (psExtraArg a)) in
  let '(nOverview, w', e') :=
    GDALBandGetBestOverviewLevel2 b (request_window a) (nBufXSize a) (nBufYSize a)
                                  (Some sExtraArg) in
  if nOverview <? 0 then (CE_Failure, s)
  else
    match nth_error (overviews b) (Z.to_nat nOverview), e' with
    | Some (Some _), Some e => overview_RasterIO b nOverview (overview_args a w' e) s
    | _, _ => (CE_Failure, s)
    end.

(** [GDALRasterBand::TryOverviewRasterIO]: the result, [*pbTried] and the
    state. *)
Definition TryOverviewRasterIO (b : Band) (a : RasterIOArgs)
    (sExtraArg : GDALRasterIOExtraArg) (s : IOState) : CPLErr * bool * IOState :=
  let sExtraArg := GDALCopyRasterIOExtraArg sExtraArg (Some (psExtraArg a)) in
  let '(iOvrLevel, w', e') :=
    GDALBandGetBestOverviewLevel2 b (request_window a) (nBufXSize a) (nBufYSize a)
                                  (Some sExtraArg) in
  if 0 <=? iOvrLevel then
    match nth_error (overviews b) (Z.to_nat iOvrLevel), e' with
    | Some (Some _), Some e =>
        let '(eErr, s') := overview_RasterIO b iOvrLevel (overview_args a w' e) s in
        (eErr, true, s')
    | _, _ => (CE_None, false, s)
    end
  else (CE_None, false, s).

(** The window lies inside the overview and is not empty. *)
Definition window_inside (o : OverviewBand) (w : Window) : Prop :=
  0 <= wXOff w /\ 1 <= wXSize w /\ wXOff w + wXSize w <= ovr_XSize o
  /\ 0 <= wYOff w /\ 1 <= wYSize w /\ wYOff w + wYSize w <= ovr_YSize o.


(* ------------------------------------------------------------------ *)
(** ** Swath sizing: [GDALCopyWholeRasterGetSwathSize] *)

(** What the function consults of the two prototype bands and of the
    configuration. *)
Record SwathBands := {
  sw_nXSize : Z; sw_nYSize : Z;                (* size of the source band *)
  sw_nSrcBlockXSize : Z; sw_nSrcBlockYSize : Z;
  sw_nBlockXSize : Z; sw_nBlockYSize : Z;      (* blocks of the destination band *)
  sw_eDT : GDALDataType;                       (* type of the destination band *)
  sw_src_JPEG2000 : bool;      (* the source COMPRESSION item is JPEG2000 *)
  sw_GDAL_SWATH_SIZE : option Z;               (* CPLAtoGIntBig of the option *)
  sw_CacheMax64 : Z                            (* GDALGetCacheMax64() *)
}.

(** [static_cast<int>] of a 64-bit value. *)
Definition to_int (x : Z) : Z := (x + 2 ^ 31) mod 2 ^ 32 - 2 ^ 31.

Definition IS_DIVIDER_OF (x y : Z) : bool := Z.rem y x =? 0.
Definition ROUND_TO (x y : Z) : Z := Z.quot x y * y.

(** [nSwathCols = nTargetSwathSize / d; nSwathCols = ROUND_TO(nSwathCols, blk);
    if (nSwathCols == 0) nSwathCols = blk;  if (nSwathCols > nXSize) nSwathCols = nXSize;]
    the four statements come three times in the source. *)
Definition partial_width (nTargetSwathSize d blk nXSize : Z) : Z :=
  let nSwathCols := Z.quot nTargetSwathSize d in
  let nSwathCols := ROUND_TO nSwathCols blk in
  let nSwathCols := if nSwathCols =? 0 then blk else nSwathCols in
  if nXSize <? nSwathCols then nXSize else nSwathCols.

Definition swath_pixel_size (p : SwathBands) (nBandCount : Z) (bInterleave : bool) : Z :=
  let nPixelSize := GDALGetDataTypeSizeBytes (sw_eDT p) in
  if bInterleave then nPixelSize * nBandCount else nPixelSize.

(** The use of the JPEG2000 source blocks: [pszSrcCompression] is
    JPEG2000 and the destination is not compressed or its blocks divide
    the source blocks. *)
Definition swath_by_source_blocks (p : SwathBands) (bDstIsCompressed : bool) : bool :=
  sw_src_JPEG2000 p
  && (negb bDstIsCompressed
      || (IS_DIVIDER_OF (sw_nBlockXSize p) (sw_nSrcBlockXSize p)
          && IS_DIVIDER_OF (sw_nBlockYSize p) (sw_nSrcBlockYSize p))).

Definition swath_target (p : SwathBands) (nPixelSize : Z) (bDstIsCompressed : bool) : Z :=
  let nSwathCols := sw_nXSize p in
  let nSwathLines := sw_nBlockYSize p in
  let nTargetSwathSize :=
    match sw_GDAL_SWATH_SIZE p with
    | Some v => to_int (Z.min INT_MAX v)
    | None =>
        let nTargetSwathSize := to_int (Z.min INT_MAX (Z.quot (sw_CacheMax64 p) 4)) in
        let nIdealSwathBufSize := nSwathCols * nSwathLines * nPixelSize in
        let nIdealSwathBufSize :=
          if (nIdealSwathBufSize <? nTargetSwathSize) && (nIdealSwathBufSize <? 10 * 1000 * 1000)
          then 10 * 1000 * 1000 else nIdealSwathBufSize in
        let nIdealSwathBufSize :=
          if swath_by_source_blocks p bDstIsCompressed
          then Z.max nIdealSwathBufSize (nSwathCols * sw_nSrcBlockYSize p * nPixelSize)
          else nIdealSwathBufSize in
        if nIdealSwathBufSize <? nTargetSwathSize
        then to_int (Z.min INT_MAX nIdealSwathBufSize)
        else nTargetSwathSize
    end in
  if nTargetSwathSize <? 1000000 then 1000000 else nTargetSwathSize.

(** The swath when both rasters are tiled with compatible tiles. *)
Definition swath_tiled (p : SwathBands) (nPixelSize nTargetSwathSize : Z) : Z * Z :=
  let nXSize := sw_nXSize p in
  let nBlockXSize := sw_nBlockXSize p in
  let nBlockYSize := sw_nBlockYSize p in
  let nSrcBlockXSize := sw_nSrcBlockXSize p in
  let nSrcBlockYSize := sw_nSrcBlockYSize p in
  let nMaxBlockXSize := Z.max nBlockXSize nSrcBlockXSize in
  let nMaxBlockYSize := Z.max nBlockYSize nSrcBlockYSize in
  if negb (nBlockXSize =? nXSize) && negb (nSrcBlockXSize =? nXSize)
     && IS_DIVIDER_OF nBlockXSize nMaxBlockXSize
     && IS_DIVIDER_OF nSrcBlockXSize nMaxBlockXSize
     && IS_DIVIDER_OF nBlockYSize nMaxBlockYSize
     && IS_DIVIDER_OF nSrcBlockYSize nMaxBlockYSize
  then
    if nMaxBlockXSize * nMaxBlockYSize * nPixelSize <=? nTargetSwathSize then
      let nSwathCols :=
        partial_width nTargetSwathSize (nMaxBlockYSize * nPixelSize) nMaxBlockXSize nXSize in
      let nSwathLines := nMaxBlockYSize in
      if nTargetSwathSize <? nSwathCols * nSwathLines * nPixelSize
      then (nXSize, nBlockYSize)
      else (nSwathCols, nSwathLines)
    else (nXSize, nBlockYSize)
  else (nXSize, nBlockYSize).

(** The lines of the swath once its columns are known. *)
Definition swath_lines (p : SwathBands) (nPixelSize nTargetSwathSize : Z)
    (nSwathCols nSwathLines : Z) : Z :=
  let nMaxBlockYSize := Z.max (sw_nBlockYSize p) (sw_nSrcBlockYSize p) in
  let nMemoryPerCol := nSwathCols * nPixelSize in
  let nSwathBufSize := nMemoryPerCol * nSwathLines in
  if nTargetSwathSize <? nSwathBufSize then
    let nSwathLines := to_int (Z.quot nTargetSwathSize nMemoryPerCol) in
    if nSwathLines =? 0 then 1 else nSwathLines
  else if (nSwathLines =? 1)
          || (nMemoryPerCol * nSwathLines <? Z.quot nTargetSwathSize 10) then
    let nSwathLines :=
      Z.min (sw_nYSize p) (Z.max 1 (to_int (Z.quot nTargetSwathSize nMemoryPerCol))) in
    if negb (Z.rem nSwathLines nMaxBlockYSize =? 0)
       && (nMaxBlockYSize <? nSwathLines)
       && IS_DIVIDER_OF (sw_nBlockYSize p) nMaxBlockYSize
       && IS_DIVIDER_OF (sw_nSrcBlockYSize p) nMaxBlockYSize
    then ROUND_TO nSwathLines nMaxBlockYSize
    else nSwathLines
  else nSwathLines.

(** The result is [( *pnSwathCols, *pnSwathLines)]; the warning and the
    debug messages have no effect on it. *)
Definition GDALCopyWholeRasterGetSwathSize (p : SwathBands) (nBandCount : Z)
    (bDstIsCompressed bInterleave : bool) : Z * Z :=
  let nXSize := sw_nXSize p in
  let nPixelSize := swath_pixel_size p nBandCount bInterleave in
  let nTargetSwathSize := swath_target p nPixelSize bDstIsCompressed in
  let '(nSwathCols, nSwathLines) := swath_tiled p nPixelSize nTargetSwathSize in
  let nSwathLines := swath_lines p nPixelSize nTargetSwathSize nSwathCols nSwathLines in
  if swath_by_source_blocks p bDstIsCompressed then
    if nSwathLines <? sw_nSrcBlockYSize p then
      (partial_width nTargetSwathSize (sw_nSrcBlockXSize p * nPixelSize)
                     (sw_nSrcBlockXSize p) nXSize,
       sw_nSrcBlockYSize p)
    else if negb (Z.rem nSwathLines (sw_nSrcBlockYSize p) =? 0) then
      (nSwathCols, ROUND_TO nSwathLines (sw_nSrcBlockYSize p))
    else (nSwathCols, nSwathLines)
  else if bDstIsCompressed then
    if nSwathLines <? sw_nBlockYSize p then
      (partial_width nTargetSwathSize (sw_nBlockYSize p * nPixelSize)
                     (sw_nBlockXSize p) nXSize,
       sw_nBlockYSize p)
    else if negb (Z.rem nSwathLines (sw_nBlockYSize p) =? 0) then
      (nSwathCols, ROUND_TO nSwathLines (sw_nBlockYSize p))
    else (nSwathCols, nSwathLines)
  else (nSwathCols, nSwathLines).

(** The sizes the function divides by are positive. *)
Definition swath_valid (p : SwathBands) (nBandCount : Z) (bInterleave : bool) : Prop :=
  0 < sw_nXSize p /\ 0 < sw_nYSize p
  /\ 0 < sw_nSrcBlockXSize p /\ 0 < sw_nSrcBlockYSize p
  /\ 0 < sw_nBlockXSize p /\ 0 < sw_nBlockYSize p
  /\ 0 < swath_pixel_size p nBandCount bInterleave.

(** A destination of 1000 x 1000 bytes in blocks of 256 x 256; the
    source has blocks of 128 x 128. *)
Definition ex_swath (swath_size : option Z) : SwathBands :=
  {| sw_nXSize := 1000; sw_nYSize := 1000;
     sw_nSrcBlockXSize := 128; sw_nSrcBlockYSize := 128;
     sw_nBlockXSize := 256; sw_nBlockYSize := 256;
     sw_eDT := GDT_Byte; sw_src_JPEG2000 := false;
     sw_GDAL_SWATH_SIZE := swath_size; sw_CacheMax64 := 40000000 |}.


(* ------------------------------------------------------------------ *)
(** ** What a 1:1 request transfers *)

(** The number of bytes of a pixel of type [e]. *)
Definition type_size (e : GDALDataType) : nat :=
  pixel_size (component_type e) (GDALDataTypeIsComplex e).

(** Pixel [(i, j)] of the caller's buffer. *)
Definition buf_addr (a : RasterIOArgs) (i j : Z) : Z :=
  pData a + (j * nLineSpace a + i * nPixelSpace a).

Definition buf_pixel (a : RasterIOArgs) (s : IOState) (i j : Z) : list byte :=
  load_bytes (buf s) (buf_addr a i j) (type_size (eBufType a)).

(** Pixel [(x, y)] of the raster, in the block that holds it. *)
Definition raster_pixel (b : Band) (s : IOState) (x y : Z) : list byte :=
  let bx := Z.quot x (nBlockXSize b) in
  let by_ := Z.quot y (nBlockYSize b) in
  load_bytes (blocks s bx by_)
    ((x - bx * nBlockXSize b + (y - by_ * nBlockYSize b) * nBlockXSize b)
     * GDALGetDataTypeSizeBytes (eDataType b))
    (type_size (eDataType b)).

(** The pixels of the buffer do not overlap, nor do its lines. *)
Definition buffer_layout (a : RasterIOArgs) : Prop :=
  GDALGetDataTypeSizeBytes (eBufType a) <= nPixelSpace a
  /\ nBufXSize a * nPixelSpace a <= nLineSpace a.

(** The pixels [(i, j)] of the buffer selected by [P] hold the converted
    pixels of the window of the raster as it was in [s0], and the blocks
    are those of [s0]. *)
Definition filled (i2f32 i2f64 : Z -> list byte)
    (fconv : CType -> CType -> list byte -> list byte)
    (b : Band) (a : RasterIOArgs) (s0 s : IOState) (P : Z -> Z -> Prop) : Prop :=
  blocks s = blocks s0
  /\ forall i j, 0 <= i < nBufXSize a -> 0 <= j < nBufYSize a -> P i j ->
       buf_pixel a s i j
       = pixel_bytes i2f32 i2f64 fconv (eDataType b) (eBufType a)
           (raster_pixel b s0 (nXOff a + i) (nYOff a + j)).

(** What a loop that needs no fuel and does not [break] ends with. *)
Definition ctl_next (S : Type) (P : S -> Prop) (R : CPLErr -> IOState -> Prop)
    (c : Ctl S) : Prop :=
  match c with
  | Next s => P s
  | Break _ => False
  | Return e io => R e io
  | Fuel => True
  end.


(** The pixels of the window selected by [P] hold, in the blocks of [s],
    the converted pixels of the buffer as it was in [s0], and the buffer is
    that of [s0]. *)
Definition stored (i2f32 i2f64 : Z -> list byte)
    (fconv : CType -> CType -> list byte -> list byte)
    (b : Band) (a : RasterIOArgs) (s0 s : IOState) (P : Z -> Z -> Prop) : Prop :=
  buf s = buf s0
  /\ forall i j, 0 <= i < nBufXSize a -> 0 <= j < nBufYSize a -> P i j ->
       raster_pixel b s (nXOff a + i) (nYOff a + j)
       = pixel_bytes i2f32 i2f64 fconv (eBufType a) (eDataType b) (buf_pixel a s0 i j).


(** ** Vocabulary of the nearest-neighbour write *)

(** Block [(x, y)] was fetched with success among the calls logged in
    [t]. *)
Definition fetched (x y : Z) (t : list Event) : Prop :=
  exists ji, In (EvFetch x y ji true) t.

(** The cache keeps the blocks it handed out: a block that was fetched is
    found in the cache when it is asked for again. *)
Definition cache_keeps_blocks (b : Band) : Prop :=
  forall t x y, fetched x y t -> block_cached b (List.length t) x y = true.

(** The column and the line of the buffer that a write without a 1:1
    mapping stores at column [x] and line [y] of the raster. *)
Definition buf_column (a : RasterIOArgs) (x : Z) : Z :=
  trunc (inject_Z (x - nXOff a) / dfSrcXInc a)%Q.
Definition buf_line (a : RasterIOArgs) (y : Z) : Z :=
  trunc (inject_Z (y - nYOff a) / dfSrcYInc a)%Q.

(** The pixels of the window selected by [P] lie in blocks that were
    fetched and hold the converted pixels of the buffer, as it was in [s0],
    that serve them; the buffer is that of [s0]. *)
Definition resampled (i2f32 i2f64 : Z -> list byte)
    (fconv : CType -> CType -> list byte -> list byte)
    (b : Band) (a : RasterIOArgs) (s0 s : IOState) (P : Z -> Z -> Prop) : Prop :=
  buf s = buf s0
  /\ forall x y, nXOff a <= x < nXOff a + nXSize a ->
                 nYOff a <= y < nYOff a + nYSize a -> P x y ->
       fetched (Z.quot x (nBlockXSize b)) (Z.quot y (nBlockYSize b)) (trace s)
       /\ raster_pixel b s x y
          = pixel_bytes i2f32 i2f64 fconv (eBufType a) (eDataType b)
              (buf_pixel a s0 (buf_column a x) (buf_line a y)).

(** A band like [ex_band] whose cache holds every block from the second
    fetch on, and a state whose buffer is not blank. *)
Definition ex_kept_band (w h bw bh : Z) : Band :=
  {| nBlockXSize := bw; nBlockYSize := bh; nRasterXSize := w; nRasterYSize := h;
     eDataType := GDT_Byte; poDS := None;
     block_ok := fun _ _ _ _ => true;
     block_cached := fun n _ _ => (0 <? n)%nat;
     block_init := fun _ _ _ _ => xee;
     overviews := []; has_color_table := false; GDAL_NO_COSTLY_OVERVIEW := false;
     overview_RasterIO := fun _ _ s => (CE_Failure, s);
     RasterIOResampled := fun _ s => (CE_Failure, s) |}.

Definition ex_buffer_state : IOState :=
  {| eFlushBlockErr := CE_None; buf := ex_src;
     blocks := ex_blocks ex_px 2 2; trace := [] |}.


(** ** Vocabulary of the nearest-neighbour read *)

(** Block [blk] of size [bsz] serves index [i] of the buffer: [i] is one
    of the indices the loops run through while that block is locked. *)
Definition serves (blk bsz off : Z) (inc : Q) (nBufSize i : Z) : Prop :=
  buf_lo blk bsz off inc <= i < buf_lim blk bsz off inc nBufSize.

(** Pixel [(i, j)] of the buffer of [s] holds the conversion of the pixel
    of the raster of [s0] at its source coordinates, kept inside block
    [(bx, by_)]. *)
Definition sampled_from (i2f32 i2f64 : Z -> list byte)
    (fconv : CType -> CType -> list byte -> list byte)
    (b : Band) (a : RasterIOArgs) (s0 s : IOState) (bx by_ i j : Z) : Prop :=
  buf_pixel a s i j
  = pixel_bytes i2f32 i2f64 fconv (eDataType b) (eBufType a)
      (raster_pixel b s0
         (src_coord i (dfSrcXInc a) (nXOff a) bx (nBlockXSize b))
         (src_coord j (dfSrcYInc a) (nYOff a) by_ (nBlockYSize b))).

(** Each pixel of the buffer selected by [P] was sampled from a block of
    the window that serves it, and the blocks are those of [s0]. *)
Definition sampled (i2f32 i2f64 : Z -> list byte)
    (fconv : CType -> CType -> list byte -> list byte)
    (b : Band) (a : RasterIOArgs) (s0 s : IOState) (P : Z -> Z -> Prop) : Prop :=
  blocks s = blocks s0
  /\ forall i j, 0 <= i < nBufXSize a -> 0 <= j < nBufYSize a -> P i j ->
       exists bx by_,
         Z.quot (nXOff a) (nBlockXSize b) <= bx
           <= Z.quot (nXOff a + nXSize a - 1) (nBlockXSize b)
         /\ Z.quot (nYOff a) (nBlockYSize b) <= by_
              <= Z.quot (nYOff a + nYSize a - 1) (nBlockYSize b)
         /\ serves bx (nBlockXSize b) (nXOff a) (dfSrcXInc a) (nBufXSize a) i
         /\ serves by_ (nBlockYSize b) (nYOff a) (dfSrcYInc a) (nBufYSize a) j
         /\ sampled_from i2f32 i2f64 fconv b a s0 s bx by_ i j.


(** ** Vocabulary of the extent of the buffer *)

(** Address [o] belongs to no pixel of the caller's buffer. *)
Definition pixel_free (a : RasterIOArgs) (o : Z) : Prop :=
  forall i j, 0 <= i < nBufXSize a -> 0 <= j < nBufYSize a ->
    o < buf_addr a i j \/ buf_addr a i j + GDALGetDataTypeSizeBytes (eBufType a) <= o.

(** Between [s0] and [s] nothing was written but pixels of the buffer. *)
Definition only_pixels (a : RasterIOArgs) (s0 s : IOState) : Prop :=
  forall o, pixel_free a o -> buf s o = buf s0 o.


(** ** Vocabulary of the extent of a write *)

(** Pixel [(x, y)] of the raster lies in the window of the request. *)
Definition in_window (a : RasterIOArgs) (x y : Z) : Prop :=
  nXOff a <= x < nXOff a + nXSize a /\ nYOff a <= y < nYOff a + nYSize a.

(** Between [s0] and [s] the pixels of the raster outside the window were
    left as they were. *)
Definition outside_kept (b : Band) (a : RasterIOArgs) (s0 s : IOState) : Prop :=
  forall x y, 0 <= x < nRasterXSize b -> 0 <= y < nRasterYSize b ->
    ~ in_window a x y -> raster_pixel b s x y = raster_pixel b s0 x y.

(** The pixels of the raster that block [(bx, by_)] holds all lie in the
    window. *)
Definition block_in_window (b : Band) (a : RasterIOArgs) (bx by_ : Z) : Prop :=
  forall x y, 0 <= x < nRasterXSize b -> 0 <= y < nRasterYSize b ->
    Z.quot x (nBlockXSize b) = bx -> Z.quot y (nBlockYSize b) = by_ ->
    in_window a x y.


(** A write of a 2 x 2 buffer over the window [(1, 1, 2, 2)]. *)
Definition ex_inner_args : RasterIOArgs :=
  {| eRWFlag := GF_Write; nXOff := 1; nYOff := 1; nXSize := 2; nYSize := 2; pData := 0;
     nBufXSize := 2; nBufYSize := 2; eBufType := GDT_Byte;
     nPixelSpace := 1; nLineSpace := 2; psExtraArg := ex_extra |}.


(** The read of the window [(1, 1, 2, 2)] into a 2 x 2 buffer at address
    100. *)
Definition ex_back_args : RasterIOArgs :=
  {| eRWFlag := GF_Read; nXOff := 1; nYOff := 1; nXSize := 2; nYSize := 2; pData := 100;
     nBufXSize := 2; nBufYSize := 2; eBufType := GDT_Byte;
     nPixelSpace := 1; nLineSpace := 2; psExtraArg := ex_extra |}.


(** ** Vocabulary of the progress reports *)

(** A report to [pfnProgress] gives a fraction in [(0, 1]]. *)
Definition progress_ok (ev : Event) : Prop :=
  match ev with
  | EvProgress q _ => (0 < q)%Q /\ (q <= 1)%Q
  | _ => True
  end.

(** The fraction last reported in a trace (newest event first). *)
Fixpoint last_progress (tr : list Event) : option Q :=
  match tr with
  | [] => None
  | EvProgress q _ :: _ => Some q
  | _ :: r => last_progress r
  end.

(** The collaborator calls made between [s0] and [s] reported fractions in
    [(0, 1]] only. *)
Definition reports_ok (s0 s : IOState) : Prop :=
  exists new, trace s = new ++ trace s0 /\ Forall progress_ok new.

(** The callback, when there is one, was told [q] by the last of the
    reports made between [s0] and [s]. *)
Definition last_report (a : RasterIOArgs) (s0 s : IOState) (q : Q) : Prop :=
  pfnProgress (psExtraArg a) <> None ->
  exists new q',
    trace s = new ++ trace s0 /\ last_progress new = Some q' /\ (q' == q)%Q.

(** A request like [ex_args] with a progress callback that lets the call
    go on. *)
Definition ex_progress_args (rw : GDALRWFlag) (bx by_ : Z) : RasterIOArgs :=
  {| eRWFlag := rw; nXOff := 0; nYOff := 0; nXSize := 4; nYSize := 4; pData := 0;
     nBufXSize := bx; nBufYSize := by_; eBufType := GDT_Byte;
     nPixelSpace := 1; nLineSpace := bx;
     psExtraArg :=
       {| eResampleAlg := GRIORA_NearestNeighbour; pfnProgress := Some (fun _ => true);
          bFloatingPointWindowValidity := false;
          dfXOff := 0; dfYOff := 0; dfXSize := 0; dfYSize := 0 |} |}.


(* ------------------------------------------------------------------ *)
(** * Properties *)

Section Proofs.

Variable cfg : BuildConfig.
Variable i2f32 : Z -> list byte.
Variable i2f64 : Z -> list byte.
Variable fconv : CType -> CType -> list byte -> list byte.

(** C1 (as amended): when the band holds a deferred write-flush error, the
    next write request returns that error and clears it, and neither the
    buffer, nor any block, nor any collaborator is touched. *)
Theorem flush_error_replayed_on_write :
  forall (b : Band) (a : RasterIOArgs) (s : IOState),
    eRWFlag a = GF_Write ->
    eFlushBlockErr s <> CE_None ->
    exists s',
      IRasterIO cfg i2f32 i2f64 fconv b a s = Some (eFlushBlockErr s, s')
      /\ eFlushBlockErr s' = CE_None
      /\ buf s' = buf s /\ blocks s' = blocks s /\ trace s' = trace s.
Proof.
  intros b a s Hw He.
  exists (set_flush CE_None s).
  unfold IRasterIO. rewrite Hw. simpl.
  destruct (eFlushBlockErr s) eqn:E; simpl; try (exfalso; apply He; reflexivity);
    repeat split; reflexivity.
Qed.

(** C2 (as amended): reading the whole of a 4x4 byte raster into a packed
    2x2 buffer with nearest-neighbour resampling, whatever the block size
    from 1x1 to 4x4, returns the pixels at (1,1), (3,1), (1,3) and (3,3):
    the source coordinate of destination index [i] is the truncation of
    [(i + 0.5) * 2 + 0 + 1e-10], that is [2 * i + 1], kept inside the
    block being read. *)
Theorem decimated_read_samples_odd_pixels :
  forall (px : Z -> Z -> byte) (bw bh : Z),
    1 <= bw <= 4 -> 1 <= bh <= 4 ->
    let r := IRasterIO cfg i2f32 i2f64 fconv
               (ex_band 4 4 bw bh None) (ex_args GF_Read 2 2)
               (ex_state px bw bh CE_None) in
    result_err r = Some CE_None
    /\ result_bytes 4 r = Some [px 1 1; px 3 1; px 1 3; px 3 3]
    /\ (forall i, 0 <= i < 2 ->
          trunc ((inject_Z i + (1 # 2)) * (4 # 2) + inject_Z 0 + EPS)%Q = 2 * i + 1).
Proof.
  intros px bw bh Hw Hh.
  assert (Ew : bw = 1 \/ bw = 2 \/ bw = 3 \/ bw = 4) by lia.
  assert (Eh : bh = 1 \/ bh = 2 \/ bh = 3 \/ bh = 4) by lia.
  split; [|split].
  - destruct Ew as [-> | [-> | [-> | ->]]]; destruct Eh as [-> | [-> | [-> | ->]]];
      vm_compute; reflexivity.
  - destruct Ew as [-> | [-> | [-> | ->]]]; destruct Eh as [-> | [-> | [-> | ->]]];
      vm_compute; reflexivity.
  - intros i Hi. assert (Ei : i = 0 \/ i = 1) by lia.
    destruct Ei as [-> | ->]; vm_compute; reflexivity.
Qed.


(* ------------------------------------------------------------------ *)
(** ** Counted and stepped loops *)

Lemma for_loop_ext (S : Type) (f g : Z -> S -> S) :
  (forall i s, f i s = g i s) ->
  forall n i s, for_loop n i f s = for_loop n i g s.
Proof.
  intros H n. induction n as [|n IH]; intros i s; simpl; [reflexivity|].
  rewrite H. apply IH.
Qed.

Lemma for_loop_app (S : Type) (f : Z -> S -> S) (n m : nat) (i : Z) (s : S) :
  for_loop (n + m) i f s = for_loop m (i + Z.of_nat n) f (for_loop n i f s).
Proof.
  revert i s. induction n as [|n IH]; intros i s.
  - simpl. rewrite Z.add_0_r. reflexivity.
  - change (Datatypes.S n + m)%nat with (Datatypes.S (n + m)).
    cbn [for_loop]. rewrite IH. f_equal. lia.
Qed.

Lemma for_loop_shift (S : Type) (f : Z -> S -> S) (k : Z) (n : nat) (i : Z) (s : S) :
  for_loop n (i + k) f s = for_loop n i (fun j => f (j + k)) s.
Proof.
  revert i s. induction n as [|n IH]; intros i s; simpl; [reflexivity|].
  replace (i + k + 1) with (i + 1 + k) by lia. apply IH.
Qed.

(** A loop with step 1 is a counted loop, once the fuel covers it. *)
Lemma for_step_unit (S : Type) (f : Z -> S -> S) (fuel : nat) (n lim : Z) (s : S) :
  (Z.to_nat (lim - n) <= fuel)%nat ->
  snd (for_step fuel n lim 1 f s) = for_loop (Z.to_nat (lim - n)) n f s.
Proof.
  revert n s. induction fuel as [|fuel IH]; intros n s H.
  - assert (E : Z.to_nat (lim - n) = O) by lia. rewrite E. reflexivity.
  - simpl. destruct (n <? lim) eqn:C.
    + apply Z.ltb_lt in C.
      replace (Z.to_nat (lim - n)) with (Datatypes.S (Z.to_nat (lim - (n + 1)))) by lia.
      simpl. apply IH. lia.
    + apply Z.ltb_ge in C.
      assert (E : Z.to_nat (lim - n) = O) by lia. rewrite E. reflexivity.
Qed.

(** A loop over blocks of [w] iterations, each block doing what [w]
    iterations of [one] do, followed by the loop over the remaining
    iterations, amounts to the plain counted loop. *)
Lemma for_step_blocks (S : Type) (w : nat) (N : Z) (blk one : Z -> S -> S) :
  (0 < w)%nat ->
  (forall n s, blk n s = for_loop w n one s) ->
  forall (fuel : nat) (n0 : Z) (s : S),
    (Z.to_nat (N - n0) <= fuel)%nat ->
    for_loop (Z.to_nat (N - fst (for_step fuel n0 (N - (Z.of_nat w - 1)) (Z.of_nat w) blk s)))
             (fst (for_step fuel n0 (N - (Z.of_nat w - 1)) (Z.of_nat w) blk s)) one
             (snd (for_step fuel n0 (N - (Z.of_nat w - 1)) (Z.of_nat w) blk s))
    = for_loop (Z.to_nat (N - n0)) n0 one s
    /\ n0 <= fst (for_step fuel n0 (N - (Z.of_nat w - 1)) (Z.of_nat w) blk s).
Proof.
  intros Hw Hblk fuel. induction fuel as [|fuel IH]; intros n0 s H.
  - simpl. split; [reflexivity | lia].
  - simpl. destruct (n0 <? N - (Z.of_nat w - 1)) eqn:C.
    + apply Z.ltb_lt in C.
      destruct (IH (n0 + Z.of_nat w) (blk n0 s)) as [E L]; [lia|].
      split; [|lia]. rewrite E. rewrite Hblk.
      replace (Z.to_nat (N - n0)) with (w + Z.to_nat (N - (n0 + Z.of_nat w)))%nat by lia.
      rewrite for_loop_app. reflexivity.
    + simpl. split; [reflexivity | lia].
Qed.

Lemma simd_loop (S : Type) (w : nat) (N : Z) (blk one : Z -> S -> S) (s : S) :
  (0 < w)%nat ->
  (forall n s, blk n s = for_loop w n one s) ->
  (let '(n, d1) := for_step (Z.to_nat N) 0 (N - (Z.of_nat w - 1)) (Z.of_nat w) blk s in
   snd (for_step (Z.to_nat N) n N 1 one d1))
  = for_loop (Z.to_nat N) 0 one s.
Proof.
  intros Hw Hblk.
  destruct (@for_step_blocks S w N blk one Hw Hblk (Z.to_nat N) 0 s) as [E L]; [lia|].
  destruct (for_step (Z.to_nat N) 0 (N - (Z.of_nat w - 1)) (Z.of_nat w) blk s) as [n d1].
  simpl in E, L. rewrite for_step_unit by lia.
  rewrite E. rewrite Z.sub_0_r. reflexivity.
Qed.

(* ------------------------------------------------------------------ *)
(** ** Stores of byte lists *)

Lemma fit_length (n : nat) (bs : list byte) : List.length (fit n bs) = n.
Proof.
  revert bs. induction n as [|n IH]; intros bs; simpl; [reflexivity|].
  destruct bs; simpl; rewrite IH; reflexivity.
Qed.

Lemma fit_exact (n : nat) (bs : list byte) : List.length bs = n -> fit n bs = bs.
Proof.
  revert bs. induction n as [|n IH]; intros bs H; destruct bs; simpl in *;
    try discriminate; try reflexivity.
  rewrite IH by lia. reflexivity.
Qed.

Lemma load_bytes_length (m : mem) (a : Z) (n : nat) : List.length (load_bytes m a n) = n.
Proof. unfold load_bytes. rewrite length_map, length_seq. reflexivity. Qed.

Lemma store_bytes_nil (m : mem) (a : Z) : store_bytes m a [] = m.
Proof.
  apply functional_extensionality. intro x. unfold store_bytes. simpl.
  destruct (a <=? x) eqn:E1; simpl; [|reflexivity].
  destruct (x <? a + 0) eqn:E2; [|reflexivity].
  apply Z.leb_le in E1. apply Z.ltb_lt in E2. lia.
Qed.

Lemma store_bytes_app (m : mem) (a : Z) (l1 l2 : list byte) :
  store_bytes (store_bytes m a l1) (a + Z.of_nat (List.length l1)) l2
  = store_bytes m a (l1 ++ l2).
Proof.
  apply functional_extensionality. intro x. unfold store_bytes.
  rewrite length_app, Nat2Z.inj_add.
  destruct (a + Z.of_nat (List.length l1) <=? x) eqn:E1.
  - apply Z.leb_le in E1.
    destruct (x <? a + Z.of_nat (List.length l1) + Z.of_nat (List.length l2)) eqn:E2.
    + apply Z.ltb_lt in E2. simpl.
      assert (Ea : (a <=? x) = true) by (apply Z.leb_le; lia).
      assert (Eb : (x <? a + (Z.of_nat (List.length l1) + Z.of_nat (List.length l2))) = true)
        by (apply Z.ltb_lt; lia).
      rewrite Ea, Eb. simpl.
      rewrite app_nth2 by lia. f_equal. lia.
    + apply Z.ltb_ge in E2. simpl.
      assert (Eb : (x <? a + (Z.of_nat (List.length l1) + Z.of_nat (List.length l2))) = false)
        by (apply Z.ltb_ge; lia).
      assert (Ec : (x <? a + Z.of_nat (List.length l1)) = false) by (apply Z.ltb_ge; lia).
      rewrite Eb, Ec. rewrite !andb_false_r. reflexivity.
  - apply Z.leb_gt in E1. simpl.
    destruct (a <=? x) eqn:Ea; simpl; [|reflexivity].
    apply Z.leb_le in Ea.
    assert (Eb : (x <? a + (Z.of_nat (List.length l1) + Z.of_nat (List.length l2))) = true)
      by (apply Z.ltb_lt; lia).
    assert (Ec : (x <? a + Z.of_nat (List.length l1)) = true) by (apply Z.ltb_lt; lia).
    rewrite Eb, Ec. rewrite app_nth1 by lia. reflexivity.
Qed.

(** A packed run of [n] word stores is one store of the concatenated
    words. *)
Lemma packed_stores (sz : nat) (W : Z -> list byte) (pD : Z) :
  (forall k, List.length (W k) = sz) ->
  forall (n : nat) (i : Z) (d : mem),
    for_loop n i (fun k d => store_bytes d (pD + k * Z.of_nat sz) (W k)) d
    = store_bytes d (pD + i * Z.of_nat sz)
                  (concat (map (fun k => W (i + Z.of_nat k)) (seq 0 n))).
Proof.
  intros HW n. induction n as [|n IH]; intros i d.
  - simpl. rewrite store_bytes_nil. reflexivity.
  - cbn [for_loop]. rewrite IH.
    cbn [seq map concat]. rewrite Z.add_0_r.
    rewrite <- store_bytes_app. rewrite HW.
    replace (pD + i * Z.of_nat sz + Z.of_nat sz) with (pD + (i + 1) * Z.of_nat sz) by lia.
    f_equal. f_equal. rewrite <- seq_shift. rewrite map_map.
    apply map_ext. intro k. f_equal. lia.
Qed.

Lemma memcpy_store_bytes (dst : mem) (pD : Z) (src : mem) (pS : Z) (n : nat) :
  memcpy dst pD src pS (Z.of_nat n) = store_bytes dst pD (load_bytes src pS n).
Proof.
  apply functional_extensionality. intro x. unfold memcpy, store_bytes.
  rewrite load_bytes_length.
  destruct ((pD <=? x) && (x <? pD + Z.of_nat n)) eqn:E; [|reflexivity].
  apply andb_true_iff in E. destruct E as [E1 E2].
  apply Z.leb_le in E1. apply Z.ltb_lt in E2.
  unfold load_bytes.
  rewrite nth_indep with (d' := src (pS + Z.of_nat 0))
    by (rewrite length_map, length_seq; lia).
  rewrite (map_nth (fun k => src (pS + Z.of_nat k)) (seq 0 n) O).
  rewrite seq_nth by lia. f_equal. lia.
Qed.

(* ------------------------------------------------------------------ *)
(** ** Bytes and words as integers *)

Lemma Z_of_byte_range (b : byte) : 0 <= Z_of_byte b < 256.
Proof.
  unfold Z_of_byte. assert (H := Byte.to_N_bounded b). lia.
Qed.

Lemma byte_of_Z_of_byte (b : byte) : byte_of_Z (Z_of_byte b) = b.
Proof.
  unfold byte_of_Z, Z_of_byte.
  rewrite Z.mod_small by (apply Z_of_byte_range).
  rewrite N2Z.id. rewrite Byte.of_to_N. reflexivity.
Qed.

Lemma Z_of_byte_of_Z (z : Z) : Z_of_byte (byte_of_Z z) = z mod 256.
Proof.
  unfold byte_of_Z, Z_of_byte.
  assert (B : 0 <= z mod 256 < 256) by (apply Z.mod_pos_bound; lia).
  destruct (Byte.of_N (Z.to_N (z mod 256))) as [b|] eqn:E.
  - apply Byte.to_of_N in E. rewrite E. lia.
  - apply Byte.of_N_None_iff in E. lia.
Qed.

Lemma byte_of_Z_mod (z : Z) : byte_of_Z (z mod 256) = byte_of_Z z.
Proof. unfold byte_of_Z. rewrite Z.mod_mod by lia. reflexivity. Qed.

Lemma byte_of_Z_small (z : Z) (b : byte) : z mod 256 = Z_of_byte b -> byte_of_Z z = b.
Proof. intro H. rewrite <- byte_of_Z_mod, H. apply byte_of_Z_of_byte. Qed.

Lemma le_unsigned_2 (b0 b1 : byte) :
  le_unsigned [b0; b1] = Z_of_byte b0 + 256 * Z_of_byte b1.
Proof. cbn [le_unsigned]. lia. Qed.

Lemma le_unsigned_2_range (b0 b1 : byte) : 0 <= le_unsigned [b0; b1] < 65536.
Proof.
  rewrite le_unsigned_2.
  assert (H0 := Z_of_byte_range b0). assert (H1 := Z_of_byte_range b1). lia.
Qed.

Lemma le_signed_2 (b0 b1 : byte) :
  le_signed [b0; b1]
  = if le_unsigned [b0; b1] <? 32768 then le_unsigned [b0; b1]
    else le_unsigned [b0; b1] - 65536.
Proof. reflexivity. Qed.

Lemma le_unsigned_le_bytes_2 (z : Z) : le_unsigned (le_bytes 2 z) = z mod 65536.
Proof.
  cbn [le_bytes]. rewrite le_unsigned_2. rewrite !Z_of_byte_of_Z.
  Z.div_mod_to_equations. lia.
Qed.

Lemma le_signed_le_bytes_2 (z : Z) : le_signed (le_bytes 2 z) = wrap16 z.
Proof.
  unfold le_signed. rewrite le_unsigned_le_bytes_2. cbn [le_bytes List.length].
  change (2 ^ (8 * Z.of_nat 2)) with 65536. change (65536 / 2) with 32768.
  unfold wrap16. destruct (z mod 65536 <? 32768) eqn:E;
    [apply Z.ltb_lt in E | apply Z.ltb_ge in E]; Z.div_mod_to_equations; lia.
Qed.

Lemma wrap16_small (z : Z) : -32768 <= z < 32768 -> wrap16 z = z.
Proof. intro H. unfold wrap16. rewrite Z.mod_small by lia. lia. Qed.

Lemma le_bytes_2_le_unsigned (b0 b1 : byte) : le_bytes 2 (le_unsigned [b0; b1]) = [b0; b1].
Proof.
  cbn [le_bytes]. rewrite le_unsigned_2.
  assert (H0 := Z_of_byte_range b0). assert (H1 := Z_of_byte_range b1).
  f_equal; [|f_equal].
  - apply byte_of_Z_small. Z.div_mod_to_equations. lia.
  - apply byte_of_Z_small. Z.div_mod_to_equations. lia.
Qed.

Lemma le_signed_4_of_2 (b0 b1 : byte) :
  le_signed [b0; b1; x00; x00] = le_unsigned [b0; b1].
Proof.
  unfold le_signed. cbn [le_unsigned List.length].
  change (Z_of_byte x00) with 0.
  assert (H0 := Z_of_byte_range b0). assert (H1 := Z_of_byte_range b1).
  change (2 ^ (8 * Z.of_nat 4)) with 4294967296. change (4294967296 / 2) with 2147483648.
  destruct (_ <? _) eqn:E; [lia|]. apply Z.ltb_ge in E. lia.
Qed.

Lemma le_signed_4_of_1 (b0 : byte) :
  le_signed [b0; x00; x00; x00] = Z_of_byte b0.
Proof.
  rewrite le_signed_4_of_2. rewrite le_unsigned_2. change (Z_of_byte x00) with 0. lia.
Qed.

(* ------------------------------------------------------------------ *)
(** ** Byte memories *)

Lemma memcpy_nothing (dst : mem) (pD : Z) (src : mem) (pS n : Z) :
  n <= 0 -> memcpy dst pD src pS n = dst.
Proof.
  intro H. apply functional_extensionality. intro x. unfold memcpy.
  destruct (pD <=? x) eqn:E1; simpl; [|reflexivity].
  destruct (x <? pD + n) eqn:E2; [|reflexivity].
  apply Z.leb_le in E1. apply Z.ltb_lt in E2. lia.
Qed.

(* ------------------------------------------------------------------ *)
(** ** Blocks of the SIMD kernels *)

Lemma length_16 (A : Type) (l : list A) :
  List.length l = 16%nat ->
  exists a0 a1 a2 a3 a4 a5 a6 a7 a8 a9 a10 a11 a12 a13 a14 a15,
    l = [a0; a1; a2; a3; a4; a5; a6; a7; a8; a9; a10; a11; a12; a13; a14; a15].
Proof.
  intro H.
  do 16 (destruct l as [|? l]; [discriminate H|]).
  destruct l; [|discriminate H].
  repeat eexists.
Qed.

Lemma load_1 (m : mem) (a : Z) : load_bytes m a 1 = [m a].
Proof. unfold load_bytes. cbn [seq map Z.of_nat]. rewrite Z.add_0_r. reflexivity. Qed.

Lemma load_2 (m : mem) (a : Z) : load_bytes m a 2 = [m a; m (a + 1)].
Proof. unfold load_bytes. cbn [seq map]. rewrite Z.add_0_r. reflexivity. Qed.

(** A kernel block over 16 source bytes: storing [vec] of the 16 loaded
    bytes is storing the word [Wb] of each byte in turn. *)
Lemma kernel_block_bytes (Wb : byte -> list byte) (dsz : nat)
    (vec : list byte -> list byte) :
  (forall b, List.length (Wb b) = dsz) ->
  (forall bs, List.length bs = 16%nat -> vec bs = concat (map Wb bs)) ->
  forall (src : mem) (pS pD n : Z) (d : mem),
    store_bytes d (pD + n * Z.of_nat dsz) (vec (load_bytes src (pS + n) 16))
    = for_loop 16 n (fun k d => store_bytes d (pD + k * Z.of_nat dsz) (Wb (src (pS + k)))) d.
Proof.
  intros HW Hvec src pS pD n d.
  rewrite (@packed_stores dsz (fun k => Wb (src (pS + k))) pD (fun k => HW _)).
  f_equal. rewrite Hvec by apply load_bytes_length.
  f_equal. unfold load_bytes. rewrite map_map. apply map_ext.
  intro k. f_equal. f_equal. lia.
Qed.

Lemma store2_app (d : mem) (p : Z) (v0 v1 : list byte) :
  _mm_storeu_si128 (_mm_storeu_si128 d p v0) (p + 16) v1
  = store_bytes d p (fit 16 v0 ++ fit 16 v1).
Proof.
  unfold _mm_storeu_si128. rewrite <- store_bytes_app. rewrite fit_length. reflexivity.
Qed.

(** Byte to 16-bit words. *)
Lemma word_Byte_16 (tout : CType) (b : byte) :
  tout = TUInt16 \/ tout = TInt16 ->
  fit 2 (c_int_to i2f32 i2f64 tout (decode TByte [b])) = [b; x00].
Proof.
  intros [-> | ->]; cbn [c_int_to sizeof decode fit le_unsigned le_bytes];
    rewrite Z.mul_0_r, Z.add_0_r, byte_of_Z_of_byte;
    (replace (Z_of_byte b / 256) with 0
       by (assert (H := Z_of_byte_range b); Z.div_mod_to_equations; lia));
    reflexivity.
Qed.

Lemma decode_Byte_range (w : list byte) : 0 <= decode TByte w < 256.
Proof.
  unfold decode. cbn [sizeof fit].
  destruct w as [|b w]; cbn [le_unsigned].
  - change (Z_of_byte x00) with 0. lia.
  - assert (H := Z_of_byte_range b). lia.
Qed.

Lemma saturate_id (lo hi v : Z) : lo <= v <= hi -> saturate lo hi v = v.
Proof. unfold saturate. lia. Qed.

(** Widening a byte saturates nothing: the converter and the C assignment
    agree. *)
Lemma GDALCopyWord_Byte (tout : CType) (w : list byte) :
  tout <> TByte ->
  GDALCopyWord i2f32 i2f64 fconv TByte tout w = c_int_to i2f32 i2f64 tout (decode TByte w).
Proof.
  intro H. assert (R := decode_Byte_range w).
  unfold GDALCopyWord, c_int_to.
  destruct tout; try congruence; cbn [CType_eqb is_float type_min type_max];
    try reflexivity; rewrite saturate_id by lia; reflexivity.
Qed.

Lemma assign_word_Byte (tout : CType) (src : mem) (a : Z) (d : mem) (b : Z) :
  tout <> TByte ->
  assign_word i2f32 i2f64 TByte tout src a d b
  = copy_word i2f32 i2f64 fconv TByte tout src a d b.
Proof.
  intro H. unfold assign_word, copy_word. rewrite GDALCopyWord_Byte by exact H.
  reflexivity.
Qed.

Lemma GDALCopyWordsByteTo16Bit_generic (tout : CType) (src : mem) (pS sS : Z)
    (dst : mem) (pD dS n : Z) :
  tout = TUInt16 \/ tout = TInt16 ->
  GDALCopyWordsByteTo16Bit i2f32 i2f64 fconv tout src pS sS dst pD dS n
  = GDALCopyWordsGenericT i2f32 i2f64 fconv TByte tout src pS sS dst pD dS n.
Proof.
  intro Ht. unfold GDALCopyWordsByteTo16Bit.
  destruct ((sS =? 1) && (dS =? 2)) eqn:E; [|reflexivity].
  apply andb_true_iff in E. destruct E as [E1 E2].
  apply Z.eqb_eq in E1. apply Z.eqb_eq in E2. subst sS dS.
  assert (Hne : tout <> TByte) by (destruct Ht; subst; discriminate).
  change 15 with (Z.of_nat 16 - 1). change 16 with (Z.of_nat 16) at 1.
  rewrite simd_loop.
  - apply for_loop_ext. intros k d. rewrite assign_word_Byte by exact Hne.
    f_equal; lia.
  - lia.
  - intros k d. rewrite store2_app. unfold _mm_loadu_si128.
    assert (K := @kernel_block_bytes
              (fun b => fit 2 (c_int_to i2f32 i2f64 tout (decode TByte [b]))) 2
              (fun bs => fit 16 (_mm_unpacklo_epi8 bs _mm_setzero_si128)
                         ++ fit 16 (_mm_unpackhi_epi8 bs _mm_setzero_si128))
              (fun b => @fit_length 2 _)).
    change (Z.of_nat 2) with 2 in K.
    rewrite K.
    + apply for_loop_ext. intros j d0. unfold assign_word, store, load.
      rewrite load_1. destruct Ht as [-> | ->]; cbn [sizeof]; f_equal; lia.
    + intros bs Hbs. destruct (@length_16 _ bs Hbs)
        as (a0 & a1 & a2 & a3 & a4 & a5 & a6 & a7 & a8 & a9 & a10 & a11 & a12
            & a13 & a14 & a15 & ->).
      cbn [map concat app]. rewrite !(word_Byte_16 _ Ht). reflexivity.
Qed.

Lemma store_regs_concat (vs : list (list byte)) (d : mem) (a : Z) :
  store_regs d a vs = store_bytes d a (concat (map (fit 16) vs)).
Proof.
  revert d a. induction vs as [|v vs IH]; intros d a; cbn [store_regs map concat].
  - rewrite store_bytes_nil. reflexivity.
  - rewrite IH. unfold _mm_storeu_si128. rewrite <- store_bytes_app.
    rewrite fit_length. reflexivity.
Qed.

Lemma decode_Byte_1 (b : byte) : decode TByte [b] = Z_of_byte b.
Proof. unfold decode. cbn [sizeof fit le_unsigned]. lia. Qed.

Lemma word_Byte_32 (tout : CType) (b : byte) :
  tout = TUInt32 \/ tout = TInt32 ->
  fit 4 (c_int_to i2f32 i2f64 tout (decode TByte [b])) = [b; x00; x00; x00].
Proof.
  intro Ht. rewrite decode_Byte_1. assert (H := Z_of_byte_range b).
  destruct Ht as [-> | ->]; cbn [c_int_to sizeof fit le_bytes];
    rewrite byte_of_Z_of_byte;
    (replace (Z_of_byte b / 256) with 0 by (Z.div_mod_to_equations; lia));
    reflexivity.
Qed.

Lemma GDALCopyWordsByteTo32Bit_generic (tout : CType) (src : mem) (pS sS : Z)
    (dst : mem) (pD dS n : Z) :
  tout = TUInt32 \/ tout = TInt32 ->
  GDALCopyWordsByteTo32Bit i2f32 i2f64 fconv tout src pS sS dst pD dS n
  = GDALCopyWordsGenericT i2f32 i2f64 fconv TByte tout src pS sS dst pD dS n.
Proof.
  intro Ht. unfold GDALCopyWordsByteTo32Bit.
  destruct ((sS =? 1) && (dS =? 4)) eqn:E; [|reflexivity].
  apply andb_true_iff in E. destruct E as [E1 E2].
  apply Z.eqb_eq in E1. apply Z.eqb_eq in E2. subst sS dS.
  assert (Hne : tout <> TByte) by (destruct Ht; subst; discriminate).
  change 15 with (Z.of_nat 16 - 1). change 16 with (Z.of_nat 16) at 1.
  rewrite simd_loop.
  - apply for_loop_ext. intros k d. rewrite assign_word_Byte by exact Hne.
    f_equal; lia.
  - lia.
  - intros k d. rewrite store_regs_concat. unfold _mm_loadu_si128.
    assert (K := @kernel_block_bytes
              (fun b => fit 4 (c_int_to i2f32 i2f64 tout (decode TByte [b]))) 4
              (fun bs => concat (map (fit 16) (unpack_bytes_to_32 bs)))
              (fun b => @fit_length 4 _)).
    change (Z.of_nat 4) with 4 in K.
    rewrite K.
    + apply for_loop_ext. intros j d0. unfold assign_word, store, load.
      rewrite load_1. destruct Ht as [-> | ->]; cbn [sizeof]; f_equal; lia.
    + intros bs Hbs. destruct (@length_16 _ bs Hbs)
        as (a0 & a1 & a2 & a3 & a4 & a5 & a6 & a7 & a8 & a9 & a10 & a11 & a12
            & a13 & a14 & a15 & ->).
      cbn [map concat app]. rewrite !(word_Byte_32 _ Ht). reflexivity.
Qed.

(** The conversions of four, respectively two and two, 32-bit lanes. *)
Lemma cvtepi32_ps_16 (a0 a1 a2 a3 a4 a5 a6 a7 a8 a9 a10 a11 a12 a13 a14 a15 : byte) :
  fit 16 (_mm_cvtepi32_ps i2f32
            [a0; a1; a2; a3; a4; a5; a6; a7; a8; a9; a10; a11; a12; a13; a14; a15])
  = fit 4 (i2f32 (le_signed [a0; a1; a2; a3]))
    ++ fit 4 (i2f32 (le_signed [a4; a5; a6; a7]))
    ++ fit 4 (i2f32 (le_signed [a8; a9; a10; a11]))
    ++ fit 4 (i2f32 (le_signed [a12; a13; a14; a15])).
Proof.
  unfold _mm_cvtepi32_ps. cbn [lanes4 map concat].
  rewrite app_nil_r. apply fit_exact.
  rewrite !length_app, !fit_length. reflexivity.
Qed.

Lemma cvt_pd_pair_16 (a0 a1 a2 a3 a4 a5 a6 a7 a8 a9 a10 a11 a12 a13 a14 a15 : byte) :
  concat (map (fit 16)
            (cvt_pd_pair i2f64
               [a0; a1; a2; a3; a4; a5; a6; a7; a8; a9; a10; a11; a12; a13; a14; a15]))
  = fit 8 (i2f64 (le_signed [a0; a1; a2; a3]))
    ++ fit 8 (i2f64 (le_signed [a4; a5; a6; a7]))
    ++ fit 8 (i2f64 (le_signed [a8; a9; a10; a11]))
    ++ fit 8 (i2f64 (le_signed [a12; a13; a14; a15])).
Proof.
  unfold cvt_pd_pair, _mm_cvtepi32_pd, _mm_srli_si128_8.
  cbn [app lanes4 map concat firstn skipn repeat].
  rewrite !app_nil_r.
  rewrite !(@fit_exact 16) by (rewrite !length_app, !fit_length; reflexivity).
  rewrite <- !app_assoc. reflexivity.
Qed.

Lemma GDALCopyWordsT_Byte_float_generic (src : mem) (pS sS : Z)
    (dst : mem) (pD dS n : Z) :
  GDALCopyWordsT_Byte_float i2f32 i2f64 fconv src pS sS dst pD dS n
  = GDALCopyWordsGenericT i2f32 i2f64 fconv TByte TFloat src pS sS dst pD dS n.
Proof.
  unfold GDALCopyWordsT_Byte_float.
  destruct ((sS =? 1) && (dS =? 4)) eqn:E; [|reflexivity].
  apply andb_true_iff in E. destruct E as [E1 E2].
  apply Z.eqb_eq in E1. apply Z.eqb_eq in E2. subst sS dS.
  change 15 with (Z.of_nat 16 - 1). change 16 with (Z.of_nat 16) at 1.
  rewrite simd_loop.
  - apply for_loop_ext. intros k d. rewrite assign_word_Byte by discriminate.
    f_equal; lia.
  - lia.
  - intros k d. rewrite store_regs_concat. unfold _mm_loadu_si128.
    assert (K := @kernel_block_bytes
              (fun b => fit 4 (i2f32 (decode TByte [b]))) 4
              (fun bs => concat (map (fit 16)
                                   (map (_mm_cvtepi32_ps i2f32) (unpack_bytes_to_32 bs))))
              (fun b => @fit_length 4 _)).
    change (Z.of_nat 4) with 4 in K.
    rewrite K.
    + apply for_loop_ext. intros j d0. unfold assign_word, store, load.
      rewrite load_1. cbn [sizeof c_int_to]. f_equal; lia.
    + intros bs Hbs. destruct (@length_16 _ bs Hbs)
        as (a0 & a1 & a2 & a3 & a4 & a5 & a6 & a7 & a8 & a9 & a10 & a11 & a12
            & a13 & a14 & a15 & ->).
      unfold unpack_bytes_to_32, _mm_unpacklo_epi8, _mm_unpackhi_epi8,
        _mm_unpacklo_epi16, _mm_unpackhi_epi16, _mm_setzero_si128.
      cbn [map concat firstn skipn repeat interleave1 interleave2].
      rewrite !cvtepi32_ps_16, !le_signed_4_of_1, !decode_Byte_1.
      rewrite <- ?app_assoc, ?app_nil_r. reflexivity.
Qed.

Lemma GDALCopyWordsT_Byte_double_generic (src : mem) (pS sS : Z)
    (dst : mem) (pD dS n : Z) :
  GDALCopyWordsT_Byte_double i2f32 i2f64 fconv src pS sS dst pD dS n
  = GDALCopyWordsGenericT i2f32 i2f64 fconv TByte TDouble src pS sS dst pD dS n.
Proof.
  unfold GDALCopyWordsT_Byte_double.
  destruct ((sS =? 1) && (dS =? 8)) eqn:E; [|reflexivity].
  apply andb_true_iff in E. destruct E as [E1 E2].
  apply Z.eqb_eq in E1. apply Z.eqb_eq in E2. subst sS dS.
  change 15 with (Z.of_nat 16 - 1). change 16 with (Z.of_nat 16) at 1.
  rewrite simd_loop.
  - apply for_loop_ext. intros k d. rewrite assign_word_Byte by discriminate.
    f_equal; lia.
  - lia.
  - intros k d. rewrite store_regs_concat. unfold _mm_loadu_si128.
    assert (K := @kernel_block_bytes
              (fun b => fit 8 (i2f64 (decode TByte [b]))) 8
              (fun bs => concat (map (fit 16)
                                   (concat (map (cvt_pd_pair i2f64)
                                                (unpack_bytes_to_32 bs)))))
              (fun b => @fit_length 8 _)).
    change (Z.of_nat 8) with 8 in K.
    rewrite K.
    + apply for_loop_ext. intros j d0. unfold assign_word, store, load.
      rewrite load_1. cbn [sizeof c_int_to]. f_equal; lia.
    + intros bs Hbs. destruct (@length_16 _ bs Hbs)
        as (a0 & a1 & a2 & a3 & a4 & a5 & a6 & a7 & a8 & a9 & a10 & a11 & a12
            & a13 & a14 & a15 & ->).
      unfold unpack_bytes_to_32, _mm_unpacklo_epi8, _mm_unpackhi_epi8,
        _mm_unpacklo_epi16, _mm_unpackhi_epi16, _mm_setzero_si128.
      cbn [map firstn skipn repeat interleave1 interleave2].
      cbn [concat]. rewrite app_nil_r. rewrite !map_app, !concat_app.
      rewrite !cvt_pd_pair_16, !le_signed_4_of_1.
      cbn [map concat]. rewrite !decode_Byte_1.
      rewrite <- ?app_assoc, ?app_nil_r. reflexivity.
Qed.

(** A kernel block over 8 source words of 2 bytes. *)
Lemma kernel_block_words2 (Ww : list byte -> list byte) (dsz : nat)
    (vec : list byte -> list byte) :
  (forall x, List.length (Ww x) = dsz) ->
  (forall bs, List.length bs = 16%nat -> vec bs = concat (map Ww (lanes2 bs))) ->
  forall (src : mem) (pS pD n : Z) (d : mem),
    store_bytes d (pD + n * Z.of_nat dsz) (vec (load_bytes src (pS + 2 * n) 16))
    = for_loop 8 n
        (fun k d => store_bytes d (pD + k * Z.of_nat dsz)
                                (Ww (load_bytes src (pS + 2 * k) 2))) d.
Proof.
  intros HW Hvec src pS pD n d.
  rewrite (@packed_stores dsz (fun k => Ww (load_bytes src (pS + 2 * k) 2)) pD
             (fun k => HW _)).
  f_equal. rewrite Hvec by apply load_bytes_length.
  f_equal. unfold load_bytes. cbn [seq map lanes2 Z.of_nat Pos.of_succ_nat Pos.succ].
  repeat (f_equal; try lia).
Qed.

Lemma decode_UInt16_2 (a b : byte) : decode TUInt16 [a; b] = le_unsigned [a; b].
Proof. reflexivity. Qed.

Lemma decode_UInt16_range (w : list byte) : 0 <= decode TUInt16 w < 65536.
Proof.
  unfold decode. cbn [sizeof fit].
  destruct w as [|a [|b w]]; cbn [fit]; apply le_unsigned_2_range.
Qed.

Lemma le_signed_pair (z : Z) : le_signed [byte_of_Z z; byte_of_Z (z / 256)] = wrap16 z.
Proof. exact (le_signed_le_bytes_2 z). Qed.

(** The lane arithmetic of the two saturating kernels: shifting to the
    signed range, taking the minimum with the shifted bound and shifting
    back is taking the minimum with the bound. *)
Lemma lane_min_raw (a b : byte) (bound : Z) :
  0 <= bound < 32768 ->
  wrap16 (Z.min (wrap16 (le_signed [a; b] + wrap16 (-32768)))
                (wrap16 (bound - 32768)))
  - wrap16 (-32768)
  = Z.min (le_unsigned [a; b]) bound.
Proof.
  intro Hb. rewrite le_signed_2. assert (R := le_unsigned_2_range a b).
  set (v := le_unsigned [a; b]) in *.
  change (wrap16 (-32768)) with (-32768).
  rewrite (wrap16_small (z := bound - 32768)) by lia.
  assert (E : wrap16 ((if v <? 32768 then v else v - 65536) + -32768) = v - 32768).
  { destruct (v <? 32768) eqn:C; [apply Z.ltb_lt in C | apply Z.ltb_ge in C].
    - apply wrap16_small. lia.
    - unfold wrap16. replace (v - 65536 + -32768 + 32768) with (v + (-1) * 65536) by lia.
      rewrite Z.mod_add by lia. rewrite Z.mod_small by lia. lia. }
  rewrite E. rewrite wrap16_small by lia. lia.
Qed.

Lemma lane_min (a b : byte) (bound : Z) :
  0 <= bound < 32768 ->
  wrap16 (wrap16 (Z.min (wrap16 (le_signed [a; b] + wrap16 (-32768)))
                        (wrap16 (bound - 32768)))
          - wrap16 (-32768))
  = Z.min (le_unsigned [a; b]) bound.
Proof.
  intro Hb. rewrite lane_min_raw by exact Hb.
  assert (R := le_unsigned_2_range a b). apply wrap16_small. lia.
Qed.

Lemma tail_UInt16_Byte (w : list byte) :
  (if 255 <=? decode TUInt16 w then le_bytes 1 255
   else c_int_to i2f32 i2f64 TByte (decode TUInt16 w))
  = le_bytes 1 (Z.min (decode TUInt16 w) 255).
Proof.
  destruct (255 <=? decode TUInt16 w) eqn:C;
    [apply Z.leb_le in C | apply Z.leb_gt in C]; cbn [c_int_to sizeof].
  - rewrite Z.min_r by lia. reflexivity.
  - rewrite Z.min_l by lia. reflexivity.
Qed.

Lemma tail_UInt16_Int16 (w : list byte) :
  (if 32767 <=? decode TUInt16 w then le_bytes 2 32767
   else c_int_to i2f32 i2f64 TInt16 (decode TUInt16 w))
  = le_bytes 2 (Z.min (decode TUInt16 w) 32767).
Proof.
  destruct (32767 <=? decode TUInt16 w) eqn:C;
    [apply Z.leb_le in C | apply Z.leb_gt in C]; cbn [c_int_to sizeof].
  - rewrite Z.min_r by lia. reflexivity.
  - rewrite Z.min_l by lia. reflexivity.
Qed.

Lemma GDALCopyWord_UInt16_Byte (w : list byte) :
  GDALCopyWord i2f32 i2f64 fconv TUInt16 TByte w = le_bytes 1 (Z.min (decode TUInt16 w) 255).
Proof.
  assert (R := decode_UInt16_range w).
  unfold GDALCopyWord. cbn [CType_eqb is_float type_min type_max sizeof].
  f_equal. unfold saturate. lia.
Qed.

Lemma GDALCopyWord_UInt16_Int16 (w : list byte) :
  GDALCopyWord i2f32 i2f64 fconv TUInt16 TInt16 w
  = le_bytes 2 (Z.min (decode TUInt16 w) 32767).
Proof.
  assert (R := decode_UInt16_range w).
  unfold GDALCopyWord. cbn [CType_eqb is_float type_min type_max sizeof].
  f_equal. unfold saturate. lia.
Qed.

Lemma GDALCopyWordsT_UInt16_Byte_generic (src : mem) (pS sS : Z)
    (dst : mem) (pD dS n : Z) :
  GDALCopyWordsT_UInt16_Byte i2f32 i2f64 fconv src pS sS dst pD dS n
  = GDALCopyWordsGenericT i2f32 i2f64 fconv TUInt16 TByte src pS sS dst pD dS n.
Proof.
  unfold GDALCopyWordsT_UInt16_Byte.
  destruct ((sS =? 2) && (dS =? 1)) eqn:E; [|reflexivity].
  apply andb_true_iff in E. destruct E as [E1 E2].
  apply Z.eqb_eq in E1. apply Z.eqb_eq in E2. subst sS dS.
  change 7 with (Z.of_nat 8 - 1). change 8 with (Z.of_nat 8) at 1.
  rewrite simd_loop.
  - apply for_loop_ext. intros k d. unfold copy_word.
    rewrite tail_UInt16_Byte, GDALCopyWord_UInt16_Byte. unfold load.
    repeat (f_equal; try lia).
  - lia.
  - intros k d. unfold GDALCopyXMMToInt64, _mm_loadu_si128.
    assert (K := @kernel_block_words2
              (fun w => fit 1 (le_bytes 1 (Z.min (decode TUInt16 w) 255))) 1
              (fun bs =>
                 fit 8 (let xmm := _mm_add_epi16 bs (_mm_set1_epi16 (-32768)) in
                        let xmm := _mm_min_epi16 xmm (_mm_set1_epi16 (255 - 32768)) in
                        let xmm := _mm_sub_epi16 xmm (_mm_set1_epi16 (-32768)) in
                        _mm_packus_epi16 xmm xmm))
              (fun w => @fit_length 1 _)).
    change (Z.of_nat 1) with 1 in K. cbv zeta in K.
    replace (pD + k) with (pD + k * 1) by lia.
    rewrite K.
    + apply for_loop_ext. intros j d0. rewrite tail_UInt16_Byte.
      unfold store, load. cbn [sizeof]. f_equal. lia.
    + intros bs Hbs. destruct (@length_16 _ bs Hbs)
        as (a0 & a1 & a2 & a3 & a4 & a5 & a6 & a7 & a8 & a9 & a10 & a11 & a12
            & a13 & a14 & a15 & ->).
      unfold _mm_add_epi16, _mm_min_epi16, _mm_sub_epi16, _mm_packus_epi16,
        _mm_set1_epi16.
      cbn [lanes2 zip_with concat repeat app le_bytes map fit].
      rewrite !le_signed_pair.
      rewrite !lane_min by lia.
      rewrite !decode_UInt16_2.
      rewrite !saturate_id
        by (match goal with |- _ <= Z.min (le_unsigned [?a; ?b]) _ <= _ =>
              assert (R := le_unsigned_2_range a b); lia end).
      reflexivity.
Qed.

Lemma GDALCopyWordsT_UInt16_Int16_generic (src : mem) (pS sS : Z)
    (dst : mem) (pD dS n : Z) :
  GDALCopyWordsT_UInt16_Int16 i2f32 i2f64 fconv src pS sS dst pD dS n
  = GDALCopyWordsGenericT i2f32 i2f64 fconv TUInt16 TInt16 src pS sS dst pD dS n.
Proof.
  unfold GDALCopyWordsT_UInt16_Int16.
  destruct ((sS =? 2) && (dS =? 2)) eqn:E; [|reflexivity].
  apply andb_true_iff in E. destruct E as [E1 E2].
  apply Z.eqb_eq in E1. apply Z.eqb_eq in E2. subst sS dS.
  change 7 with (Z.of_nat 8 - 1). change 8 with (Z.of_nat 8) at 1.
  rewrite simd_loop.
  - apply for_loop_ext. intros k d. unfold copy_word.
    rewrite tail_UInt16_Int16, GDALCopyWord_UInt16_Int16. unfold load.
    repeat (f_equal; try lia).
  - lia.
  - intros k d. unfold _mm_storeu_si128, _mm_loadu_si128.
    assert (K := @kernel_block_words2
              (fun w => fit 2 (le_bytes 2 (Z.min (decode TUInt16 w) 32767))) 2
              (fun bs =>
                 fit 16 (let xmm := _mm_add_epi16 bs (_mm_set1_epi16 (-32768)) in
                         let xmm := _mm_min_epi16 xmm (_mm_set1_epi16 (32767 - 32768)) in
                         _mm_sub_epi16 xmm (_mm_set1_epi16 (-32768))))
              (fun w => @fit_length 2 _)).
    change (Z.of_nat 2) with 2 in K. cbv zeta in K.
    replace (pD + 2 * k) with (pD + k * 2) by lia.
    rewrite K.
    + apply for_loop_ext. intros j d0. rewrite tail_UInt16_Int16.
      unfold store, load. cbn [sizeof]. repeat (f_equal; try lia).
    + intros bs Hbs. destruct (@length_16 _ bs Hbs)
        as (a0 & a1 & a2 & a3 & a4 & a5 & a6 & a7 & a8 & a9 & a10 & a11 & a12
            & a13 & a14 & a15 & ->).
      unfold _mm_add_epi16, _mm_min_epi16, _mm_sub_epi16, _mm_set1_epi16.
      cbn [lanes2 zip_with concat repeat app le_bytes map fit].
      rewrite !le_signed_pair.
      rewrite !lane_min_raw by lia.
      rewrite !decode_UInt16_2.
      reflexivity.
Qed.

Lemma assign_word_UInt16_float (tout : CType) (src : mem) (a : Z) (d : mem) (b : Z) :
  tout = TFloat \/ tout = TDouble ->
  assign_word i2f32 i2f64 TUInt16 tout src a d b
  = copy_word i2f32 i2f64 fconv TUInt16 tout src a d b.
Proof. intros [-> | ->]; reflexivity. Qed.

Lemma GDALCopyWordsT_UInt16_float_generic (src : mem) (pS sS : Z)
    (dst : mem) (pD dS n : Z) :
  GDALCopyWordsT_UInt16_float i2f32 i2f64 fconv src pS sS dst pD dS n
  = GDALCopyWordsGenericT i2f32 i2f64 fconv TUInt16 TFloat src pS sS dst pD dS n.
Proof.
  unfold GDALCopyWordsT_UInt16_float.
  destruct ((sS =? 2) && (dS =? 4)) eqn:E; [|reflexivity].
  apply andb_true_iff in E. destruct E as [E1 E2].
  apply Z.eqb_eq in E1. apply Z.eqb_eq in E2. subst sS dS.
  change 7 with (Z.of_nat 8 - 1). change 8 with (Z.of_nat 8) at 1.
  rewrite simd_loop.
  - apply for_loop_ext. intros k d. rewrite assign_word_UInt16_float by (left; reflexivity).
    f_equal; lia.
  - lia.
  - intros k d. rewrite store_regs_concat. unfold _mm_loadu_si128.
    assert (K := @kernel_block_words2
              (fun w => fit 4 (i2f32 (decode TUInt16 w))) 4
              (fun bs => concat (map (fit 16)
                                   (map (_mm_cvtepi32_ps i2f32) (unpack_16_to_32 bs))))
              (fun w => @fit_length 4 _)).
    change (Z.of_nat 4) with 4 in K.
    rewrite K.
    + apply for_loop_ext. intros j d0. unfold assign_word, store, load.
      cbn [sizeof c_int_to]. repeat (f_equal; try lia).
    + intros bs Hbs. destruct (@length_16 _ bs Hbs)
        as (a0 & a1 & a2 & a3 & a4 & a5 & a6 & a7 & a8 & a9 & a10 & a11 & a12
            & a13 & a14 & a15 & ->).
      unfold unpack_16_to_32, _mm_unpacklo_epi16, _mm_unpackhi_epi16, _mm_setzero_si128.
      cbn [map concat firstn skipn repeat interleave2 lanes2].
      rewrite !cvtepi32_ps_16, !le_signed_4_of_2, !decode_UInt16_2.
      rewrite <- ?app_assoc, ?app_nil_r. reflexivity.
Qed.

Lemma GDALCopyWordsT_UInt16_double_generic (src : mem) (pS sS : Z)
    (dst : mem) (pD dS n : Z) :
  GDALCopyWordsT_UInt16_double i2f32 i2f64 fconv src pS sS dst pD dS n
  = GDALCopyWordsGenericT i2f32 i2f64 fconv TUInt16 TDouble src pS sS dst pD dS n.
Proof.
  unfold GDALCopyWordsT_UInt16_double.
  destruct ((sS =? 2) && (dS =? 8)) eqn:E; [|reflexivity].
  apply andb_true_iff in E. destruct E as [E1 E2].
  apply Z.eqb_eq in E1. apply Z.eqb_eq in E2. subst sS dS.
  change 7 with (Z.of_nat 8 - 1). change 8 with (Z.of_nat 8) at 1.
  rewrite simd_loop.
  - apply for_loop_ext. intros k d. rewrite assign_word_UInt16_float by (right; reflexivity).
    f_equal; lia.
  - lia.
  - intros k d. rewrite store_regs_concat. unfold _mm_loadu_si128.
    assert (K := @kernel_block_words2
              (fun w => fit 8 (i2f64 (decode TUInt16 w))) 8
              (fun bs => concat (map (fit 16)
                                   (concat (map (cvt_pd_pair i2f64)
                                                (unpack_16_to_32 bs)))))
              (fun w => @fit_length 8 _)).
    change (Z.of_nat 8) with 8 in K.
    rewrite K.
    + apply for_loop_ext. intros j d0. unfold assign_word, store, load.
      cbn [sizeof c_int_to]. repeat (f_equal; try lia).
    + intros bs Hbs. destruct (@length_16 _ bs Hbs)
        as (a0 & a1 & a2 & a3 & a4 & a5 & a6 & a7 & a8 & a9 & a10 & a11 & a12
            & a13 & a14 & a15 & ->).
      unfold unpack_16_to_32, _mm_unpacklo_epi16, _mm_unpackhi_epi16, _mm_setzero_si128.
      cbn [map firstn skipn repeat interleave2 lanes2].
      cbn [concat]. rewrite app_nil_r. rewrite !map_app, !concat_app.
      rewrite !cvt_pd_pair_16, !le_signed_4_of_2.
      cbn [map concat]. rewrite !decode_UInt16_2.
      rewrite <- ?app_assoc, ?app_nil_r. reflexivity.
Qed.

Lemma for_loop_from_0 (S : Type) (f : Z -> S -> S) (k : Z) (n : nat) (s : S) :
  for_loop n k f s = for_loop n 0 (fun j => f (j + k)) s.
Proof. exact (for_loop_shift f k n 0 s). Qed.

Lemma GDALCopyWordsT_8atatime_generic (tin tout : CType) (src : mem) (pS sS : Z)
    (dst : mem) (pD dS n : Z) :
  GDALCopyWordsT_8atatime i2f32 i2f64 fconv tin tout src pS sS dst pD dS n
  = GDALCopyWordsGenericT i2f32 i2f64 fconv tin tout src pS sS dst pD dS n.
Proof.
  unfold GDALCopyWordsT_8atatime, GDALCopyWordsGenericT.
  destruct ((sS =? zsizeof tin) && (dS =? zsizeof tout)) eqn:E.
  - apply andb_true_iff in E. destruct E as [E1 E2].
    apply Z.eqb_eq in E1. apply Z.eqb_eq in E2.
    change 7 with (Z.of_nat 8 - 1). change 8 with (Z.of_nat 8) at 1.
    apply simd_loop; [lia|].
    intros k d. unfold GDALCopy8Words.
    rewrite (for_loop_from_0 _ k).
    apply for_loop_ext. intros j d0. subst sS dS. f_equal; lia.
  - rewrite for_step_unit by lia. rewrite Z.sub_0_r. reflexivity.
Qed.

(* ------------------------------------------------------------------ *)
(** ** The kernels against the generic loop *)

Lemma GDALCopyWordsT_generic (tin tout : CType) (src : mem) (pS sS : Z)
    (dst : mem) (pD dS n : Z) :
  GDALCopyWordsT cfg i2f32 i2f64 fconv tin tout src pS sS dst pD dS n
  = GDALCopyWordsGenericT i2f32 i2f64 fconv tin tout src pS sS dst pD dS n.
Proof.
  unfold GDALCopyWordsT.
  destruct (cfg_x86_64 cfg), tin, tout; cbv beta iota zeta; try reflexivity;
    first [ apply GDALCopyWordsByteTo16Bit_generic; auto
          | apply GDALCopyWordsByteTo32Bit_generic; auto
          | apply GDALCopyWordsT_Byte_float_generic
          | apply GDALCopyWordsT_Byte_double_generic
          | apply GDALCopyWordsT_UInt16_Byte_generic
          | apply GDALCopyWordsT_UInt16_Int16_generic
          | apply GDALCopyWordsT_UInt16_float_generic
          | apply GDALCopyWordsT_UInt16_double_generic
          | apply GDALCopyWordsT_8atatime_generic ].
Qed.

Lemma known_type_neq (e : GDALDataType) : known_type e = true -> e <> GDT_Unknown.
Proof. intros H ->. discriminate H. Qed.

Lemma GDALCopyWords_switch_generic (src : mem) (pS : Z) (eS : GDALDataType) (sS : Z)
    (dst : mem) (pD : Z) (eD : GDALDataType) (dS n : Z) :
  known_type eS = true -> known_type eD = true ->
  GDALCopyWords_switch cfg i2f32 i2f64 fconv src pS eS sS dst pD eD dS n
  = GDALCopyWords_generic i2f32 i2f64 fconv src pS eS sS dst pD eD dS n.
Proof.
  intros HS HD.
  unfold GDALCopyWords_switch, GDALCopyWordsFromT, GDALCopyWords_generic,
    convert_pixel, convert_pixel_t.
  destruct eS; try discriminate HS; destruct eD; try discriminate HD;
    cbv beta iota zeta delta [component_type GDALDataTypeIsComplex];
    rewrite ?GDALCopyWordsT_generic; reflexivity.
Qed.

(* ------------------------------------------------------------------ *)
(** ** One pixel as a store of bytes *)

Lemma load_bytes_S (m : mem) (a : Z) (n : nat) :
  load_bytes m a (Datatypes.S n) = m a :: load_bytes m (a + 1) n.
Proof.
  unfold load_bytes. cbn [seq map]. f_equal.
  - f_equal. lia.
  - rewrite <- seq_shift, map_map. apply map_ext. intro j. f_equal. lia.
Qed.

Lemma load_bytes_app (m : mem) (a : Z) (n k : nat) :
  load_bytes m a (n + k) = load_bytes m a n ++ load_bytes m (a + Z.of_nat n) k.
Proof.
  revert a. induction n as [|n IH]; intro a.
  - cbn [Nat.add]. unfold load_bytes at 2. cbn [seq map app]. f_equal. lia.
  - cbn [Nat.add]. rewrite !load_bytes_S, IH. cbn [app]. do 3 f_equal. lia.
Qed.

Lemma firstn_load_bytes (m : mem) (a : Z) (n k : nat) :
  firstn n (load_bytes m a (n + k)) = load_bytes m a n.
Proof.
  rewrite load_bytes_app. rewrite firstn_app, load_bytes_length, Nat.sub_diag.
  cbn [firstn]. rewrite app_nil_r. apply firstn_all2. rewrite load_bytes_length. lia.
Qed.

Lemma skipn_load_bytes (m : mem) (a : Z) (n k : nat) :
  skipn n (load_bytes m a (n + k)) = load_bytes m (a + Z.of_nat n) k.
Proof.
  rewrite load_bytes_app. rewrite skipn_app, load_bytes_length, Nat.sub_diag.
  cbn [skipn]. rewrite skipn_all2 by (rewrite load_bytes_length; lia). reflexivity.
Qed.

Lemma nth_load_bytes (m : mem) (n : nat) :
  forall (a : Z) (j : nat) (d : byte),
    (j < n)%nat -> nth j (load_bytes m a n) d = m (a + Z.of_nat j).
Proof.
  induction n as [|n IH]; intros a j d Hj; [lia|].
  rewrite load_bytes_S. destruct j as [|j]; cbn [nth].
  - f_equal. lia.
  - rewrite IH by lia. f_equal. lia.
Qed.

Lemma load_bytes_store_bytes (m : mem) (a : Z) (bs : list byte) :
  load_bytes (store_bytes m a bs) a (List.length bs) = bs.
Proof.
  apply nth_ext with (d := x00) (d' := x00).
  - apply load_bytes_length.
  - intros j Hj. rewrite load_bytes_length in Hj.
    rewrite nth_load_bytes by exact Hj. unfold store_bytes.
    replace ((a <=? a + Z.of_nat j) && (a + Z.of_nat j <? a + Z.of_nat (List.length bs)))
      with true by (symmetry; apply andb_true_iff; split;
                    [apply Z.leb_le | apply Z.ltb_lt]; lia).
    f_equal. lia.
Qed.

Lemma pixel_bytes_t_length (tin : CType) (cin : bool) (tout : CType) (cout : bool)
    (w : list byte) :
  List.length (pixel_bytes_t i2f32 i2f64 fconv tin cin tout cout w) = pixel_size tout cout.
Proof.
  unfold pixel_bytes_t, pixel_size. destruct cout.
  - rewrite length_app, !fit_length. reflexivity.
  - apply fit_length.
Qed.

(** A pixel conversion reads the bytes of one source pixel and stores the
    bytes of one destination pixel. *)
Lemma convert_pixel_t_store (tin : CType) (cin : bool) (tout : CType) (cout : bool)
    (src : mem) (a : Z) (dst : mem) (b : Z) :
  convert_pixel_t i2f32 i2f64 fconv tin cin tout cout src a dst b
  = store_bytes dst b
      (pixel_bytes_t i2f32 i2f64 fconv tin cin tout cout
         (load_bytes src a (pixel_size tin cin))).
Proof.
  unfold convert_pixel_t, pixel_bytes_t, copy_word, store, load, zsizeof.
  assert (F : firstn (sizeof tin) (load_bytes src a (pixel_size tin cin))
              = load_bytes src a (sizeof tin)).
  { unfold pixel_size. destruct cin.
    - apply firstn_load_bytes.
    - apply firstn_all2. rewrite load_bytes_length. lia. }
  rewrite F. destruct cout; [|reflexivity].
  rewrite <- store_bytes_app, fit_length.
  destruct cin; [|reflexivity].
  unfold pixel_size. rewrite skipn_load_bytes. reflexivity.
Qed.

Lemma convert_pixel_store (eS eD : GDALDataType) (src : mem) (a : Z) (dst : mem) (b : Z) :
  convert_pixel i2f32 i2f64 fconv eS eD src a dst b
  = store_bytes dst b
      (pixel_bytes i2f32 i2f64 fconv eS eD
         (load_bytes src a (pixel_size (component_type eS) (GDALDataTypeIsComplex eS)))).
Proof. apply convert_pixel_t_store. Qed.

Lemma pixel_size_bytes (e : GDALDataType) :
  known_type e = true ->
  GDALGetDataTypeSizeBytes e
  = Z.of_nat (pixel_size (component_type e) (GDALDataTypeIsComplex e)).
Proof. destruct e; try discriminate; reflexivity. Qed.

Lemma pixel_bytes_same (e : GDALDataType) (w : list byte) :
  List.length w = pixel_size (component_type e) (GDALDataTypeIsComplex e) ->
  pixel_bytes i2f32 i2f64 fconv e e w = w.
Proof.
  unfold pixel_bytes, pixel_bytes_t, pixel_size, GDALCopyWord.
  assert (E : CType_eqb (component_type e) (component_type e) = true)
    by (destruct (component_type e); reflexivity).
  rewrite E. intro H. destruct (GDALDataTypeIsComplex e).
  - rewrite !fit_exact.
    + apply firstn_skipn.
    + rewrite length_skipn. lia.
    + rewrite length_firstn. lia.
  - rewrite firstn_all2 by lia. apply fit_exact. exact H.
Qed.

(** A pixel copied between identical types is a [memcpy]. *)
Lemma convert_pixel_same (e : GDALDataType) (src : mem) (a : Z) (dst : mem) (b : Z) :
  known_type e = true ->
  convert_pixel i2f32 i2f64 fconv e e src a dst b
  = memcpy dst b src a (GDALGetDataTypeSizeBytes e).
Proof.
  intro H. rewrite convert_pixel_store, pixel_bytes_same by apply load_bytes_length.
  rewrite pixel_size_bytes by exact H. symmetry. apply memcpy_store_bytes.
Qed.

(* ------------------------------------------------------------------ *)
(** ** Copies between identical types *)

Lemma memcpy_app (d : mem) (a : Z) (src : mem) (b n1 n2 : Z) :
  0 <= n1 -> 0 <= n2 ->
  memcpy (memcpy d a src b n1) (a + n1) src (b + n1) n2 = memcpy d a src b (n1 + n2).
Proof.
  intros H1 H2. apply functional_extensionality. intro x. unfold memcpy. mem_cases.
Qed.

Lemma store_load_memcpy (t : CType) (d : mem) (b : Z) (src : mem) (a : Z) :
  store t d b (load t src a) = memcpy d b src a (zsizeof t).
Proof.
  unfold store, load, zsizeof. rewrite fit_exact by apply load_bytes_length.
  symmetry. apply memcpy_store_bytes.
Qed.

(** The strided copy of [n] words of [sz] bytes, the common form of all
    the same-type paths. *)
Lemma memcpy_packed_loop (src : mem) (pS pD sz : Z) :
  0 <= sz ->
  forall (n : nat) (i : Z) (d : mem),
    for_loop n i (fun k d => memcpy d (pD + k * sz) src (pS + k * sz) sz) d
    = memcpy d (pD + i * sz) src (pS + i * sz) (Z.of_nat n * sz).
Proof.
  intros Hsz n. induction n as [|n IH]; intros i d.
  - cbn [for_loop]. symmetry. apply memcpy_nothing. lia.
  - cbn [for_loop]. rewrite IH.
    replace (pD + (i + 1) * sz) with (pD + i * sz + sz) by lia.
    replace (pS + (i + 1) * sz) with (pS + i * sz + sz) by lia.
    rewrite memcpy_app by lia. f_equal. lia.
Qed.

Lemma for_loop_nested (S : Type) (w : nat) (one : Z -> S -> S) :
  forall (q : nat) (i : Z) (s : S),
    for_loop q i (fun k s => for_loop w 0 (fun j s => one (Z.of_nat w * k + j) s) s) s
    = for_loop (q * w) (Z.of_nat w * i) one s.
Proof.
  induction q as [|q IH]; intros i s; [reflexivity|].
  cbn [for_loop Nat.mul]. rewrite for_loop_app, IH.
  rewrite (for_loop_from_0 one (Z.of_nat w * i)).
  f_equal; [lia|]. apply for_loop_ext. intros j s0. f_equal. lia.
Qed.

Lemma GDALUnrolledCopyGeneric_loop (t : CType) (se de : Z)
    (dst : mem) (pD : Z) (src : mem) (pS n : Z) :
  GDALUnrolledCopyGeneric t se de dst pD src pS n
  = for_loop (Z.to_nat n) 0
      (fun i d => store t d (pD + i * de * zsizeof t)
                        (load t src (pS + i * se * zsizeof t))) dst.
Proof.
  unfold GDALUnrolledCopyGeneric. cbv zeta.
  destruct (16 <=? n) eqn:C; [apply Z.leb_le in C | reflexivity].
  set (one := fun i d => store t d (pD + i * de * zsizeof t)
                               (load t src (pS + i * se * zsizeof t))).
  rewrite (@for_loop_nested _ 16 one).
  assert (Q := Z.quot_rem n 16 ltac:(lia)).
  assert (R := Z.rem_bound_pos n 16 ltac:(lia) ltac:(lia)).
  assert (Q0 : 0 <= Z.quot n 16) by (apply Z.quot_pos; lia).
  replace (Z.to_nat n) with (Z.to_nat (Z.quot n 16) * 16 + Z.to_nat (Z.rem n 16))%nat by lia.
  rewrite for_loop_app.
  rewrite (for_loop_from_0 one (0 + Z.of_nat (Z.to_nat (Z.quot n 16) * 16))).
  change (Z.of_nat 16 * 0) with 0.
  apply for_loop_ext. intros j d0. unfold one. repeat (f_equal; try lia).
Qed.

(** The block loop may stop early: the unit loop does the rest. *)
Lemma for_step_blocks_upto (S : Type) (w : nat) (N L : Z) (blk one : Z -> S -> S) :
  (0 < w)%nat ->
  L <= N - (Z.of_nat w - 1) ->
  (forall n s, blk n s = for_loop w n one s) ->
  forall (fuel : nat) (n0 : Z) (s : S),
    (Z.to_nat (N - n0) <= fuel)%nat ->
    for_loop (Z.to_nat (N - fst (for_step fuel n0 L (Z.of_nat w) blk s)))
             (fst (for_step fuel n0 L (Z.of_nat w) blk s)) one
             (snd (for_step fuel n0 L (Z.of_nat w) blk s))
    = for_loop (Z.to_nat (N - n0)) n0 one s
    /\ n0 <= fst (for_step fuel n0 L (Z.of_nat w) blk s).
Proof.
  intros Hw HL Hblk fuel. induction fuel as [|fuel IH]; intros n0 s H.
  - cbn [for_step fst snd]. split; [reflexivity | lia].
  - cbn [for_step]. destruct (n0 <? L) eqn:C.
    + apply Z.ltb_lt in C.
      destruct (IH (n0 + Z.of_nat w) (blk n0 s)) as [E Le]; [lia|].
      split; [|lia]. rewrite E. rewrite Hblk.
      replace (Z.to_nat (N - n0)) with (w + Z.to_nat (N - (n0 + Z.of_nat w)))%nat by lia.
      rewrite for_loop_app. reflexivity.
    + cbn [fst snd]. split; [reflexivity | lia].
Qed.

Lemma simd_loop_upto (S : Type) (w : nat) (N L : Z) (blk one : Z -> S -> S) (s : S) :
  (0 < w)%nat ->
  L <= N - (Z.of_nat w - 1) ->
  (forall n s, blk n s = for_loop w n one s) ->
  (let '(n, d1) := for_step (Z.to_nat N) 0 L (Z.of_nat w) blk s in
   snd (for_step (Z.to_nat N) n N 1 one d1))
  = for_loop (Z.to_nat N) 0 one s.
Proof.
  intros Hw HL Hblk.
  destruct (@for_step_blocks_upto S w N L blk one Hw HL Hblk (Z.to_nat N) 0 s) as [E Le];
    [lia|].
  destruct (for_step (Z.to_nat N) 0 L (Z.of_nat w) blk s) as [n d1].
  cbn [fst snd] in E, Le. rewrite for_step_unit by lia.
  rewrite E. rewrite Z.sub_0_r. reflexivity.
Qed.

Lemma and_ff (s : byte) : byte_of_Z (Z.land (Z_of_byte s) (Z_of_byte xff)) = s.
Proof. destruct s; reflexivity. Qed.

Lemma and_00 (s : byte) : byte_of_Z (Z.land (Z_of_byte s) (Z_of_byte x00)) = x00.
Proof. destruct s; reflexivity. Qed.

Lemma or_00_r (s : byte) : byte_of_Z (Z.lor (Z_of_byte s) (Z_of_byte x00)) = s.
Proof. destruct s; reflexivity. Qed.

Lemma or_00_l (s : byte) : byte_of_Z (Z.lor (Z_of_byte x00) (Z_of_byte s)) = s.
Proof. destruct s; reflexivity. Qed.

Lemma packus_lane (s : byte) : byte_of_Z (saturate 0 255 (le_signed [s; x00])) = s.
Proof. destruct s; reflexivity. Qed.

Lemma packs_lane (s : byte) :
  le_bytes 2 (saturate (-32768) 32767 (le_signed [s; x00; x00; x00])) = [s; x00].
Proof. destruct s; reflexivity. Qed.

(** The SSE2 kernel of the 2:1 byte copy on two registers. *)
Lemma kernel_2_1 (s0 s1 s2 s3 s4 s5 s6 s7 s8 s9 s10 s11 s12 s13 s14 s15
                  t0 t1 t2 t3 t4 t5 t6 t7 t8 t9 t10 t11 t12 t13 t14 t15 : byte) :
  _mm_or_si128
    (_mm_packus_epi16
       (_mm_and_si128 [s0; s1; s2; s3; s4; s5; s6; s7; s8; s9; s10; s11; s12; s13; s14; s15]
                      (_mm_set1_epi16 255))
       _mm_setzero_si128)
    (_mm_slli_si128_8
       (_mm_packus_epi16
          (_mm_and_si128 [t0; t1; t2; t3; t4; t5; t6; t7; t8; t9; t10; t11; t12; t13; t14; t15]
                         (_mm_set1_epi16 255))
          _mm_setzero_si128))
  = [s0; s2; s4; s6; s8; s10; s12; s14; t0; t2; t4; t6; t8; t10; t12; t14].
Proof.
  change (_mm_set1_epi16 255)
    with [xff; x00; xff; x00; xff; x00; xff; x00; xff; x00; xff; x00; xff; x00; xff; x00].
  unfold _mm_and_si128, _mm_packus_epi16, _mm_setzero_si128, _mm_slli_si128_8,
    _mm_or_si128.
  cbn [zip_with lanes2 repeat app map firstn].
  rewrite !and_ff, !and_00, !packus_lane.
  change (byte_of_Z (saturate 0 255 (le_signed [x00; x00]))) with x00.
  rewrite !or_00_r, !or_00_l. reflexivity.
Qed.

Lemma kernel_4_1 (s0 s1 s2 s3 s4 s5 s6 s7 s8 s9 s10 s11 s12 s13 s14 s15 : byte) :
  fit 4 (let xmm := _mm_and_si128
                      [s0; s1; s2; s3; s4; s5; s6; s7; s8; s9; s10; s11; s12; s13; s14; s15]
                      (_mm_set1_epi32 255) in
         let xmm := _mm_packs_epi32 xmm xmm in
         _mm_packus_epi16 xmm xmm)
  = [s0; s4; s8; s12].
Proof.
  change (_mm_set1_epi32 255)
    with [xff; x00; x00; x00; xff; x00; x00; x00; xff; x00; x00; x00; xff; x00; x00; x00].
  cbv zeta. unfold _mm_and_si128, _mm_packs_epi32.
  cbn [zip_with lanes4 app map].
  rewrite !and_ff, !and_00, !packs_lane.
  unfold _mm_packus_epi16. cbn [concat app lanes2 map].
  rewrite !packus_lane. reflexivity.
Qed.

Lemma store_Byte_1 (d : mem) (a : Z) (src : mem) (b : Z) :
  store TByte d a (load TByte src b) = store_bytes d a [src b].
Proof.
  unfold store, load, load_bytes. cbn [sizeof seq map fit Z.of_nat].
  rewrite Z.add_0_r. reflexivity.
Qed.

Lemma GDALUnrolledCopy_GByte_2_1_loop (dst : mem) (pD : Z) (src : mem) (pS n : Z) :
  GDALUnrolledCopy_GByte_2_1 cfg dst pD src pS n
  = for_loop (Z.to_nat n) 0
      (fun i d => store TByte d (pD + i) (load TByte src (pS + 2 * i))) dst.
Proof.
  unfold GDALUnrolledCopy_GByte_2_1. cbv zeta.
  destruct (16 <? n) eqn:C.
  - destruct (cfg_ssse3 cfg).
    + unfold GDALUnrolledCopy_GByte_SSSE3. rewrite GDALUnrolledCopyGeneric_loop.
      apply for_loop_ext. intros i d. change (zsizeof TByte) with 1.
      repeat (f_equal; try lia).
    + change 16 with (Z.of_nat 16) at 2.
      apply simd_loop_upto; [lia | lia |].
      intros k d. unfold _mm_storeu_si128, _mm_loadu_si128.
      unfold load_bytes at 1 2. cbn [seq map]. rewrite kernel_2_1.
      cbn [fit].
      rewrite (for_loop_ext _ (fun i d => store_bytes d (pD + i * Z.of_nat 1)
                                                    [src (pS + 2 * i)]))
        by (intros i d0; rewrite store_Byte_1; f_equal; lia).
      rewrite (@packed_stores 1 (fun i => [src (pS + 2 * i)]) pD (fun _ => eq_refl)).
      cbn [seq map concat app Z.of_nat Pos.of_succ_nat Pos.succ].
      repeat (f_equal; try lia).
  - apply Z.ltb_ge in C. rewrite for_step_unit by lia. rewrite Z.sub_0_r. reflexivity.
Qed.

Lemma GDALUnrolledCopy_GByte_4_1_loop (dst : mem) (pD : Z) (src : mem) (pS n : Z) :
  GDALUnrolledCopy_GByte_4_1 cfg dst pD src pS n
  = for_loop (Z.to_nat n) 0
      (fun i d => store TByte d (pD + i) (load TByte src (pS + 4 * i))) dst.
Proof.
  unfold GDALUnrolledCopy_GByte_4_1. cbv zeta.
  destruct (16 <? n) eqn:C.
  - destruct (cfg_ssse3 cfg).
    + unfold GDALUnrolledCopy_GByte_SSSE3. rewrite GDALUnrolledCopyGeneric_loop.
      apply for_loop_ext. intros i d. change (zsizeof TByte) with 1.
      repeat (f_equal; try lia).
    + change 16 with (Z.of_nat 16) at 2.
      apply simd_loop_upto; [lia | lia |].
      intros k d. unfold GDALCopyXMMToInt32, _mm_loadu_si128.
      unfold load_bytes. cbn [seq map].
      pose proof kernel_4_1 as K. cbv zeta in K. rewrite !K. clear K.
      replace (pD + k + 4) with (pD + k + 0 + Z.of_nat 4) by lia.
      replace (pD + k + 8) with (pD + k + 0 + Z.of_nat 8) by lia.
      replace (pD + k + 12) with (pD + k + 0 + Z.of_nat 12) by lia.
      rewrite (store_bytes_app d (pD + k + 0) [_; _; _; _] [_; _; _; _]). cbn [app].
      rewrite (store_bytes_app d (pD + k + 0) [_; _; _; _; _; _; _; _] [_; _; _; _]).
      cbn [app].
      rewrite (store_bytes_app d (pD + k + 0) [_; _; _; _; _; _; _; _; _; _; _; _]
                               [_; _; _; _]).
      cbn [app].
      rewrite (for_loop_ext _ (fun i d => store_bytes d (pD + i * Z.of_nat 1)
                                                    [src (pS + 4 * i)]))
        by (intros i d0; rewrite store_Byte_1; f_equal; lia).
      rewrite (@packed_stores 1 (fun i => [src (pS + 4 * i)]) pD (fun _ => eq_refl)).
      cbn [seq map concat app Z.of_nat Pos.of_succ_nat Pos.succ].
      repeat (f_equal; try lia).
  - apply Z.ltb_ge in C. rewrite for_step_unit by lia. rewrite Z.sub_0_r. reflexivity.
Qed.

Lemma CType_eqb_eq (a b : CType) : CType_eqb a b = true -> a = b.
Proof. destruct a, b; try discriminate; reflexivity. Qed.

Lemma GDALUnrolledCopy_loop (t : CType) (se de : Z)
    (dst : mem) (pD : Z) (src : mem) (pS n : Z) :
  GDALUnrolledCopy cfg t se de dst pD src pS n
  = for_loop (Z.to_nat n) 0
      (fun i d => store t d (pD + i * de * zsizeof t)
                        (load t src (pS + i * se * zsizeof t))) dst.
Proof.
  unfold GDALUnrolledCopy. cbv zeta.
  destruct (cfg_x86_64 cfg && CType_eqb t TByte && (de =? 1)) eqn:E;
    [| apply GDALUnrolledCopyGeneric_loop].
  apply andb_true_iff in E. destruct E as [E E3].
  apply andb_true_iff in E. destruct E as [_ E2].
  apply CType_eqb_eq in E2. apply Z.eqb_eq in E3. subst t de.
  change (zsizeof TByte) with 1.
  destruct (se =? 2) eqn:S2; [apply Z.eqb_eq in S2; subst se|].
  { rewrite GDALUnrolledCopy_GByte_2_1_loop. apply for_loop_ext. intros i d.
    repeat (f_equal; try lia). }
  destruct (se =? 3) eqn:S3; [apply Z.eqb_eq in S3; subst se|].
  { destruct (cfg_ssse3 cfg && (16 <? n));
      [unfold GDALUnrolledCopy_GByte_SSSE3|]; apply GDALUnrolledCopyGeneric_loop. }
  destruct (se =? 4) eqn:S4; [apply Z.eqb_eq in S4; subst se|].
  { rewrite GDALUnrolledCopy_GByte_4_1_loop. apply for_loop_ext. intros i d.
    repeat (f_equal; try lia). }
  apply GDALUnrolledCopyGeneric_loop.
Qed.

Lemma zsizeof_pos (t : CType) : 0 < zsizeof t.
Proof. destruct t; reflexivity. Qed.

Lemma quot_exact_mul (s sz : Z) : 0 < sz -> Z.rem s sz = 0 -> Z.quot s sz * sz = s.
Proof. intros H R. assert (Q := Z.quot_rem s sz ltac:(lia)). lia. Qed.

(** [GDALFastCopy] is the strided copy of words of type [t], provided the
    strides are multiples of the word size. *)
Lemma GDALFastCopy_loop (t : CType) (dst : mem) (pD dS : Z) (src : mem) (pS sS n : Z) :
  Z.rem sS (zsizeof t) = 0 -> Z.rem dS (zsizeof t) = 0 ->
  GDALFastCopy cfg t dst pD dS src pS sS n
  = for_loop (Z.to_nat n) 0
      (fun i d => memcpy d (pD + i * dS) src (pS + i * sS) (zsizeof t)) dst.
Proof.
  intros RS RD. assert (P := zsizeof_pos t).
  assert (QS := quot_exact_mul sS P RS). assert (QD := quot_exact_mul dS P RD).
  unfold GDALFastCopy. cbv zeta.
  assert (strided : forall se de, se * zsizeof t = sS -> de * zsizeof t = dS ->
            for_loop (Z.to_nat n) 0
              (fun i d => store t d (pD + i * de * zsizeof t)
                                (load t src (pS + i * se * zsizeof t))) dst
            = for_loop (Z.to_nat n) 0
                (fun i d => memcpy d (pD + i * dS) src (pS + i * sS) (zsizeof t)) dst).
  { intros se de Hs Hd. apply for_loop_ext. intros i d. rewrite store_load_memcpy.
    rewrite <- Hs, <- Hd. f_equal; ring. }
  destruct (n =? 1) eqn:N1; [apply Z.eqb_eq in N1; subst n|].
  { change (Z.to_nat 1) with 1%nat. cbn [for_loop]. rewrite store_load_memcpy.
    f_equal; lia. }
  destruct (dS =? zsizeof t) eqn:D1; [apply Z.eqb_eq in D1|].
  - destruct (sS =? zsizeof t) eqn:S1; [apply Z.eqb_eq in S1|].
    { rewrite D1, S1. rewrite memcpy_packed_loop by lia.
      destruct (Z.le_gt_cases 0 n).
      - f_equal; lia.
      - rewrite !memcpy_nothing by lia. reflexivity. }
    destruct (sS =? 2 * zsizeof t) eqn:S2; [apply Z.eqb_eq in S2|].
    { rewrite GDALUnrolledCopy_loop. apply strided; lia. }
    destruct (sS =? 3 * zsizeof t) eqn:S3; [apply Z.eqb_eq in S3|].
    { rewrite GDALUnrolledCopy_loop. apply strided; lia. }
    destruct (sS =? 4 * zsizeof t) eqn:S4; [apply Z.eqb_eq in S4|].
    { rewrite GDALUnrolledCopy_loop. apply strided; lia. }
    apply strided; lia.
  - destruct (sS =? zsizeof t) eqn:S1; [apply Z.eqb_eq in S1|].
    + destruct (dS =? 2 * zsizeof t) eqn:D2; [apply Z.eqb_eq in D2|].
      { rewrite GDALUnrolledCopy_loop. apply strided; lia. }
      destruct (dS =? 3 * zsizeof t) eqn:D3; [apply Z.eqb_eq in D3|].
      { rewrite GDALUnrolledCopy_loop. apply strided; lia. }
      destruct (dS =? 4 * zsizeof t) eqn:D4; [apply Z.eqb_eq in D4|].
      { rewrite GDALUnrolledCopy_loop. apply strided; lia. }
      apply strided; lia.
    + apply strided; lia.
Qed.

(* ------------------------------------------------------------------ *)
(** ** [GDALCopyWords] against the generic fallback *)

Lemma GDALDataType_eqb_eq (a b : GDALDataType) : GDALDataType_eqb a b = true -> a = b.
Proof. destruct a, b; try discriminate; reflexivity. Qed.

Lemma GDALDataType_eqb_refl (a : GDALDataType) : GDALDataType_eqb a a = true.
Proof. destruct a; reflexivity. Qed.

Lemma GDALCopyWords_generic_same (e : GDALDataType) (src : mem) (pS sS : Z)
    (dst : mem) (pD dS n : Z) :
  known_type e = true ->
  GDALCopyWords_generic i2f32 i2f64 fconv src pS e sS dst pD e dS n
  = for_loop (Z.to_nat n) 0
      (fun i d => memcpy d (pD + i * dS) src (pS + i * sS)
                         (GDALGetDataTypeSizeBytes e)) dst.
Proof.
  intro H. unfold GDALCopyWords_generic. apply for_loop_ext. intros i d.
  apply convert_pixel_same. exact H.
Qed.

Lemma memcpy_one_loop (sz : Z) (src : mem) (pS sS : Z) (dst : mem) (pD dS : Z) :
  memcpy dst pD src pS sz
  = for_loop (Z.to_nat 1) 0
      (fun i d => memcpy d (pD + i * dS) src (pS + i * sS) sz) dst.
Proof. change (Z.to_nat 1) with 1%nat. cbn [for_loop]. f_equal; lia. Qed.

Lemma GDALCopyWords_main_generic (src : mem) (pS : Z) (eS : GDALDataType) (sS : Z)
    (dst : mem) (pD : Z) (eD : GDALDataType) (dS n : Z) :
  known_type eS = true -> known_type eD = true ->
  GDALCopyWords_main cfg i2f32 i2f64 fconv src pS eS sS dst pD eD dS n
  = GDALCopyWords_generic i2f32 i2f64 fconv src pS eS sS dst pD eD dS n.
Proof.
  intros HS HD. unfold GDALCopyWords_main. cbv zeta.
  destruct (GDALDataType_eqb eS eD) eqn:E; [| apply GDALCopyWords_switch_generic; assumption].
  apply GDALDataType_eqb_eq in E. subst eD.
  destruct (GDALDataType_eqb eS GDT_Byte) eqn:B.
  { apply GDALDataType_eqb_eq in B. subst eS.
    rewrite GDALCopyWords_generic_same by reflexivity.
    apply GDALFastCopy_loop; apply Z.rem_1_r. }
  destruct ((GDALGetDataTypeSizeBytes eS =? 2) && (Z.rem sS 2 =? 0) && (Z.rem dS 2 =? 0))
    eqn:F.
  { apply andb_true_iff in F. destruct F as [F F3].
    apply andb_true_iff in F. destruct F as [F1 F2].
    apply Z.eqb_eq in F1, F2, F3.
    rewrite GDALCopyWords_generic_same by exact HS. rewrite F1.
    apply (@GDALFastCopy_loop TInt16); assumption. }
  destruct (n =? 1) eqn:N1.
  { apply Z.eqb_eq in N1. subst n.
    rewrite GDALCopyWords_generic_same by exact HS.
    destruct eS; try discriminate HS; try discriminate B;
      cbv beta iota delta [GDALGetDataTypeSizeBytes Z.eqb Pos.eqb];
      apply memcpy_one_loop. }
  destruct ((sS =? dS) && (sS =? GDALGetDataTypeSizeBytes eS)) eqn:P.
  { apply andb_true_iff in P. destruct P as [P1 P2]. apply Z.eqb_eq in P1, P2.
    rewrite GDALCopyWords_generic_same by exact HS.
    subst dS. rewrite P2.
    assert (0 <= GDALGetDataTypeSizeBytes eS) by (destruct eS; cbn; lia).
    rewrite memcpy_packed_loop by assumption.
    destruct (Z.le_gt_cases 0 n).
    - f_equal; lia.
    - rewrite !memcpy_nothing by nia. reflexivity. }
  apply GDALCopyWords_switch_generic; assumption.
Qed.

(* ------------------------------------------------------------------ *)
(** ** Replication of one word *)

Lemma memset_loop (w : byte) (pD : Z) :
  forall (n : nat) (i : Z) (d : mem),
    for_loop n i (fun k d => store_bytes d (pD + k) [w]) d
    = memset d (pD + i) w (Z.of_nat n).
Proof.
  induction n as [|n IH]; intros i d.
  - cbn [for_loop]. apply functional_extensionality. intro x. unfold memset. mem_cases.
  - cbn [for_loop]. rewrite IH. apply functional_extensionality. intro x.
    unfold memset, store_bytes. cbn [List.length].
    destruct (Z.eq_dec x (pD + i)) as [->|Hx].
    + replace (pD + i - (pD + i)) with 0 by lia. cbn [Z.to_nat nth]. mem_cases.
    + mem_cases.
Qed.

Lemma for_loop_peel (S : Type) (f : Z -> S -> S) (n : Z) (s : S) :
  0 < n ->
  for_loop (Z.to_nat n) 0 f s = for_loop (Z.to_nat (n - 1)) 1 f (f 0 s).
Proof.
  intro H. replace (Z.to_nat n) with (Datatypes.S (Z.to_nat (n - 1))) by lia.
  reflexivity.
Qed.

Lemma load_store_same (t : CType) (m : mem) (a : Z) (W : list byte) :
  List.length W = sizeof t -> load t (store_bytes m a W) a = W.
Proof. intro H. unfold load. rewrite <- H. apply load_bytes_store_bytes. Qed.

Lemma GDALReplicateWordT_loop (t : CType) (dst : mem) (pD dS n : Z) (W : list byte) :
  List.length W = sizeof t ->
  GDALReplicateWordT t (store_bytes dst pD W) pD dS n
  = for_loop (Z.to_nat n) 1 (fun i d => store_bytes d (pD + i * dS) W)
             (store_bytes dst pD W).
Proof.
  intro HW. unfold GDALReplicateWordT. cbv zeta.
  rewrite (@load_store_same t dst pD W HW).
  set (d1 := store_bytes dst pD W).
  assert (St : forall d a, store t d a W = store_bytes d a W)
    by (intros; unfold store; rewrite fit_exact by exact HW; reflexivity).
  destruct (dS =? zsizeof t) eqn:E; [apply Z.eqb_eq in E; subst dS|].
  - set (one := fun i d => store_bytes d (pD + zsizeof t + i * zsizeof t) W).
    rewrite (fun f H =>
               @for_loop_ext mem f
                 (fun k s => for_loop 4 0 (fun j s => one (Z.of_nat 4 * k + j) s) s)
                 H (Z.to_nat (Z.quot n 4)) 0 d1).
    2:{ intros i d. cbn [for_loop]. rewrite !St. unfold one.
        change (Z.of_nat 4) with 4. repeat (f_equal; try ring). }
    rewrite for_loop_nested. change (Z.of_nat 4 * 0) with 0.
    rewrite (for_loop_ext _ one) by (intros i d; apply St).
    destruct (Z.le_gt_cases n 0) as [Hn|Hn].
    + assert (Q : Z.quot n 4 <= 0) by (Z.to_euclidean_division_equations; lia).
      replace (Z.to_nat (Z.quot n 4)) with O by lia.
      replace (Z.to_nat (n - 4 * Z.quot n 4)) with O
        by (Z.to_euclidean_division_equations; lia).
      replace (Z.to_nat n) with O by lia. reflexivity.
    + assert (Q : 0 <= Z.quot n 4) by (Z.to_euclidean_division_equations; lia).
      replace (4 * Z.quot n 4) with (0 + Z.of_nat (Z.to_nat (Z.quot n 4) * 4)) by lia.
      rewrite <- for_loop_app.
      replace (Z.to_nat (Z.quot n 4) * 4
               + Z.to_nat (n - (0 + Z.of_nat (Z.to_nat (Z.quot n 4) * 4))))%nat
        with (Z.to_nat n) by (Z.to_euclidean_division_equations; lia).
      rewrite (for_loop_from_0 _ 1). apply for_loop_ext. intros i d. unfold one.
      f_equal. ring.
  - rewrite (for_loop_from_0 _ 1). apply for_loop_ext. intros i d. rewrite St.
    f_equal. ring.
Qed.

Lemma replicate_complex_loop (t : CType) (dst : mem) (pD dS n : Z) (W : list byte) :
  List.length W = (sizeof t + sizeof t)%nat ->
  replicate_complex t (store_bytes dst pD W) pD dS n
  = for_loop (Z.to_nat n) 1 (fun i d => store_bytes d (pD + i * dS) W)
             (store_bytes dst pD W).
Proof.
  intro HW. unfold replicate_complex. cbv zeta.
  set (d1 := store_bytes dst pD W).
  assert (L : load_bytes d1 pD (sizeof t + sizeof t) = W)
    by (rewrite <- HW; apply load_bytes_store_bytes).
  assert (L1 : load t d1 pD = firstn (sizeof t) W)
    by (unfold load; rewrite <- L; symmetry; apply firstn_load_bytes).
  assert (L2 : load t d1 (pD + zsizeof t) = skipn (sizeof t) W)
    by (unfold load; rewrite <- L; symmetry; apply skipn_load_bytes).
  rewrite L1, L2. rewrite (for_loop_from_0 _ 1).
  apply for_loop_ext. intros i d. unfold store.
  rewrite !fit_exact.
  - unfold zsizeof.
    replace (sizeof t) with (List.length (firstn (sizeof t) W)) at 2
      by (rewrite length_firstn; lia).
    rewrite store_bytes_app, firstn_skipn. f_equal. ring.
  - rewrite length_skipn. lia.
  - rewrite length_firstn. lia.
Qed.

(** After the conversion of the first word, [GDALReplicateWord] stores
    the same bytes at each further position in turn. *)
Lemma GDALReplicateWord_tail_loop (eD : GDALDataType) (dst : mem) (pD dS n : Z)
    (W : list byte) :
  known_type eD = true -> 1 < n ->
  List.length W = pixel_size (component_type eD) (GDALDataTypeIsComplex eD) ->
  GDALReplicateWord_tail (store_bytes dst pD W) pD eD dS n
  = for_loop (Z.to_nat n) 0 (fun i d => store_bytes d (pD + i * dS) W) dst.
Proof.
  intros HD Hn HW. rewrite for_loop_peel by lia.
  replace (pD + 0 * dS) with pD by lia.
  unfold GDALReplicateWord_tail. cbv zeta.
  destruct eD; try discriminate HD;
    cbv beta iota delta [pixel_size component_type GDALDataTypeIsComplex] in HW;
    cbv beta iota;
    try (apply GDALReplicateWordT_loop; exact HW);
    try (apply replicate_complex_loop; exact HW).
  (* GDT_Byte *)
  destruct W as [|w [|? ?]]; try discriminate HW.
  assert (V : store_bytes dst pD [w] pD = w).
  { unfold store_bytes. cbn [List.length]. replace (pD - pD) with 0 by lia.
    cbn [Z.of_nat Z.to_nat nth]. mem_cases. }
  rewrite V. destruct (dS =? 1) eqn:E; [apply Z.eqb_eq in E; subst dS|].
  - replace (0 <? n - 1) with true by (symmetry; apply Z.ltb_lt; lia).
    rewrite (for_loop_ext _ (fun k d => store_bytes d (pD + k) [w]))
      by (intros; f_equal; lia).
    rewrite memset_loop. f_equal. lia.
  - rewrite (for_loop_from_0 _ 1). apply for_loop_ext. intros i d.
    unfold store. cbn [sizeof fit]. f_equal. ring.
Qed.

(* ------------------------------------------------------------------ *)
(** ** The calls of [GDALCopyWords] to itself *)

Lemma load_bytes_memcpy (d : mem) (a : Z) (src : mem) (b : Z) (n : nat) :
  load_bytes (memcpy d a src b (Z.of_nat n)) a n = load_bytes src b n.
Proof.
  rewrite memcpy_store_bytes.
  rewrite <- (load_bytes_length src b n) at 2. apply load_bytes_store_bytes.
Qed.

Lemma pixel_bytes_length (eS eD : GDALDataType) (w : list byte) :
  List.length (pixel_bytes i2f32 i2f64 fconv eS eD w)
  = pixel_size (component_type eD) (GDALDataTypeIsComplex eD).
Proof. apply pixel_bytes_t_length. Qed.

(** One pixel through the bounce buffers of the aligned-access loop. *)
Lemma bounce_pixel (eS eD : GDALDataType) (src : mem) (a : Z) (d : mem) (b : Z)
    (sb db : mem) :
  known_type eS = true -> known_type eD = true ->
  memcpy d b
    (convert_pixel i2f32 i2f64 fconv eS eD
       (memcpy sb 0 src a (GDALGetDataTypeSizeBytes eS)) 0 db 0)
    0 (GDALGetDataTypeSizeBytes eD)
  = convert_pixel i2f32 i2f64 fconv eS eD src a d b.
Proof.
  intros HS HD. rewrite !convert_pixel_store.
  rewrite (pixel_size_bytes _ HS), (pixel_size_bytes _ HD).
  rewrite load_bytes_memcpy, memcpy_store_bytes.
  rewrite <- (pixel_bytes_length eS eD
                (load_bytes src a (pixel_size (component_type eS)
                                              (GDALDataTypeIsComplex eS)))) at 1.
  rewrite load_bytes_store_bytes. reflexivity.
Qed.

Section Self.

Variable self : mem -> Z -> GDALDataType -> Z ->
                mem -> Z -> GDALDataType -> Z -> Z -> option mem.
Variables eS eD : GDALDataType.
Hypothesis HS : known_type eS = true.
Hypothesis HD : known_type eD = true.

(** The aligned-access loop, when the calls on the bounce buffers convert
    one pixel. *)
Lemma aligned_loop_generic (src : mem) (pS sS pD dS : Z) :
  (forall sb db, self sb 0 eS 0 db 0 eD 0 1
                 = Some (convert_pixel i2f32 i2f64 fconv eS eD sb 0 db 0)) ->
  forall (n : nat) (i : Z) (d sb db : mem),
    option_map fst
      (for_loop n i
         (fun i st =>
            match st with
            | None => None
            | Some (d, (abySrcBuffer, abyDstBuffer)) =>
                let abySrcBuffer :=
                  memcpy abySrcBuffer 0 src (pS + sS * i)
                         (GDALGetDataTypeSizeBytes eS) in
                match self abySrcBuffer 0 eS 0 abyDstBuffer 0 eD 0 1 with
                | None => None
                | Some abyDstBuffer =>
                    Some (memcpy d (pD + dS * i) abyDstBuffer 0
                                 (GDALGetDataTypeSizeBytes eD),
                          (abySrcBuffer, abyDstBuffer))
                end
            end)
         (Some (d, (sb, db))))
    = Some (for_loop n i
              (fun k d => convert_pixel i2f32 i2f64 fconv eS eD
                            src (pS + k * sS) d (pD + k * dS)) d).
Proof.
  intros Hself n. induction n as [|n IH]; intros i d sb db; [reflexivity|].
  cbn [for_loop]. cbv zeta. rewrite Hself. rewrite IH.
  rewrite bounce_pixel by assumption.
  do 2 f_equal. f_equal; lia.
Qed.

(** One level of [GDALCopyWords], when the calls for single words,
    which only occur for a replication, convert one pixel. *)
Lemma GDALCopyWords_body_generic (src : mem) (pS sS : Z) (dst : mem) (pD dS n : Z) :
  (forall sb db, self sb 0 eS 0 db 0 eD 0 1
                 = Some (convert_pixel i2f32 i2f64 fconv eS eD sb 0 db 0)) ->
  (1 < n -> self src pS eS 0 dst pD eD 0 1
            = Some (convert_pixel i2f32 i2f64 fconv eS eD src pS dst pD)) ->
  GDALCopyWords_body cfg i2f32 i2f64 fconv self src pS eS sS dst pD eD dS n
  = Some (GDALCopyWords_generic i2f32 i2f64 fconv src pS eS sS dst pD eD dS n).
Proof.
  intros H0 H1. unfold GDALCopyWords_body. cbv zeta.
  match goal with |- (if ?c then _ else _) = _ => destruct c end.
  - destruct (GDALDataType_eqb eS eD) eqn:E.
    + apply GDALDataType_eqb_eq in E. subst eD.
      rewrite GDALCopyWords_generic_same by exact HS.
      f_equal. apply for_loop_ext. intros i d. f_equal; lia.
    + apply aligned_loop_generic. exact H0.
  - destruct ((sS =? 0) && (1 <? n)) eqn:R.
    + apply andb_true_iff in R. destruct R as [R1 R2].
      apply Z.eqb_eq in R1. apply Z.ltb_lt in R2. subst sS.
      rewrite H1 by exact R2. f_equal.
      rewrite convert_pixel_store.
      rewrite GDALReplicateWord_tail_loop
        by (try assumption; apply pixel_bytes_length).
      unfold GDALCopyWords_generic. apply for_loop_ext. intros i d.
      rewrite convert_pixel_store. do 3 f_equal. lia.
    + f_equal. apply GDALCopyWords_main_generic; assumption.
Qed.

End Self.

Lemma GDALCopyWords_fuel_S (f : nat) :
  GDALCopyWords_fuel cfg i2f32 i2f64 fconv (Datatypes.S f)
  = GDALCopyWords_body cfg i2f32 i2f64 fconv (GDALCopyWords_fuel cfg i2f32 i2f64 fconv f).
Proof. reflexivity. Qed.

Lemma rem_0_l (x : Z) : Z.rem 0 x = 0.
Proof. reflexivity. Qed.

Lemma GDALCopyWords_fuel_buffers (f : nat) (eS eD : GDALDataType) (sb db : mem) :
  known_type eS = true -> known_type eD = true ->
  GDALCopyWords_fuel cfg i2f32 i2f64 fconv (Datatypes.S f) sb 0 eS 0 db 0 eD 0 1
  = Some (convert_pixel i2f32 i2f64 fconv eS eD sb 0 db 0).
Proof.
  intros HS HD. rewrite GDALCopyWords_fuel_S. unfold GDALCopyWords_body. cbv zeta.
  rewrite !rem_0_l. cbn [Z.eqb negb orb Z.ltb Z.compare Pos.compare andb].
  rewrite andb_false_r. cbn [Pos.compare_cont].
  rewrite GDALCopyWords_main_generic by assumption. reflexivity.
Qed.

Lemma GDALCopyWords_fuel_single (f : nat) (eS eD : GDALDataType)
    (src : mem) (pS : Z) (dst : mem) (pD : Z) :
  known_type eS = true -> known_type eD = true ->
  GDALCopyWords_fuel cfg i2f32 i2f64 fconv (Datatypes.S (Datatypes.S f))
                     src pS eS 0 dst pD eD 0 1
  = Some (convert_pixel i2f32 i2f64 fconv eS eD src pS dst pD).
Proof.
  intros HS HD. rewrite GDALCopyWords_fuel_S.
  rewrite GDALCopyWords_body_generic; try assumption.
  - unfold GDALCopyWords_generic. change (Z.to_nat 1) with 1%nat. cbn [for_loop].
    do 2 f_equal; lia.
  - intros sb db. apply GDALCopyWords_fuel_buffers; assumption.
  - lia.
Qed.

(** Three levels of calls suffice: the result is the generic fallback. *)
Lemma GDALCopyWords_fuel_enough (f : nat) (eS eD : GDALDataType)
    (src : mem) (pS sS : Z) (dst : mem) (pD dS n : Z) :
  known_type eS = true -> known_type eD = true ->
  GDALCopyWords_fuel cfg i2f32 i2f64 fconv (Datatypes.S (Datatypes.S (Datatypes.S f)))
                     src pS eS sS dst pD eD dS n
  = Some (GDALCopyWords_generic i2f32 i2f64 fconv src pS eS sS dst pD eD dS n).
Proof.
  intros HS HD. rewrite GDALCopyWords_fuel_S.
  apply GDALCopyWords_body_generic; try assumption.
  - intros sb db. apply (GDALCopyWords_fuel_buffers (Datatypes.S f)); assumption.
  - intros _. apply GDALCopyWords_fuel_single; assumption.
Qed.

Lemma GDALCopyWords_is_generic (eS eD : GDALDataType)
    (src : mem) (pS sS : Z) (dst : mem) (pD dS n : Z) :
  known_type eS = true -> known_type eD = true ->
  GDALCopyWords cfg i2f32 i2f64 fconv src pS eS sS dst pD eD dS n
  = GDALCopyWords_generic i2f32 i2f64 fconv src pS eS sS dst pD eD dS n.
Proof.
  intros HS HD. unfold GDALCopyWords.
  rewrite (GDALCopyWords_fuel_enough 0) by assumption. reflexivity.
Qed.

(* ------------------------------------------------------------------ *)
(** ** A copy of no word *)

Lemma GDALUnrolledCopy_zero (t : CType) (ss ds : Z) (dst : mem) (pD : Z)
    (src : mem) (pS : Z) :
  GDALUnrolledCopy cfg t ss ds dst pD src pS 0 = dst.
Proof.
  unfold GDALUnrolledCopy, GDALUnrolledCopy_GByte_2_1, GDALUnrolledCopy_GByte_4_1,
    GDALUnrolledCopy_GByte_SSSE3, GDALUnrolledCopyGeneric.
  cbn [Z.leb Z.ltb Z.compare Z.to_nat for_loop for_step snd andb].
  repeat match goal with |- context [if ?c then _ else _] => destruct c end;
    reflexivity.
Qed.

Lemma GDALFastCopy_zero (t : CType) (dst : mem) (pD dS : Z) (src : mem) (pS sS : Z) :
  GDALFastCopy cfg t dst pD dS src pS sS 0 = dst.
Proof.
  unfold GDALFastCopy. rewrite !GDALUnrolledCopy_zero.
  cbn [Z.eqb Z.to_nat for_loop Z.mul].
  repeat match goal with |- context [if ?c then _ else _] => destruct c end;
    try reflexivity; apply memcpy_nothing; lia.
Qed.

Lemma GDALCopyWordsT_zero (tin tout : CType) (src : mem) (pS sS : Z)
    (dst : mem) (pD dS : Z) :
  GDALCopyWordsT cfg i2f32 i2f64 fconv tin tout src pS sS dst pD dS 0 = dst.
Proof.
  unfold GDALCopyWordsT, GDALCopyWordsByteTo16Bit, GDALCopyWordsByteTo32Bit,
    GDALCopyWordsT_Byte_float, GDALCopyWordsT_Byte_double,
    GDALCopyWordsT_UInt16_Byte, GDALCopyWordsT_UInt16_Int16,
    GDALCopyWordsT_UInt16_float, GDALCopyWordsT_UInt16_double,
    GDALCopyWordsT_8atatime, GDALCopyWordsGenericT.
  cbn [Z.to_nat for_loop for_step snd].
  destruct tin, tout;
    repeat match goal with |- context [if ?c then _ else _] => destruct c end;
    reflexivity.
Qed.

Lemma GDALCopyWords_switch_zero (src : mem) (pS : Z) (ts : GDALDataType) (sS : Z)
    (dst : mem) (pD : Z) (td : GDALDataType) (dS : Z) :
  GDALCopyWords_switch cfg i2f32 i2f64 fconv src pS ts sS dst pD td dS 0 = dst.
Proof.
  unfold GDALCopyWords_switch, GDALCopyWordsFromT, GDALCopyWordsComplexT,
    GDALCopyWordsComplexOutT.
  cbn [Z.to_nat for_loop].
  destruct ts, td; try reflexivity; apply GDALCopyWordsT_zero.
Qed.

Lemma GDALCopyWords_main_zero (src : mem) (pS : Z) (ts : GDALDataType) (sS : Z)
    (dst : mem) (pD : Z) (td : GDALDataType) (dS : Z) :
  GDALCopyWords_main cfg i2f32 i2f64 fconv src pS ts sS dst pD td dS 0 = dst.
Proof.
  unfold GDALCopyWords_main.
  rewrite GDALCopyWords_switch_zero, !GDALFastCopy_zero.
  cbn [Z.eqb Z.mul].
  repeat match goal with |- context [if ?c then _ else _] => destruct c end;
    try reflexivity; apply memcpy_nothing; lia.
Qed.

(** C10: for every pair of types and every pair of strides, [GDALCopyWords]
    called with a word count of 0 returns the destination memory
    unchanged: no byte is written. *)
Theorem copy_of_no_word_writes_nothing :
  forall (src : mem) (pSrcData : Z) (eSrcType : GDALDataType) (nSrcPixelStride : Z)
         (dst : mem) (pDstData : Z) (eDstType : GDALDataType) (nDstPixelStride : Z),
    GDALCopyWords cfg i2f32 i2f64 fconv src pSrcData eSrcType nSrcPixelStride
                  dst pDstData eDstType nDstPixelStride 0 = dst.
Proof.
  intros. unfold GDALCopyWords, GDALCopyWords_fuel, GDALCopyWords_body.
  rewrite GDALCopyWords_main_zero.
  cbn [Z.to_nat for_loop option_map fst Z.ltb Z.compare andb].
  rewrite andb_false_r.
  repeat match goal with |- context [if ?c then _ else _] => destruct c end;
    reflexivity.
Qed.

(* ------------------------------------------------------------------ *)
(** ** Best-overview selection *)

Lemma Qltb_true (x y : Q) : Qltb x y = true <-> (x < y)%Q.
Proof.
  unfold Qltb. rewrite negb_true_iff. split; intro H.
  - apply Qnot_le_lt. intro L. apply Qle_bool_iff in L. congruence.
  - destruct (Qle_bool y x) eqn:E; [|reflexivity].
    apply Qle_bool_iff in E. exfalso. exact (Qlt_not_le _ _ H E).
Qed.

Lemma Qltb_false (x y : Q) : Qltb x y = false <-> (y <= x)%Q.
Proof.
  unfold Qltb. rewrite negb_false_iff. apply Qle_bool_iff.
Qed.

Lemma overview_resolution_pos (b : Band) (o : OverviewBand) :
  0 < nRasterXSize b -> 0 < nRasterYSize b ->
  0 < ovr_XSize o -> 0 < ovr_YSize o ->
  (0 < overview_resolution b o)%Q.
Proof.
  intros Hx Hy Hox Hoy. unfold overview_resolution.
  assert (P : forall n d, 0 < n -> 0 < d -> (0 < inject_Z n / inject_Z d)%Q).
  { intros n d Hn Hd. apply Qlt_shift_div_l.
    - change 0%Q with (inject_Z 0). rewrite <- Zlt_Qlt. exact Hd.
    - rewrite Qmult_0_l. change 0%Q with (inject_Z 0). rewrite <- Zlt_Qlt. exact Hn. }
  destruct (Qltb _ _); apply P; assumption.
Qed.

Lemma nth_error_snoc (A : Type) (pre : list A) (x : A) (j : nat) (y : A) :
  nth_error (pre ++ [x]) j = Some y ->
  nth_error pre j = Some y \/ (j = List.length pre /\ y = x).
Proof.
  intro H. destruct (Nat.lt_ge_cases j (List.length pre)) as [L | G].
  - left. rewrite nth_error_app1 in H; assumption.
  - right. rewrite nth_error_app2 in H by assumption.
    destruct (j - List.length pre)%nat eqn:E; simpl in H.
    + split; [lia | congruence].
    + destruct n; discriminate.
Qed.

Lemma overview_step_inv (b : Band) (r : Q) (pre : list (option OverviewBand))
    (x : option OverviewBand) (st : option OverviewBand * Q * Z) :
  (forall o, x = Some o -> (0 < overview_resolution b o)%Q) ->
  scan_inv b r pre st ->
  scan_inv b r (pre ++ [x]) (overview_step b r (Z.of_nat (List.length pre)) x st).
Proof.
  intros Hpos Hinv. destruct st as [[best bres] lvl].
  assert (Keep : forall (Hx : forall o, x = Some o ->
                   qualifies b r o = true -> (overview_resolution b o <= bres)%Q),
             scan_inv b r (pre ++ [x]) (best, bres, lvl)).
  { intros Hx. destruct Hinv as [(Hb & Hl & Hr & Hn) | (o & Hb & Hl & Hnth & Hr & Hq & Hmax)].
    - left. repeat split; try assumption.
      intros j o Hj. apply nth_error_snoc in Hj. destruct Hj as [Hj | [_ Hj]].
      + eapply Hn; eassumption.
      + destruct (qualifies b r o) eqn:Q; [|reflexivity]. exfalso.
        specialize (Hx o (eq_sym Hj) Q). rewrite Hr in Hx.
        exact (Qlt_not_le _ _ (Hpos o (eq_sym Hj)) Hx).
    - right. exists o. repeat split; try assumption.
      + rewrite nth_error_app1; [assumption|].
        apply nth_error_Some. congruence.
      + apply nth_error_snoc in H. destruct H as [Hj | [_ Hj]].
        * apply (Hmax j o' Hj H0).
        * rewrite <- Hr. apply Hx; [symmetry|]; assumption.
      + apply nth_error_snoc in H. destruct H as [Hj | [Hj _]].
        * apply (Hmax j o' Hj H0).
        * intro Lt. exfalso.
          assert (Z.to_nat lvl < List.length pre)%nat
            by (apply nth_error_Some; congruence).
          lia. }
  unfold overview_step. destruct x as [o|].
  - destruct (Qle_bool (r * (12 # 10)) (overview_resolution b o)) eqn:E1; simpl.
    { apply Keep. intros o' Ho' Hq. inversion Ho'; subst o'.
      unfold qualifies in Hq. apply andb_true_iff in Hq. destruct Hq as [Hq _].
      apply Qltb_true in Hq. apply Qle_bool_iff in E1.
      exfalso. exact (Qlt_not_le _ _ Hq E1). }
    destruct (Qle_bool (overview_resolution b o) bres) eqn:E2; simpl.
    { apply Keep. intros o' Ho' _. inversion Ho'; subst o'.
      apply Qle_bool_iff. exact E2. }
    assert (Hlt : (bres < overview_resolution b o)%Q).
    { apply Qnot_le_lt. intro L. apply Qle_bool_iff in L. congruence. }
    assert (Hlim : Qltb (overview_resolution b o) (r * (12 # 10)) = true).
    { unfold Qltb. rewrite E1. reflexivity. }
    assert (New : ovr_skipped o = false ->
              scan_inv b r (pre ++ [Some o])
                (Some o, overview_resolution b o, Z.of_nat (List.length pre))).
    { intro Hs. right. exists o. rewrite Nat2Z.id.
      repeat split; try reflexivity; try lia.
      - rewrite nth_error_app2 by lia. rewrite Nat.sub_diag. reflexivity.
      - unfold qualifies. rewrite Hlim, Hs. reflexivity.
      - apply nth_error_snoc in H. destruct H as [Hj | [_ Hj]].
        + destruct Hinv as [(_ & _ & _ & Hn) | (o0 & _ & _ & _ & Hr & _ & Hmax)].
          * rewrite (Hn j o' Hj) in H0. discriminate.
          * apply Qlt_le_weak. eapply Qle_lt_trans; [apply (Hmax j o' Hj H0)|].
            rewrite <- Hr. exact Hlt.
        + inversion Hj. apply Qle_refl.
      - intro Lt. apply nth_error_snoc in H. destruct H as [Hj | [Hj _]]; [|lia].
        destruct Hinv as [(_ & _ & _ & Hn) | (o0 & _ & _ & _ & Hr & _ & Hmax)].
        * rewrite (Hn j o' Hj) in H0. discriminate.
        * eapply Qle_lt_trans; [apply (Hmax j o' Hj H0)|].
          rewrite <- Hr. exact Hlt. }
    assert (Skip : ovr_skipped o = true -> scan_inv b r (pre ++ [Some o]) (best, bres, lvl)).
    { intro Hs. apply Keep. intros o' Ho' Hq. inversion Ho'; subst o'.
      unfold qualifies in Hq. rewrite Hs in Hq. rewrite andb_false_r in Hq. discriminate. }
    unfold ovr_skipped in New, Skip.
    destruct (ovr_RESAMPLING o) as [res|].
    + destruct (STARTS_WITH_CI res AVERAGE_BIT2); [apply Skip | apply New]; reflexivity.
    + apply New. reflexivity.
  - apply Keep. intros o Ho. discriminate.
Qed.

Lemma overview_scan_inv (b : Band) (r : Q) (ovs pre : list (option OverviewBand))
    (st : option OverviewBand * Q * Z) :
  (forall o, In (Some o) ovs -> (0 < overview_resolution b o)%Q) ->
  scan_inv b r pre st ->
  scan_inv b r (pre ++ ovs) (overview_scan b r (Z.of_nat (List.length pre)) ovs st).
Proof.
  revert pre st. induction ovs as [|x ovs IH]; intros pre st Hpos Hinv; simpl.
  - rewrite app_nil_r. exact Hinv.
  - replace (pre ++ x :: ovs) with ((pre ++ [x]) ++ ovs)
      by (rewrite <- app_assoc; reflexivity).
    replace (Z.of_nat (List.length pre) + 1)
      with (Z.of_nat (List.length (pre ++ [x])))
      by (rewrite length_app; simpl; lia).
    apply IH.
    + intros o Ho. apply Hpos. right. exact Ho.
    + apply overview_step_inv; [|exact Hinv].
      intros o Ho. apply Hpos. left. exact Ho.
Qed.




(* ------------------------------------------------------------------ *)
(** ** Loop rules *)

Lemma for_ctl_post (S : Type) (P : S -> Prop) (R : CPLErr -> IOState -> Prop)
    (body : Z -> S -> Ctl S) :
  (forall i s, P s -> ctl_post P R (body i s)) ->
  forall n i s, P s -> ctl_post P R (for_ctl n i body s).
Proof.
  intros Hbody n. induction n as [|n IH]; intros i s Hs; simpl.
  - exact Hs.
  - specialize (Hbody i s Hs). destruct (body i s); simpl in *; auto.
Qed.

(** A [while] loop whose body decreases the measure [m], positive as long
    as the condition holds, ends within [m s] iterations. *)
Lemma while_ctl_post (S : Type) (P : S -> Prop) (R : CPLErr -> IOState -> Prop)
    (m : S -> Z) (cond : S -> bool) (body : S -> Ctl S) :
  (forall s, P s -> cond s = true -> 0 < m s) ->
  (forall s, P s -> cond s = true ->
     match body s with
     | Next s' => P s' /\ m s' < m s
     | c => ctl_post P R c
     end) ->
  forall fuel s, P s -> m s <= Z.of_nat fuel ->
    ctl_post P R (while_ctl fuel cond body s).
Proof.
  intros Hpos Hbody fuel. induction fuel as [|f IH]; intros s Hs Hm.
  - simpl. destruct (cond s) eqn:C; [|exact Hs].
    specialize (Hpos s Hs C). simpl in Hm. lia.
  - simpl. destruct (cond s) eqn:C; [|exact Hs].
    specialize (Hbody s Hs C). destruct (body s); simpl in *; auto.
    destruct Hbody as [Hs' Hlt]. apply IH; [exact Hs'|lia].
Qed.

Lemma for_loop_preserves (S : Type) (P : S -> Prop) (body : Z -> S -> S) :
  (forall i s, P s -> P (body i s)) ->
  forall n i s, P s -> P (for_loop n i body s).
Proof.
  intros Hbody n. induction n as [|n IH]; intros i s Hs; simpl; auto.
Qed.

(* ------------------------------------------------------------------ *)
(** ** Lock discipline of the collaborator calls *)

Lemma quiet_refl (s : IOState) : quiet s s.
Proof. split; auto. Qed.

Lemma quiet_trans (s1 s2 s3 : IOState) : quiet s1 s2 -> quiet s2 s3 -> quiet s1 s3.
Proof.
  intros [H1 K1] [H2 K2]. split; [congruence|].
  intros L B. apply K2; [apply K1; assumption | rewrite H1; exact B].
Qed.

Lemma quiet_same_trace (s s' : IOState) : trace s' = trace s -> quiet s s'.
Proof. intro E. unfold quiet. rewrite E. auto. Qed.

Lemma lock_inv_quiet (p : option (Z * Z)) (s s' : IOState) :
  lock_inv p s -> quiet s s' -> lock_inv p s'.
Proof.
  intros [L H] [Q1 Q2]. split; [|congruence].
  apply Q2; [exact L|]. rewrite H. destruct p; lia.
Qed.

Lemma quiet_Interrupted (b : Band) (s : IOState) :
  quiet s (snd (Interrupted b s)).
Proof.
  unfold Interrupted. destruct (poDS b); simpl; [|apply quiet_refl].
  split; simpl; auto.
Qed.

Lemma quiet_MarkDirty (x y : Z) (s : IOState) : quiet s (MarkDirty x y s).
Proof. split; simpl; auto. Qed.

Lemma quiet_progress (a : RasterIOArgs) (q : Q) (s : IOState) :
  quiet s (snd (progress_stops a q s)).
Proof.
  unfold progress_stops. destruct (pfnProgress (psExtraArg a)); simpl;
    [|apply quiet_refl].
  split; simpl; auto.
Qed.

Lemma trace_copy_words_rw (b : Band) (a : RasterIOArgs) (x y off boff n : Z)
    (s : IOState) :
  trace (copy_words_rw cfg i2f32 i2f64 fconv b a x y off boff n s) = trace s.
Proof. unfold copy_words_rw. destruct (is_write (eRWFlag a)); reflexivity. Qed.

Lemma trace_memcpy_rw (a : RasterIOArgs) (x y off boff n : Z) (s : IOState) :
  trace (memcpy_rw a x y off boff n s) = trace s.
Proof. unfold memcpy_rw. destruct (is_write (eRWFlag a)); reflexivity. Qed.

Lemma lock_inv_DropLock (p : option (Z * Z)) (s : IOState) :
  lock_inv p s -> lock_inv None (DropLock p s).
Proof.
  intros [L H]. destruct p as [[x y]|]; simpl; [|split; assumption].
  split; simpl; [|lia]. repeat split; auto; lia.
Qed.

Lemma lock_inv_GetLockedBlockRef (b : Band) (x y : Z) (ji : bool) (s : IOState) :
  lock_inv None s ->
  let r := GetLockedBlockRef b x y ji s in
  lock_inv (if fst r then Some (x, y) else None) (snd r).
Proof.
  intros [L H]. unfold GetLockedBlockRef. simpl.
  destruct (block_ok b (List.length (trace s)) x y ji) eqn:E; simpl.
  - assert (T : trace (if ji && negb (block_cached b (List.length (trace s)) x y)
                       then set_block x y (block_init b (List.length (trace s)) x y)
                                      (log (EvFetch x y ji true) s)
                       else log (EvFetch x y ji true) s)
                = EvFetch x y ji true :: trace s)
      by (destruct (ji && _); reflexivity).
    unfold lock_inv. rewrite T. simpl. repeat split; auto; lia.
  - split; simpl; [|exact H]. repeat split; auto; lia.
Qed.


(* ------------------------------------------------------------------ *)
(** ** Lock discipline of the 1:1 cases *)

Lemma packed_copy_row_locks (b : Band) (a : RasterIOArgs) (i : Z) (e : CPLErr)
    (p : option (Z * Z)) (y : Z) (s : IOState) :
  lock_inv p s ->
  ctl_post st_inv4 ret_inv (packed_copy_row cfg i2f32 i2f64 fconv b a i e p y s).
Proof.
  intro I. unfold packed_copy_row.
  match goal with |- context [progress_stops a ?q ?s0] =>
    assert (Q := quiet_progress a q s0);
    assert (I0 : lock_inv p s0);
    [| destruct (progress_stops a q s0) as [stop s1] ] end.
  - destruct (GDALDataType_eqb _ _);
      (eapply lock_inv_quiet; [exact I|apply quiet_same_trace]).
    + apply trace_memcpy_rw.
    + apply trace_copy_words_rw.
  - simpl in Q. destruct stop; simpl; eapply lock_inv_quiet; eassumption.
Qed.

Lemma packed_body_locks (b : Band) (a : RasterIOArgs) (i : Z)
    (st : CPLErr * option (Z * Z) * Z * IOState) :
  st_inv4 st -> ctl_post st_inv4 ret_inv (packed_body cfg i2f32 i2f64 fconv b a i st).
Proof.
  destruct st as [[[e p] y] s]. simpl. intro I.
  destruct (_ || _); [|apply packed_copy_row_locks; exact I].
  assert (I1 := lock_inv_DropLock I).
  match goal with |- context [Interrupted b ?s0] =>
    assert (Q := quiet_Interrupted b s0);
    destruct (Interrupted b s0) as [intr s2] end.
  simpl in Q. assert (I2 := lock_inv_quiet I1 Q).
  destruct intr; [exact I2|].
  match goal with |- context [GetLockedBlockRef b ?x ?y0 ?ji s2] =>
    assert (G := @lock_inv_GetLockedBlockRef b x y0 ji s2 I2);
    destruct (GetLockedBlockRef b x y0 ji s2) as [ok s3] end.
  simpl in G. destruct ok; simpl; [|exact G].
  apply packed_copy_row_locks.
  eapply lock_inv_quiet; [exact G|].
  eapply quiet_trans.
  - instantiate (1 := if is_write (eRWFlag a) then MarkDirty 0 (Z.quot (i + nYOff a) (nBlockYSize b)) s3 else s3).
    destruct (is_write (eRWFlag a)); [apply quiet_MarkDirty | apply quiet_refl].
  - apply quiet_same_trace. destruct (_ && _); reflexivity.
Qed.

Lemma IRasterIO_packed_locks (b : Band) (a : RasterIOArgs) (s : IOState) :
  lock_inv None s ->
  exists e s', IRasterIO_packed cfg i2f32 i2f64 fconv b a s = Some (e, s')
               /\ lock_inv None s'.
Proof.
  intro I. unfold IRasterIO_packed.
  assert (H := @for_ctl_post _ st_inv4 ret_inv (packed_body cfg i2f32 i2f64 fconv b a)
                 (packed_body_locks b a) (Z.to_nat (nBufYSize a)) 0 (CE_None, None, -1, s) I).
  destruct (for_ctl _ _ _ _) as [[[[e p] y] s'] | [[[e p] y] s'] | e s' |]; simpl in H.
  - exists e, (DropLock p s'). split; [reflexivity | apply lock_inv_DropLock; exact H].
  - exists e, (DropLock p s'). split; [reflexivity | apply lock_inv_DropLock; exact H].
  - exists e, s'. split; [reflexivity | exact H].
  - contradiction.
Qed.

Lemma trace_for_loop (f : Z -> IOState -> IOState) :
  (forall k s, trace (f k s) = trace s) ->
  forall n i s, trace (for_loop n i f s) = trace s.
Proof.
  intros Hf n. induction n as [|n IH]; intros i s; simpl; [reflexivity|].
  rewrite IH. apply Hf.
Qed.

Lemma window_inner_body_locks (b : Band) (a : RasterIOArgs)
    (iBufYOff iSrcY nLBlockY : Z) (st : Z * Z * Z * IOState) :
  0 < nBlockXSize b -> nBufXSize a + nXOff a <= INT_MAX ->
  inner_inv b a st ->
  (let '(iSrcX, _, _, _) := st in iSrcX <? nBufXSize a + nXOff a) = true ->
  match window_inner_body cfg i2f32 i2f64 fconv b a iBufYOff iSrcY nLBlockY
          (nBufXSize a + nXOff a) st with
  | Next st' => inner_inv b a st' /\ inner_measure a st' < inner_measure a st
  | c => ctl_post (inner_inv b a) ret_inv c
  end.
Proof.
  intros Hbw Hmax. destruct st as [[[iSrcX bx] off] s].
  unfold window_inner_body, inner_inv, inner_measure. cbv beta iota zeta.
  intros [I Hblk] C. apply Z.ltb_lt in C. specialize (Hblk C).
  match goal with |- context [Interrupted b ?s0] =>
    assert (Q := quiet_Interrupted b s0);
    destruct (Interrupted b s0) as [intr s2] end.
  simpl in Q. assert (I2 := lock_inv_quiet I Q).
  destruct intr; [exact I2|].
  match goal with |- context [GetLockedBlockRef b ?x ?y0 ?ji s2] =>
    assert (G := @lock_inv_GetLockedBlockRef b x y0 ji s2 I2);
    destruct (GetLockedBlockRef b x y0 ji s2) as [ok s3] end.
  simpl in G. destruct ok; cbv beta iota zeta delta [negb ctl_post inner_inv inner_measure];
    [|exact G].
  split.
  - split.
    + apply lock_inv_DropLock. eapply lock_inv_quiet; [exact G|].
      eapply quiet_trans;
        [| apply quiet_same_trace; apply trace_for_loop;
           intros k s0; destruct (_ && _); [apply trace_memcpy_rw | apply trace_copy_words_rw] ].
      eapply quiet_trans.
      * instantiate (1 := if is_write (eRWFlag a) then MarkDirty bx nLBlockY s3 else s3).
        destruct (is_write (eRWFlag a)); [apply quiet_MarkDirty | apply quiet_refl].
      * apply quiet_same_trace. destruct (_ && _); reflexivity.
    + unfold INT_MAX in *.
      destruct (bx * nBlockXSize b <? 2147483647 - nBlockXSize b) eqn:E1.
      * destruct (bx * nBlockXSize b + nBlockXSize b <? nBufXSize a + nXOff a) eqn:E2;
          intro L; lia.
      * apply Z.ltb_ge in E1.
        destruct (2147483647 <? nBufXSize a + nXOff a) eqn:E2; [apply Z.ltb_lt in E2; lia|].
        intro L. lia.
  - unfold INT_MAX in *.
    destruct (bx * nBlockXSize b <? 2147483647 - nBlockXSize b) eqn:E1.
    + destruct (bx * nBlockXSize b + nBlockXSize b <? nBufXSize a + nXOff a) eqn:E2;
        [apply Z.ltb_lt in E2 | apply Z.ltb_ge in E2]; lia.
    + destruct (2147483647 <? nBufXSize a + nXOff a) eqn:E2; [apply Z.ltb_lt in E2; lia|].
      lia.
Qed.

Lemma quot_block_bounds (x w : Z) :
  0 <= x -> 0 < w -> Z.quot x w * w <= x < (Z.quot x w + 1) * w.
Proof.
  intros Hx Hw. rewrite Z.quot_div_nonneg by lia.
  assert (H := Z.div_mod x w). assert (B := Z.mod_pos_bound x w Hw). lia.
Qed.

Lemma window_outer_body_locks (b : Band) (a : RasterIOArgs) (st : Z * Z * IOState) :
  0 < nBlockXSize b -> 0 < nBlockYSize b ->
  0 <= nXOff a -> nBufXSize a + nXOff a <= INT_MAX ->
  outer_inv st ->
  match window_outer_body cfg i2f32 i2f64 fconv b a st with
  | Next st' => outer_inv st' /\ outer_measure a st' < outer_measure a st
  | c => ctl_post outer_inv ret_inv c
  end.
Proof.
  intros Hbw Hbh Hx Hmax. destruct st as [[iBufYOff iSrcY] s].
  unfold window_outer_body, outer_inv at 1. cbv beta iota zeta.
  intros [I Hy].
  assert (W := @while_ctl_post _ (inner_inv b a) ret_inv (inner_measure a)
                 (fun st => let '(iSrcX, _, _, _) := st in iSrcX <? nBufXSize a + nXOff a)
                 (window_inner_body cfg i2f32 i2f64 fconv b a iBufYOff iSrcY
                    (Z.quot iSrcY (nBlockYSize b)) (nBufXSize a + nXOff a))).
  assert (W1 : forall s0, inner_inv b a s0 ->
             (let '(iSrcX, _, _, _) := s0 in iSrcX <? nBufXSize a + nXOff a) = true ->
             0 < inner_measure a s0).
  { intros [[[x bx] o] s0] _ C. simpl in *. apply Z.ltb_lt in C. lia. }
  specialize (W W1 (fun s0 H C => window_inner_body_locks b a iBufYOff iSrcY
                                    (Z.quot iSrcY (nBlockYSize b)) s0 Hbw Hmax H C)).
  specialize (W (Z.to_nat (nBufXSize a))
                (nXOff a, Z.quot (nXOff a) (nBlockXSize b), iBufYOff * nLineSpace a, s)).
  assert (I0 : inner_inv b a (nXOff a, Z.quot (nXOff a) (nBlockXSize b),
                              iBufYOff * nLineSpace a, s)).
  { split; [exact I|]. intros _. apply quot_block_bounds; assumption. }
  assert (M0 : inner_measure a (nXOff a, Z.quot (nXOff a) (nBlockXSize b),
                                iBufYOff * nLineSpace a, s)
               <= Z.of_nat (Z.to_nat (nBufXSize a))).
  { simpl. lia. }
  specialize (W I0 M0).
  assert (R := Z.rem_bound_pos iSrcY (nBlockYSize b) Hy Hbh).
  destruct (while_ctl _ _ _ _) as [[[[x bx] o] s'] | [[[x bx] o] s'] | e s' |];
    simpl in W; try exact W; try contradiction.
  - destruct W as [I' _].
    match goal with |- context [progress_stops a ?q s'] =>
      assert (Q := quiet_progress a q s');
      destruct (progress_stops a q s') as [stop s1] end.
    simpl in Q. assert (I1 := lock_inv_quiet I' Q).
    destruct stop; cbv beta iota zeta delta [ctl_post outer_inv outer_measure];
      [exact I1|]. repeat split; try apply I1; lia.
  - destruct W as [I' _].
    match goal with |- context [progress_stops a ?q s'] =>
      assert (Q := quiet_progress a q s');
      destruct (progress_stops a q s') as [stop s1] end.
    simpl in Q. assert (I1 := lock_inv_quiet I' Q).
    destruct stop; cbv beta iota zeta delta [ctl_post outer_inv outer_measure];
      [exact I1|]. repeat split; try apply I1; lia.
Qed.

Lemma IRasterIO_window_locks (b : Band) (a : RasterIOArgs) (s : IOState) :
  0 < nBlockXSize b -> 0 < nBlockYSize b ->
  0 <= nXOff a -> 0 <= nYOff a -> nBufXSize a + nXOff a <= INT_MAX ->
  lock_inv None s ->
  exists e s', IRasterIO_window cfg i2f32 i2f64 fconv b a s = Some (e, s')
               /\ lock_inv None s'.
Proof.
  intros Hbw Hbh Hx Hy Hmax I. unfold IRasterIO_window.
  assert (W := @while_ctl_post _ outer_inv ret_inv (outer_measure a)
                 (fun st => let '(iBufYOff, _, _) := st in iBufYOff <? nBufYSize a)
                 (window_outer_body cfg i2f32 i2f64 fconv b a)).
  assert (W1 : forall s0, outer_inv s0 ->
             (let '(iBufYOff, _, _) := s0 in iBufYOff <? nBufYSize a) = true ->
             0 < outer_measure a s0).
  { intros [[i y] s0] _ C. simpl in *. apply Z.ltb_lt in C. lia. }
  specialize (W W1 (fun s0 H _ => window_outer_body_locks b a s0 Hbw Hbh Hx Hmax H)).
  specialize (W (Z.to_nat (nBufYSize a)) (0, nYOff a, s)).
  assert (I0 : outer_inv (0, nYOff a, s)) by (split; assumption).
  assert (M0 : outer_measure a (0, nYOff a, s) <= Z.of_nat (Z.to_nat (nBufYSize a)))
    by (simpl; lia).
  specialize (W I0 M0).
  destruct (while_ctl _ _ _ _) as [[[i y] s'] | [[i y] s'] | e s' |]; simpl in W.
  - exists CE_None, s'. split; [reflexivity | apply W].
  - exists CE_None, s'. split; [reflexivity | apply W].
  - exists e, s'. split; [reflexivity | exact W].
  - contradiction.
Qed.

(** C8: in the 1:1 cases of [IRasterIO] (the packed full-width case and the
    arbitrary-window case, that is whenever the buffer has the size of an
    integer window), the call returns, and the trace of its collaborator
    calls obeys the lock discipline: at every point at most one block is
    locked, a block is only fetched while no lock is held, and no lock is
    held any more when the call returns, whether it succeeds, fails or is
    interrupted. *)
Theorem one_to_one_cases_hold_one_lock :
  forall (b : Band) (a : RasterIOArgs) (s : IOState),
    is_window_case a = true ->
    0 <= nXOff a -> 0 <= nYOff a -> nBufXSize a + nXOff a <= INT_MAX ->
    locks_ok (trace s) -> held (trace s) = 0 ->
    exists e s',
      IRasterIO cfg i2f32 i2f64 fconv b a s = Some (e, s')
      /\ locks_ok (trace s') /\ held (trace s') = 0.
Proof.
  intros b a s Hcase Hx Hy Hmax L H.
  assert (I : lock_inv None s) by (split; assumption).
  unfold IRasterIO.
  destruct (is_write (eRWFlag a) && negb (CPLErr_eqb (eFlushBlockErr s) CE_None)).
  { exists (eFlushBlockErr s), (set_flush CE_None s). repeat split; assumption. }
  destruct ((nBlockXSize b <=? 0) || (nBlockYSize b <=? 0)) eqn:Eb.
  { exists CE_Failure, s. repeat split; assumption. }
  apply orb_false_iff in Eb. destruct Eb as [Ebw Ebh].
  apply Z.leb_gt in Ebw. apply Z.leb_gt in Ebh.
  destruct (is_packed_case b a).
  { destruct (IRasterIO_packed_locks b a I) as (e & s' & E & [L' H']).
    exists e, s'. repeat split; assumption. }
  cbv zeta.
  assert (Hsz := Hcase). unfold is_window_case in Hsz.
  apply andb_true_iff in Hsz. destruct Hsz as [Hsz _].
  apply andb_true_iff in Hsz. destruct Hsz as [Ex Ey].
  apply Z.eqb_eq in Ex. apply Z.eqb_eq in Ey.
  assert (N : ((nBufXSize a <? nXSize a) || (nBufYSize a <? nYSize a)) = false).
  { apply orb_false_iff. split; apply Z.ltb_ge; lia. }
  rewrite N. cbv beta iota zeta delta [andb].
  rewrite Hcase.
  match goal with |- context [if ?c then Some (CE_None, ?s1) else _] => destruct c end.
  { eexists CE_None, _. split; [reflexivity|]. split; assumption. }
  destruct (IRasterIO_window_locks b a Ebw Ebh Hx Hy Hmax I)
    as (e & s' & E & [L' H']).
  exists e, s'. repeat split; assumption.
Qed.

(* ------------------------------------------------------------------ *)
(** ** The word copier: fast paths, replication, complex words *)

(** C4: for every pair of pixel types, every pair of strides, every word
    count and every pair of pointers, in every build configuration, the
    destination memory produced by [GDALCopyWords] (through the packed
    [memcpy], the unrolled small-stride copies, the SIMD kernels, the
    replication and the aligned-access loop) is the one produced by the
    generic per-word loop over the word converter. *)
Theorem fast_paths_agree_with_generic_fallback :
  forall (eSrcType eDstType : GDALDataType)
         (src : mem) (pSrcData nSrcPixelStride : Z)
         (dst : mem) (pDstData nDstPixelStride nWordCount : Z),
    known_type eSrcType = true -> known_type eDstType = true ->
    GDALCopyWords cfg i2f32 i2f64 fconv src pSrcData eSrcType nSrcPixelStride
                  dst pDstData eDstType nDstPixelStride nWordCount
    = GDALCopyWords_generic i2f32 i2f64 fconv src pSrcData eSrcType nSrcPixelStride
                            dst pDstData eDstType nDstPixelStride nWordCount.
Proof. intros. apply GDALCopyWords_is_generic; assumption. Qed.

Lemma GDALCopyWords_single (eS eD : GDALDataType)
    (src : mem) (pS sS : Z) (dst : mem) (pD dS : Z) :
  known_type eS = true -> known_type eD = true ->
  GDALCopyWords cfg i2f32 i2f64 fconv src pS eS sS dst pD eD dS 1
  = store_bytes dst pD
      (pixel_bytes i2f32 i2f64 fconv eS eD
         (load_bytes src pS (pixel_size (component_type eS) (GDALDataTypeIsComplex eS)))).
Proof.
  intros HS HD. rewrite GDALCopyWords_is_generic by assumption.
  unfold GDALCopyWords_generic. change (Z.to_nat 1) with 1%nat. cbn [for_loop].
  rewrite convert_pixel_store. f_equal; [lia|]. do 2 f_equal. lia.
Qed.


(** C6: a word of a non-complex type copied to a complex type has the
    scalar conversion of the source as real part and the zero of the
    destination component type as imaginary part; a word of a complex
    type copied to a non-complex type is the scalar conversion of its
    real component alone: the bytes of the imaginary component are not
    read. *)
Theorem complex_words_convert_real_part :
  forall (eSrcType eDstType : GDALDataType)
         (src : mem) (pSrcData nSrcPixelStride : Z)
         (dst : mem) (pDstData nDstPixelStride : Z),
    known_type eSrcType = true -> known_type eDstType = true ->
    let tin := component_type eSrcType in
    let tout := component_type eDstType in
    let re := fit (sizeof tout)
                  (GDALCopyWord i2f32 i2f64 fconv tin tout (load tin src pSrcData)) in
    let result :=
      GDALCopyWords cfg i2f32 i2f64 fconv src pSrcData eSrcType nSrcPixelStride
                    dst pDstData eDstType nDstPixelStride 1 in
    (GDALDataTypeIsComplex eSrcType = false -> GDALDataTypeIsComplex eDstType = true ->
     result = store_bytes dst pDstData
                (re ++ fit (sizeof tout) (c_int_to i2f32 i2f64 tout 0)))
    /\ (GDALDataTypeIsComplex eSrcType = true -> GDALDataTypeIsComplex eDstType = false ->
        result = store_bytes dst pDstData re).
Proof.
  intros eS eD src pS sS dst pD dS HS HD. cbv zeta.
  rewrite GDALCopyWords_single by assumption.
  unfold pixel_bytes, pixel_bytes_t, pixel_size, load.
  split; intros CS CD; rewrite CS, CD.
  - rewrite firstn_all2 by (rewrite load_bytes_length; lia). reflexivity.
  - rewrite firstn_load_bytes. reflexivity.
Qed.


(* ------------------------------------------------------------------ *)
(** ** Writes of the 1:1 cases stay within the raster *)

Lemma store_bytes_frame (m : mem) (a : Z) (bs : list byte) (o : Z) :
  o < a \/ a + Z.of_nat (List.length bs) <= o -> store_bytes m a bs o = m o.
Proof. intro H. unfold store_bytes. mem_cases. Qed.

Lemma memcpy_frame (d : mem) (a : Z) (src : mem) (p n o : Z) :
  o < a \/ a + n <= o -> memcpy d a src p n o = d o.
Proof. intro H. unfold memcpy. mem_cases. Qed.

Lemma pixel_size_pos (e : GDALDataType) :
  known_type e = true -> 0 < GDALGetDataTypeSizeBytes e.
Proof. destruct e; try discriminate; reflexivity. Qed.

(** A packed run of [n] converted pixels leaves the bytes before and
    after it alone. *)
Lemma GDALCopyWords_frame (eS eD : GDALDataType) (src : mem) (pS sS : Z)
    (dst : mem) (pD n o : Z) :
  known_type eS = true -> known_type eD = true ->
  o < pD \/ pD + n * GDALGetDataTypeSizeBytes eD <= o ->
  GDALCopyWords cfg i2f32 i2f64 fconv src pS eS sS
                dst pD eD (GDALGetDataTypeSizeBytes eD) n o
  = dst o.
Proof.
  intros HS HD Ho. rewrite GDALCopyWords_is_generic by assumption.
  unfold GDALCopyWords_generic.
  assert (P := pixel_size_pos eD HD).
  set (sz := GDALGetDataTypeSizeBytes eD) in *.
  assert (G : forall (m : nat) (i : Z) (d : mem),
             o < pD + i * sz \/ pD + (i + Z.of_nat m) * sz <= o ->
             for_loop m i
               (fun k d => convert_pixel i2f32 i2f64 fconv eS eD src (pS + k * sS)
                             d (pD + k * sz)) d o = d o).
  { induction m as [|m IH]; intros i d Hi; [reflexivity|].
    cbn [for_loop]. rewrite IH by nia.
    rewrite convert_pixel_store. apply store_bytes_frame.
    rewrite pixel_bytes_length.
    replace (Z.of_nat (pixel_size (component_type eD) (GDALDataTypeIsComplex eD)))
      with sz by (apply pixel_size_bytes; exact HD).
    nia. }
  destruct (Z.le_gt_cases n 0) as [Hn|Hn].
  - replace (Z.to_nat n) with O by lia. reflexivity.
  - apply G. rewrite Z2Nat.id by lia. lia.
Qed.

(** A byte of a run of pixels of one row of a block, the pixels being
    within the raster, is no padding. *)
Lemma run_not_padding (b : Band) (x y r c n o : Z) :
  0 < nBlockXSize b -> 0 < GDALGetDataTypeSizeBytes (eDataType b) ->
  0 <= c -> c + n <= nBlockXSize b ->
  x * nBlockXSize b + c + n <= nRasterXSize b ->
  y * nBlockYSize b + r < nRasterYSize b ->
  padding b x y o ->
  o < (r * nBlockXSize b + c) * GDALGetDataTypeSizeBytes (eDataType b)
  \/ (r * nBlockXSize b + c) * GDALGetDataTypeSizeBytes (eDataType b)
     + n * GDALGetDataTypeSizeBytes (eDataType b) <= o.
Proof.
  intros Hbw Hsz Hc Hcn HX HY (px & py & k & Hpx & Hpy & Hk & -> & Hout).
  set (bw := nBlockXSize b) in *. set (sz := GDALGetDataTypeSizeBytes (eDataType b)) in *.
  destruct (Z.lt_ge_cases ((py * bw + px) * sz + k) ((r * bw + c) * sz)) as [L|L];
    [left; exact L|].
  destruct (Z.lt_ge_cases ((py * bw + px) * sz + k) ((r * bw + c) * sz + n * sz)) as [U|U];
    [|right; exact U].
  exfalso.
  assert (A1 : r * bw + c <= py * bw + px) by nia.
  assert (A2 : py * bw + px < r * bw + c + n) by nia.
  assert (E : py = r) by nia.
  subst py. destruct Hout as [Hout|Hout]; lia.
Qed.

Lemma raster_write_refl (b : Band) (x y : Z) (s : IOState) : raster_write b x y s s.
Proof. split; reflexivity. Qed.

Lemma raster_write_trans (b : Band) (x y : Z) (s1 s2 s3 : IOState) :
  raster_write b x y s1 s2 -> raster_write b x y s2 s3 -> raster_write b x y s1 s3.
Proof.
  intros [T1 B1] [T2 B2]. split; [congruence|].
  intros x' y' o H. rewrite B2, B1 by exact H. reflexivity.
Qed.

Lemma blocks_set_block (x y : Z) (m : mem) (s : IOState) (x' y' : Z) :
  blocks (set_block x y m s) x' y'
  = if (x' =? x) && (y' =? y) then m else blocks s x' y'.
Proof. reflexivity. Qed.

Lemma set_block_raster_write (b : Band) (x y : Z) (m : mem) (s : IOState) :
  (forall o, padding b x y o -> m o = blocks s x y o) ->
  raster_write b x y s (set_block x y m s).
Proof.
  intro H. split; [reflexivity|]. intros x' y' o Ho. rewrite blocks_set_block.
  destruct (Z.eqb_spec x' x) as [->|Nx]; [|reflexivity].
  destruct (Z.eqb_spec y' y) as [->|Ny]; [|reflexivity].
  cbn [andb]. destruct Ho as [Ho|[Ho|Ho]]; try contradiction. apply H. exact Ho.
Qed.

Lemma memcpy_rw_raster_write (b : Band) (a : RasterIOArgs) (x y off boff len : Z)
    (s : IOState) :
  is_write (eRWFlag a) = true ->
  (forall o, padding b x y o -> o < off \/ off + len <= o) ->
  raster_write b x y s (memcpy_rw a x y off boff len s).
Proof.
  intros W H. unfold memcpy_rw. rewrite W. apply set_block_raster_write.
  intros o Ho. apply memcpy_frame. apply H. exact Ho.
Qed.

Lemma copy_words_rw_raster_write (b : Band) (a : RasterIOArgs) (x y off boff n : Z)
    (s : IOState) :
  is_write (eRWFlag a) = true ->
  known_type (eDataType b) = true -> known_type (eBufType a) = true ->
  (forall o, padding b x y o ->
             o < off \/ off + n * GDALGetDataTypeSizeBytes (eDataType b) <= o) ->
  raster_write b x y s (copy_words_rw cfg i2f32 i2f64 fconv b a x y off boff n s).
Proof.
  intros W KD KB H. unfold copy_words_rw. rewrite W. apply set_block_raster_write.
  intros o Ho. apply GDALCopyWords_frame; try assumption. apply H. exact Ho.
Qed.

Lemma fill_inv_raster_write (b : Band) (a : RasterIOArgs) (t0 : list Event)
    (x y : Z) (s s' : IOState) :
  fill_inv b a t0 s -> raster_write b x y s s' -> fill_inv b a t0 s'.
Proof.
  intros (new & T & F & Z0) [T' B']. exists new. repeat split.
  - congruence.
  - exact F.
  - intros x' y' o Hin Hp. rewrite B'; [apply Z0; assumption|].
    destruct (Z.eq_dec x' x) as [->|Nx]; [|left; exact Nx].
    destruct (Z.eq_dec y' y) as [->|Ny]; [|right; left; exact Ny].
    right. right. exact Hp.
Qed.

Lemma no_fetch_refl (s : IOState) : no_fetch s s.
Proof. split; [reflexivity|]. exists []. split; [reflexivity|]. intros ? ? ? ? []. Qed.

Lemma no_fetch_trans (s1 s2 s3 : IOState) :
  no_fetch s1 s2 -> no_fetch s2 s3 -> no_fetch s1 s3.
Proof.
  intros [B1 (e1 & T1 & N1)] [B2 (e2 & T2 & N2)]. split; [congruence|].
  exists (e2 ++ e1). split.
  - rewrite T2, T1. apply app_assoc.
  - intros x y ji ok H. apply in_app_or in H. destruct H as [H|H].
    + exact (N2 _ _ _ _ H).
    + exact (N1 _ _ _ _ H).
Qed.

Lemma no_fetch_log (e : Event) (s : IOState) :
  (forall x y ji ok, e <> EvFetch x y ji ok) -> no_fetch s (log e s).
Proof.
  intro H. split; [reflexivity|]. exists [e]. split; [reflexivity|].
  intros x y ji ok [E|[]]. exact (H _ _ _ _ E).
Qed.

Lemma no_fetch_Interrupted (b : Band) (s : IOState) : no_fetch s (snd (Interrupted b s)).
Proof.
  unfold Interrupted. destruct (poDS b); cbn [snd].
  - apply no_fetch_log. discriminate.
  - apply no_fetch_refl.
Qed.

Lemma no_fetch_MarkDirty (x y : Z) (s : IOState) : no_fetch s (MarkDirty x y s).
Proof. apply no_fetch_log. discriminate. Qed.

Lemma no_fetch_DropLock (p : option (Z * Z)) (s : IOState) : no_fetch s (DropLock p s).
Proof.
  destruct p as [[x y]|]; cbn [DropLock].
  - apply no_fetch_log. discriminate.
  - apply no_fetch_refl.
Qed.

Lemma no_fetch_progress (a : RasterIOArgs) (q : Q) (s : IOState) :
  no_fetch s (snd (progress_stops a q s)).
Proof.
  unfold progress_stops. destruct (pfnProgress (psExtraArg a)); cbn [snd].
  - apply no_fetch_log. discriminate.
  - apply no_fetch_refl.
Qed.

Lemma fill_inv_no_fetch (b : Band) (a : RasterIOArgs) (t0 : list Event)
    (s s' : IOState) :
  fill_inv b a t0 s -> no_fetch s s' -> fill_inv b a t0 s'.
Proof.
  intros (new & T & F & Z0) [B' (evs & T' & N)]. exists (evs ++ new). repeat split.
  - rewrite T', T. apply app_assoc.
  - intros x y ji ok H. apply in_app_or in H. destruct H as [H|H].
    + destruct (N _ _ _ _ H).
    + exact (F _ _ _ _ H).
  - intros x y o H Hp. rewrite B'. apply in_app_or in H. destruct H as [H|H].
    + destruct (N _ _ _ _ H).
    + apply Z0; assumption.
Qed.

Lemma padding_in_block (b : Band) (x y o : Z) :
  padding b x y o ->
  0 <= o < GDALGetDataTypeSizeBytes (eDataType b) * nBlockXSize b * nBlockYSize b.
Proof.
  intros (px & py & k & Hpx & Hpy & Hk & -> & _).
  set (bw := nBlockXSize b) in *. set (bh := nBlockYSize b) in *.
  set (sz := GDALGetDataTypeSizeBytes (eDataType b)) in *.
  assert (A0 : 0 <= py * bw) by nia.
  assert (A1 : (py + 1) * bw <= bh * bw) by (apply Z.mul_le_mono_nonneg_r; lia).
  assert (A2 : (py * bw + px + 1) * sz <= bh * bw * sz)
    by (apply Z.mul_le_mono_nonneg_r; lia).
  assert (A3 : 0 <= (py * bw + px) * sz) by (apply Z.mul_nonneg_nonneg; lia).
  split; [lia|].
  replace (sz * bw * bh) with (bh * bw * sz) by ring. lia.
Qed.

(** A successful fetch, followed by the zero fill of a partial block the
    window covers. *)
Lemma fill_inv_fetch (b : Band) (a : RasterIOArgs) (t0 : list Event)
    (x y : Z) (ji mz : bool) (s : IOState) :
  fill_inv b a t0 s ->
  ji = covers b a x y ->
  (ji = true -> mz = false -> forall o, ~ padding b x y o) ->
  let s1 := snd (GetLockedBlockRef b x y ji s) in
  let s2 := if is_write (eRWFlag a) then MarkDirty x y s1 else s1 in
  fill_inv b a t0 (if mz then zero_block b x y s2 else s2).
Proof.
  intros (new & T & F & Z0) Hji Hfull s1 s2.
  assert (T1 : exists ok, trace s1 = EvFetch x y ji ok :: trace s).
  { unfold s1, GetLockedBlockRef. cbv zeta.
    destruct (block_ok b (List.length (trace s)) x y ji); cbn [snd].
    - exists true. destruct (ji && _); reflexivity.
    - exists false. reflexivity. }
  destruct T1 as (ok & T1).
  assert (B1 : forall x' y', x' <> x \/ y' <> y \/ ji = false ->
                             blocks s1 x' y' = blocks s x' y').
  { intros x' y' H. unfold s1, GetLockedBlockRef. cbv zeta.
    destruct (block_ok b (List.length (trace s)) x y ji); cbn [snd]; [|reflexivity].
    destruct (ji && negb (block_cached b (List.length (trace s)) x y)) eqn:E;
      [|reflexivity].
    rewrite blocks_set_block.
    destruct (Z.eqb_spec x' x) as [->|Nx]; [|reflexivity].
    destruct (Z.eqb_spec y' y) as [->|Ny]; [|reflexivity].
    destruct H as [H|[H|H]]; try contradiction.
    rewrite H in E. cbn [andb] in E. discriminate E. }
  assert (N2 : exists evs, trace s2 = evs ++ trace s1
                           /\ blocks s2 = blocks s1
                           /\ forall x y ji ok, ~ In (EvFetch x y ji ok) evs).
  { destruct (no_fetch_MarkDirty x y s1) as [Bm (evs & Tm & Nm)].
    unfold s2. destruct (is_write (eRWFlag a)).
    - exists evs. repeat split; assumption.
    - exists []. repeat split. intros ? ? ? ? []. }
  destruct N2 as (evs & T2 & B2 & N2).
  set (s3 := if mz then zero_block b x y s2 else s2).
  assert (T3 : trace s3 = trace s2) by (unfold s3; destruct mz; reflexivity).
  exists (evs ++ EvFetch x y ji ok :: new). repeat split.
  - rewrite T3, T2, T1, T. rewrite <- app_assoc. reflexivity.
  - intros x' y' ji' ok' H. apply in_app_or in H. destruct H as [H|[H|H]].
    + destruct (N2 _ _ _ _ H).
    + inversion H. subst. reflexivity.
    + exact (F _ _ _ _ H).
  - intros x' y' o H Hp.
    assert (C : covers b a x' y' = true).
    { apply in_app_or in H. destruct H as [H|[H|H]].
      - destruct (N2 _ _ _ _ H).
      - inversion H. subst. congruence.
      - symmetry. exact (F _ _ _ _ H). }
    destruct (Z.eq_dec x' x) as [->|Nx]; [destruct (Z.eq_dec y' y) as [->|Ny]|].
    + (* the block just fetched *)
      assert (J : ji = true) by congruence.
      unfold s3. destruct mz.
      * unfold zero_block. rewrite blocks_set_block, !Z.eqb_refl. cbn [andb].
        assert (R := padding_in_block Hp). unfold memset. mem_cases.
      * destruct (Hfull J eq_refl o Hp).
    + assert (E3 : blocks s3 x y' = blocks s2 x y').
      { unfold s3. destruct mz; [|reflexivity].
        unfold zero_block. rewrite blocks_set_block.
        destruct (Z.eqb_spec y' y); [contradiction|]. rewrite andb_false_r. reflexivity. }
      rewrite E3, B2, B1 by (right; left; exact Ny).
      apply Z0; [|exact Hp].
      apply in_app_or in H. destruct H as [H|[H|H]].
      * destruct (N2 _ _ _ _ H).
      * inversion H. subst. contradiction.
      * exact H.
    + assert (E3 : blocks s3 x' y' = blocks s2 x' y').
      { unfold s3. destruct mz; [|reflexivity].
        unfold zero_block. rewrite blocks_set_block.
        destruct (Z.eqb_spec x' x); [contradiction|]. reflexivity. }
      rewrite E3, B2, B1 by (left; exact Nx).
      apply Z0; [|exact Hp].
      apply in_app_or in H. destruct H as [H|[H|H]].
      * destruct (N2 _ _ _ _ H).
      * inversion H. subst. contradiction.
      * exact H.
Qed.

Lemma for_loop_preserves_range (S : Type) (P : S -> Prop) (body : Z -> S -> S) :
  forall (n : nat) (i0 : Z) (s : S),
    (forall i s, i0 <= i < i0 + Z.of_nat n -> P s -> P (body i s)) ->
    P s -> P (for_loop n i0 body s).
Proof.
  induction n as [|n IH]; intros i0 s Hbody Hs; [exact Hs|].
  cbn [for_loop]. apply IH.
  - intros i s0 Hi. apply Hbody. lia.
  - apply Hbody; [lia | exact Hs].
Qed.

Lemma fill_inv_fetch_failed (b : Band) (a : RasterIOArgs) (t0 : list Event)
    (x y : Z) (ji : bool) (s s1 : IOState) :
  fill_inv b a t0 s ->
  ji = covers b a x y ->
  GetLockedBlockRef b x y ji s = (false, s1) ->
  fill_inv b a t0 s1.
Proof.
  intros (new & T & F & Z0) Hji G. unfold GetLockedBlockRef in G. cbv zeta in G.
  destruct (block_ok b (List.length (trace s)) x y ji); [discriminate G|].
  inversion G. subst s1. exists (EvFetch x y ji false :: new). repeat split.
  - cbn [log trace]. rewrite T. reflexivity.
  - intros x' y' ji' ok' [H|H]; [inversion H; subst; reflexivity | exact (F _ _ _ _ H)].
  - intros x' y' o [H|H] Hp; [discriminate H|]. apply Z0; assumption.
Qed.

Lemma for_ctl_post_range (S : Type) (P : S -> Prop) (R : CPLErr -> IOState -> Prop)
    (body : Z -> S -> Ctl S) :
  forall (n : nat) (i0 : Z) (s : S),
    (forall i s, i0 <= i < i0 + Z.of_nat n -> P s -> ctl_post P R (body i s)) ->
    P s -> ctl_post P R (for_ctl n i0 body s).
Proof.
  induction n as [|n IH]; intros i0 s Hbody Hs; [exact Hs|].
  cbn [for_ctl]. assert (H := Hbody i0 s ltac:(lia) Hs).
  destruct (body i0 s); cbn [ctl_post] in *; auto.
  apply IH; [|exact H]. intros i s1 Hi. apply Hbody. lia.
Qed.

Section Fill.

Variable b : Band.
Variable a : RasterIOArgs.
Variable t0 : list Event.

Hypothesis W : is_write (eRWFlag a) = true.
Hypothesis KD : known_type (eDataType b) = true.
Hypothesis KB : known_type (eBufType a) = true.
Hypothesis Hbw : 0 < nBlockXSize b.
Hypothesis Hbh : 0 < nBlockYSize b.
Hypothesis Hx : 0 <= nXOff a.
Hypothesis Hy : 0 <= nYOff a.
Hypothesis HX : nXOff a + nXSize a <= nRasterXSize b.
Hypothesis HY : nYOff a + nYSize a <= nRasterYSize b.
Hypothesis Hmax : nRasterXSize b < INT_MAX.
Hypothesis Ex : nXSize a = nBufXSize a.
Hypothesis Ey : nYSize a = nBufYSize a.

Lemma window_inner_body_fill (iBufYOff iSrcY : Z) (st : Z * Z * Z * IOState) :
  0 <= iBufYOff -> iSrcY = nYOff a + iBufYOff ->
  inner_fill b a t0 st ->
  (let '(iSrcX, _, _, _) := st in iSrcX <? nBufXSize a + nXOff a) = true ->
  match window_inner_body cfg i2f32 i2f64 fconv b a iBufYOff iSrcY
          (Z.quot iSrcY (nBlockYSize b)) (nBufXSize a + nXOff a) st with
  | Next st' => inner_fill b a t0 st' /\ inner_measure a st' < inner_measure a st
  | c => ctl_post (inner_fill b a t0) (ret_fill b a t0) c
  end.
Proof.
  intros Hi HsrcY. destruct st as [[[iSrcX bx] off] s].
  unfold window_inner_body, inner_fill, inner_measure. cbv beta iota zeta.
  intros [I Hblk] C. apply Z.ltb_lt in C. specialize (Hblk C).
  rewrite W. cbn [andb].
  assert (Yb := @quot_block_bounds iSrcY (nBlockYSize b) ltac:(lia) Hbh).
  set (y := Z.quot iSrcY (nBlockYSize b)) in *.
  set (XR := if bx * nBlockXSize b <? INT_MAX - nBlockXSize b
             then bx * nBlockXSize b + nBlockXSize b else INT_MAX).
  assert (HXR : (XR = bx * nBlockXSize b + nBlockXSize b
                 /\ bx * nBlockXSize b < INT_MAX - nBlockXSize b)
                \/ (XR = INT_MAX /\ INT_MAX - nBlockXSize b <= bx * nBlockXSize b)).
  { unfold XR. destruct (Z.ltb_spec (bx * nBlockXSize b) (INT_MAX - nBlockXSize b));
      [left | right]; split; auto. }
  clearbody XR.
  assert (N := no_fetch_Interrupted b s).
  destruct (Interrupted b s) as [intr s2]. cbn [snd] in N.
  assert (I2 := fill_inv_no_fetch I N).
  destruct intr; [exact I2|].
  match goal with |- context [if ?mz then zero_block _ _ _ _ else _] =>
    match mz with context [negb ?j] => set (J1 := j) end end.
  match goal with |- context [if ?mz then zero_block _ _ _ _ else _] => set (MZ := mz) end.
  match goal with |- context [GetLockedBlockRef b bx y ?ji s2] => set (JI := ji) end.
  assert (F1 : JI = covers b a bx y).
  { unfold JI, MZ, J1, covers. apply eq_iff_eq_true.
    rewrite ?orb_true_iff, ?andb_true_iff, ?negb_true_iff, ?andb_false_iff,
      ?orb_true_iff, ?andb_true_iff, ?Z.leb_le, ?Z.ltb_lt, ?Z.eqb_eq, ?Z.leb_gt.
    lia. }
  assert (F2 : JI = true -> MZ = false -> forall o, ~ padding b bx y o).
  { intros HJ HM o (px & py & k & Hpx & Hpy & Hk & _ & Hout).
    unfold JI in HJ. rewrite HM, orb_false_r in HJ. unfold J1 in HJ.
    rewrite ?andb_true_iff, ?Z.leb_le in HJ. lia. }
  set (SP := (if XR <? nBufXSize a + nXOff a then XR else nBufXSize a + nXOff a) - iSrcX).
  assert (HSP : 0 < SP /\ iSrcX + SP <= XR /\ iSrcX + SP <= nBufXSize a + nXOff a
                /\ (iSrcX + SP < nBufXSize a + nXOff a -> iSrcX + SP = XR)).
  { unfold SP. unfold INT_MAX in *.
    destruct (Z.ltb_spec XR (nBufXSize a + nXOff a)); lia. }
  clearbody SP.
  assert (FF := @fill_inv_fetch b a t0 bx y JI MZ s2 I2 F1 F2).
  cbv zeta in FF. rewrite W in FF.
  destruct (GetLockedBlockRef b bx y JI s2) as [ok s3] eqn:G. cbn [snd] in FF.
  destruct ok; cbv beta iota zeta delta [negb ctl_post];
    [| exact (@fill_inv_fetch_failed b a t0 bx y JI s2 s3 I2 F1 G)].
  split; [split|].
  - eapply fill_inv_no_fetch; [|apply no_fetch_DropLock].
    eapply fill_inv_raster_write; [exact FF|].
    apply for_loop_preserves_range; [|apply raster_write_refl].
    intros k s1 Hk P. eapply raster_write_trans; [exact P|].
    assert (Pad : forall o, padding b bx y o ->
              o < (iSrcX - bx * nBlockXSize b
                   + (iSrcY - y * nBlockYSize b) * nBlockXSize b)
                  * GDALGetDataTypeSizeBytes (eDataType b)
                  + k * (nBlockXSize b * GDALGetDataTypeSizeBytes (eDataType b))
              \/ (iSrcX - bx * nBlockXSize b
                  + (iSrcY - y * nBlockYSize b) * nBlockXSize b)
                 * GDALGetDataTypeSizeBytes (eDataType b)
                 + k * (nBlockXSize b * GDALGetDataTypeSizeBytes (eDataType b))
                 + SP * GDALGetDataTypeSizeBytes (eDataType b) <= o).
    { intros o Ho.
      replace ((iSrcX - bx * nBlockXSize b
                + (iSrcY - y * nBlockYSize b) * nBlockXSize b)
               * GDALGetDataTypeSizeBytes (eDataType b)
               + k * (nBlockXSize b * GDALGetDataTypeSizeBytes (eDataType b)))
        with (((iSrcY - y * nBlockYSize b + k) * nBlockXSize b
               + (iSrcX - bx * nBlockXSize b))
              * GDALGetDataTypeSizeBytes (eDataType b)) by ring.
      apply (@run_not_padding b bx y (iSrcY - y * nBlockYSize b + k)
               (iSrcX - bx * nBlockXSize b) SP o); try assumption.
      - apply pixel_size_pos. exact KD.
      - lia.
      - unfold INT_MAX in *. lia.
      - lia.
      - lia. }
    destruct (GDALDataType_eqb (eDataType b) (eBufType a)
              && (nPixelSpace a =? GDALGetDataTypeSizeBytes (eBufType a))) eqn:ST.
    + apply andb_true_iff in ST. destruct ST as [ST1 ST2].
      apply GDALDataType_eqb_eq in ST1. apply Z.eqb_eq in ST2.
      rewrite ST2, <- ST1.
      apply memcpy_rw_raster_write; [exact W | exact Pad].
    + apply copy_words_rw_raster_write; try assumption.
  - unfold INT_MAX in *. intro L. lia.
  - lia.
Qed.

Lemma window_outer_body_fill (st : Z * Z * IOState) :
  outer_fill b a t0 st ->
  match window_outer_body cfg i2f32 i2f64 fconv b a st with
  | Next st' => outer_fill b a t0 st' /\ outer_measure a st' < outer_measure a st
  | c => ctl_post (outer_fill b a t0) (ret_fill b a t0) c
  end.
Proof.
  destruct st as [[iBufYOff iSrcY] s].
  unfold window_outer_body, outer_fill at 1. cbv beta iota zeta.
  intros (I & Hi & HsrcY).
  assert (Wh := @while_ctl_post _ (inner_fill b a t0) (ret_fill b a t0) (inner_measure a)
                 (fun st => let '(iSrcX, _, _, _) := st in iSrcX <? nBufXSize a + nXOff a)
                 (window_inner_body cfg i2f32 i2f64 fconv b a iBufYOff iSrcY
                    (Z.quot iSrcY (nBlockYSize b)) (nBufXSize a + nXOff a))).
  assert (W1 : forall s0, inner_fill b a t0 s0 ->
             (let '(iSrcX, _, _, _) := s0 in iSrcX <? nBufXSize a + nXOff a) = true ->
             0 < inner_measure a s0).
  { intros [[[x bx] o] s0] _ C. cbn [inner_measure] in *. apply Z.ltb_lt in C.
    unfold inner_measure. lia. }
  specialize (Wh W1 (fun s0 H C => @window_inner_body_fill iBufYOff iSrcY s0 Hi HsrcY H C)).
  specialize (Wh (Z.to_nat (nBufXSize a))
                 (nXOff a, Z.quot (nXOff a) (nBlockXSize b), iBufYOff * nLineSpace a, s)).
  assert (I0 : inner_fill b a t0 (nXOff a, Z.quot (nXOff a) (nBlockXSize b),
                                  iBufYOff * nLineSpace a, s)).
  { split; [exact I|]. intros _. apply quot_block_bounds; assumption. }
  assert (M0 : inner_measure a (nXOff a, Z.quot (nXOff a) (nBlockXSize b),
                                iBufYOff * nLineSpace a, s)
               <= Z.of_nat (Z.to_nat (nBufXSize a))).
  { unfold inner_measure. lia. }
  specialize (Wh I0 M0).
  assert (R := Z.rem_bound_pos iSrcY (nBlockYSize b) ltac:(lia) Hbh).
  destruct (while_ctl _ _ _ _) as [[[[x bx] o] s'] | [[[x bx] o] s'] | e s' |];
    cbn [ctl_post] in Wh; try exact Wh; try contradiction.
  - destruct Wh as [I' _].
    match goal with |- context [progress_stops a ?q s'] =>
      assert (Q := no_fetch_progress a q s');
      destruct (progress_stops a q s') as [stop s1] end.
    cbn [snd] in Q. assert (I1 := fill_inv_no_fetch I' Q).
    destruct stop; cbv beta iota zeta delta [ctl_post outer_fill outer_measure];
      [exact I1|]. repeat split; try exact I1; lia.
  - destruct Wh as [I' _].
    match goal with |- context [progress_stops a ?q s'] =>
      assert (Q := no_fetch_progress a q s');
      destruct (progress_stops a q s') as [stop s1] end.
    cbn [snd] in Q. assert (I1 := fill_inv_no_fetch I' Q).
    destruct stop; cbv beta iota zeta delta [ctl_post outer_fill outer_measure];
      [exact I1|]. repeat split; try exact I1; lia.
Qed.

Lemma IRasterIO_window_fill (s : IOState) :
  fill_inv b a t0 s ->
  exists e s', IRasterIO_window cfg i2f32 i2f64 fconv b a s = Some (e, s')
               /\ fill_inv b a t0 s'.
Proof.
  intro I. unfold IRasterIO_window.
  assert (Wh := @while_ctl_post _ (outer_fill b a t0) (ret_fill b a t0) (outer_measure a)
                 (fun st => let '(iBufYOff, _, _) := st in iBufYOff <? nBufYSize a)
                 (window_outer_body cfg i2f32 i2f64 fconv b a)).
  assert (W1 : forall s0, outer_fill b a t0 s0 ->
             (let '(iBufYOff, _, _) := s0 in iBufYOff <? nBufYSize a) = true ->
             0 < outer_measure a s0).
  { intros [[i y] s0] _ C. apply Z.ltb_lt in C. unfold outer_measure. lia. }
  specialize (Wh W1 (fun s0 H _ => window_outer_body_fill s0 H)).
  specialize (Wh (Z.to_nat (nBufYSize a)) (0, nYOff a, s)).
  assert (I0 : outer_fill b a t0 (0, nYOff a, s)) by (repeat split; [exact I|lia|lia]).
  assert (M0 : outer_measure a (0, nYOff a, s) <= Z.of_nat (Z.to_nat (nBufYSize a)))
    by (unfold outer_measure; lia).
  specialize (Wh I0 M0).
  destruct (while_ctl _ _ _ _) as [[[i y] s'] | [[i y] s'] | e s' |]; cbn [ctl_post] in Wh.
  - exists CE_None, s'. split; [reflexivity | apply Wh].
  - exists CE_None, s'. split; [reflexivity | apply Wh].
  - exists e, s'. split; [reflexivity | exact Wh].
  - contradiction.
Qed.

Section Packed.

Hypothesis Hp1 : nPixelSpace a = GDALGetDataTypeSizeBytes (eBufType a).
Hypothesis Hp2 : nLineSpace a = nPixelSpace a * nXSize a.
Hypothesis Hp3 : nBlockXSize b = nRasterXSize b.

Lemma packed_copy_row_fill (i : Z) (e : CPLErr) (p : option (Z * Z)) (y : Z)
    (s : IOState) :
  0 <= i < nBufYSize a ->
  fill_inv b a t0 s ->
  ctl_post (packed_fill b a t0) (ret_fill b a t0)
           (packed_copy_row cfg i2f32 i2f64 fconv b a i e p y s).
Proof.
  intros Hi I. unfold packed_copy_row. cbv zeta.
  assert (Pad : forall o, padding b 0 y o ->
            o < ((i + nYOff a - y * nBlockYSize b) * nBlockXSize b + nXOff a)
                * GDALGetDataTypeSizeBytes (eDataType b)
            \/ ((i + nYOff a - y * nBlockYSize b) * nBlockXSize b + nXOff a)
               * GDALGetDataTypeSizeBytes (eDataType b)
               + nXSize a * GDALGetDataTypeSizeBytes (eDataType b) <= o).
  { intros o Ho.
    apply (@run_not_padding b 0 y (i + nYOff a - y * nBlockYSize b) (nXOff a)
             (nXSize a) o); try assumption; try lia.
    apply pixel_size_pos. exact KD. }
  match goal with |- context [progress_stops a ?q ?s0] =>
    assert (Q := no_fetch_progress a q s0);
    assert (I0 : fill_inv b a t0 s0);
    [| destruct (progress_stops a q s0) as [stop s1] ] end.
  - eapply fill_inv_raster_write; [exact I|].
    destruct (GDALDataType_eqb (eDataType b) (eBufType a)) eqn:ST.
    + apply GDALDataType_eqb_eq in ST.
      apply memcpy_rw_raster_write; [exact W|].
      rewrite Hp2, Hp1, <- ST.
      replace (GDALGetDataTypeSizeBytes (eDataType b) * nXSize a)
        with (nXSize a * GDALGetDataTypeSizeBytes (eDataType b)) by ring.
      exact Pad.
    + apply copy_words_rw_raster_write; try assumption.
      rewrite <- Ex. exact Pad.
  - cbn [snd] in Q. assert (I1 := fill_inv_no_fetch I0 Q).
    destruct stop; exact I1.
Qed.

Lemma packed_body_fill (i : Z) (st : CPLErr * option (Z * Z) * Z * IOState) :
  0 <= i < nBufYSize a ->
  packed_fill b a t0 st ->
  ctl_post (packed_fill b a t0) (ret_fill b a t0)
           (packed_body cfg i2f32 i2f64 fconv b a i st).
Proof.
  intros Hi. destruct st as [[[e p] y0] s].
  unfold packed_body, packed_fill at 1. cbv beta iota zeta. intro I.
  destruct (_ || _); [|apply packed_copy_row_fill; assumption].
  rewrite W. cbn [andb].
  assert (Yb := @quot_block_bounds (i + nYOff a) (nBlockYSize b) ltac:(lia) Hbh).
  set (y := Z.quot (i + nYOff a) (nBlockYSize b)) in *.
  assert (I1 := fill_inv_no_fetch I (no_fetch_DropLock p s)).
  assert (N := no_fetch_Interrupted b (DropLock p s)).
  destruct (Interrupted b (DropLock p s)) as [intr s2]. cbn [snd] in N.
  assert (I2 := fill_inv_no_fetch I1 N).
  destruct intr; [exact I2|].
  match goal with |- context [if ?mz then zero_block _ _ _ _ else _] =>
    match mz with context [negb ?j] => set (J1 := j) end end.
  match goal with |- context [if ?mz then zero_block _ _ _ _ else _] => set (MZ := mz) end.
  match goal with |- context [GetLockedBlockRef b 0 y ?ji s2] => set (JI := ji) end.
  assert (F1 : JI = covers b a 0 y).
  { unfold JI, MZ, J1, covers. apply eq_iff_eq_true.
    rewrite ?orb_true_iff, ?andb_true_iff, ?negb_true_iff, ?andb_false_iff,
      ?orb_true_iff, ?andb_true_iff, ?Z.leb_le, ?Z.ltb_lt, ?Z.eqb_eq, ?Z.leb_gt,
      ?Z.eqb_neq.
    lia. }
  assert (F2 : JI = true -> MZ = false -> forall o, ~ padding b 0 y o).
  { intros HJ HM o (px & py & k & Hpx & Hpy & Hk & _ & Hout).
    unfold JI in HJ. rewrite HM, orb_false_r in HJ. unfold J1 in HJ.
    rewrite ?andb_true_iff, ?Z.leb_le, ?Z.eqb_eq in HJ. lia. }
  assert (FF := @fill_inv_fetch b a t0 0 y JI MZ s2 I2 F1 F2).
  cbv zeta in FF. rewrite W in FF.
  destruct (GetLockedBlockRef b 0 y JI s2) as [ok s3] eqn:G. cbn [snd] in FF.
  destruct ok; cbv beta iota zeta delta [negb ctl_post packed_fill];
    [| exact (@fill_inv_fetch_failed b a t0 0 y JI s2 s3 I2 F1 G)].
  apply packed_copy_row_fill; assumption.
Qed.

Lemma IRasterIO_packed_fill (s : IOState) :
  fill_inv b a t0 s ->
  exists e s', IRasterIO_packed cfg i2f32 i2f64 fconv b a s = Some (e, s')
               /\ fill_inv b a t0 s'.
Proof.
  intro I. unfold IRasterIO_packed.
  assert (H := @for_ctl_post_range _ (packed_fill b a t0) (ret_fill b a t0)
                 (packed_body cfg i2f32 i2f64 fconv b a)
                 (Z.to_nat (nBufYSize a)) 0 (CE_None, None, -1, s)
                 (fun i st Hi => @packed_body_fill i st ltac:(lia)) I).
  destruct (for_ctl _ _ _ _) as [[[[e p] y] s'] | [[[e p] y] s'] | e s' |];
    cbn [ctl_post packed_fill] in H.
  - exists e, (DropLock p s'). split; [reflexivity|].
    exact (fill_inv_no_fetch H (no_fetch_DropLock p s')).
  - exists e, (DropLock p s'). split; [reflexivity|].
    exact (fill_inv_no_fetch H (no_fetch_DropLock p s')).
  - exists e, s'. split; [reflexivity | exact H].
  - contradiction.
Qed.

End Packed.

End Fill.

Lemma fill_inv_init (b : Band) (a : RasterIOArgs) (s : IOState) :
  fill_inv b a (trace s) s.
Proof. exists []. repeat split; intros; contradiction. Qed.


(* ------------------------------------------------------------------ *)
(** ** The pixels a copy stores *)

(** A loop of stores leaves alone the bytes none of its stores covers. *)
Lemma stores_frame (W : Z -> list byte) (sz : nat) (pD dS x : Z) :
  (forall k, List.length (W k) = sz) ->
  forall (m : nat) (i0 : Z) (d : mem),
    (forall k, i0 <= k < i0 + Z.of_nat m ->
               x < pD + k * dS \/ pD + k * dS + Z.of_nat sz <= x) ->
    for_loop m i0 (fun k d => store_bytes d (pD + k * dS) (W k)) d x = d x.
Proof.
  intros HW m. induction m as [|m IH]; intros i0 d H; [reflexivity|].
  cbn [for_loop]. rewrite IH by (intros k Hk; apply H; lia).
  apply store_bytes_frame. rewrite HW. apply H. lia.
Qed.

(** When the stores do not overlap, each stored word is found where it
    was stored. *)
Lemma stores_hit (W : Z -> list byte) (sz : nat) (pD dS : Z) :
  (forall k, List.length (W k) = sz) ->
  Z.of_nat sz <= Z.abs dS ->
  forall (m : nat) (i0 : Z) (d : mem) (k : Z) (j : nat),
    i0 <= k < i0 + Z.of_nat m -> (j < sz)%nat ->
    for_loop m i0 (fun k d => store_bytes d (pD + k * dS) (W k)) d
             (pD + k * dS + Z.of_nat j)
    = nth j (W k) x00.
Proof.
  intros HW Hd m. induction m as [|m IH]; intros i0 d k j Hk Hj; [lia|].
  cbn [for_loop]. destruct (Z.eq_dec k i0) as [->|Hne].
  - rewrite (@stores_frame W sz pD dS (pD + i0 * dS + Z.of_nat j) HW).
    + unfold store_bytes. rewrite HW.
      replace ((pD + i0 * dS <=? pD + i0 * dS + Z.of_nat j)
               && (pD + i0 * dS + Z.of_nat j <? pD + i0 * dS + Z.of_nat sz))
        with true
        by (symmetry; apply andb_true_iff; split; [apply Z.leb_le|apply Z.ltb_lt]; lia).
      f_equal. lia.
    + intros k' Hk'. nia.
  - apply IH; lia.
Qed.

Lemma GDALCopyWords_generic_stores (eS eD : GDALDataType)
    (src : mem) (pS sS : Z) (dst : mem) (pD dS n : Z) :
  GDALCopyWords_generic i2f32 i2f64 fconv src pS eS sS dst pD eD dS n
  = for_loop (Z.to_nat n) 0
      (fun k d => store_bytes d (pD + k * dS)
                    (pixel_bytes i2f32 i2f64 fconv eS eD
                       (load_bytes src (pS + k * sS)
                          (pixel_size (component_type eS) (GDALDataTypeIsComplex eS))))) dst.
Proof.
  unfold GDALCopyWords_generic. apply for_loop_ext. intros k d.
  apply convert_pixel_store.
Qed.

Lemma GDALCopyWords_pixel_at (eS eD : GDALDataType)
    (src : mem) (pS sS : Z) (dst : mem) (pD dS n i : Z) :
  known_type eS = true -> known_type eD = true ->
  GDALGetDataTypeSizeBytes eD <= Z.abs dS ->
  0 <= i < n ->
  load_bytes (GDALCopyWords cfg i2f32 i2f64 fconv src pS eS sS dst pD eD dS n)
             (pD + i * dS) (pixel_size (component_type eD) (GDALDataTypeIsComplex eD))
  = pixel_bytes i2f32 i2f64 fconv eS eD
      (load_bytes src (pS + i * sS)
         (pixel_size (component_type eS) (GDALDataTypeIsComplex eS))).
Proof.
  intros HS HD Hd Hi. rewrite GDALCopyWords_is_generic by assumption.
  rewrite GDALCopyWords_generic_stores.
  rewrite (pixel_size_bytes _ HD) in Hd.
  apply nth_ext with (d := x00) (d' := x00).
  - rewrite load_bytes_length, pixel_bytes_length. reflexivity.
  - intros j Hj. rewrite load_bytes_length in Hj.
    rewrite nth_load_bytes by exact Hj.
    apply (@stores_hit
             (fun k => pixel_bytes i2f32 i2f64 fconv eS eD
                         (load_bytes src (pS + k * sS)
                            (pixel_size (component_type eS) (GDALDataTypeIsComplex eS))))
             (pixel_size (component_type eD) (GDALDataTypeIsComplex eD)) pD dS
             (fun k => pixel_bytes_length eS eD _) Hd (Z.to_nat n) 0 dst i j);
      [lia | exact Hj].
Qed.

Lemma GDALCopyWords_frame_strided (eS eD : GDALDataType)
    (src : mem) (pS sS : Z) (dst : mem) (pD dS n x : Z) :
  known_type eS = true -> known_type eD = true ->
  (forall k, 0 <= k < n ->
             x < pD + k * dS \/ pD + k * dS + GDALGetDataTypeSizeBytes eD <= x) ->
  GDALCopyWords cfg i2f32 i2f64 fconv src pS eS sS dst pD eD dS n x = dst x.
Proof.
  intros HS HD H. rewrite GDALCopyWords_is_generic by assumption.
  rewrite GDALCopyWords_generic_stores.
  apply (@stores_frame _ (pixel_size (component_type eD) (GDALDataTypeIsComplex eD))
           pD dS x (fun k => pixel_bytes_length eS eD _)).
  intros k Hk. rewrite <- (pixel_size_bytes _ HD). apply H. lia.
Qed.

Lemma GDALCopyWords_generic_split (eS eD : GDALDataType)
    (src : mem) (pS sS : Z) (dst : mem) (pD dS n1 n2 : Z) :
  0 <= n1 -> 0 <= n2 ->
  GDALCopyWords_generic i2f32 i2f64 fconv src pS eS sS dst pD eD dS (n1 + n2)
  = GDALCopyWords_generic i2f32 i2f64 fconv src (pS + n1 * sS) eS sS
      (GDALCopyWords_generic i2f32 i2f64 fconv src pS eS sS dst pD eD dS n1)
      (pD + n1 * dS) eD dS n2.
Proof.
  intros H1 H2. unfold GDALCopyWords_generic.
  rewrite Z2Nat.inj_add by assumption. rewrite for_loop_app.
  rewrite (for_loop_from_0 _ (0 + Z.of_nat (Z.to_nat n1))).
  apply for_loop_ext. intros k d. rewrite Z2Nat.id by assumption. f_equal; ring.
Qed.

(** X1: when the destination pixels do not overlap (the destination
    stride is at least the size of a destination pixel, in either
    direction), pixel [i] of the destination of [GDALCopyWords] holds the
    conversion of pixel [i] of the source: the word converter applied to
    its components, with a zero imaginary part for a real source and a
    complex destination, and the real part alone for a complex source and
    a real destination. *)
Theorem copied_pixel_is_converted_source_pixel :
  forall (eSrcType eDstType : GDALDataType)
         (src : mem) (pSrcData nSrcPixelStride : Z)
         (dst : mem) (pDstData nDstPixelStride nWordCount i : Z),
    known_type eSrcType = true -> known_type eDstType = true ->
    GDALGetDataTypeSizeBytes eDstType <= Z.abs nDstPixelStride ->
    0 <= i < nWordCount ->
    load_bytes
      (GDALCopyWords cfg i2f32 i2f64 fconv src pSrcData eSrcType nSrcPixelStride
                     dst pDstData eDstType nDstPixelStride nWordCount)
      (pDstData + i * nDstPixelStride)
      (pixel_size (component_type eDstType) (GDALDataTypeIsComplex eDstType))
    = pixel_bytes i2f32 i2f64 fconv eSrcType eDstType
        (load_bytes src (pSrcData + i * nSrcPixelStride)
           (pixel_size (component_type eSrcType) (GDALDataTypeIsComplex eSrcType))).
Proof. intros. apply GDALCopyWords_pixel_at; assumption. Qed.

(** X2: [GDALCopyWords] writes the destination pixels and nothing else:
    a byte that belongs to none of the [nWordCount] destination pixels
    keeps its value, for all strides, overlapping or not. *)
Theorem copy_leaves_other_bytes_alone :
  forall (eSrcType eDstType : GDALDataType)
         (src : mem) (pSrcData nSrcPixelStride : Z)
         (dst : mem) (pDstData nDstPixelStride nWordCount x : Z),
    known_type eSrcType = true -> known_type eDstType = true ->
    (forall k, 0 <= k < nWordCount ->
               x < pDstData + k * nDstPixelStride
               \/ pDstData + k * nDstPixelStride + GDALGetDataTypeSizeBytes eDstType <= x) ->
    GDALCopyWords cfg i2f32 i2f64 fconv src pSrcData eSrcType nSrcPixelStride
                  dst pDstData eDstType nDstPixelStride nWordCount x
    = dst x.
Proof. intros. apply GDALCopyWords_frame_strided; assumption. Qed.

(** X3: a copy of [n1 + n2] words is the copy of the first [n1] words
    followed by the copy of the other [n2] words from the advanced
    pointers: copies of runs of words compose, whichever fast path each
    of the three calls takes. *)
Theorem copy_of_a_run_splits :
  forall (eSrcType eDstType : GDALDataType)
         (src : mem) (pSrcData nSrcPixelStride : Z)
         (dst : mem) (pDstData nDstPixelStride n1 n2 : Z),
    known_type eSrcType = true -> known_type eDstType = true ->
    0 <= n1 -> 0 <= n2 ->
    GDALCopyWords cfg i2f32 i2f64 fconv src pSrcData eSrcType nSrcPixelStride
                  dst pDstData eDstType nDstPixelStride (n1 + n2)
    = GDALCopyWords cfg i2f32 i2f64 fconv
        src (pSrcData + n1 * nSrcPixelStride) eSrcType nSrcPixelStride
        (GDALCopyWords cfg i2f32 i2f64 fconv src pSrcData eSrcType nSrcPixelStride
                       dst pDstData eDstType nDstPixelStride n1)
        (pDstData + n1 * nDstPixelStride) eDstType nDstPixelStride n2.
Proof.
  intros eS eD src pS sS dst pD dS n1 n2 HS HD H1 H2.
  rewrite !GDALCopyWords_is_generic by assumption.
  apply GDALCopyWords_generic_split; assumption.
Qed.

(** X4: a copy between identical types moves the bytes of each pixel
    unchanged (no conversion is applied, whatever the bit pattern), when
    the destination pixels do not overlap. *)
Theorem same_type_copy_is_byte_exact :
  forall (eType : GDALDataType)
         (src : mem) (pSrcData nSrcPixelStride : Z)
         (dst : mem) (pDstData nDstPixelStride nWordCount i : Z),
    known_type eType = true ->
    GDALGetDataTypeSizeBytes eType <= Z.abs nDstPixelStride ->
    0 <= i < nWordCount ->
    load_bytes
      (GDALCopyWords cfg i2f32 i2f64 fconv src pSrcData eType nSrcPixelStride
                     dst pDstData eType nDstPixelStride nWordCount)
      (pDstData + i * nDstPixelStride) (Z.to_nat (GDALGetDataTypeSizeBytes eType))
    = load_bytes src (pSrcData + i * nSrcPixelStride)
                 (Z.to_nat (GDALGetDataTypeSizeBytes eType)).
Proof.
  intros e src pS sS dst pD dS n i H Hd Hi.
  rewrite (pixel_size_bytes _ H), Nat2Z.id.
  rewrite GDALCopyWords_pixel_at by assumption.
  apply pixel_bytes_same. apply load_bytes_length.
Qed.

Lemma pixel_bytes_Byte_UInt16 (b0 : byte) :
  pixel_bytes i2f32 i2f64 fconv GDT_Byte GDT_UInt16 [b0] = [b0; x00].
Proof. destruct b0; reflexivity. Qed.

Lemma pixel_bytes_UInt16_Byte (b0 b1 : byte) :
  pixel_bytes i2f32 i2f64 fconv GDT_UInt16 GDT_Byte [b0; b1]
  = [byte_of_Z (Z.min (le_unsigned [b0; b1]) 255)].
Proof.
  unfold pixel_bytes, pixel_bytes_t.
  cbv beta iota delta [component_type GDALDataTypeIsComplex sizeof firstn].
  rewrite GDALCopyWord_UInt16_Byte. reflexivity.
Qed.

Lemma min_255_widened (b0 : byte) :
  byte_of_Z (Z.min (le_unsigned [b0; x00]) 255) = b0.
Proof. destruct b0; reflexivity. Qed.

(** X5: in the x86-64 build, bytes widened to packed unsigned 16-bit
    words and narrowed back to packed bytes are the bytes one started
    from. *)
Theorem widened_bytes_narrow_back :
  forall (src : mem) (pSrcData : Z) (mid : mem) (pMid : Z)
         (dst : mem) (pDstData nWordCount i : Z),
    cfg_x86_64 cfg = true -> cfg_aligned_access cfg = false ->
    0 <= i < nWordCount ->
    GDALCopyWords cfg i2f32 i2f64 fconv
      (GDALCopyWords cfg i2f32 i2f64 fconv src pSrcData GDT_Byte 1
                     mid pMid GDT_UInt16 2 nWordCount)
      pMid GDT_UInt16 2 dst pDstData GDT_Byte 1 nWordCount (pDstData + i)
    = src (pSrcData + i).
Proof.
  intros src pS mid pM dst pD n i _ _ Hi.
  assert (B := @GDALCopyWords_pixel_at GDT_UInt16 GDT_Byte
                 (GDALCopyWords cfg i2f32 i2f64 fconv src pS GDT_Byte 1 mid pM GDT_UInt16 2 n)
                 pM 2 dst pD 1 n i eq_refl eq_refl ltac:(cbn; lia) Hi).
  assert (A := @GDALCopyWords_pixel_at GDT_Byte GDT_UInt16 src pS 1 mid pM 2 n i
                 eq_refl eq_refl ltac:(cbn; lia) Hi).
  cbv beta iota delta [pixel_size component_type GDALDataTypeIsComplex sizeof] in A, B.
  rewrite A in B. clear A.
  rewrite !load_1 in B. rewrite pixel_bytes_Byte_UInt16, pixel_bytes_UInt16_Byte in B.
  rewrite min_255_widened in B. injection B as B.
  replace (pD + i) with (pD + i * 1) by lia. rewrite B. f_equal. lia.
Qed.

(** X6: in the x86-64 build, a packed copy of unsigned 16-bit words to
    bytes stores each word clamped at 255. *)
Theorem narrowed_words_are_clamped :
  forall (src : mem) (pSrcData : Z) (dst : mem) (pDstData nWordCount i : Z),
    cfg_x86_64 cfg = true -> cfg_aligned_access cfg = false ->
    0 <= i < nWordCount ->
    GDALCopyWords cfg i2f32 i2f64 fconv src pSrcData GDT_UInt16 2
                  dst pDstData GDT_Byte 1 nWordCount (pDstData + i)
    = byte_of_Z (Z.min (le_unsigned (load_bytes src (pSrcData + i * 2) 2)) 255).
Proof.
  intros src pS dst pD n i _ _ Hi.
  assert (B := @GDALCopyWords_pixel_at GDT_UInt16 GDT_Byte src pS 2 dst pD 1 n i
                 eq_refl eq_refl ltac:(cbn; lia) Hi).
  cbv beta iota delta [pixel_size component_type GDALDataTypeIsComplex sizeof] in B.
  rewrite load_1, load_2 in B. rewrite pixel_bytes_UInt16_Byte in B.
  injection B as B.
  replace (pD + i) with (pD + i * 1) by lia. rewrite B. rewrite load_2. reflexivity.
Qed.

(* ------------------------------------------------------------------ *)
(** ** What the loops of [IRasterIO] keep

    A property [Q] of the error code so far and of the state is kept by
    the loops of [IRasterIO] as soon as the collaborator calls and the
    stores of the direction of the request keep it.  The error code of a
    loop that goes on is never [CE_Interrupted]: an interruption returns
    at once. *)

Lemma for_ctl_keeps (S : Type) (P : S -> Prop) (R : CPLErr -> IOState -> Prop)
    (body : Z -> S -> Ctl S) :
  (forall i s, P s -> ctl_keeps P R (body i s)) ->
  forall n i s, P s -> ctl_keeps P R (for_ctl n i body s).
Proof.
  intros Hbody n. induction n as [|n IH]; intros i s Hs; cbn [for_ctl ctl_keeps].
  - exact Hs.
  - specialize (Hbody i s Hs). destruct (body i s); cbn [ctl_keeps] in *; auto.
Qed.

Lemma while_ctl_keeps (S : Type) (P : S -> Prop) (R : CPLErr -> IOState -> Prop)
    (cond : S -> bool) (body : S -> Ctl S) :
  (forall s, P s -> cond s = true -> ctl_keeps P R (body s)) ->
  forall fuel s, P s -> ctl_keeps P R (while_ctl fuel cond body s).
Proof.
  intros Hbody fuel. induction fuel as [|f IH]; intros s Hs; cbn [while_ctl].
  - destruct (cond s); [exact I | exact Hs].
  - destruct (cond s) eqn:C; [|exact Hs].
    specialize (Hbody s Hs C). destruct (body s); cbn [ctl_keeps] in *; auto.
Qed.

Section Keeps.

Variable b : Band.
Variable a : RasterIOArgs.
Variable Q : CPLErr -> IOState -> Prop.

Hypothesis H_poll : forall e s,
  Q e s -> Q (if fst (Interrupted b s) then CE_Interrupted else e) (snd (Interrupted b s)).
Hypothesis H_fetch : forall e x y ji s,
  (is_write (eRWFlag a) = false -> ji = false) ->
  e <> CE_Interrupted ->
  Q e s ->
  Q (if fst (GetLockedBlockRef b x y ji s) then e else CE_Failure)
    (snd (GetLockedBlockRef b x y ji s)).
Hypothesis H_prog : forall e q s,
  e <> CE_Interrupted ->
  Q e s ->
  Q (if fst (progress_stops a q s) then CE_Failure else e) (snd (progress_stops a q s)).
Hypothesis H_drop : forall e p s, Q e s -> Q e (DropLock p s).
Hypothesis H_dirty : is_write (eRWFlag a) = true ->
  forall e x y s, Q e s -> Q e (MarkDirty x y s).
Hypothesis H_block : is_write (eRWFlag a) = true ->
  forall e x y m s, Q e s -> Q e (set_block x y m s).
Hypothesis H_buf : is_write (eRWFlag a) = false ->
  forall e m s, Q e s -> Q e (set_buf m s).

Lemma keeps_memcpy_rw (e : CPLErr) (x y off boff len : Z) (s : IOState) :
  Q e s -> Q e (memcpy_rw a x y off boff len s).
Proof.
  intro H. unfold memcpy_rw. destruct (is_write (eRWFlag a)) eqn:W.
  - apply H_block; [reflexivity | exact H].
  - apply H_buf; [reflexivity | exact H].
Qed.

Lemma keeps_copy_words_rw (e : CPLErr) (x y off boff n : Z) (s : IOState) :
  Q e s -> Q e (copy_words_rw cfg i2f32 i2f64 fconv b a x y off boff n s).
Proof.
  intro H. unfold copy_words_rw. destruct (is_write (eRWFlag a)) eqn:W.
  - apply H_block; [reflexivity | exact H].
  - apply H_buf; [reflexivity | exact H].
Qed.

Lemma keeps_dirty_zero (e : CPLErr) (x y : Z) (mz : bool) (s : IOState) :
  (is_write (eRWFlag a) = false -> mz = false) ->
  Q e s ->
  Q e (let s := if is_write (eRWFlag a) then MarkDirty x y s else s in
       if mz then zero_block b x y s else s).
Proof.
  intros Hmz H. cbv zeta. destruct (is_write (eRWFlag a)) eqn:W.
  - destruct mz.
    + unfold zero_block. apply H_block; [reflexivity|].
      apply H_dirty; [reflexivity | exact H].
    + apply H_dirty; [reflexivity | exact H].
  - rewrite (Hmz eq_refl). exact H.
Qed.


Lemma keeps_packed_copy_row (i : Z) (e : CPLErr) (p : option (Z * Z)) (y : Z)
    (s : IOState) :
  e <> CE_Interrupted -> Q e s ->
  ctl_keeps (fun st : CPLErr * option (Z * Z) * Z * IOState =>
               let '(e, _, _, s) := st in e <> CE_Interrupted /\ Q e s) Q
            (packed_copy_row cfg i2f32 i2f64 fconv b a i e p y s).
Proof.
  intros L H. unfold packed_copy_row. cbv zeta.
  match goal with |- context [progress_stops a ?q ?s0] =>
    assert (H1 : Q e s0);
    [| assert (P := H_prog q L H1); destruct (progress_stops a q s0) as [stop s1] ] end.
  - destruct (GDALDataType_eqb _ _);
      [apply keeps_memcpy_rw | apply keeps_copy_words_rw]; exact H.
  - cbn [fst snd] in P. destruct stop; cbn [ctl_keeps]; (split; [|exact P]);
      [discriminate | exact L].
Qed.

Lemma keeps_packed_body (i : Z) (st : CPLErr * option (Z * Z) * Z * IOState) :
  (let '(e, _, _, s) := st in e <> CE_Interrupted /\ Q e s) ->
  ctl_keeps (fun st : CPLErr * option (Z * Z) * Z * IOState =>
               let '(e, _, _, s) := st in e <> CE_Interrupted /\ Q e s) Q
            (packed_body cfg i2f32 i2f64 fconv b a i st).
Proof.
  destruct st as [[[e p] y] s]. intros [L H]. unfold packed_body. cbv zeta.
  destruct (_ || _); [|apply keeps_packed_copy_row; assumption].
  assert (H1 := H_drop p H).
  match goal with |- context [Interrupted b ?s0] =>
    assert (H2 := H_poll H1); destruct (Interrupted b s0) as [intr s2] end.
  cbn [fst snd] in H2. destruct intr; [exact H2|].
  match goal with |- context [GetLockedBlockRef b ?x ?y0 ?ji s2] =>
    assert (H3 : Q (if fst (GetLockedBlockRef b x y0 ji s2) then e else CE_Failure)
                   (snd (GetLockedBlockRef b x y0 ji s2)));
    [apply H_fetch; [intro W; rewrite W; reflexivity | exact L | exact H2]
    | destruct (GetLockedBlockRef b x y0 ji s2) as [ok s3] ] end.
  cbn [fst snd] in H3. destruct ok; cbn [negb];
    [|split; [discriminate | exact H3]].
  apply keeps_packed_copy_row; [exact L|].
  match goal with |- Q e (if ?mz then zero_block b ?x ?y0 _ else _) =>
    apply (@keeps_dirty_zero e x y0 mz s3) end; [|exact H3].
  intro W; rewrite W; reflexivity.
Qed.

Lemma keeps_IRasterIO_packed (s : IOState) (e : CPLErr) (s' : IOState) :
  Q CE_None s ->
  IRasterIO_packed cfg i2f32 i2f64 fconv b a s = Some (e, s') ->
  Q e s'.
Proof.
  intros H. unfold IRasterIO_packed.
  assert (H0 : CE_None <> CE_Interrupted /\ Q CE_None s) by (split; [discriminate|exact H]).
  assert (K := @for_ctl_keeps _ _ Q (packed_body cfg i2f32 i2f64 fconv b a)
                 keeps_packed_body (Z.to_nat (nBufYSize a)) 0 (CE_None, None, -1, s) H0).
  destruct (for_ctl _ _ _ _) as [[[[e1 p] y] s1] | [[[e1 p] y] s1] | e1 s1 |];
    cbn [ctl_keeps] in K; intro E; inversion E; subst;
    try (apply H_drop; apply K); exact K.
Qed.

Lemma keeps_for_loop (e : CPLErr) (f : Z -> IOState -> IOState) :
  (forall k s, Q e s -> Q e (f k s)) ->
  forall n i s, Q e s -> Q e (for_loop n i f s).
Proof.
  intros Hf n. induction n as [|n IH]; intros i s H; cbn [for_loop]; [exact H|].
  apply IH. apply Hf. exact H.
Qed.

Lemma keeps_window_inner_body (iBufYOff iSrcY nLBlockY nXSpanEnd : Z)
    (st : Z * Z * Z * IOState) :
  (let '(_, _, _, s) := st in Q CE_None s) ->
  ctl_keeps (fun st : Z * Z * Z * IOState => let '(_, _, _, s) := st in Q CE_None s) Q
            (window_inner_body cfg i2f32 i2f64 fconv b a iBufYOff iSrcY nLBlockY
               nXSpanEnd st).
Proof.
  destruct st as [[[iSrcX bx] off] s]. intro H. unfold window_inner_body. cbv zeta.
  match goal with |- context [Interrupted b ?s0] =>
    assert (H2 := H_poll H); destruct (Interrupted b s0) as [intr s2] end.
  cbn [fst snd] in H2. destruct intr; [exact H2|].
  match goal with |- context [GetLockedBlockRef b ?x ?y0 ?ji s2] =>
    assert (H3 : Q (if fst (GetLockedBlockRef b x y0 ji s2) then CE_None else CE_Failure)
                   (snd (GetLockedBlockRef b x y0 ji s2)));
    [apply H_fetch; [intro W; rewrite W; reflexivity | discriminate | exact H2]
    | destruct (GetLockedBlockRef b x y0 ji s2) as [ok s3] ] end.
  cbn [fst snd] in H3. destruct ok; cbn [negb ctl_keeps]; [|exact H3].
  apply H_drop. apply keeps_for_loop.
  - intros k s0 H0. destruct (_ && _);
      [apply keeps_memcpy_rw | apply keeps_copy_words_rw]; exact H0.
  - match goal with |- Q _ (if ?mz then zero_block b ?x ?y0 _ else _) =>
      apply (@keeps_dirty_zero CE_None x y0 mz s3) end; [|exact H3].
    intro W; rewrite W; reflexivity.
Qed.

Lemma keeps_window_outer_body (st : Z * Z * IOState) :
  (let '(_, _, s) := st in Q CE_None s) ->
  ctl_keeps (fun st : Z * Z * IOState => let '(_, _, s) := st in Q CE_None s) Q
            (window_outer_body cfg i2f32 i2f64 fconv b a st).
Proof.
  destruct st as [[iBufYOff iSrcY] s]. intro H. unfold window_outer_body. cbv zeta.
  assert (N : CE_None <> CE_Interrupted) by discriminate.
  match goal with |- context [while_ctl ?n ?c ?body ?s0] =>
    assert (K := @while_ctl_keeps _
                   (fun st : Z * Z * Z * IOState => let '(_, _, _, s) := st in Q CE_None s)
                   Q c body
                   (fun st I _ => @keeps_window_inner_body iBufYOff iSrcY _ _ st I)
                   n s0 H);
    destruct (while_ctl n c body s0) as [[[[x bx] o] s1] | [[[x bx] o] s1] | e1 s1 |] end;
    cbn [ctl_keeps] in K |- *; try exact K.
  - match goal with |- context [progress_stops a ?q s1] =>
      assert (P := H_prog q N K); destruct (progress_stops a q s1) as [stop s2] end.
    cbn [fst snd] in P. destruct stop; exact P.
  - match goal with |- context [progress_stops a ?q s1] =>
      assert (P := H_prog q N K); destruct (progress_stops a q s1) as [stop s2] end.
    cbn [fst snd] in P. destruct stop; exact P.
Qed.

Lemma keeps_IRasterIO_window (s : IOState) (e : CPLErr) (s' : IOState) :
  Q CE_None s ->
  IRasterIO_window cfg i2f32 i2f64 fconv b a s = Some (e, s') ->
  Q e s'.
Proof.
  intros H. unfold IRasterIO_window.
  match goal with |- context [while_ctl ?n ?c ?body ?s0] =>
    assert (K := @while_ctl_keeps _
                   (fun st : Z * Z * IOState => let '(_, _, s) := st in Q CE_None s)
                   Q c body (fun st I _ => @keeps_window_outer_body st I) n s0 H);
    destruct (while_ctl n c body s0) as [[[i y] s1] | [[i y] s1] | e1 s1 |] end;
    cbn [ctl_keeps] in K; intro E; inversion E; subst; exact K.
Qed.

Lemma keeps_gwrite_pixel (iDstY iBufYOff iDstX : Z)
    (st : CPLErr * option (Z * Z) * Z * Z * IOState) :
  is_write (eRWFlag a) = true ->
  (let '(e, _, _, _, s) := st in e <> CE_Interrupted /\ Q e s) ->
  ctl_keeps (fun st : CPLErr * option (Z * Z) * Z * Z * IOState =>
               let '(e, _, _, _, s) := st in e <> CE_Interrupted /\ Q e s) Q
            (gwrite_pixel cfg i2f32 i2f64 fconv b a iDstY iBufYOff iDstX st).
Proof.
  intro W. destruct st as [[[[e p] x] y] s]. intros [L H]. unfold gwrite_pixel. cbv zeta.
  destruct (_ || _).
  - assert (H1 := H_drop p H).
    match goal with |- context [GetLockedBlockRef b ?x0 ?y0 ?ji ?s0] =>
      assert (H3 : Q (if fst (GetLockedBlockRef b x0 y0 ji s0) then e else CE_Failure)
                     (snd (GetLockedBlockRef b x0 y0 ji s0)));
      [apply H_fetch; [intro W'; congruence | exact L | exact H1]
      | destruct (GetLockedBlockRef b x0 y0 ji s0) as [ok s3] ] end.
    cbn [fst snd] in H3. destruct ok; cbn [negb ctl_keeps]; [|exact H3].
    split; [exact L|].
    destruct (GDALDataType_eqb _ _); apply (H_block W); apply (H_dirty W); exact H3.
  - cbn [ctl_keeps]. split; [exact L|].
    destruct (GDALDataType_eqb _ _); apply (H_block W); exact H.
Qed.

Lemma keeps_gwrite_row (iDstY : Z) (st : CPLErr * option (Z * Z) * Z * Z * IOState) :
  is_write (eRWFlag a) = true ->
  (let '(e, _, _, _, s) := st in e <> CE_Interrupted /\ Q e s) ->
  ctl_keeps (fun st : CPLErr * option (Z * Z) * Z * Z * IOState =>
               let '(e, _, _, _, s) := st in e <> CE_Interrupted /\ Q e s) Q
            (gwrite_row cfg i2f32 i2f64 fconv b a iDstY st).
Proof.
  intros W H. unfold gwrite_row. cbv zeta.
  match goal with |- context [for_ctl ?n ?i ?body st] =>
    assert (K := @for_ctl_keeps _ _ Q body
                   (fun j st0 I => @keeps_gwrite_pixel iDstY _ j st0 W I) n i st H);
    destruct (for_ctl n i body st)
      as [[[[[e1 p] x] y] s1] | [[[[e1 p] x] y] s1] | e1 s1 |] end;
    cbn [ctl_keeps] in K |- *; try exact K.
  - destruct K as [L K].
    match goal with |- context [progress_stops a ?q s1] =>
      assert (P := H_prog q L K); destruct (progress_stops a q s1) as [stop s2] end.
    cbn [fst snd] in P. destruct stop; cbn [ctl_keeps]; (split; [|exact P]);
      [discriminate | exact L].
  - destruct K as [L K].
    match goal with |- context [progress_stops a ?q s1] =>
      assert (P := H_prog q L K); destruct (progress_stops a q s1) as [stop s2] end.
    cbn [fst snd] in P. destruct stop; cbn [ctl_keeps]; (split; [|exact P]);
      [discriminate | exact L].
Qed.

Lemma keeps_IRasterIO_general_write (s : IOState) (e : CPLErr) (s' : IOState) :
  is_write (eRWFlag a) = true ->
  Q CE_None s ->
  IRasterIO_general_write cfg i2f32 i2f64 fconv b a s = Some (e, s') ->
  Q e s'.
Proof.
  intros W H. unfold IRasterIO_general_write.
  assert (H0 : CE_None <> CE_Interrupted /\ Q CE_None s) by (split; [discriminate|exact H]).
  assert (K := @for_ctl_keeps _ _ Q (gwrite_row cfg i2f32 i2f64 fconv b a)
                 (fun j st0 I => @keeps_gwrite_row j st0 W I)
                 (Z.to_nat (nYSize a)) (nYOff a) (CE_None, None, -1, -1, s) H0).
  destruct (for_ctl _ _ _ _) as [[[[[e1 p] x] y] s1] | [[[[e1 p] x] y] s1] | e1 s1 |];
    cbn [ctl_keeps] in K; intro E; inversion E; subst;
    try (apply H_drop; apply K); exact K.
Qed.

Lemma keeps_gread_pixel (e : CPLErr) (x y iBufYOff iSrcY i0 i : Z) (s : IOState) :
  is_write (eRWFlag a) = false ->
  Q e s -> Q e (gread_pixel cfg i2f32 i2f64 fconv b a x y iBufYOff iSrcY i0 i s).
Proof.
  intros W H. unfold gread_pixel. cbv zeta.
  destruct (_ && _); [|destruct (GDALDataType_eqb _ _)]; apply (H_buf W); exact H.
Qed.

Lemma keeps_gread_row (x y i : Z) (st : CPLErr * option (Z * Z) * IOState) :
  is_write (eRWFlag a) = false ->
  (let '(e, _, s) := st in e <> CE_Interrupted /\ Q e s) ->
  ctl_keeps (fun st : CPLErr * option (Z * Z) * IOState =>
               let '(e, _, s) := st in e <> CE_Interrupted /\ Q e s) Q
            (gread_row cfg i2f32 i2f64 fconv b a x y i st).
Proof.
  intro W. destruct st as [[e p] s]. intros [L H]. unfold gread_row. cbv zeta.
  match goal with |- context [for_loop ?n ?i0 ?f s] =>
    assert (H1 : Q e (for_loop n i0 f s))
      by (apply keeps_for_loop; [intros k s0 H0; apply keeps_gread_pixel; assumption
                                | exact H]);
    generalize dependent (for_loop n i0 f s) end.
  intros s1 H1.
  assert (P := fun q => H_prog q L H1).
  destruct e; cbn [ctl_keeps]; try (split; [exact L | exact H1]);
    match goal with |- context [progress_stops a ?q s1] =>
      specialize (P q); destruct (progress_stops a q s1) as [stop s2] end;
    cbn [fst snd] in P; destruct stop; cbn [ctl_keeps]; (split; [|exact P]);
    try discriminate; exact L.
Qed.

Lemma keeps_gread_block (y x : Z) (st : CPLErr * option (Z * Z) * IOState) :
  is_write (eRWFlag a) = false ->
  (let '(e, _, s) := st in e <> CE_Interrupted /\ Q e s) ->
  ctl_keeps (fun st : CPLErr * option (Z * Z) * IOState =>
               let '(e, _, s) := st in e <> CE_Interrupted /\ Q e s) Q
            (gread_block cfg i2f32 i2f64 fconv b a y x st).
Proof.
  intro W. destruct st as [[e p] s]. intros [L H]. unfold gread_block. cbv zeta.
  assert (H1 := H_drop p H).
  match goal with |- context [Interrupted b ?s0] =>
    assert (H2 := H_poll H1); destruct (Interrupted b s0) as [intr s2] end.
  cbn [fst snd] in H2. destruct intr; [exact H2|].
  assert (H3 := @H_fetch _ x y false s2 (fun _ => eq_refl) L H2).
  destruct (GetLockedBlockRef b x y false s2) as [ok s3].
  cbn [fst snd] in H3. destruct ok; cbn [negb ctl_keeps];
    [|split; [discriminate | exact H3]].
  match goal with |- context [for_ctl ?n ?i ?body ?s0] =>
    assert (K := @for_ctl_keeps _ _ Q body
                   (fun j st0 I => @keeps_gread_row x y j st0 W I) n i s0 (conj L H3));
    destruct (for_ctl n i body s0) end; exact K.
Qed.

Lemma keeps_gread_block_row (x0 x1 y : Z) (st : CPLErr * option (Z * Z) * IOState) :
  is_write (eRWFlag a) = false ->
  (let '(e, _, s) := st in e <> CE_Interrupted /\ Q e s) ->
  ctl_keeps (fun st : CPLErr * option (Z * Z) * IOState =>
               let '(e, _, s) := st in e <> CE_Interrupted /\ Q e s) Q
            (gread_block_row cfg i2f32 i2f64 fconv b a x0 x1 y st).
Proof.
  intros W H. unfold gread_block_row.
  match goal with |- context [for_ctl ?n ?i ?body ?s0] =>
    assert (K := @for_ctl_keeps _ _ Q body
                   (fun j st0 I => @keeps_gread_block y j st0 W I) n i s0 H);
    destruct (for_ctl n i body s0) end; exact K.
Qed.

Lemma keeps_IRasterIO_general_read (s : IOState) (e : CPLErr) (s' : IOState) :
  is_write (eRWFlag a) = false ->
  Q CE_None s ->
  IRasterIO_general_read cfg i2f32 i2f64 fconv b a s = Some (e, s') ->
  Q e s'.
Proof.
  intros W H. unfold IRasterIO_general_read. cbv zeta.
  assert (H0 : CE_None <> CE_Interrupted /\ Q CE_None s) by (split; [discriminate|exact H]).
  match goal with |- context [for_ctl ?n ?i ?body ?s0] =>
    assert (K := @for_ctl_keeps _ _ Q body
                   (fun j st0 I => @keeps_gread_block_row _ _ j st0 W I) n i s0 H0);
    destruct (for_ctl n i body s0) as [[[e1 p] s1] | [[e1 p] s1] | e1 s1 |] end;
    cbn [ctl_keeps] in K; intro E; inversion E; subst;
    try (apply H_drop; apply K); exact K.
Qed.

(** The whole of [IRasterIO], its delegations to an overview and to
    [RasterIOResampled] apart. *)
Lemma keeps_IRasterIO (s : IOState) (e : CPLErr) (s' : IOState) :
  (is_write (eRWFlag a) = true -> CPLErr_eqb (eFlushBlockErr s) CE_None = false ->
   Q (eFlushBlockErr s) (set_flush CE_None s)) ->
  (nBlockXSize b <= 0 \/ nBlockYSize b <= 0 -> Q CE_Failure s) ->
  (is_write (eRWFlag a) = false -> 0 < Z.of_nat (List.length (overviews b)) ->
   Q CE_Failure s
   /\ forall n a', Q (fst (overview_RasterIO b n a' s)) (snd (overview_RasterIO b n a' s))) ->
  (is_write (eRWFlag a) = false ->
   eResampleAlg (psExtraArg a) <> GRIORA_NearestNeighbour ->
   Q (fst (RasterIOResampled b a s)) (snd (RasterIOResampled b a s))) ->
  Q CE_None s ->
  IRasterIO cfg i2f32 i2f64 fconv b a s = Some (e, s') ->
  Q e s'.
Proof.
  intros Hfl Hbs Hov Hrs H. unfold IRasterIO.
  case_eq (is_write (eRWFlag a)); intro W; cbn [andb negb].
  - destruct (CPLErr_eqb (eFlushBlockErr s) CE_None) eqn:F; cbn [negb].
    + destruct (_ || _) eqn:Eb.
      { intro E; inversion E; subst. apply Hbs.
        apply orb_true_iff in Eb. rewrite !Z.leb_le in Eb. exact Eb. }
      destruct (is_packed_case b a); [apply keeps_IRasterIO_packed; exact H|].
      cbv zeta. rewrite !andb_false_r.
      destruct (is_window_case a); [apply keeps_IRasterIO_window; exact H|].
      unfold IRasterIO_general. rewrite W.
      apply keeps_IRasterIO_general_write; [exact W | exact H].
    + intro E; inversion E; subst. apply Hfl; [exact W | reflexivity].
  - destruct (_ || _) eqn:Eb.
    { intro E; inversion E; subst. apply Hbs.
      apply orb_true_iff in Eb. rewrite !Z.leb_le in Eb. exact Eb. }
    destruct (is_packed_case b a); [apply keeps_IRasterIO_packed; exact H|].
    cbv zeta.
    assert (A : forall o,
      o = (if (nBufXSize a <? Z.quot (nXSize a) 100) && (nBufYSize a <? Z.quot (nYSize a) 100)
              && (nPixelSpace a =? GDALGetDataTypeSizeBytes (eBufType a))
              && (nLineSpace a =? nPixelSpace a * nBufXSize a)
              && GDAL_NO_COSTLY_OVERVIEW b
           then Some (CE_None,
                      set_buf (memset (buf s) (pData a) x00 (nLineSpace a * nBufYSize a)) s)
           else if is_window_case a then IRasterIO_window cfg i2f32 i2f64 fconv b a s
           else IRasterIO_general cfg i2f32 i2f64 fconv b a s) ->
      o = Some (e, s') -> Q e s').
    { intros o ->. destruct (_ && _).
      - intro E; inversion E; subst. apply (H_buf W). exact H.
      - destruct (is_window_case a); [apply keeps_IRasterIO_window; exact H|].
        unfold IRasterIO_general. rewrite W.
        destruct (eResampleAlg (psExtraArg a)) eqn:Alg;
          try (apply keeps_IRasterIO_general_read; [exact W | exact H]);
          try (destruct (has_color_table b));
          try (destruct (GDALDataTypeIsComplex (eDataType b)));
          try (apply keeps_IRasterIO_general_read; [exact W | exact H]);
          (destruct (RasterIOResampled b a s) as [e1 s1] eqn:R;
           intro E; inversion E; subst; apply (Hrs W); discriminate). }
    rewrite andb_true_r.
    destruct (((nBufXSize a <? nXSize a) || (nBufYSize a <? nYSize a))
              && (0 <? Z.of_nat (List.length (overviews b)))) eqn:D;
      [|apply A; reflexivity].
    apply andb_true_iff in D. destruct D as [_ D]. apply Z.ltb_lt in D.
    destruct (Hov W D) as [Hn Ho].
    destruct (GDALBandGetBestOverviewLevel2 _ _ _ _ _) as [[nOverview w'] sExtraArg].
    destruct (0 <=? nOverview); [|apply A; reflexivity].
    destruct (nth_error _ _) as [[o|]|]; try destruct sExtraArg as [e0|];
      try (intro E; inversion E; subst; exact Hn).
    specialize (Ho nOverview (overview_args a w' e0)).
    destruct (overview_RasterIO b nOverview (overview_args a w' e0) s) as [c i].
    intro E; inversion E; subst. exact Ho.
Qed.

End Keeps.

Lemma buf_Interrupted (b : Band) (s : IOState) : buf (snd (Interrupted b s)) = buf s.
Proof. unfold Interrupted. destruct (poDS b); reflexivity. Qed.

Lemma buf_GetLockedBlockRef (b : Band) (x y : Z) (ji : bool) (s : IOState) :
  buf (snd (GetLockedBlockRef b x y ji s)) = buf s.
Proof.
  unfold GetLockedBlockRef. cbv zeta.
  destruct (block_ok _ _ _ _ _); [destruct (_ && _)|]; reflexivity.
Qed.

Lemma buf_progress_stops (a : RasterIOArgs) (q : Q) (s : IOState) :
  buf (snd (progress_stops a q s)) = buf s.
Proof. unfold progress_stops. destruct (pfnProgress _); reflexivity. Qed.

Lemma buf_DropLock (p : option (Z * Z)) (s : IOState) : buf (DropLock p s) = buf s.
Proof. destruct p as [[x y]|]; reflexivity. Qed.

(** X7: a write never changes the caller's buffer: whatever the request,
    the block sizes, the stored flush error and the answers of the
    collaborators, and whether the call succeeds or not, the buffer after
    the call is the buffer before it. *)
Theorem write_leaves_the_buffer_alone :
  forall (b : Band) (a : RasterIOArgs) (s : IOState) (e : CPLErr) (s' : IOState),
    eRWFlag a = GF_Write ->
    IRasterIO cfg i2f32 i2f64 fconv b a s = Some (e, s') ->
    buf s' = buf s.
Proof.
  intros b a s e s' W E.
  assert (Ww : is_write (eRWFlag a) = true) by (rewrite W; reflexivity).
  apply (@keeps_IRasterIO b a (fun _ s1 => buf s1 = buf s)) with (s := s) (e := e);
    try exact E; try reflexivity; try congruence.
  - intros e0 s0 H. rewrite buf_Interrupted. exact H.
  - intros e0 x y ji s0 _ _ H. rewrite buf_GetLockedBlockRef. exact H.
  - intros e0 q s0 _ H. rewrite buf_progress_stops. exact H.
  - intros e0 p s0 H. rewrite buf_DropLock. exact H.
  - intros _ e0 x y s0 H. exact H.
  - intros _ e0 x y m s0 H. exact H.
Qed.
Lemma own_loops_read (b : Band) (a : RasterIOArgs) :
  own_loops b a = true -> is_write (eRWFlag a) = false ->
  ~ 0 < Z.of_nat (List.length (overviews b))
  /\ eResampleAlg (psExtraArg a) = GRIORA_NearestNeighbour.
Proof.
  unfold own_loops. intros O W. rewrite W in O. cbn [orb] in O.
  apply andb_true_iff in O. destruct O as [O1 O2]. apply Nat.eqb_eq in O1.
  split; [rewrite O1; cbn; lia|].
  destruct (eResampleAlg (psExtraArg a)); try discriminate O2. reflexivity.
Qed.

(** X8: a nearest-neighbour read of a band without overviews leaves the
    band as it is: the data of every block and the stored flush error are
    unchanged, no block is marked dirty, and no block is fetched with
    [bJustInitialize] (which would create it without loading it). *)
Theorem read_leaves_the_band_alone :
  forall (b : Band) (a : RasterIOArgs) (s : IOState) (e : CPLErr) (s' : IOState),
    eRWFlag a = GF_Read ->
    own_loops b a = true ->
    IRasterIO cfg i2f32 i2f64 fconv b a s = Some (e, s') ->
    blocks s' = blocks s
    /\ eFlushBlockErr s' = eFlushBlockErr s
    /\ exists new, trace s' = new ++ trace s /\ forallb read_event new = true.
Proof.
  intros b a s e s' R O E.
  assert (W : is_write (eRWFlag a) = false) by (rewrite R; reflexivity).
  destruct (own_loops_read b a O W) as [Ov Alg].
  apply (@keeps_IRasterIO b a
           (fun _ s1 => blocks s1 = blocks s /\ eFlushBlockErr s1 = eFlushBlockErr s
                        /\ exists new, trace s1 = new ++ trace s
                                       /\ forallb read_event new = true))
    with (s := s) (e := e); try exact E; try congruence.
  - intros e0 s0 (Hb & Hf & new & Ht & Hn). unfold Interrupted.
    destruct (poDS b) as [f|]; cbn [fst snd log blocks eFlushBlockErr trace].
    + split; [exact Hb|]. split; [exact Hf|].
      exists (EvPoll (f (List.length (trace s0))) :: new). rewrite Ht. split; [reflexivity|].
      cbn [forallb read_event andb]. exact Hn.
    + split; [exact Hb|]. split; [exact Hf|]. exists new. split; assumption.
  - intros e0 x y ji s0 J _ (Hb & Hf & new & Ht & Hn). rewrite (J W).
    unfold GetLockedBlockRef. cbv zeta. cbn [andb].
    destruct (block_ok _ _ _ _ _) eqn:K; cbn [fst snd log blocks eFlushBlockErr trace];
      (split; [exact Hb|]; split; [exact Hf|];
       eexists (EvFetch x y false _ :: new); rewrite Ht; split; [reflexivity|];
       cbn [forallb read_event andb negb]; exact Hn).
  - intros e0 q s0 _ (Hb & Hf & new & Ht & Hn). unfold progress_stops.
    destruct (pfnProgress _) as [f|]; cbn [fst snd log blocks eFlushBlockErr trace].
    + split; [exact Hb|]. split; [exact Hf|].
      exists (EvProgress q (f q) :: new). rewrite Ht. split; [reflexivity|].
      cbn [forallb read_event andb]. exact Hn.
    + split; [exact Hb|]. split; [exact Hf|]. exists new. split; assumption.
  - intros e0 p s0 (Hb & Hf & new & Ht & Hn).
    destruct p as [[x y]|]; cbn [DropLock log blocks eFlushBlockErr trace].
    + split; [exact Hb|]. split; [exact Hf|].
      exists (EvDrop x y :: new). rewrite Ht. split; [reflexivity|].
      cbn [forallb read_event andb]. exact Hn.
    + split; [exact Hb|]. split; [exact Hf|]. exists new. split; assumption.
  - intros _ e0 m s0 H. exact H.
  - intros _. split; [reflexivity|]. split; [reflexivity|]. exists nil. split; reflexivity.
  - split; [reflexivity|]. split; [reflexivity|]. exists nil. split; reflexivity.
Qed.

Lemma result_code_cons (ev : Event) (new : list Event) :
  interrupt_event ev = false -> failure_event ev = false ->
  result_code (ev :: new) = result_code new.
Proof. intros I F. unfold result_code. cbn [existsb]. rewrite I, F. reflexivity. Qed.

Lemma result_code_failure (ev : Event) (new : list Event) :
  interrupt_event ev = false -> failure_event ev = true ->
  result_code new <> CE_Interrupted ->
  result_code (ev :: new) = CE_Failure.
Proof.
  intros I F L. unfold result_code in *. cbn [existsb]. rewrite I, F. cbn [orb].
  destruct (existsb interrupt_event new); [contradiction L|]; reflexivity.
Qed.

(* ------------------------------------------------------------------ *)
(** ** The loops of [IRasterIO] end *)

Lemma for_ctl_ends (S : Type) (body : Z -> S -> Ctl S) :
  (forall i s, body i s <> Fuel) ->
  forall n i s, for_ctl n i body s <> Fuel.
Proof.
  intros Hbody n. induction n as [|n IH]; intros i s; cbn [for_ctl]; [discriminate|].
  specialize (Hbody i s). destruct (body i s); try discriminate; [apply IH | congruence].
Qed.

Lemma packed_body_ends (b : Band) (a : RasterIOArgs) (i : Z)
    (st : CPLErr * option (Z * Z) * Z * IOState) :
  packed_body cfg i2f32 i2f64 fconv b a i st <> Fuel.
Proof.
  destruct st as [[[e p] y] s]. unfold packed_body, packed_copy_row. cbv zeta.
  repeat match goal with
         | |- context [progress_stops ?a0 ?q ?s0] => destruct (progress_stops a0 q s0) as [[] ?]
         | |- context [Interrupted ?b0 ?s0] => destruct (Interrupted b0 s0) as [[] ?]
         | |- context [GetLockedBlockRef ?b0 ?x ?y0 ?ji ?s0] =>
             destruct (GetLockedBlockRef b0 x y0 ji s0) as [[] ?]
         | |- (if ?c then _ else _) <> _ => destruct c
         end; cbn [negb]; try discriminate.
Qed.

Lemma IRasterIO_packed_returns (b : Band) (a : RasterIOArgs) (s : IOState) :
  exists r, IRasterIO_packed cfg i2f32 i2f64 fconv b a s = Some r.
Proof.
  unfold IRasterIO_packed.
  assert (K := @for_ctl_ends _ (packed_body cfg i2f32 i2f64 fconv b a)
                 (packed_body_ends b a) (Z.to_nat (nBufYSize a)) 0 (CE_None, None, -1, s)).
  destruct (for_ctl _ _ _ _) as [[[[e p] y] s1] | [[[e p] y] s1] | e s1 |];
    [eexists; reflexivity .. | contradiction K; reflexivity].
Qed.

Lemma gwrite_row_ends (b : Band) (a : RasterIOArgs) (i : Z)
    (st : CPLErr * option (Z * Z) * Z * Z * IOState) :
  gwrite_row cfg i2f32 i2f64 fconv b a i st <> Fuel.
Proof.
  unfold gwrite_row. cbv zeta.
  match goal with |- context [for_ctl ?n ?i0 ?body st] =>
    assert (K : for_ctl n i0 body st <> Fuel);
    [| destruct (for_ctl n i0 body st) as [[[[[e p] x] y] s1] | [[[[e p] x] y] s1] | e s1 |] ]
  end.
  - apply for_ctl_ends. intros j [[[[e p] x] y] s0]. unfold gwrite_pixel. cbv zeta.
    destruct (_ || _); [|discriminate].
    match goal with |- context [GetLockedBlockRef ?b0 ?x0 ?y0 ?ji ?s1] =>
      destruct (GetLockedBlockRef b0 x0 y0 ji s1) as [[] ?] end; discriminate.
  - destruct (progress_stops _ _ _) as [[] ?]; discriminate.
  - destruct (progress_stops _ _ _) as [[] ?]; discriminate.
  - discriminate.
  - exact K.
Qed.

Lemma IRasterIO_general_write_returns (b : Band) (a : RasterIOArgs) (s : IOState) :
  exists r, IRasterIO_general_write cfg i2f32 i2f64 fconv b a s = Some r.
Proof.
  unfold IRasterIO_general_write.
  assert (K := @for_ctl_ends _ (gwrite_row cfg i2f32 i2f64 fconv b a)
                 (gwrite_row_ends b a) (Z.to_nat (nYSize a)) (nYOff a)
                 (CE_None, None, -1, -1, s)).
  destruct (for_ctl _ _ _ _) as [[[[[e p] x] y] s1] | [[[[e p] x] y] s1] | e s1 |];
    [eexists; reflexivity .. | contradiction K; reflexivity].
Qed.

Lemma gread_block_row_ends (b : Band) (a : RasterIOArgs) (x0 x1 y : Z)
    (st : CPLErr * option (Z * Z) * IOState) :
  gread_block_row cfg i2f32 i2f64 fconv b a x0 x1 y st <> Fuel.
Proof.
  unfold gread_block_row.
  match goal with |- context [for_ctl ?n ?i0 ?body st] =>
    assert (K : for_ctl n i0 body st <> Fuel); [| destruct (for_ctl n i0 body st) ] end;
    try discriminate; try exact K.
  apply for_ctl_ends. intros x [[e p] s0]. unfold gread_block. cbv zeta.
  destruct (Interrupted _ _) as [[] ?]; [discriminate|].
  destruct (GetLockedBlockRef _ _ _ _ _) as [[] ?]; cbn [negb]; [|discriminate].
  match goal with |- context [for_ctl ?n ?i0 ?body ?s1] =>
    assert (K : for_ctl n i0 body s1 <> Fuel); [| destruct (for_ctl n i0 body s1) ] end;
    try discriminate; try exact K.
  apply for_ctl_ends. intros j [[e1 p1] s1]. unfold gread_row. cbv zeta.
  destruct e1; try discriminate;
    destruct (progress_stops _ _ _) as [[] ?]; discriminate.
Qed.

Lemma IRasterIO_general_read_returns (b : Band) (a : RasterIOArgs) (s : IOState) :
  exists r, IRasterIO_general_read cfg i2f32 i2f64 fconv b a s = Some r.
Proof.
  unfold IRasterIO_general_read. cbv zeta.
  match goal with |- context [for_ctl ?n ?i0 ?body ?s1] =>
    assert (K : for_ctl n i0 body s1 <> Fuel) by (apply for_ctl_ends; intros;
                                                   apply gread_block_row_ends);
    destruct (for_ctl n i0 body s1) as [[[e p] s2] | [[e p] s2] | e s2 |] end;
    [eexists; reflexivity .. | contradiction K; reflexivity].
Qed.

Lemma window_inner_body_ends (b : Band) (a : RasterIOArgs)
    (iBufYOff iSrcY nLBlockY : Z) (st : Z * Z * Z * IOState) :
  0 < nBlockXSize b -> nBufXSize a + nXOff a <= INT_MAX ->
  (let '(iSrcX, nLBlockX, _, _) := st in
   iSrcX < nBufXSize a + nXOff a ->
   nLBlockX * nBlockXSize b <= iSrcX < (nLBlockX + 1) * nBlockXSize b) ->
  (let '(iSrcX, _, _, _) := st in iSrcX <? nBufXSize a + nXOff a) = true ->
  match window_inner_body cfg i2f32 i2f64 fconv b a iBufYOff iSrcY nLBlockY
          (nBufXSize a + nXOff a) st with
  | Next st' =>
      (let '(iSrcX, nLBlockX, _, _) := st' in
       iSrcX < nBufXSize a + nXOff a ->
       nLBlockX * nBlockXSize b <= iSrcX < (nLBlockX + 1) * nBlockXSize b)
      /\ inner_measure a st' < inner_measure a st
  | c => ctl_post (fun st' : Z * Z * Z * IOState =>
                     let '(iSrcX, nLBlockX, _, _) := st' in
                     iSrcX < nBufXSize a + nXOff a ->
                     nLBlockX * nBlockXSize b <= iSrcX < (nLBlockX + 1) * nBlockXSize b)
                  (fun _ _ => True) c
  end.
Proof.
  intros Hbw Hmax. destruct st as [[[iSrcX bx] off] s].
  unfold window_inner_body, inner_measure. cbv beta iota zeta.
  intros Hblk C. apply Z.ltb_lt in C. specialize (Hblk C).
  destruct (Interrupted b s) as [[] s2]; [exact I|].
  destruct (GetLockedBlockRef _ _ _ _ _) as [[] s3]; cbn [negb ctl_post]; [|exact I].
  unfold INT_MAX in *.
  destruct (bx * nBlockXSize b <? 2147483647 - nBlockXSize b) eqn:E1.
  - destruct (bx * nBlockXSize b + nBlockXSize b <? nBufXSize a + nXOff a) eqn:E2;
      [apply Z.ltb_lt in E2 | apply Z.ltb_ge in E2]; split; try intro L; lia.
  - apply Z.ltb_ge in E1.
    destruct (2147483647 <? nBufXSize a + nXOff a) eqn:E2; [apply Z.ltb_lt in E2; lia|].
    split; try intro L; lia.
Qed.
Lemma window_outer_body_ends (b : Band) (a : RasterIOArgs) (st : Z * Z * IOState) :
  0 < nBlockXSize b -> 0 < nBlockYSize b ->
  0 <= nXOff a -> nBufXSize a + nXOff a <= INT_MAX ->
  (let '(_, iSrcY, _) := st in 0 <= iSrcY) ->
  match window_outer_body cfg i2f32 i2f64 fconv b a st with
  | Next st' => (let '(_, iSrcY, _) := st' in 0 <= iSrcY)
                /\ outer_measure a st' < outer_measure a st
  | c => ctl_post (fun st' : Z * Z * IOState => let '(_, iSrcY, _) := st' in 0 <= iSrcY)
                  (fun _ _ => True) c
  end.
Proof.
  intros Hbw Hbh Hx Hmax. destruct st as [[iBufYOff iSrcY] s].
  unfold window_outer_body. cbv beta iota zeta. intros Hy.
  assert (W := @while_ctl_post _
                 (fun st' : Z * Z * Z * IOState =>
                    let '(iSrcX, nLBlockX, _, _) := st' in
                    iSrcX < nBufXSize a + nXOff a ->
                    nLBlockX * nBlockXSize b <= iSrcX < (nLBlockX + 1) * nBlockXSize b)
                 (fun _ _ => True) (inner_measure a)
                 (fun st => let '(iSrcX, _, _, _) := st in iSrcX <? nBufXSize a + nXOff a)
                 (window_inner_body cfg i2f32 i2f64 fconv b a iBufYOff iSrcY
                    (Z.quot iSrcY (nBlockYSize b)) (nBufXSize a + nXOff a))).
  assert (W1 : forall s0 : Z * Z * Z * IOState,
             (let '(iSrcX, nLBlockX, _, _) := s0 in
              iSrcX < nBufXSize a + nXOff a ->
              nLBlockX * nBlockXSize b <= iSrcX < (nLBlockX + 1) * nBlockXSize b) ->
             (let '(iSrcX, _, _, _) := s0 in iSrcX <? nBufXSize a + nXOff a) = true ->
             0 < inner_measure a s0).
  { intros [[[x bx] o] s0] _ C. unfold inner_measure. apply Z.ltb_lt in C. lia. }
  specialize (W W1 (fun s0 H C => window_inner_body_ends b a iBufYOff iSrcY
                                    (Z.quot iSrcY (nBlockYSize b)) s0 Hbw Hmax H C)).
  specialize (W (Z.to_nat (nBufXSize a))
                (nXOff a, Z.quot (nXOff a) (nBlockXSize b), iBufYOff * nLineSpace a, s)).
  cbv beta iota in W.
  specialize (W (fun _ => @quot_block_bounds (nXOff a) (nBlockXSize b) Hx Hbw)).
  assert (M0 : inner_measure a (nXOff a, Z.quot (nXOff a) (nBlockXSize b),
                                iBufYOff * nLineSpace a, s)
               <= Z.of_nat (Z.to_nat (nBufXSize a))).
  { unfold inner_measure. lia. }
  specialize (W M0).
  assert (R := Z.rem_bound_pos iSrcY (nBlockYSize b) Hy Hbh).
  destruct (while_ctl _ _ _ _) as [[[[x bx] o] s'] | [[[x bx] o] s'] | e s' |];
    cbn [ctl_post] in W |- *; try exact I; try contradiction;
    destruct (progress_stops _ _ _) as [[] s1]; cbn [ctl_post]; try exact I;
    unfold outer_measure; split; lia.
Qed.

Lemma IRasterIO_window_returns (b : Band) (a : RasterIOArgs) (s : IOState) :
  0 < nBlockXSize b -> 0 < nBlockYSize b ->
  0 <= nXOff a -> 0 <= nYOff a -> nBufXSize a + nXOff a <= INT_MAX ->
  exists r, IRasterIO_window cfg i2f32 i2f64 fconv b a s = Some r.
Proof.
  intros Hbw Hbh Hx Hy Hmax. unfold IRasterIO_window.
  assert (W := @while_ctl_post _
                 (fun st' : Z * Z * IOState => let '(_, iSrcY, _) := st' in 0 <= iSrcY)
                 (fun _ _ => True) (outer_measure a)
                 (fun st => let '(iBufYOff, _, _) := st in iBufYOff <? nBufYSize a)
                 (window_outer_body cfg i2f32 i2f64 fconv b a)).
  assert (W1 : forall s0 : Z * Z * IOState,
             (let '(_, iSrcY, _) := s0 in 0 <= iSrcY) ->
             (let '(iBufYOff, _, _) := s0 in iBufYOff <? nBufYSize a) = true ->
             0 < outer_measure a s0).
  { intros [[i y] s0] _ C. unfold outer_measure. apply Z.ltb_lt in C. lia. }
  specialize (W W1 (fun s0 H _ => window_outer_body_ends b a s0 Hbw Hbh Hx Hmax H)).
  specialize (W (Z.to_nat (nBufYSize a)) (0, nYOff a, s) Hy).
  assert (M0 : outer_measure a (0, nYOff a, s) <= Z.of_nat (Z.to_nat (nBufYSize a)))
    by (unfold outer_measure; lia).
  specialize (W M0).
  destruct (while_ctl _ _ _ _) as [[[i y] s'] | [[i y] s'] | e s' |];
    [eexists; reflexivity .. | contradiction W].
Qed.

(** A valid request served by the loops of [IRasterIO] returns. *)
Lemma IRasterIO_returns (b : Band) (a : RasterIOArgs) (s : IOState) :
  own_loops b a = true ->
  0 <= nXOff a -> 0 <= nYOff a -> nBufXSize a + nXOff a <= INT_MAX ->
  exists r, IRasterIO cfg i2f32 i2f64 fconv b a s = Some r.
Proof.
  intros O Hx Hy Hmax. unfold IRasterIO.
  destruct (_ && _); [eexists; reflexivity|].
  destruct ((nBlockXSize b <=? 0) || (nBlockYSize b <=? 0)) eqn:Eb; [eexists; reflexivity|].
  apply orb_false_iff in Eb. destruct Eb as [Ebw Ebh].
  apply Z.leb_gt in Ebw. apply Z.leb_gt in Ebh.
  destruct (is_packed_case b a); [apply IRasterIO_packed_returns|].
  cbv zeta.
  assert (A : exists r,
    (if negb (is_write (eRWFlag a))
        && (nBufXSize a <? Z.quot (nXSize a) 100) && (nBufYSize a <? Z.quot (nYSize a) 100)
        && (nPixelSpace a =? GDALGetDataTypeSizeBytes (eBufType a))
        && (nLineSpace a =? nPixelSpace a * nBufXSize a)
        && GDAL_NO_COSTLY_OVERVIEW b
     then Some (CE_None,
                set_buf (memset (buf s) (pData a) x00 (nLineSpace a * nBufYSize a)) s)
     else if is_window_case a then IRasterIO_window cfg i2f32 i2f64 fconv b a s
     else IRasterIO_general cfg i2f32 i2f64 fconv b a s) = Some r).
  { destruct (_ && _); [eexists; reflexivity|].
    destruct (is_window_case a); [apply IRasterIO_window_returns; assumption|].
    unfold IRasterIO_general.
    destruct (is_write (eRWFlag a)) eqn:W; [apply IRasterIO_general_write_returns|].
    destruct (own_loops_read b a O W) as [_ Alg]. rewrite Alg.
    apply IRasterIO_general_read_returns. }
  destruct (is_write (eRWFlag a)) eqn:W.
  - rewrite andb_false_r. exact A.
  - destruct (own_loops_read b a O W) as [Ov _].
    destruct (0 <? Z.of_nat (List.length (overviews b))) eqn:D;
      [apply Z.ltb_lt in D; contradiction|].
    rewrite andb_false_r. cbn [andb]. exact A.
Qed.

(** X10: a valid request served by the loops of [IRasterIO] succeeds when
    its collaborators cooperate: with positive block sizes and no stored
    flush error, if the dataset never reports an interruption, every block
    can be fetched and the progress callback never asks to stop, the call
    returns [CE_None]. *)
Theorem cooperative_request_succeeds :
  forall (b : Band) (a : RasterIOArgs) (s : IOState),
    own_loops b a = true ->
    0 < nBlockXSize b -> 0 < nBlockYSize b ->
    0 <= nXOff a -> 0 <= nYOff a -> nBufXSize a + nXOff a <= INT_MAX ->
    eFlushBlockErr s = CE_None ->
    (forall f n, poDS b = Some f -> f n = false) ->
    (forall n x y ji, block_ok b n x y ji = true) ->
    (forall f q, pfnProgress (psExtraArg a) = Some f -> f q = true) ->
    exists s', IRasterIO cfg i2f32 i2f64 fconv b a s = Some (CE_None, s').
Proof.
  intros b a s O Hbw Hbh Hx Hy Hmax Hfl Hds Hok Hpr.
  destruct (IRasterIO_returns b a s O Hx Hy Hmax) as [[e s'] E].
  exists s'. rewrite E. f_equal. f_equal.
  apply (@keeps_IRasterIO b a (fun e1 _ => e1 = CE_None)) with (s := s) (s' := s');
    try exact E; try reflexivity; try (intros; assumption).
  - intros e0 s0 H. unfold Interrupted. destruct (poDS b) as [f|] eqn:P; cbn [fst]; [|exact H].
    rewrite (Hds f _ eq_refl). exact H.
  - intros e0 x y ji s0 _ _ H. unfold GetLockedBlockRef. cbv zeta. rewrite Hok. exact H.
  - intros e0 q s0 _ H. unfold progress_stops.
    destruct (pfnProgress _) as [f|] eqn:P; cbn [fst]; [|exact H].
    rewrite (Hpr f q eq_refl). exact H.
  - intros [H|H]; lia.
  - intros W D. destruct (own_loops_read b a O W) as [Ov _]. contradiction.
  - intros W N. destruct (own_loops_read b a O W) as [_ Alg]. contradiction.
Qed.


End Proofs.

(* ------------------------------------------------------------------ *)
(** ** Byte swapping *)

Lemma CPL_SWAP16PTR_reverse (m : mem) (p : Z) : CPL_SWAP16PTR m p = reverse_word 2 m p.
Proof.
  apply functional_extensionality. intro x.
  unfold CPL_SWAP16PTR, exchange, reverse_word.
  repeat match goal with
         | |- context [?u =? ?v] => destruct (Z.eqb_spec u v)
         | |- context [?u <=? ?v] => destruct (Z.leb_spec u v)
         | |- context [?u <? ?v] => destruct (Z.ltb_spec u v)
         end; cbn [andb]; try lia; f_equal; lia.
Qed.

Lemma CPL_SWAP32PTR_reverse (m : mem) (p : Z) : CPL_SWAP32PTR m p = reverse_word 4 m p.
Proof.
  apply functional_extensionality. intro x.
  unfold CPL_SWAP32PTR, exchange, reverse_word.
  repeat match goal with
         | |- context [?u =? ?v] => destruct (Z.eqb_spec u v)
         | |- context [?u <=? ?v] => destruct (Z.leb_spec u v)
         | |- context [?u <? ?v] => destruct (Z.ltb_spec u v)
         end; cbn [andb]; try lia; f_equal; lia.
Qed.

Lemma CPL_SWAP64PTR_reverse (m : mem) (p : Z) : CPL_SWAP64PTR m p = reverse_word 8 m p.
Proof.
  apply functional_extensionality. intro x.
  unfold CPL_SWAP64PTR, exchange, reverse_word.
  repeat match goal with
         | |- context [?u =? ?v] => destruct (Z.eqb_spec u v)
         | |- context [?u <=? ?v] => destruct (Z.leb_spec u v)
         | |- context [?u <? ?v] => destruct (Z.ltb_spec u v)
         end; cbn [andb]; try lia; f_equal; lia.
Qed.
Lemma le_bytes_le_unsigned (bs : list byte) :
  le_bytes (List.length bs) (le_unsigned bs) = bs.
Proof.
  induction bs as [|b r IH]; [reflexivity|].
  cbn [List.length le_bytes le_unsigned].
  assert (Hb := Z_of_byte_range b). f_equal.
  - apply byte_of_Z_small. Z.to_euclidean_division_equations; lia.
  - replace ((Z_of_byte b + 256 * le_unsigned r) / 256) with (le_unsigned r)
      by (Z.to_euclidean_division_equations; lia).
    exact IH.
Qed.

Lemma land_byte_mask (x s c : Z) :
  0 <= s -> c = Z.shiftl 255 s -> Z.land x c = ((x / 2 ^ s) mod 256) * 2 ^ s.
Proof.
  intros Hs ->. rewrite <- Z.shiftl_mul_pow2 by exact Hs.
  apply Z.bits_inj'. intros n Hn. rewrite Z.land_spec.
  destruct (Z.ltb_spec n s) as [L|L].
  - rewrite !Z.shiftl_spec_low by exact L. apply andb_false_r.
  - rewrite !Z.shiftl_spec by exact Hn.
    change 256 with (2 ^ 8). rewrite <- Z.land_ones by lia.
    rewrite Z.land_spec, <- Z.shiftr_div_pow2 by exact Hs.
    rewrite Z.shiftr_spec by lia.
    replace (n - s + s) with n by lia. reflexivity.
Qed.

Lemma lor_add_disjoint (a b k : Z) :
  0 <= k -> a mod 2 ^ k = 0 -> 0 <= b < 2 ^ k -> Z.lor a b = a + b.
Proof.
  intros Hk Ha Hb.
  assert (D : Z.land a b = 0).
  { apply Z.bits_inj'. intros n Hn. rewrite Z.land_spec, Z.bits_0.
    destruct (Z.ltb_spec n k) as [L|L].
    - rewrite <- (Z.mod_pow2_bits_low a k n) by lia. rewrite Ha, Z.bits_0. reflexivity.
    - rewrite <- (Z.mod_small b (2 ^ k)) by exact Hb.
      rewrite Z.mod_pow2_bits_high by lia. apply andb_false_r. }
  rewrite <- Z.lxor_lor by exact D. symmetry. apply Z.add_nocarry_lxor. exact D.
Qed.

Lemma CPL_SWAP32_bytes (b0 b1 b2 b3 : byte) :
  CPL_SWAP32 (le_unsigned [b0; b1; b2; b3]) = le_unsigned [b3; b2; b1; b0].
Proof.
  unfold CPL_SWAP32. cbn [le_unsigned].
  assert (H0 := Z_of_byte_range b0). assert (H1 := Z_of_byte_range b1).
  assert (H2 := Z_of_byte_range b2). assert (H3 := Z_of_byte_range b3).
  set (z0 := Z_of_byte b0) in *. set (z1 := Z_of_byte b1) in *.
  set (z2 := Z_of_byte b2) in *. set (z3 := Z_of_byte b3) in *.
  set (x := z0 + 256 * (z1 + 256 * (z2 + 256 * (z3 + 256 * 0)))).
  rewrite (@land_byte_mask x 0 0xff), (@land_byte_mask x 8 0xff00),
    (@land_byte_mask x 16 0xff0000), (@land_byte_mask x 24 0xff000000)
    by (reflexivity || lia).
  rewrite !Z.shiftl_mul_pow2, !Z.shiftr_div_pow2 by lia.
  change (2 ^ 0) with 1. change (2 ^ 8) with 256. change (2 ^ 16) with 65536.
  change (2 ^ 24) with 16777216.
  assert (E0 : (x / 1) mod 256 = z0) by (subst x; Z.to_euclidean_division_equations; lia).
  assert (E1 : (x / 256) mod 256 = z1) by (subst x; Z.to_euclidean_division_equations; lia).
  assert (E2 : (x / 65536) mod 256 = z2) by (subst x; Z.to_euclidean_division_equations; lia).
  assert (E3 : (x / 16777216) mod 256 = z3)
    by (subst x; Z.to_euclidean_division_equations; lia).
  rewrite E0, E1, E2, E3. clearbody x. clear E0 E1 E2 E3 x.
  replace (z2 * 65536 / 256) with (z2 * 256) by (Z.to_euclidean_division_equations; lia).
  replace (z3 * 16777216 / 16777216) with z3 by (Z.to_euclidean_division_equations; lia).
  rewrite (@lor_add_disjoint (z0 * 1 * 16777216) (z1 * 256 * 256) 24)
    by (try (change (2 ^ 24) with 16777216); Z.to_euclidean_division_equations; lia).
  rewrite (@lor_add_disjoint _ (z2 * 256) 16)
    by (try (change (2 ^ 16) with 65536); Z.to_euclidean_division_equations; lia).
  rewrite (@lor_add_disjoint _ z3 8)
    by (try (change (2 ^ 8) with 256); Z.to_euclidean_division_equations; lia).
  lia.
Qed.
Lemma CPL_SWAP64_bytes (b0 b1 b2 b3 b4 b5 b6 b7 : byte) :
  CPL_SWAP64 (le_unsigned [b0; b1; b2; b3; b4; b5; b6; b7])
  = le_unsigned [b7; b6; b5; b4; b3; b2; b1; b0].
Proof.
  unfold CPL_SWAP64. cbn [le_unsigned].
  assert (H0 := Z_of_byte_range b0). assert (H1 := Z_of_byte_range b1).
  assert (H2 := Z_of_byte_range b2). assert (H3 := Z_of_byte_range b3).
  assert (H4 := Z_of_byte_range b4). assert (H5 := Z_of_byte_range b5).
  assert (H6 := Z_of_byte_range b6). assert (H7 := Z_of_byte_range b7).
  set (z0 := Z_of_byte b0) in *. set (z1 := Z_of_byte b1) in *.
  set (z2 := Z_of_byte b2) in *. set (z3 := Z_of_byte b3) in *.
  set (z4 := Z_of_byte b4) in *. set (z5 := Z_of_byte b5) in *.
  set (z6 := Z_of_byte b6) in *. set (z7 := Z_of_byte b7) in *.
  set (x := z0 + 256 * (z1 + 256 * (z2 + 256 * (z3 + 256 * (z4 + 256 * (z5 + 256 *
              (z6 + 256 * (z7 + 256 * 0)))))))).
  rewrite (@land_byte_mask x 0 0xff), (@land_byte_mask x 8 0xff00),
    (@land_byte_mask x 16 0xff0000), (@land_byte_mask x 24 0xff000000),
    (@land_byte_mask x 32 0xff00000000), (@land_byte_mask x 40 0xff0000000000),
    (@land_byte_mask x 48 0xff000000000000), (@land_byte_mask x 56 0xff00000000000000)
    by (reflexivity || lia).
  rewrite !Z.shiftl_mul_pow2, !Z.shiftr_div_pow2 by lia.
  change (2 ^ 0) with 1. change (2 ^ 8) with 256. change (2 ^ 16) with 65536.
  change (2 ^ 24) with 16777216. change (2 ^ 32) with 4294967296.
  change (2 ^ 40) with 1099511627776. change (2 ^ 48) with 281474976710656.
  change (2 ^ 56) with 72057594037927936.
  assert (E0 : (x / 1) mod 256 = z0) by (subst x; Z.to_euclidean_division_equations; lia).
  assert (E1 : (x / 256) mod 256 = z1) by (subst x; Z.to_euclidean_division_equations; lia).
  assert (E2 : (x / 65536) mod 256 = z2) by (subst x; Z.to_euclidean_division_equations; lia).
  assert (E3 : (x / 16777216) mod 256 = z3)
    by (subst x; Z.to_euclidean_division_equations; lia).
  assert (E4 : (x / 4294967296) mod 256 = z4)
    by (subst x; Z.to_euclidean_division_equations; lia).
  assert (E5 : (x / 1099511627776) mod 256 = z5)
    by (subst x; Z.to_euclidean_division_equations; lia).
  assert (E6 : (x / 281474976710656) mod 256 = z6)
    by (subst x; Z.to_euclidean_division_equations; lia).
  assert (E7 : (x / 72057594037927936) mod 256 = z7)
    by (subst x; Z.to_euclidean_division_equations; lia).
  rewrite E0, E1, E2, E3, E4, E5, E6, E7. clearbody x. clear E0 E1 E2 E3 E4 E5 E6 E7 x.
  replace (z4 * 4294967296 / 256) with (z4 * 16777216)
    by (Z.to_euclidean_division_equations; lia).
  replace (z5 * 1099511627776 / 16777216) with (z5 * 65536)
    by (Z.to_euclidean_division_equations; lia).
  replace (z6 * 281474976710656 / 1099511627776) with (z6 * 256)
    by (Z.to_euclidean_division_equations; lia).
  replace (z7 * 72057594037927936 / 72057594037927936) with z7
    by (Z.to_euclidean_division_equations; lia).
  rewrite (@lor_add_disjoint (z0 * 1 * 72057594037927936) (z1 * 256 * 1099511627776) 56)
    by (try (change (2 ^ 56) with 72057594037927936);
        Z.to_euclidean_division_equations; lia).
  rewrite (@lor_add_disjoint _ (z2 * 65536 * 16777216) 48)
    by (try (change (2 ^ 48) with 281474976710656);
        Z.to_euclidean_division_equations; lia).
  rewrite (@lor_add_disjoint _ (z3 * 16777216 * 256) 40)
    by (try (change (2 ^ 40) with 1099511627776);
        Z.to_euclidean_division_equations; lia).
  rewrite (@lor_add_disjoint _ (z4 * 16777216) 32)
    by (try (change (2 ^ 32) with 4294967296);
        Z.to_euclidean_division_equations; lia).
  rewrite (@lor_add_disjoint _ (z5 * 65536) 24)
    by (try (change (2 ^ 24) with 16777216);
        Z.to_euclidean_division_equations; lia).
  rewrite (@lor_add_disjoint _ (z6 * 256) 16)
    by (try (change (2 ^ 16) with 65536); Z.to_euclidean_division_equations; lia).
  rewrite (@lor_add_disjoint _ z7 8)
    by (try (change (2 ^ 8) with 256); Z.to_euclidean_division_equations; lia).
  lia.
Qed.
Lemma store_reversed (m : mem) (p : Z) (n : nat) :
  store_bytes m p (rev (load_bytes m p n)) = reverse_word (Z.of_nat n) m p.
Proof.
  apply functional_extensionality. intro x. unfold store_bytes, reverse_word.
  rewrite length_rev. unfold load_bytes at 1. rewrite length_map, length_seq.
  destruct ((p <=? x) && (x <? p + Z.of_nat n)) eqn:C; [|reflexivity].
  apply andb_true_iff in C. destruct C as [C1 C2].
  apply Z.leb_le in C1. apply Z.ltb_lt in C2.
  rewrite rev_nth by (unfold load_bytes; rewrite length_map, length_seq; lia).
  unfold load_bytes at 1. rewrite length_map, length_seq.
  rewrite nth_load_bytes by lia. f_equal. lia.
Qed.

Lemma swap32_aligned_reverse (m : mem) (p : Z) : swap32_aligned m p = reverse_word 4 m p.
Proof.
  unfold swap32_aligned.
  change (load_bytes m p 4)
    with [m (p + 0); m (p + 1); m (p + 2); m (p + 3)].
  rewrite CPL_SWAP32_bytes.
  change 4%nat with (List.length [m (p + 3); m (p + 2); m (p + 1); m (p + 0)]).
  rewrite le_bytes_le_unsigned.
  change [m (p + 3); m (p + 2); m (p + 1); m (p + 0)] with (rev (load_bytes m p 4)).
  apply store_reversed.
Qed.

Lemma swap64_aligned_reverse (m : mem) (p : Z) : swap64_aligned m p = reverse_word 8 m p.
Proof.
  unfold swap64_aligned.
  change (load_bytes m p 8)
    with [m (p + 0); m (p + 1); m (p + 2); m (p + 3);
          m (p + 4); m (p + 5); m (p + 6); m (p + 7)].
  rewrite CPL_SWAP64_bytes.
  change 8%nat with (List.length [m (p + 7); m (p + 6); m (p + 5); m (p + 4);
                                  m (p + 3); m (p + 2); m (p + 1); m (p + 0)]).
  rewrite le_bytes_le_unsigned.
  change [m (p + 7); m (p + 6); m (p + 5); m (p + 4);
          m (p + 3); m (p + 2); m (p + 1); m (p + 0)] with (rev (load_bytes m p 8)).
  apply store_reversed.
Qed.

(** Every path of [GDALSwapWords] reverses, word after word, the bytes of
    the words. *)
Lemma swap_loop_ext (f g : mem -> Z -> mem) (m : mem) (p n skip : Z) :
  (forall m p, f m p = g m p) -> swap_loop f m p n skip = swap_loop g m p n skip.
Proof.
  intro H. unfold swap_loop. f_equal. apply for_loop_ext.
  intros i [q m0]. rewrite H. reflexivity.
Qed.

Lemma swap_loop_id (f : mem -> Z -> mem) (m : mem) (p n skip : Z) :
  (forall m p, f m p = m) -> swap_loop f m p n skip = m.
Proof.
  intro H. unfold swap_loop. generalize 0 at 1. generalize p.
  induction (Z.to_nat n) as [|k IH]; intros q i; cbn [for_loop]; [reflexivity|].
  rewrite H. apply IH.
Qed.

Lemma GDALSwapWords_loop (m : mem) (pData nWordSize nWordCount nWordSkip : Z) :
  pData <> 0 ->
  GDALSwapWords m pData nWordSize nWordCount nWordSkip
  = swap_loop (swap_word nWordSize) m pData nWordCount nWordSkip.
Proof.
  intros Hp. unfold GDALSwapWords.
  replace (pData =? 0) with false by (symmetry; apply Z.eqb_neq; exact Hp).
  rewrite andb_false_r.
  destruct (Z.eqb_spec nWordSize 1) as [->|N1].
  { symmetry. apply swap_loop_id. reflexivity. }
  destruct (Z.eqb_spec nWordSize 2) as [->|N2].
  { apply swap_loop_ext. apply CPL_SWAP16PTR_reverse. }
  destruct (Z.eqb_spec nWordSize 4) as [->|N4].
  { destruct (_ && _); apply swap_loop_ext;
      [apply swap32_aligned_reverse | apply CPL_SWAP32PTR_reverse]. }
  destruct (Z.eqb_spec nWordSize 8) as [->|N8].
  { destruct (_ && _); apply swap_loop_ext;
      [apply swap64_aligned_reverse | apply CPL_SWAP64PTR_reverse]. }
  symmetry. apply swap_loop_id. intros m0 p0. unfold swap_word.
  replace (nWordSize =? 2) with false by (symmetry; apply Z.eqb_neq; exact N2).
  replace (nWordSize =? 4) with false by (symmetry; apply Z.eqb_neq; exact N4).
  replace (nWordSize =? 8) with false by (symmetry; apply Z.eqb_neq; exact N8).
  reflexivity.
Qed.

Lemma swap_word_reverse (sz : Z) (m : mem) (p : Z) :
  sz = 1 \/ sz = 2 \/ sz = 4 \/ sz = 8 -> swap_word sz m p = reverse_word sz m p.
Proof.
  intros [ -> | [ -> | [ -> | -> ] ] ]; try reflexivity.
  unfold swap_word. cbn [Z.eqb Pos.eqb orb].
  apply functional_extensionality. intro x. unfold reverse_word.
  destruct ((p <=? x) && (x <? p + 1)) eqn:C; [|reflexivity].
  apply andb_true_iff in C. destruct C as [C1 C2].
  apply Z.leb_le in C1. apply Z.ltb_lt in C2. f_equal. lia.
Qed.

(** The state of the loop after [k] words: the pointer has advanced by
    [k] skips, the first [k] words are reversed and nothing else has
    changed. *)
Lemma swap_loop_words (sz : Z) (m : mem) (p skip : Z) (k : nat) :
  0 < sz <= skip ->
  let st := for_loop k 0
              (fun _ (st : Z * mem) => let '(q, m) := st in (q + skip, reverse_word sz m q))
              (p, m) in
  fst st = p + Z.of_nat k * skip
  /\ (forall i j, 0 <= i < Z.of_nat k -> 0 <= j < sz ->
        snd st (p + i * skip + j) = m (p + i * skip + (sz - 1 - j)))
  /\ (forall x, (forall i, 0 <= i < Z.of_nat k -> x < p + i * skip \/ p + i * skip + sz <= x) ->
        snd st x = m x).
Proof.
  intros Hsz. induction k as [|k IH].
  - cbn [for_loop fst snd]. split; [lia|]. split; [intros; lia | reflexivity].
  - replace (Datatypes.S k) with (k + 1)%nat by lia.
    cbv zeta. rewrite for_loop_app. cbv zeta in IH.
    destruct (for_loop k 0 _ (p, m)) as [q r]. cbn [fst snd] in IH.
    destruct IH as (Hq & Hw & Hf). subst q. cbn [for_loop fst snd].
    split; [lia|]. split.
    + intros i j Hi Hj. unfold reverse_word.
      destruct (Z.eq_dec i (Z.of_nat k)) as [->|Ni].
      * replace ((p + Z.of_nat k * skip <=? p + Z.of_nat k * skip + j)
                 && (p + Z.of_nat k * skip + j <? p + Z.of_nat k * skip + sz)) with true
          by (symmetry; apply andb_true_iff; split; [apply Z.leb_le | apply Z.ltb_lt]; lia).
        rewrite Hf.
        -- f_equal. lia.
        -- intros i Hi'. right.
           assert ((i + 1) * skip <= Z.of_nat k * skip)
             by (apply Z.mul_le_mono_nonneg_r; lia).
           lia.
      * assert ((i + 1) * skip <= Z.of_nat k * skip)
          by (apply Z.mul_le_mono_nonneg_r; lia).
        replace (p + i * skip + j <? p + Z.of_nat k * skip + sz) with true
          by (symmetry; apply Z.ltb_lt; lia).
        replace (p + Z.of_nat k * skip <=? p + i * skip + j) with false
          by (symmetry; apply Z.leb_gt; lia).
        cbn [andb]. apply Hw; lia.
    + intros x Hx. unfold reverse_word.
      destruct (Hx (Z.of_nat k)) as [L|L]; [lia| |].
      * replace (p + Z.of_nat k * skip <=? x) with false
          by (symmetry; apply Z.leb_gt; lia).
        cbn [andb]. apply Hf. intros i Hi. apply Hx. lia.
      * replace (x <? p + Z.of_nat k * skip + sz) with false
          by (symmetry; apply Z.ltb_ge; lia).
        rewrite andb_false_r. apply Hf. intros i Hi. apply Hx. lia.
Qed.
Lemma swap_loop_reversed (sz : Z) (m : mem) (p n skip : Z) :
  0 < sz <= skip ->
  (forall i j, 0 <= i < n -> 0 <= j < sz ->
     swap_loop (reverse_word sz) m p n skip (p + i * skip + j)
     = m (p + i * skip + (sz - 1 - j)))
  /\ (forall x, (forall i, 0 <= i < n -> x < p + i * skip \/ p + i * skip + sz <= x) ->
        swap_loop (reverse_word sz) m p n skip x = m x).
Proof.
  intro Hsz. destruct (@swap_loop_words sz m p skip (Z.to_nat n) Hsz) as (_ & Hw & Hf).
  unfold swap_loop. split.
  - intros i j Hi Hj. apply Hw; lia.
  - intros x Hx. apply Hf. intros i Hi. apply Hx. lia.
Qed.

Lemma GDALSwapWords_none (m : mem) (pData nWordSize nWordCount nWordSkip : Z) :
  nWordCount <= 0 -> GDALSwapWords m pData nWordSize nWordCount nWordSkip = m.
Proof.
  intro H. unfold GDALSwapWords, swap_loop.
  replace (Z.to_nat nWordCount) with 0%nat by lia. cbn [for_loop snd].
  repeat match goal with |- context [if ?c then _ else _] => destruct c end; reflexivity.
Qed.

(** X11: [GDALSwapWords] reverses the bytes of each word in place and
    touches nothing else: for words of 1, 2, 4 or 8 bytes that do not
    overlap, byte [j] of word [i] holds afterwards what byte
    [nWordSize - 1 - j] of the same word held, on the aligned path as on the
    bytewise path, and a byte outside the words is unchanged. *)
Theorem swap_reverses_each_word_in_place :
  forall (m : mem) (pData nWordSize nWordCount nWordSkip : Z),
    pData <> 0 ->
    nWordSize = 1 \/ nWordSize = 2 \/ nWordSize = 4 \/ nWordSize = 8 ->
    nWordSize <= nWordSkip ->
    (forall i j, 0 <= i < nWordCount -> 0 <= j < nWordSize ->
       GDALSwapWords m pData nWordSize nWordCount nWordSkip (pData + i * nWordSkip + j)
       = m (pData + i * nWordSkip + (nWordSize - 1 - j)))
    /\ (forall x,
          (forall i, 0 <= i < nWordCount ->
             x < pData + i * nWordSkip \/ pData + i * nWordSkip + nWordSize <= x) ->
          GDALSwapWords m pData nWordSize nWordCount nWordSkip x = m x).
Proof.
  intros m p sz n skip Hp Hsz Hskip.
  rewrite (GDALSwapWords_loop m sz n skip Hp).
  rewrite (@swap_loop_ext (swap_word sz) (reverse_word sz) m p n skip
             (fun m0 p0 => swap_word_reverse m0 p0 Hsz)).
  apply swap_loop_reversed. lia.
Qed.

(** X12: swapping twice restores the memory: for words that do not
    overlap, [GDALSwapWords] applied to its own result gives back the
    original bytes, whatever the word size, the alignment and the
    pointer. *)
Theorem swapping_twice_restores :
  forall (m : mem) (pData nWordSize nWordCount nWordSkip : Z),
    nWordSize <= nWordSkip ->
    GDALSwapWords (GDALSwapWords m pData nWordSize nWordCount nWordSkip)
                  pData nWordSize nWordCount nWordSkip = m.
Proof.
  intros m p sz n skip Hskip.
  destruct (Z_le_gt_dec n 0) as [Hn|Hn]; [rewrite !GDALSwapWords_none by exact Hn; reflexivity|].
  destruct (Z.eq_dec p 0) as [->|Hp].
  { unfold GDALSwapWords. replace (0 <? n) with true by (symmetry; apply Z.ltb_lt; lia).
    reflexivity. }
  rewrite !(fun m0 => GDALSwapWords_loop m0 sz n skip Hp).
  destruct ((sz =? 2) || (sz =? 4) || (sz =? 8)) eqn:S.
  2: { rewrite !swap_loop_id; [reflexivity | |]; intros m0 p0; unfold swap_word;
       rewrite S; reflexivity. }
  assert (Hsz : sz = 1 \/ sz = 2 \/ sz = 4 \/ sz = 8).
  { rewrite !orb_true_iff, !Z.eqb_eq in S. lia. }
  assert (Hpos : 0 < sz <= skip) by lia.
  rewrite !(fun m0 => @swap_loop_ext (swap_word sz) (reverse_word sz) m0 p n skip
                        (fun m1 p1 => swap_word_reverse m1 p1 Hsz)).
  apply functional_extensionality. intro x.
  set (r := swap_loop (reverse_word sz) m p n skip).
  destruct (@swap_loop_reversed sz m p n skip Hpos) as [Hw Hf]. fold r in Hw, Hf.
  destruct (@swap_loop_reversed sz r p n skip Hpos) as [Hw2 Hf2].
  set (i := (x - p) / skip). set (j := (x - p) mod skip).
  assert (E : x = p + i * skip + j).
  { subst i j. assert (D := Z.div_mod (x - p) skip). lia. }
  assert (Hj : 0 <= j < skip) by (subst j; apply Z.mod_pos_bound; lia).
  destruct (Z_lt_ge_dec i 0) as [Li|Li].
  { assert (i * skip <= -1 * skip) by (apply Z.mul_le_mono_nonneg_r; lia).
    rewrite Hf2, Hf; [reflexivity | |]; intros i' Hi'; left;
      assert (0 <= i' * skip) by (apply Z.mul_nonneg_nonneg; lia); lia. }
  destruct (Z_lt_ge_dec i n) as [Gi|Gi].
  2: { assert (n * skip <= i * skip) by (apply Z.mul_le_mono_nonneg_r; lia).
       rewrite Hf2, Hf; [reflexivity | |]; intros i' Hi'; right;
         assert ((i' + 1) * skip <= n * skip) by (apply Z.mul_le_mono_nonneg_r; lia);
         lia. }
  destruct (Z_lt_ge_dec j sz) as [Lj|Lj].
  - rewrite E. rewrite Hw2 by lia. rewrite Hw by lia. f_equal. lia.
  - rewrite Hf2, Hf; [reflexivity | |]; intros i' Hi';
      (destruct (Z_lt_ge_dec i' i) as [C|C];
       [ right; assert ((i' + 1) * skip <= i * skip)
                  by (apply Z.mul_le_mono_nonneg_r; lia); lia
       | destruct (Z.eq_dec i' i) as [->|C'];
         [ right; lia
         | left; assert ((i + 1) * skip <= i' * skip)
                   by (apply Z.mul_le_mono_nonneg_r; lia); lia ] ]).
Qed.
Lemma swap_loop_pointer (f : mem -> Z -> mem) (skip : Z) (k : nat) :
  forall (i p : Z) (m : mem),
    fst (for_loop k i
           (fun _ (st : Z * mem) => let '(q, m) := st in (q + skip, f m q)) (p, m))
    = p + Z.of_nat k * skip.
Proof.
  induction k as [|k IH]; intros i p m; cbn [for_loop fst]; [lia|].
  rewrite IH. lia.
Qed.

Lemma swap_loop_app (f : mem -> Z -> mem) (m : mem) (p n1 n2 skip : Z) :
  0 <= n1 -> 0 <= n2 ->
  swap_loop f m p (n1 + n2) skip
  = swap_loop f (swap_loop f m p n1 skip) (p + skip * n1) n2 skip.
Proof.
  intros H1 H2. unfold swap_loop.
  rewrite Z2Nat.inj_add by assumption. rewrite for_loop_app.
  assert (P := @swap_loop_pointer f skip (Z.to_nat n1) 0 p m).
  destruct (for_loop (Z.to_nat n1) 0 _ (p, m)) as [q r]. cbn [fst snd] in *.
  subst q. rewrite Z2Nat.id by exact H1.
  rewrite (for_loop_from_0 _ (0 + n1)).
  replace (p + n1 * skip) with (p + skip * n1) by lia. reflexivity.
Qed.

Lemma GDALSwapWordsEx_loop (nWordSize nWordSkip : Z) (fuel : nat) :
  0 <= nWordSkip ->
  forall (p n : Z) (m : mem),
    0 < p -> 0 <= n -> n <= Z.of_nat fuel * Z.shiftl 1 30 ->
    while_ctl fuel (fun st : Z * Z * mem => let '(_, n, _) := st in negb (n =? 0))
      (GDALSwapWordsEx_body nWordSize nWordSkip) (p, n, m)
    = Next (p + nWordSkip * n, 0, swap_loop (swap_word nWordSize) m p n nWordSkip).
Proof.
  intro Hskip. change (Z.shiftl 1 30) with 1073741824.
  induction fuel as [|fuel IH]; intros p n m Hp Hn Hf.
  - assert (n = 0) by lia. subst n. cbn [while_ctl Z.eqb negb].
    rewrite Z.mul_0_r, Z.add_0_r. reflexivity.
  - cbn [while_ctl]. destruct (Z.eqb_spec n 0) as [->|N]; cbn [negb].
    + rewrite Z.mul_0_r, Z.add_0_r. reflexivity.
    + unfold GDALSwapWordsEx_body. change (Z.shiftl 1 30) with 1073741824. cbv zeta.
      rewrite GDALSwapWords_loop by lia.
      destruct (Z.ltb_spec 1073741824 n) as [L|L].
      * rewrite IH by (try apply Z.add_pos_nonneg; try apply Z.mul_nonneg_nonneg; lia).
        f_equal. f_equal; [f_equal; lia|].
        rewrite <- swap_loop_app by lia. f_equal. lia.
      * replace (n - n) with 0 by lia.
        destruct fuel; cbn [while_ctl Z.eqb negb]; reflexivity.
Qed.

(** X13: the chunks of [GDALSwapWordsEx] are invisible: for a valid
    pointer and a forward skip, swapping [nWordCount] words in chunks of at
    most [1 << 30] words returns, with the memory that one pass of
    [GDALSwapWords] over all the words gives. *)
Theorem chunked_swap_is_one_swap :
  forall (m : mem) (pData nWordSize nWordCount nWordSkip : Z),
    0 < pData -> 0 <= nWordSkip -> 0 <= nWordCount ->
    GDALSwapWordsEx m pData nWordSize nWordCount nWordSkip
    = Some (GDALSwapWords m pData nWordSize nWordCount nWordSkip).
Proof.
  intros m p sz n skip Hp Hskip Hn. unfold GDALSwapWordsEx.
  rewrite GDALSwapWordsEx_loop; try assumption.
  - rewrite GDALSwapWords_loop by lia. reflexivity.
  - change (Z.shiftl 1 30) with 1073741824.
    rewrite Nat2Z.inj_succ, Z2Nat.id by (apply Z.div_pos; lia).
    Z.to_euclidean_division_equations; lia.
Qed.

(** C1, witness: a write on a band whose last flush failed. *)
Lemma flush_error_replayed_on_write_witness :
  exists s',
    IRasterIO cfg_sse2 ex_i2f32 ex_i2f64 ex_fconv
      (ex_band 4 4 2 2 None) (ex_args GF_Write 4 4) (ex_state ex_px 2 2 CE_Failure)
    = Some (CE_Failure, s')
    /\ eFlushBlockErr s' = CE_None
    /\ buf s' = buf (ex_state ex_px 2 2 CE_Failure)
    /\ blocks s' = blocks (ex_state ex_px 2 2 CE_Failure)
    /\ trace s' = trace (ex_state ex_px 2 2 CE_Failure).
Proof.
  apply (@flush_error_replayed_on_write cfg_sse2 ex_i2f32 ex_i2f64 ex_fconv
           (ex_band 4 4 2 2 None) (ex_args GF_Write 4 4) (ex_state ex_px 2 2 CE_Failure)).
  - reflexivity.
  - simpl. discriminate.
Defined.

(** C1, counterexample: a read on a band whose last flush failed succeeds,
    fetches blocks, fills the buffer and leaves the stored error in place. *)
Lemma flush_error_ignored_on_read :
  let r := IRasterIO cfg_sse2 ex_i2f32 ex_i2f64 ex_fconv
             (ex_band 4 4 2 2 None) (ex_args GF_Read 4 4)
             (ex_state ex_px 2 2 CE_Failure) in
  result_err r = Some CE_None
  /\ result_flush r = Some CE_Failure
  /\ result_trace r =
       Some [EvFetch 0 0 false true; EvDrop 0 0; EvFetch 1 0 false true; EvDrop 1 0;
             EvFetch 0 1 false true; EvDrop 0 1; EvFetch 1 1 false true; EvDrop 1 1]
  /\ result_bytes 4 r = Some [ex_px 0 0; ex_px 1 0; ex_px 2 0; ex_px 3 0].
Proof. vm_compute. repeat split; reflexivity. Qed.

(** C2, witness: the 2x2 blocks of the scenario. *)
Lemma decimated_read_samples_odd_pixels_witness :
  let r := IRasterIO cfg_sse2 ex_i2f32 ex_i2f64 ex_fconv
             (ex_band 4 4 2 2 None) (ex_args GF_Read 2 2)
             (ex_state ex_px 2 2 CE_None) in
  result_err r = Some CE_None
  /\ result_bytes 4 r = Some [ex_px 1 1; ex_px 3 1; ex_px 1 3; ex_px 3 3]
  /\ (forall i, 0 <= i < 2 ->
        trunc ((inject_Z i + (1 # 2)) * (4 # 2) + inject_Z 0 + EPS)%Q = 2 * i + 1).
Proof.
  apply (@decimated_read_samples_odd_pixels cfg_sse2 ex_i2f32 ex_i2f64 ex_fconv
           ex_px 2 2); lia.
Defined.

(** C2, counterexample: on the raster whose pixel (x, y) holds
    10 y + x + 1, the decimated read returns 12, 14, 32, 34 and not the
    pixels 1, 3, 21, 23 found at (0,0), (2,0), (0,2), (2,2). *)
Lemma decimated_read_not_even_pixels :
  let r := IRasterIO cfg_sse2 ex_i2f32 ex_i2f64 ex_fconv
             (ex_band 4 4 2 2 None) (ex_args GF_Read 2 2)
             (ex_state ex_px 2 2 CE_None) in
  option_map (map Z_of_byte) (result_bytes 4 r) = Some [12; 14; 32; 34]
  /\ map Z_of_byte [ex_px 0 0; ex_px 2 0; ex_px 0 2; ex_px 2 2] = [1; 3; 21; 23]
  /\ result_bytes 4 r <> Some [ex_px 0 0; ex_px 2 0; ex_px 0 2; ex_px 2 2].
Proof.
  vm_compute. repeat split; try reflexivity. intro H. discriminate H.
Qed.



(** C7: on a band whose dataset reports an interruption at every poll, the
    1:1 write, the 1:1 read and the decimated read stop at their first
    poll with [CE_Interrupted]; the resampled write (a 2x2 buffer written
    over the 4x4 window) never polls: it fetches and dirties every block
    and returns [CE_None]. *)
Lemma resampled_write_never_polls :
  let b := ex_band 4 4 2 2 (Some (fun _ => true)) in
  let run rw n := IRasterIO cfg_sse2 ex_i2f32 ex_i2f64 ex_fconv
                    b (ex_args rw n n) (ex_state ex_px 2 2 CE_None) in
  result_err (run GF_Write 4) = Some CE_Interrupted
  /\ result_trace (run GF_Write 4) = Some [EvPoll true]
  /\ result_err (run GF_Read 4) = Some CE_Interrupted
  /\ result_err (run GF_Read 2) = Some CE_Interrupted
  /\ result_err (run GF_Write 2) = Some CE_None
  /\ result_trace (run GF_Write 2) =
       Some [EvFetch 0 0 true true; EvDirty 0 0; EvDrop 0 0;
             EvFetch 1 0 true true; EvDirty 1 0; EvDrop 1 0;
             EvFetch 0 0 true true; EvDirty 0 0; EvDrop 0 0;
             EvFetch 1 0 true true; EvDirty 1 0; EvDrop 1 0;
             EvFetch 0 1 true true; EvDirty 0 1; EvDrop 0 1;
             EvFetch 1 1 true true; EvDirty 1 1; EvDrop 1 1;
             EvFetch 0 1 true true; EvDirty 0 1; EvDrop 0 1;
             EvFetch 1 1 true true; EvDirty 1 1; EvDrop 1 1]
  /\ CE_Interrupted <> CE_Failure.
Proof.
  vm_compute. repeat split; try reflexivity. intro H. discriminate H.
Qed.

(** C8, witness: a 1:1 write of the whole 4x4 raster. *)
Lemma one_to_one_cases_hold_one_lock_witness :
  exists e s',
    IRasterIO cfg_sse2 ex_i2f32 ex_i2f64 ex_fconv
      (ex_band 4 4 2 2 None) (ex_args GF_Write 4 4) (ex_state ex_px 2 2 CE_None)
    = Some (e, s')
    /\ locks_ok (trace s') /\ held (trace s') = 0.
Proof.
  apply (@one_to_one_cases_hold_one_lock cfg_sse2 ex_i2f32 ex_i2f64 ex_fconv
           (ex_band 4 4 2 2 None) (ex_args GF_Write 4 4) (ex_state ex_px 2 2 CE_None)).
  - reflexivity.
  - simpl. lia.
  - simpl. lia.
  - vm_compute. intro H. discriminate H.
  - exact I.
  - reflexivity.
Defined.

(** C4, witness: twenty bytes widened to 16-bit words by the SSE2 kernel. *)
Lemma fast_paths_agree_with_generic_fallback_witness :
  GDALCopyWords cfg_sse2 ex_i2f32 ex_i2f64 ex_fconv ex_src 0 GDT_Byte 1
                zero_mem 0 GDT_UInt16 2 20
  = GDALCopyWords_generic ex_i2f32 ex_i2f64 ex_fconv ex_src 0 GDT_Byte 1
                          zero_mem 0 GDT_UInt16 2 20.
Proof.
  apply (@fast_paths_agree_with_generic_fallback cfg_sse2 ex_i2f32 ex_i2f64 ex_fconv
           GDT_Byte GDT_UInt16 ex_src 0 1 zero_mem 0 2 20).
  - reflexivity.
  - reflexivity.
Defined.


(** C6, witness: a 16-bit word copied to a complex 32-bit integer. *)
Lemma complex_words_convert_real_part_witness :
  GDALCopyWords cfg_sse2 ex_i2f32 ex_i2f64 ex_fconv ex_src 0 GDT_Int16 2
                zero_mem 0 GDT_CInt32 8 1
  = store_bytes zero_mem 0
      (fit 4 (GDALCopyWord ex_i2f32 ex_i2f64 ex_fconv TInt16 TInt32 (load TInt16 ex_src 0))
       ++ fit 4 (c_int_to ex_i2f32 ex_i2f64 TInt32 0)).
Proof.
  apply (@complex_words_convert_real_part cfg_sse2 ex_i2f32 ex_i2f64 ex_fconv
           GDT_Int16 GDT_CInt32 ex_src 0 2 zero_mem 0 8).
  - reflexivity.
  - reflexivity.
  - reflexivity.
  - reflexivity.
Defined.



(* ------------------------------------------------------------------ *)
(** ** Bitwise copying *)

Lemma bit_mask_pow2 (n : Z) : bit_mask n = 2 ^ (7 - n mod 8).
Proof.
  unfold bit_mask. change 7 with (Z.ones 3) at 1. rewrite Z.land_ones by lia.
  change (2 ^ 3) with 8.
  assert (H := Z.mod_pos_bound n 8 ltac:(lia)).
  assert (C : n mod 8 = 0 \/ n mod 8 = 1 \/ n mod 8 = 2 \/ n mod 8 = 3
              \/ n mod 8 = 4 \/ n mod 8 = 5 \/ n mod 8 = 6 \/ n mod 8 = 7) by lia.
  destruct C as [C|[C|[C|[C|[C|[C|[C|C]]]]]]]; rewrite C; reflexivity.
Qed.

Lemma land_pow2_test (s k : Z) : 0 <= k -> (Z.land s (2 ^ k) =? 0) = negb (Z.testbit s k).
Proof.
  intro Hk.
  assert (E : Z.land s (2 ^ k) = if Z.testbit s k then 2 ^ k else 0).
  { apply Z.bits_inj'. intros j Hj. rewrite Z.land_spec, Z.pow2_bits_eqb by exact Hk.
    destruct (Z.eqb_spec k j) as [->|N].
    - destruct (Z.testbit s j); [rewrite Z.pow2_bits_true by exact Hj | rewrite Z.bits_0];
        reflexivity.
    - rewrite andb_false_r.
      destruct (Z.testbit s k); [rewrite Z.pow2_bits_false by lia | rewrite Z.bits_0];
        reflexivity. }
  rewrite E. destruct (Z.testbit s k); [|reflexivity].
  apply Z.eqb_neq. assert (0 < 2 ^ k) by (apply Z.pow_pos_nonneg; lia). lia.
Qed.

Lemma byte_bit_wrap (z j : Z) :
  0 <= j < 8 -> Z.testbit (Z_of_byte (byte_of_Z z)) j = Z.testbit z j.
Proof.
  intro Hj. rewrite Z_of_byte_of_Z. change 256 with (2 ^ 8).
  apply Z.mod_pow2_bits_low. lia.
Qed.

Lemma byte_ext (b1 b2 : byte) :
  (forall j, 0 <= j < 8 -> Z.testbit (Z_of_byte b1) j = Z.testbit (Z_of_byte b2) j) ->
  b1 = b2.
Proof.
  intro H. rewrite <- (byte_of_Z_of_byte b1), <- (byte_of_Z_of_byte b2). f_equal.
  apply Z.bits_inj'. intros j Hj. destruct (Z.ltb_spec j 8) as [L|L]; [apply H; lia|].
  assert (R1 := Z_of_byte_range b1). assert (R2 := Z_of_byte_range b2).
  rewrite <- (Z.mod_small (Z_of_byte b1) (2 ^ 8)), <- (Z.mod_small (Z_of_byte b2) (2 ^ 8))
    by (change (2 ^ 8) with 256; lia).
  rewrite !Z.mod_pow2_bits_high by lia. reflexivity.
Qed.

(** One bit copied: the destination bit takes the value of the source
    bit, every other bit of the memory keeps its value. *)
Lemma copy_bit_spec (pS pD so d_o : Z) (m : mem) :
  let '(so', do', m') := copy_bit pS pD (so, d_o, m) in
  so' = so + 1 /\ do' = d_o + 1
  /\ (forall a, a <> pD + d_o / 8 -> m' a = m a)
  /\ (forall n, get_bit m' pD n = if n =? d_o then get_bit m pS so else get_bit m pD n).
Proof.
  unfold copy_bit. cbv zeta. rewrite !Z.shiftr_div_pow2 by lia. change (2 ^ 3) with 8.
  split; [reflexivity|]. split; [reflexivity|]. split.
  - intros a Ha. destruct (Z.eqb_spec a (pD + d_o / 8)); [contradiction|reflexivity].
  - intro n. unfold get_bit.
    assert (Hn := Z.mod_pos_bound n 8 ltac:(lia)).
    assert (Hd := Z.mod_pos_bound d_o 8 ltac:(lia)).
    destruct (Z.eqb_spec (pD + n / 8) (pD + d_o / 8)) as [E|E].
    + rewrite byte_bit_wrap by lia. rewrite !bit_mask_pow2.
      rewrite land_pow2_test by (pose proof (Z.mod_pos_bound so 8 ltac:(lia)); lia).
      rewrite negb_involutive.
      destruct (Z.testbit (Z_of_byte (m (pS + so / 8))) (7 - so mod 8)) eqn:S.
      * rewrite Z.lor_spec, Z.pow2_bits_eqb by lia.
        destruct (Z.eqb_spec n d_o) as [->|N].
        -- rewrite Z.eqb_refl. apply orb_true_r.
        -- replace (7 - d_o mod 8 =? 7 - n mod 8) with false
             by (symmetry; apply Z.eqb_neq;
                 pose proof (Z.div_mod n 8 ltac:(lia)); pose proof (Z.div_mod d_o 8 ltac:(lia)); lia).
           rewrite orb_false_r, E. reflexivity.
      * rewrite Z.land_spec, Z.lnot_spec, Z.pow2_bits_eqb by lia.
        destruct (Z.eqb_spec n d_o) as [->|N].
        -- rewrite Z.eqb_refl. apply andb_false_r.
        -- replace (7 - d_o mod 8 =? 7 - n mod 8) with false
             by (symmetry; apply Z.eqb_neq;
                 pose proof (Z.div_mod n 8 ltac:(lia)); pose proof (Z.div_mod d_o 8 ltac:(lia)); lia).
           cbn [negb]. rewrite andb_true_r, E. reflexivity.
    + destruct (Z.eqb_spec n d_o) as [->|N]; [contradiction E; reflexivity | reflexivity].
Qed.

(** One word of [k] bits copied. *)
Lemma copy_bits_inner (pS pD so d_o : Z) (m : mem) (k : nat) :
  (forall l l', 0 <= l < Z.of_nat k -> 0 <= l' < Z.of_nat k ->
     pS + (so + l) / 8 <> pD + (d_o + l') / 8) ->
  let '(so', do', m') := for_loop k 0 (fun _ => copy_bit pS pD) (so, d_o, m) in
  so' = so + Z.of_nat k /\ do' = d_o + Z.of_nat k
  /\ (forall a, (forall l, 0 <= l < Z.of_nat k -> a <> pD + (d_o + l) / 8) -> m' a = m a)
  /\ (forall n, get_bit m' pD n
                = if (d_o <=? n) && (n <? d_o + Z.of_nat k)
                  then get_bit m pS (so + (n - d_o)) else get_bit m pD n).
Proof.
  induction k as [|k IH]; intro Hdis.
  - cbn [for_loop]. split; [lia|]. split; [lia|]. split; [reflexivity|].
    intro n. replace (n <? d_o + Z.of_nat 0) with (n <? d_o) by (f_equal; lia).
    destruct (Z.leb_spec d_o n), (Z.ltb_spec n d_o); cbn [andb]; try reflexivity; lia.
  - replace (Datatypes.S k) with (k + 1)%nat by lia. rewrite for_loop_app.
    assert (IH' := IH (fun l l' Hl Hl' => Hdis l l' ltac:(lia) ltac:(lia))). clear IH.
    destruct (for_loop k 0 _ (so, d_o, m)) as [[so1 do1] m1].
    destruct IH' as (-> & -> & HA & HB). cbn [for_loop].
    assert (St := copy_bit_spec pS pD (so + Z.of_nat k) (d_o + Z.of_nat k) m1).
    destruct (copy_bit pS pD (so + Z.of_nat k, d_o + Z.of_nat k, m1)) as [[so2 do2] m2].
    destruct St as (-> & -> & SA & SB).
    split; [lia|]. split; [lia|]. split.
    + intros a Ha. rewrite SA by (apply Ha; lia). apply HA. intros l Hl. apply Ha. lia.
    + intro n. rewrite SB. destruct (Z.eqb_spec n (d_o + Z.of_nat k)) as [->|N].
      * replace ((d_o <=? d_o + Z.of_nat k)
                 && (d_o + Z.of_nat k <? d_o + Z.of_nat (k + 1))) with true
          by (symmetry; apply andb_true_iff; split; [apply Z.leb_le | apply Z.ltb_lt]; lia).
        unfold get_bit. rewrite HA.
        -- replace (so + (d_o + Z.of_nat k - d_o)) with (so + Z.of_nat k) by lia. reflexivity.
        -- intros l Hl. apply Hdis; lia.
      * rewrite HB.
        destruct (Z.leb_spec d_o n), (Z.ltb_spec n (d_o + Z.of_nat k)),
          (Z.ltb_spec n (d_o + Z.of_nat (k + 1))); cbn [andb]; try reflexivity; lia.
Qed.

(** [i] words copied: the state of the outer loop. *)
Lemma copy_bits_outer (pS so sstep pD d_o dstep bc : Z) (m : mem) (N : nat) :
  0 <= bc <= dstep ->
  (forall i l i' l', 0 <= i < Z.of_nat N -> 0 <= l < bc ->
                     0 <= i' < Z.of_nat N -> 0 <= l' < bc ->
     pS + (so + i * sstep + l) / 8 <> pD + (d_o + i' * dstep + l') / 8) ->
  forall k, (k <= N)%nat ->
  let '(so', do', m') :=
    for_loop k 0 (fun _ => copy_bits_word pS sstep pD dstep bc) (so, d_o, m) in
  so' = so + Z.of_nat k * sstep /\ do' = d_o + Z.of_nat k * dstep
  /\ (forall a, (forall i l, 0 <= i < Z.of_nat k -> 0 <= l < bc ->
                   a <> pD + (d_o + i * dstep + l) / 8) -> m' a = m a)
  /\ (forall i l, 0 <= i < Z.of_nat k -> 0 <= l < bc ->
        get_bit m' pD (d_o + i * dstep + l) = get_bit m pS (so + i * sstep + l))
  /\ (forall n, (forall i, 0 <= i < Z.of_nat k ->
                   n < d_o + i * dstep \/ d_o + i * dstep + bc <= n) ->
        get_bit m' pD n = get_bit m pD n).
Proof.
  intros Hbc Hdis. induction k as [|k IH]; intro Hk.
  - cbn [for_loop]. split; [lia|]. split; [lia|]. split; [reflexivity|].
    split; [intros; lia | reflexivity].
  - replace (Datatypes.S k) with (k + 1)%nat by lia. rewrite for_loop_app.
    specialize (IH ltac:(lia)).
    destruct (for_loop k 0 _ (so, d_o, m)) as [[so1 do1] m1].
    destruct IH as (-> & -> & HA & HB1 & HB2). cbn [for_loop]. unfold copy_bits_word.
    assert (In := @copy_bits_inner pS pD (so + Z.of_nat k * sstep) (d_o + Z.of_nat k * dstep)
                    m1 (Z.to_nat bc)).
    rewrite Z2Nat.id in In by lia.
    specialize (In (fun l l' Hl Hl' =>
                      Hdis (Z.of_nat k) l (Z.of_nat k) l' ltac:(lia) Hl ltac:(lia) Hl')).
    destruct (for_loop (Z.to_nat bc) 0 _ _) as [[so2 do2] m2].
    destruct In as (-> & -> & SA & SB).
    split; [lia|]. split; [lia|]. split; [|split].
    + intros a Ha. rewrite SA by (intros l Hl; apply Ha; lia).
      apply HA. intros i l Hi Hl. apply Ha; lia.
    + intros i l Hi Hl. rewrite SB.
      destruct (Z.eq_dec i (Z.of_nat k)) as [->|Ni].
      * replace ((d_o + Z.of_nat k * dstep <=? d_o + Z.of_nat k * dstep + l)
                 && (d_o + Z.of_nat k * dstep + l <? d_o + Z.of_nat k * dstep + bc))
          with true
          by (symmetry; apply andb_true_iff; split; [apply Z.leb_le | apply Z.ltb_lt]; lia).
        unfold get_bit. rewrite HA.
        -- replace (so + Z.of_nat k * sstep
                    + (d_o + Z.of_nat k * dstep + l - (d_o + Z.of_nat k * dstep)))
             with (so + Z.of_nat k * sstep + l) by lia.
           reflexivity.
        -- intros i' l' Hi' Hl'. apply Hdis; lia.
      * assert ((i + 1) * dstep <= Z.of_nat k * dstep)
          by (apply Z.mul_le_mono_nonneg_r; lia).
        replace (d_o + Z.of_nat k * dstep <=? d_o + i * dstep + l) with false
          by (symmetry; apply Z.leb_gt; lia).
        cbn [andb]. apply HB1; lia.
    + intros n Hn. rewrite SB.
      destruct (Hn (Z.of_nat k) ltac:(lia)) as [L|L].
      * replace (d_o + Z.of_nat k * dstep <=? n) with false
          by (symmetry; apply Z.leb_gt; lia).
        cbn [andb]. apply HB2. intros i Hi. apply Hn. lia.
      * replace (n <? d_o + Z.of_nat k * dstep + bc) with false
          by (symmetry; apply Z.ltb_ge; lia).
        rewrite andb_false_r. apply HB2. intros i Hi. apply Hn. lia.
Qed.

Lemma GDALCopyBits_bits :
  forall (m : mem) (pabySrcData nSrcOffset nSrcStep : Z)
         (pabyDstData nDstOffset nDstStep nBitCount nStepCount : Z),
    pabySrcData <> 0 ->
    0 <= nBitCount <= nDstStep ->
    (forall i l i' l', 0 <= i < nStepCount -> 0 <= l < nBitCount ->
                       0 <= i' < nStepCount -> 0 <= l' < nBitCount ->
       pabySrcData + (nSrcOffset + i * nSrcStep + l) / 8
       <> pabyDstData + (nDstOffset + i' * nDstStep + l') / 8) ->
    (forall i l, 0 <= i < nStepCount -> 0 <= l < nBitCount ->
       get_bit (GDALCopyBits m pabySrcData nSrcOffset nSrcStep
                             pabyDstData nDstOffset nDstStep nBitCount nStepCount)
               pabyDstData (nDstOffset + i * nDstStep + l)
       = get_bit m pabySrcData (nSrcOffset + i * nSrcStep + l))
    /\ (forall n,
          (forall i, 0 <= i < nStepCount ->
             n < nDstOffset + i * nDstStep \/ nDstOffset + i * nDstStep + nBitCount <= n) ->
          get_bit (GDALCopyBits m pabySrcData nSrcOffset nSrcStep
                                pabyDstData nDstOffset nDstStep nBitCount nStepCount)
                  pabyDstData n
          = get_bit m pabyDstData n).
Proof.
  intros m pS so sstep pD d_o dstep bc N Hp Hbc Hdis. unfold GDALCopyBits.
  replace (pS =? 0) with false by (symmetry; apply Z.eqb_neq; exact Hp).
  assert (O := @copy_bits_outer pS so sstep pD d_o dstep bc m (Z.to_nat N) Hbc
                 (fun i l i' l' Hi Hl Hi' Hl' =>
                    Hdis i l i' l' ltac:(lia) Hl ltac:(lia) Hl')
                 (Z.to_nat N) (le_n _)).
  destruct (for_loop (Z.to_nat N) 0 _ _) as [[so1 do1] m1]. cbn [snd].
  destruct O as (_ & _ & _ & HB1 & HB2). split.
  - intros i l Hi Hl. apply HB1; lia.
  - intros n Hn. apply HB2. intros i Hi. apply Hn. lia.
Qed.


(** X14: [GDALCopyBits] moves bits, most significant bit of a byte
    first, whatever the alignment: when the destination words do not
    overlap and no source byte is a destination byte, bit [l] of
    destination word [i] holds afterwards bit [l] of source word [i], and
    every other bit of the memory keeps its value. *)
Theorem copied_bits_arrive_and_no_other_bit_changes :
  forall (m : mem) (pabySrcData nSrcOffset nSrcStep : Z)
         (pabyDstData nDstOffset nDstStep nBitCount nStepCount : Z),
    pabySrcData <> 0 ->
    0 <= nBitCount <= nDstStep ->
    (forall i l i' l', 0 <= i < nStepCount -> 0 <= l < nBitCount ->
                       0 <= i' < nStepCount -> 0 <= l' < nBitCount ->
       pabySrcData + (nSrcOffset + i * nSrcStep + l) / 8
       <> pabyDstData + (nDstOffset + i' * nDstStep + l') / 8) ->
    (forall i l, 0 <= i < nStepCount -> 0 <= l < nBitCount ->
       get_bit (GDALCopyBits m pabySrcData nSrcOffset nSrcStep
                             pabyDstData nDstOffset nDstStep nBitCount nStepCount)
               pabyDstData (nDstOffset + i * nDstStep + l)
       = get_bit m pabySrcData (nSrcOffset + i * nSrcStep + l))
    /\ (forall n,
          (forall i, 0 <= i < nStepCount ->
             n < nDstOffset + i * nDstStep \/ nDstOffset + i * nDstStep + nBitCount <= n) ->
          get_bit (GDALCopyBits m pabySrcData nSrcOffset nSrcStep
                                pabyDstData nDstOffset nDstStep nBitCount nStepCount)
                  pabyDstData n
          = get_bit m pabyDstData n).
Proof. exact GDALCopyBits_bits. Qed.

(** X15: on byte boundaries [GDALCopyBits] copies bytes: with offsets and
    steps that are multiples of 8 bits and words of 8 bits, destination
    byte [i] holds afterwards source byte [i], as a copy of bytes by
    [GDALCopyWords] would give. *)
Theorem byte_aligned_bit_copy_copies_bytes :
  forall (m : mem) (pabySrcData nSrcByte nSrcSkip : Z)
         (pabyDstData nDstByte nDstSkip nStepCount : Z),
    pabySrcData <> 0 ->
    1 <= nDstSkip ->
    (forall i i', 0 <= i < nStepCount -> 0 <= i' < nStepCount ->
       pabySrcData + nSrcByte + i * nSrcSkip <> pabyDstData + nDstByte + i' * nDstSkip) ->
    forall i, 0 <= i < nStepCount ->
      GDALCopyBits m pabySrcData (8 * nSrcByte) (8 * nSrcSkip)
                   pabyDstData (8 * nDstByte) (8 * nDstSkip) 8 nStepCount
                   (pabyDstData + nDstByte + i * nDstSkip)
      = m (pabySrcData + nSrcByte + i * nSrcSkip).
Proof.
  intros m pS sb ss pD db ds N Hp Hds Hdis i Hi.
  destruct (@GDALCopyBits_bits m pS (8 * sb) (8 * ss) pD (8 * db) (8 * ds) 8 N Hp
              ltac:(lia)) as [HB _].
  { intros i0 l i' l' Hi0 Hl Hi' Hl'.
    replace ((8 * sb + i0 * (8 * ss) + l) / 8) with (sb + i0 * ss)
      by (Z.to_euclidean_division_equations; lia).
    replace ((8 * db + i' * (8 * ds) + l') / 8) with (db + i' * ds)
      by (Z.to_euclidean_division_equations; lia).
    specialize (Hdis i0 i' Hi0 Hi'). lia. }
  apply byte_ext. intros j Hj.
  specialize (HB i (7 - j) Hi ltac:(lia)). unfold get_bit in HB.
  replace ((8 * db + i * (8 * ds) + (7 - j)) / 8) with (db + i * ds) in HB
    by (Z.to_euclidean_division_equations; lia).
  replace ((8 * sb + i * (8 * ss) + (7 - j)) / 8) with (sb + i * ss) in HB
    by (Z.to_euclidean_division_equations; lia).
  replace (7 - (8 * db + i * (8 * ds) + (7 - j)) mod 8) with j in HB
    by (Z.to_euclidean_division_equations; lia).
  replace (7 - (8 * sb + i * (8 * ss) + (7 - j)) mod 8) with j in HB
    by (Z.to_euclidean_division_equations; lia).
  rewrite !Z.add_assoc in HB. exact HB.
Qed.


(* ------------------------------------------------------------------ *)
(** ** Requests recast on an overview *)

Lemma trunc_nonneg (q : Q) : (0 <= q)%Q -> 0 <= trunc q.
Proof.
  intro H. unfold trunc. apply Z.quot_pos; [|lia].
  unfold Qle in H. cbn in H. lia.
Qed.

Lemma rescaled_nonneg (x n d : Z) :
  0 <= x -> 0 < n -> 0 < d ->
  0 <= trunc (inject_Z x / (inject_Z n / inject_Z d) + (1 # 2))%Q.
Proof.
  intros Hx Hn Hd. apply trunc_nonneg.
  apply (Qle_trans _ (0 + 0)%Q); [discriminate|].
  apply Qplus_le_compat; [|discriminate].
  apply Qmult_le_0_compat.
  - change 0%Q with (inject_Z 0). rewrite <- Zle_Qle. exact Hx.
  - apply Qinv_le_0_compat. apply Qmult_le_0_compat.
    + change 0%Q with (inject_Z 0). rewrite <- Zle_Qle. lia.
    + apply Qinv_le_0_compat. change 0%Q with (inject_Z 0). rewrite <- Zle_Qle. lia.
Qed.

(** The two outcomes of the selection. *)
Lemma best_overview_cases (b : Band) (w : Window) (nBufXSize nBufYSize : Z)
    (extra : option GDALRasterIOExtraArg) :
  0 < nRasterXSize b -> 0 < nRasterYSize b ->
  (forall o, In (Some o) (overviews b) -> 0 < ovr_XSize o /\ 0 < ovr_YSize o) ->
  let r := desired_resolution (wXSize w) (wYSize w) nBufXSize nBufYSize in
  let '(lvl, w', e') := GDALBandGetBestOverviewLevel2 b w nBufXSize nBufYSize extra in
  (lvl = -1 /\ w' = w /\ e' = extra
   /\ forall j o, nth_error (overviews b) j = Some (Some o) -> qualifies b r o = false)
  \/ (exists o,
        0 <= lvl
        /\ nth_error (overviews b) (Z.to_nat lvl) = Some (Some o)
        /\ qualifies b r o = true
        /\ (0 <= wXOff w -> 0 <= wYOff w -> window_inside o w')
        /\ (e' = None <-> extra = None)).
Proof.
  intros Hx Hy Hov r.
  assert (Hinv := @overview_scan_inv b r (overviews b) [] (None, 0%Q, -1)).
  cbn [List.length Z.of_nat app] in Hinv.
  assert (Hpos : forall o, In (Some o) (overviews b) -> (0 < overview_resolution b o)%Q).
  { intros o Ho. destruct (Hov o Ho). apply overview_resolution_pos; assumption. }
  specialize (Hinv Hpos).
  assert (H0 : scan_inv b r [] (None, 0%Q, -1)).
  { left. repeat split. intros j o Hj. destruct j; discriminate. }
  specialize (Hinv H0). clear H0.
  unfold GDALBandGetBestOverviewLevel2. fold r.
  destruct (overview_scan b r 0 (overviews b) (None, 0%Q, -1)) as [[best bres] l].
  destruct Hinv as [(Hb & Hl & _ & Hn) | (o & Hb & Hl & Hnth & _ & Hq & Hmax)].
  - subst best. cbv beta iota. left. repeat split; assumption.
  - subst best. cbv beta iota.
    replace (l <? 0) with false by (symmetry; apply Z.ltb_ge; exact Hl).
    cbv beta iota zeta. right.
    exists o. split; [exact Hl|]. split; [exact Hnth|]. split; [exact Hq|].
    destruct (Hov o (nth_error_In _ _ Hnth)) as [Hox Hoy].
    split.
    + intros Hwx Hwy. unfold window_inside. cbn [wXOff wYOff wXSize wYSize].
      assert (Tx := @rescaled_nonneg (wXOff w) (nRasterXSize b) (ovr_XSize o) Hwx Hx Hox).
      assert (Ty := @rescaled_nonneg (wYOff w) (nRasterYSize b) (ovr_YSize o) Hwy Hy Hoy).
      repeat match goal with
             | |- context [if ?c <? ?d then _ else _] => destruct (Z.ltb_spec c d)
             end; lia.
    + destruct extra as [e|]; [destruct (bFloatingPointWindowValidity e)|];
        split; intro H; try discriminate H; reflexivity.
Qed.

(** X16: the window recast on the selected overview lies inside it: for
    a request with non-negative offsets on a band whose overviews have
    positive sizes, when [GDALBandGetBestOverviewLevel2] returns a level
    the new window starts inside the overview, holds at least one pixel on
    each axis and does not reach beyond the overview; when it returns -1
    the window and the extra arguments are the caller's. *)
Theorem recast_window_lies_inside_the_overview :
  forall (b : Band) (w : Window) (nBufXSize nBufYSize : Z)
         (extra : option GDALRasterIOExtraArg),
    0 < nRasterXSize b -> 0 < nRasterYSize b ->
    (forall o, In (Some o) (overviews b) -> 0 < ovr_XSize o /\ 0 < ovr_YSize o) ->
    0 <= wXOff w -> 0 <= wYOff w ->
    let '(lvl, w', e') := GDALBandGetBestOverviewLevel2 b w nBufXSize nBufYSize extra in
    (lvl = -1 /\ w' = w /\ e' = extra)
    \/ (exists o, 0 <= lvl
                  /\ nth_error (overviews b) (Z.to_nat lvl) = Some (Some o)
                  /\ window_inside o w').
Proof.
  intros b w bx by_ extra Hx Hy Hov Hwx Hwy.
  assert (C := @best_overview_cases b w bx by_ extra Hx Hy Hov). cbv zeta in C.
  destruct (GDALBandGetBestOverviewLevel2 b w bx by_ extra) as [[lvl w'] e'].
  destruct C as [(Hl & Hw & He & _) | (o & Hl & Hnth & _ & Hin & _)].
  - left. repeat split; assumption.
  - right. exists o. repeat split; try assumption; apply (Hin Hwx Hwy).
Qed.


(* ------------------------------------------------------------------ *)
(** ** Swath sizing *)

Lemma to_int_range (x : Z) : - 2 ^ 31 <= to_int x < 2 ^ 31.
Proof.
  unfold to_int. assert (H := Z.mod_pos_bound (x + 2 ^ 31) (2 ^ 32) ltac:(lia)). lia.
Qed.

Lemma to_int_id (x : Z) : - 2 ^ 31 <= x < 2 ^ 31 -> to_int x = x.
Proof. intro H. unfold to_int. rewrite Z.mod_small by lia. lia. Qed.

Lemma swath_target_range (p : SwathBands) (nPixelSize : Z) (bDstIsCompressed : bool) :
  1000000 <= swath_target p nPixelSize bDstIsCompressed <= INT_MAX.
Proof.
  unfold swath_target. cbv zeta.
  match goal with |- context [if ?t <? 1000000 then _ else _] =>
    assert (R : - 2 ^ 31 <= t < 2 ^ 31); [| generalize dependent t; intros t0 R ] end.
  - destruct (sw_GDAL_SWATH_SIZE p) as [v|]; [apply to_int_range|].
    destruct (_ <? to_int _); apply to_int_range.
  - unfold INT_MAX. change (2 ^ 31) with 2147483648 in R.
    destruct (Z.ltb_spec t0 1000000); lia.
Qed.

Lemma swath_target_option (p : SwathBands) (nPixelSize : Z) (bDstIsCompressed : bool)
    (v : Z) :
  sw_GDAL_SWATH_SIZE p = Some v -> 1000000 <= v <= INT_MAX ->
  swath_target p nPixelSize bDstIsCompressed = v.
Proof.
  intros E Hv. unfold swath_target. rewrite E. cbv zeta. unfold INT_MAX in *.
  rewrite Z.min_r by lia. rewrite to_int_id by (change (2 ^ 31) with 2147483648; lia).
  destruct (Z.ltb_spec v 1000000); lia.
Qed.

Lemma ROUND_TO_range (x y : Z) : 0 <= x -> 0 < y -> 0 <= ROUND_TO x y <= x.
Proof.
  intros Hx Hy. unfold ROUND_TO. split.
  - apply Z.mul_nonneg_nonneg; [apply Z.quot_pos|]; lia.
  - rewrite Z.mul_comm. apply Z.mul_quot_le; lia.
Qed.

Lemma ROUND_TO_block (x y : Z) : 0 < y <= x -> y <= ROUND_TO x y.
Proof.
  intros H. unfold ROUND_TO.
  assert (Q1 : 0 < Z.quot x y) by (apply Z.quot_str_pos; lia).
  replace y with (1 * y) at 1 by lia. apply Z.mul_le_mono_nonneg_r; lia.
Qed.

Lemma ROUND_TO_multiple (x y : Z) : 0 < y -> Z.rem (ROUND_TO x y) y = 0.
Proof. intro Hy. unfold ROUND_TO. apply Z.rem_mul. lia. Qed.

Lemma rem_multiple (a b q : Z) : b <> 0 -> Z.rem a b = 0 -> Z.rem (q * a) b = 0.
Proof.
  intros Hb H. assert (E := Z.quot_rem' a b). rewrite H, Z.add_0_r in E.
  rewrite E. replace (q * (b * Z.quot a b)) with (q * Z.quot a b * b) by ring.
  apply Z.rem_mul. exact Hb.
Qed.

Lemma partial_width_range (T d blk nXSize : Z) :
  0 <= T -> 0 < d -> 0 < blk -> 0 < nXSize ->
  1 <= partial_width T d blk nXSize <= nXSize.
Proof.
  intros HT Hd Hb Hx. unfold partial_width. cbv zeta.
  assert (Q0 : 0 <= Z.quot T d) by (apply Z.quot_pos; lia).
  assert (R := ROUND_TO_range Q0 Hb).
  destruct (Z.eqb_spec (ROUND_TO (Z.quot T d) blk) 0) as [E|E];
    match goal with |- context [if ?a <? ?c then _ else _] => destruct (Z.ltb_spec a c) end;
    lia.
Qed.

Lemma swath_tiled_range (p : SwathBands) (nPixelSize T : Z) :
  0 < sw_nXSize p -> 0 < sw_nBlockXSize p -> 0 < sw_nBlockYSize p ->
  0 < sw_nSrcBlockXSize p -> 0 < sw_nSrcBlockYSize p ->
  0 < nPixelSize -> 0 <= T ->
  let '(c, l) := swath_tiled p nPixelSize T in
  1 <= c <= sw_nXSize p /\ 1 <= l.
Proof.
  intros Hx Hbx Hby Hsx Hsy Hps HT. unfold swath_tiled. cbv zeta.
  destruct (_ && _); [|lia].
  destruct (_ <=? T); [|lia].
  match goal with |- context [partial_width ?t ?d ?blk ?n] =>
    assert (W := @partial_width_range t d blk n HT
                   ltac:(apply Z.mul_pos_pos; lia) ltac:(lia) Hx);
    destruct (T <? partial_width t d blk n * _ * _) end; lia.
Qed.

Lemma swath_lines_range (p : SwathBands) (nPixelSize T c l : Z) :
  0 < sw_nYSize p -> 0 < sw_nBlockYSize p -> 0 < sw_nSrcBlockYSize p ->
  0 < nPixelSize -> 0 <= T <= INT_MAX -> 1 <= c -> 1 <= l ->
  1 <= swath_lines p nPixelSize T c l
  /\ (swath_lines p nPixelSize T c l = 1
      \/ c * swath_lines p nPixelSize T c l * nPixelSize <= T).
Proof.
  intros Hy Hby Hsy Hps HT Hc Hl. unfold swath_lines. cbv zeta.
  assert (Hm : 0 < c * nPixelSize) by (apply Z.mul_pos_pos; lia).
  set (mem := c * nPixelSize) in *.
  assert (Q0 : 0 <= Z.quot T mem) by (apply Z.quot_pos; lia).
  assert (Q1 : mem * Z.quot T mem <= T) by (apply Z.mul_quot_le; lia).
  assert (Q2 : Z.quot T mem <= T).
  { rewrite <- (Z.quot_1_r T) at 2. apply Z.quot_le_compat_l; lia. }
  assert (I : to_int (Z.quot T mem) = Z.quot T mem).
  { apply to_int_id. unfold INT_MAX in HT. change (2 ^ 31) with 2147483648. lia. }
  rewrite I.
  assert (B : forall x, c * x * nPixelSize = mem * x) by (intro x; subst mem; ring).
  destruct (Z.ltb_spec T (mem * l)) as [S|S].
  - destruct (Z.eqb_spec (Z.quot T mem) 0) as [E|E]; [lia|].
    split; [lia|]. right. rewrite B. exact Q1.
  - destruct ((l =? 1) || (mem * l <? Z.quot T 10)).
    + set (l0 := Z.min (sw_nYSize p) (Z.max 1 (Z.quot T mem))).
      assert (L0 : 1 <= l0) by (subst l0; lia).
      assert (B0 : l0 = 1 \/ mem * l0 <= T).
      { destruct (Z_le_gt_dec (Z.quot T mem) 1) as [C|C].
        - left. subst l0. lia.
        - right. apply Z.le_trans with (mem * Z.quot T mem); [|exact Q1].
          apply Z.mul_le_mono_nonneg_l; [lia | subst l0; lia]. }
      clearbody l0.
      destruct (_ && _) eqn:C.
      * rewrite !andb_true_iff in C. destruct C as [[[_ C] _] _]. apply Z.ltb_lt in C.
        assert (R := @ROUND_TO_range l0 (Z.max (sw_nBlockYSize p) (sw_nSrcBlockYSize p))
                       ltac:(lia) ltac:(lia)).
        assert (R' := @ROUND_TO_block l0 (Z.max (sw_nBlockYSize p) (sw_nSrcBlockYSize p))
                        ltac:(lia)).
        split; [lia|]. right. rewrite B. destruct B0 as [B0|B0]; [lia|].
        apply Z.le_trans with (mem * l0); [|exact B0].
        apply Z.mul_le_mono_nonneg_l; lia.
      * split; [lia|]. rewrite B. exact B0.
    + split; [lia|]. right. rewrite B. exact S.
Qed.

(** The swath before the adjustments for compression. *)
Lemma swath_stages (p : SwathBands) (nBandCount : Z) (bDstIsCompressed bInterleave : bool) :
  swath_valid p nBandCount bInterleave ->
  let ps := swath_pixel_size p nBandCount bInterleave in
  let T := swath_target p ps bDstIsCompressed in
  let '(c, l) := swath_tiled p ps T in
  let l' := swath_lines p ps T c l in
  1 <= c <= sw_nXSize p /\ 1 <= l' /\ (l' = 1 \/ c * l' * ps <= T).
Proof.
  intros (Hx & Hy & Hsx & Hsy & Hbx & Hby & Hps). cbv zeta.
  assert (HT := swath_target_range p (swath_pixel_size p nBandCount bInterleave)
                  bDstIsCompressed).
  assert (Tl := @swath_tiled_range p (swath_pixel_size p nBandCount bInterleave)
                  (swath_target p (swath_pixel_size p nBandCount bInterleave) bDstIsCompressed)
                  Hx Hbx Hby Hsx Hsy Hps ltac:(lia)).
  destruct (swath_tiled p _ _) as [c l]. destruct Tl as [Hc Hl].
  assert (L := @swath_lines_range p (swath_pixel_size p nBandCount bInterleave)
                 (swath_target p (swath_pixel_size p nBandCount bInterleave) bDstIsCompressed)
                 c l Hy Hby Hsy Hps ltac:(lia) ltac:(lia) Hl).
  destruct L as [L1 L2]. split; [exact Hc|]. split; assumption.
Qed.

(** X18: the swath is never empty and never wider than the raster: for
    positive raster, block and pixel sizes, whatever the configuration,
    the cache size and the compression of either side,
    [1 <= nSwathCols <= nXSize] and [1 <= nSwathLines]. *)
Theorem swath_is_not_empty_and_not_wider_than_the_raster :
  forall (p : SwathBands) (nBandCount : Z) (bDstIsCompressed bInterleave : bool),
    swath_valid p nBandCount bInterleave ->
    let '(nSwathCols, nSwathLines) :=
      GDALCopyWholeRasterGetSwathSize p nBandCount bDstIsCompressed bInterleave in
    1 <= nSwathCols <= sw_nXSize p /\ 1 <= nSwathLines.
Proof.
  intros p n comp inter V.
  assert (S := @swath_stages p n comp inter V). cbv zeta in S.
  destruct V as (Hx & Hy & Hsx & Hsy & Hbx & Hby & Hps).
  assert (HT := swath_target_range p (swath_pixel_size p n inter) comp).
  unfold GDALCopyWholeRasterGetSwathSize. cbv zeta.
  destruct (swath_tiled p _ _) as [c l]. destruct S as (Hc & Hl & _).
  set (l' := swath_lines p _ _ c l) in *. clearbody l'.
  assert (W1 := @partial_width_range
                  (swath_target p (swath_pixel_size p n inter) comp)
                  (sw_nSrcBlockXSize p * swath_pixel_size p n inter)
                  (sw_nSrcBlockXSize p) (sw_nXSize p)
                  ltac:(lia) ltac:(apply Z.mul_pos_pos; lia) Hsx Hx).
  assert (W2 := @partial_width_range
                  (swath_target p (swath_pixel_size p n inter) comp)
                  (sw_nBlockYSize p * swath_pixel_size p n inter)
                  (sw_nBlockXSize p) (sw_nXSize p)
                  ltac:(lia) ltac:(apply Z.mul_pos_pos; lia) Hbx Hx).
  destruct (swath_by_source_blocks p comp).
  - destruct (Z.ltb_spec l' (sw_nSrcBlockYSize p)) as [C|C]; [lia|].
    destruct (negb _); [|lia].
    assert (R := @ROUND_TO_block l' (sw_nSrcBlockYSize p) ltac:(lia)). lia.
  - destruct comp; [|lia].
    destruct (Z.ltb_spec l' (sw_nBlockYSize p)) as [C|C]; [lia|].
    destruct (negb _); [|lia].
    assert (R := @ROUND_TO_block l' (sw_nBlockYSize p) ltac:(lia)). lia.
Qed.

(** X19: a compressed destination is written by whole rows of blocks:
    when the destination is compressed, the number of lines of the swath
    is a multiple of the block height of the destination, so that no block
    is compressed twice. *)
Theorem compressed_destination_gets_whole_block_rows :
  forall (p : SwathBands) (nBandCount : Z) (bInterleave : bool),
    swath_valid p nBandCount bInterleave ->
    Z.rem (snd (GDALCopyWholeRasterGetSwathSize p nBandCount true bInterleave))
          (sw_nBlockYSize p) = 0.
Proof.
  intros p n inter V.
  destruct V as (Hx & Hy & Hsx & Hsy & Hbx & Hby & Hps).
  unfold GDALCopyWholeRasterGetSwathSize. cbv zeta.
  destruct (swath_tiled p _ _) as [c l].
  set (l' := swath_lines p _ _ c l). clearbody l'.
  destruct (swath_by_source_blocks p true) eqn:J.
  - unfold swath_by_source_blocks in J. cbn [negb orb] in J.
    rewrite !andb_true_iff in J. destruct J as (_ & _ & D).
    unfold IS_DIVIDER_OF in D. apply Z.eqb_eq in D.
    destruct (Z.ltb_spec l' (sw_nSrcBlockYSize p)) as [C|C]; cbn [snd]; [exact D|].
    destruct (Z.eqb_spec (Z.rem l' (sw_nSrcBlockYSize p)) 0) as [E|E]; cbn [negb snd].
    + assert (Q := Z.quot_rem' l' (sw_nSrcBlockYSize p)). rewrite E, Z.add_0_r in Q.
      rewrite Q, Z.mul_comm. apply rem_multiple; [lia | exact D].
    + unfold ROUND_TO. apply rem_multiple; [lia | exact D].
  - destruct (Z.ltb_spec l' (sw_nBlockYSize p)) as [C|C]; cbn [snd].
    + apply Z.rem_same. lia.
    + destruct (Z.eqb_spec (Z.rem l' (sw_nBlockYSize p)) 0) as [E|E]; cbn [negb snd];
        [exact E | apply ROUND_TO_multiple; lia].
Qed.

(** X20: the swath fits the budget: for an uncompressed destination and
    a source that is not JPEG2000, with the configuration option
    [GDAL_SWATH_SIZE] set to [v] bytes (at least 1000000), the swath buffer
    of [nSwathCols * nSwathLines] pixels takes at most [v] bytes, unless
    the swath is a single line. *)
Theorem swath_fits_the_budget :
  forall (p : SwathBands) (nBandCount : Z) (bInterleave : bool) (v : Z),
    swath_valid p nBandCount bInterleave ->
    sw_src_JPEG2000 p = false ->
    sw_GDAL_SWATH_SIZE p = Some v -> 1000000 <= v <= INT_MAX ->
    let '(nSwathCols, nSwathLines) :=
      GDALCopyWholeRasterGetSwathSize p nBandCount false bInterleave in
    nSwathLines = 1
    \/ nSwathCols * nSwathLines * swath_pixel_size p nBandCount bInterleave <= v.
Proof.
  intros p n inter v V J E Hv.
  assert (S := @swath_stages p n false inter V). cbv zeta in S.
  unfold GDALCopyWholeRasterGetSwathSize. cbv zeta.
  rewrite (@swath_target_option p (swath_pixel_size p n inter) false v E Hv) in *.
  destruct (swath_tiled p _ _) as [c l]. destruct S as (_ & _ & B).
  unfold swath_by_source_blocks. rewrite J. cbn [andb]. exact B.
Qed.

(* ------------------------------------------------------------------ *)
(** ** What a 1:1 read transfers *)

Lemma load_bytes_ext (m1 m2 : mem) (q : Z) (n : nat) :
  (forall k, 0 <= k < Z.of_nat n -> m1 (q + k) = m2 (q + k)) ->
  load_bytes m1 q n = load_bytes m2 q n.
Proof.
  intro H. unfold load_bytes. apply map_ext_in. intros k Hk.
  apply in_seq in Hk. apply H. lia.
Qed.

Lemma load_bytes_memcpy_in (d : mem) (pD : Z) (src : mem) (pS len q : Z) (n : nat) :
  pD <= q -> q + Z.of_nat n <= pD + len ->
  load_bytes (memcpy d pD src pS len) q n = load_bytes src (pS + (q - pD)) n.
Proof.
  intros H1 H2. unfold load_bytes. apply map_ext_in. intros k Hk.
  apply in_seq in Hk. unfold memcpy.
  replace ((pD <=? q + Z.of_nat k) && (q + Z.of_nat k <? pD + len)) with true
    by (symmetry; apply andb_true_iff; split; [apply Z.leb_le | apply Z.ltb_lt]; lia).
  f_equal. lia.
Qed.

Lemma while_ctl_next (S : Type) (P : S -> Prop) (R : CPLErr -> IOState -> Prop)
    (cond : S -> bool) (body : S -> Ctl S) :
  (forall s, P s -> cond s = true -> ctl_next P R (body s)) ->
  forall fuel s, P s ->
    ctl_next (fun s' => P s' /\ cond s' = false) R (while_ctl fuel cond body s).
Proof.
  intros Hbody fuel. induction fuel as [|f IH]; intros s Hs; cbn [while_ctl].
  - destruct (cond s) eqn:C; [exact I | split; assumption].
  - destruct (cond s) eqn:C; [|split; assumption].
    specialize (Hbody s Hs C). destruct (body s); cbn [ctl_next] in *; auto.
Qed.

Lemma type_size_bytes (e : GDALDataType) :
  known_type e = true -> GDALGetDataTypeSizeBytes e = Z.of_nat (type_size e).
Proof. apply pixel_size_bytes. Qed.

Lemma for_loop_indexed (S : Type) (Inv : Z -> S -> Prop) (body : Z -> S -> S) :
  forall (n : nat) (i0 : Z) (s : S),
    (forall i s, i0 <= i < i0 + Z.of_nat n -> Inv i s -> Inv (i + 1) (body i s)) ->
    Inv i0 s -> Inv (i0 + Z.of_nat n) (for_loop n i0 body s).
Proof.
  induction n as [|n IH]; intros i0 s Hbody Hs.
  - cbn [for_loop]. replace (i0 + Z.of_nat 0) with i0 by lia. exact Hs.
  - cbn [for_loop]. replace (i0 + Z.of_nat (Datatypes.S n)) with (i0 + 1 + Z.of_nat n) by lia.
    apply IH.
    + intros i s1 Hi. apply Hbody. lia.
    + apply Hbody; [lia | exact Hs].
Qed.

Lemma blocks_Interrupted (b : Band) (s : IOState) :
  blocks (snd (Interrupted b s)) = blocks s.
Proof. unfold Interrupted. destruct (poDS b); reflexivity. Qed.

Lemma blocks_GetLockedBlockRef_read (b : Band) (x y : Z) (s : IOState) :
  blocks (snd (GetLockedBlockRef b x y false s)) = blocks s.
Proof.
  unfold GetLockedBlockRef. cbv zeta. cbn [andb].
  destruct (block_ok _ _ _ _ _); reflexivity.
Qed.

Lemma blocks_progress_stops (a : RasterIOArgs) (q : Q) (s : IOState) :
  blocks (snd (progress_stops a q s)) = blocks s.
Proof. unfold progress_stops. destruct (pfnProgress _); reflexivity. Qed.

Lemma blocks_DropLock (p : option (Z * Z)) (s : IOState) : blocks (DropLock p s) = blocks s.
Proof. destruct p as [[x y]|]; reflexivity. Qed.

Lemma for_ctl_indexed (S : Type) (Inv : Z -> S -> Prop) (B : S -> Prop)
    (R : CPLErr -> IOState -> Prop) (body : Z -> S -> Ctl S) :
  forall (n : nat) (i0 : Z) (s : S),
    (forall i s, i0 <= i < i0 + Z.of_nat n -> Inv i s ->
       match body i s with
       | Next s' => Inv (i + 1) s'
       | Break s' => B s'
       | Return e io => R e io
       | Fuel => True
       end) ->
    Inv i0 s ->
    match for_ctl n i0 body s with
    | Next s' => Inv (i0 + Z.of_nat n) s'
    | Break s' => B s'
    | Return e io => R e io
    | Fuel => True
    end.
Proof.
  induction n as [|n IH]; intros i0 s Hbody Hs; cbn [for_ctl].
  - replace (i0 + Z.of_nat 0) with i0 by lia. exact Hs.
  - assert (H0 := Hbody i0 s ltac:(lia) Hs).
    destruct (body i0 s) as [s1| | |]; try exact H0.
    replace (i0 + Z.of_nat (Datatypes.S n)) with (i0 + 1 + Z.of_nat n) by lia.
    apply IH; [|exact H0]. intros i s2 Hi. apply Hbody. lia.
Qed.

Section Read.

Variable cfg : BuildConfig.
Variable i2f32 : Z -> list byte.
Variable i2f64 : Z -> list byte.
Variable fconv : CType -> CType -> list byte -> list byte.
Variable b : Band.
Variable a : RasterIOArgs.
Variable s0 : IOState.

Hypothesis Hread : is_write (eRWFlag a) = false.
Hypothesis Hband : known_type (eDataType b) = true.
Hypothesis Hbuf : known_type (eBufType a) = true.
Hypothesis Hbw : 0 < nBlockXSize b.
Hypothesis Hbh : 0 < nBlockYSize b.
Hypothesis Hlayout : buffer_layout a.

(** A state that differs in its trace only is as filled. *)
Lemma filled_same (s s1 : IOState) (P : Z -> Z -> Prop) :
  buf s1 = buf s -> blocks s1 = blocks s ->
  filled i2f32 i2f64 fconv b a s0 s P -> filled i2f32 i2f64 fconv b a s0 s1 P.
Proof.
  intros Eb Ek [Hk Hp]. split; [congruence|].
  intros i j Hi Hj HP. unfold buf_pixel. rewrite Eb. apply Hp; assumption.
Qed.

Lemma filled_weaken (s : IOState) (P P' : Z -> Z -> Prop) :
  (forall i j, 0 <= i < nBufXSize a -> 0 <= j < nBufYSize a -> P' i j -> P i j) ->
  filled i2f32 i2f64 fconv b a s0 s P -> filled i2f32 i2f64 fconv b a s0 s P'.
Proof.
  intros H [Hk Hp]. split; [exact Hk|]. intros i j Hi Hj HP. apply Hp; auto.
Qed.

(** Two pixels of the buffer do not overlap. *)
Lemma buf_pixels_apart (i j i' j' k : Z) :
  0 <= i < nBufXSize a -> 0 <= i' < nBufXSize a ->
  (j <> j' \/ i <> i') ->
  0 <= k < GDALGetDataTypeSizeBytes (eBufType a) ->
  buf_addr a i' j' + k < buf_addr a i j
  \/ buf_addr a i j + GDALGetDataTypeSizeBytes (eBufType a) <= buf_addr a i' j' + k.
Proof.
  destruct Hlayout as [L1 L2]. intros Hi Hi' Hne Hk. unfold buf_addr.
  assert (Hsz := pixel_size_pos _ Hbuf).
  assert (I1 : (i + 1) * nPixelSpace a <= nBufXSize a * nPixelSpace a)
    by (apply Z.mul_le_mono_nonneg_r; lia).
  assert (I2 : (i' + 1) * nPixelSpace a <= nBufXSize a * nPixelSpace a)
    by (apply Z.mul_le_mono_nonneg_r; lia).
  assert (I3 : 0 <= i * nPixelSpace a) by (apply Z.mul_nonneg_nonneg; lia).
  assert (I4 : 0 <= i' * nPixelSpace a) by (apply Z.mul_nonneg_nonneg; lia).
  destruct (Z.lt_trichotomy j j') as [C|[C|C]].
  - right. assert ((j + 1) * nLineSpace a <= j' * nLineSpace a)
      by (apply Z.mul_le_mono_nonneg_r; lia). lia.
  - subst j'. destruct (Z.lt_trichotomy i i') as [D|[D|D]]; [right| lia |left].
    + assert ((i + 1) * nPixelSpace a <= i' * nPixelSpace a)
        by (apply Z.mul_le_mono_nonneg_r; lia). lia.
    + assert ((i' + 1) * nPixelSpace a <= i * nPixelSpace a)
        by (apply Z.mul_le_mono_nonneg_r; lia). lia.
  - left. assert ((j' + 1) * nLineSpace a <= j * nLineSpace a)
      by (apply Z.mul_le_mono_nonneg_r; lia). lia.
Qed.


Lemma quot_in_block (v w k : Z) :
  0 < w -> 0 <= v -> k * w <= v < (k + 1) * w -> Z.quot v w = k.
Proof.
  intros Hw Hv H. rewrite Z.quot_div_nonneg by lia.
  symmetry. apply Z.div_unique with (r := v - k * w); lia.
Qed.

(** A run of [n] pixels of line [j] of the buffer, from column [i] on,
    read from the block [(x, y)] that holds them. *)
Lemma run_filled (s s1 : IOState) (P : Z -> Z -> Prop) (x y i j n : Z) :
  0 <= i -> i + n <= nBufXSize a -> 0 <= j < nBufYSize a ->
  0 <= nXOff a + i -> 0 <= nYOff a + j ->
  x * nBlockXSize b <= nXOff a + i -> nXOff a + i + n <= (x + 1) * nBlockXSize b ->
  y * nBlockYSize b <= nYOff a + j < (y + 1) * nBlockYSize b ->
  blocks s1 = blocks s ->
  (forall k, 0 <= k < n ->
     load_bytes (buf s1) (buf_addr a (i + k) j) (type_size (eBufType a))
     = pixel_bytes i2f32 i2f64 fconv (eDataType b) (eBufType a)
         (load_bytes (blocks s x y)
            ((nXOff a + i - x * nBlockXSize b
              + (nYOff a + j - y * nBlockYSize b) * nBlockXSize b)
             * GDALGetDataTypeSizeBytes (eDataType b)
             + k * GDALGetDataTypeSizeBytes (eDataType b))
            (type_size (eDataType b)))) ->
  (forall o, (forall k, 0 <= k < n ->
                o < buf_addr a (i + k) j
                \/ buf_addr a (i + k) j + GDALGetDataTypeSizeBytes (eBufType a) <= o) ->
     buf s1 o = buf s o) ->
  filled i2f32 i2f64 fconv b a s0 s P ->
  filled i2f32 i2f64 fconv b a s0 s1 (fun i' j' => P i' j' \/ (j' = j /\ i <= i' < i + n)).
Proof.
  intros Hi Hin Hj Hx0 Hy0 Hx1 Hx2 Hy Ek Hhit Hframe [Hk Hp].
  split; [congruence|]. intros i' j' Hi' Hj' HP.
  destruct (Z.eq_dec j' j) as [->|Nj].
  - destruct (Z_le_gt_dec i i') as [L|L]; [destruct (Z_lt_ge_dec i' (i + n)) as [U|U]|].
    + unfold buf_pixel. specialize (Hhit (i' - i) ltac:(lia)).
      replace (i + (i' - i)) with i' in Hhit by lia. rewrite Hhit. f_equal.
      unfold raster_pixel. cbv zeta.
      rewrite (@quot_in_block (nXOff a + i') (nBlockXSize b) x) by lia.
      rewrite (@quot_in_block (nYOff a + j) (nBlockYSize b) y) by lia.
      rewrite <- Hk. f_equal. ring.
    + destruct HP as [HP|HP]; [|lia]. unfold buf_pixel. rewrite <- (Hp i' j Hi' Hj' HP).
      unfold buf_pixel. apply load_bytes_ext. intros k Hk'. apply Hframe.
      intros k0 Hk0. rewrite <- type_size_bytes in Hk' by exact Hbuf.
      apply buf_pixels_apart; try lia.
    + destruct HP as [HP|HP]; [|lia]. unfold buf_pixel. rewrite <- (Hp i' j Hi' Hj' HP).
      unfold buf_pixel. apply load_bytes_ext. intros k Hk'. apply Hframe.
      intros k0 Hk0. rewrite <- type_size_bytes in Hk' by exact Hbuf.
      apply buf_pixels_apart; try lia.
  - destruct HP as [HP|HP]; [|lia]. unfold buf_pixel. rewrite <- (Hp i' j' Hi' Hj' HP).
    unfold buf_pixel. apply load_bytes_ext. intros k Hk'. apply Hframe.
    intros k0 Hk0. rewrite <- type_size_bytes in Hk' by exact Hbuf.
    apply buf_pixels_apart; try lia.
Qed.


Lemma memcpy_rw_filled (s : IOState) (P : Z -> Z -> Prop) (x y i j n off boff : Z) :
  eDataType b = eBufType a ->
  nPixelSpace a = GDALGetDataTypeSizeBytes (eBufType a) ->
  0 <= i -> i + n <= nBufXSize a -> 0 <= j < nBufYSize a ->
  0 <= nXOff a + i -> 0 <= nYOff a + j ->
  x * nBlockXSize b <= nXOff a + i -> nXOff a + i + n <= (x + 1) * nBlockXSize b ->
  y * nBlockYSize b <= nYOff a + j < (y + 1) * nBlockYSize b ->
  off = (nXOff a + i - x * nBlockXSize b
         + (nYOff a + j - y * nBlockYSize b) * nBlockXSize b)
        * GDALGetDataTypeSizeBytes (eDataType b) ->
  boff = j * nLineSpace a + i * nPixelSpace a ->
  filled i2f32 i2f64 fconv b a s0 s P ->
  filled i2f32 i2f64 fconv b a s0 (memcpy_rw a x y off boff (n * nPixelSpace a) s)
         (fun i' j' => P i' j' \/ (j' = j /\ i <= i' < i + n)).
Proof.
  intros Et Eps Hi Hin Hj Hx0 Hy0 Hx1 Hx2 Hy -> -> F.
  assert (Hsz := pixel_size_pos _ Hbuf).
  assert (Esz := @type_size_bytes _ Hbuf).
  unfold memcpy_rw. rewrite Hread.
  apply (@run_filled s _ P x y i j n); try assumption; cbn [set_buf buf blocks];
    try reflexivity.
  - intros k Hk.
    assert ((k + 1) * nPixelSpace a <= n * nPixelSpace a)
      by (apply Z.mul_le_mono_nonneg_r; lia).
    rewrite load_bytes_memcpy_in by (unfold buf_addr; lia).
    rewrite Et. rewrite pixel_bytes_same by apply load_bytes_length.
    f_equal. unfold buf_addr. rewrite Eps. ring.
  - intros o Ho. apply memcpy_frame.
    destruct (Z_lt_ge_dec o (pData a + (j * nLineSpace a + i * nPixelSpace a))) as [C|C];
      [left; exact C | right].
    destruct (Z_le_gt_dec (pData a + (j * nLineSpace a + i * nPixelSpace a)
                           + n * nPixelSpace a) o) as [D|D]; [exact D | exfalso].
    set (A0 := pData a + (j * nLineSpace a + i * nPixelSpace a)) in *.
    set (k := (o - A0) / nPixelSpace a).
    assert (Hdm := Z.div_mod (o - A0) (nPixelSpace a) ltac:(lia)). fold k in Hdm.
    assert (Hm := Z.mod_pos_bound (o - A0) (nPixelSpace a) ltac:(lia)).
    assert (Hk0 : 0 <= k) by (subst k; apply Z.div_pos; lia).
    assert (Hkn : k < n).
    { destruct (Z_lt_ge_dec k n) as [L|L]; [exact L|].
      assert (n * nPixelSpace a <= k * nPixelSpace a)
        by (apply Z.mul_le_mono_nonneg_r; lia). lia. }
    destruct (Ho k ltac:(lia)) as [B|B]; unfold buf_addr in B; fold A0 in B; lia.
Qed.

Lemma copy_words_rw_filled (s : IOState) (P : Z -> Z -> Prop) (x y i j n off boff : Z) :
  0 <= i -> i + n <= nBufXSize a -> 0 <= j < nBufYSize a ->
  0 <= nXOff a + i -> 0 <= nYOff a + j ->
  x * nBlockXSize b <= nXOff a + i -> nXOff a + i + n <= (x + 1) * nBlockXSize b ->
  y * nBlockYSize b <= nYOff a + j < (y + 1) * nBlockYSize b ->
  off = (nXOff a + i - x * nBlockXSize b
         + (nYOff a + j - y * nBlockYSize b) * nBlockXSize b)
        * GDALGetDataTypeSizeBytes (eDataType b) ->
  boff = j * nLineSpace a + i * nPixelSpace a ->
  filled i2f32 i2f64 fconv b a s0 s P ->
  filled i2f32 i2f64 fconv b a s0 (copy_words_rw cfg i2f32 i2f64 fconv b a x y off boff n s)
         (fun i' j' => P i' j' \/ (j' = j /\ i <= i' < i + n)).
Proof.
  intros Hi Hin Hj Hx0 Hy0 Hx1 Hx2 Hy -> -> F.
  assert (Hsz := pixel_size_pos _ Hbuf). destruct Hlayout as [L1 L2].
  unfold copy_words_rw. rewrite Hread.
  apply (@run_filled s _ P x y i j n); try assumption; cbn [set_buf buf blocks];
    try reflexivity.
  - intros k Hk.
    replace (buf_addr a (i + k) j)
      with (pData a + (j * nLineSpace a + i * nPixelSpace a) + k * nPixelSpace a)
      by (unfold buf_addr; ring).
    unfold type_size.
    rewrite (@GDALCopyWords_pixel_at cfg i2f32 i2f64 fconv (eDataType b) (eBufType a)
               (blocks s x y) _ _ (buf s) _ (nPixelSpace a) n k Hband Hbuf)
      by lia.
    reflexivity.
  - intros o Ho. apply GDALCopyWords_frame_strided; try assumption.
    intros k Hk. specialize (Ho k Hk). unfold buf_addr in Ho.
    replace (pData a + (j * nLineSpace a + i * nPixelSpace a) + k * nPixelSpace a)
      with (pData a + (j * nLineSpace a + (i + k) * nPixelSpace a)) by ring.
    exact Ho.
Qed.


Hypothesis Hx : 0 <= nXOff a.
Hypothesis Hy : 0 <= nYOff a.
Hypothesis Hmax : nBufXSize a + nXOff a <= INT_MAX.
Hypothesis Hw : 0 <= nBufXSize a.

(** The inner loop of the 1:1 window case, for the lines of the buffer
    from [J] on that the block row of line [nYOff + J] holds. *)
Lemma window_inner_body_filled (J : Z) (st : Z * Z * Z * IOState) :
  0 <= J < nBufYSize a ->
  let kmax := Z.min (nBlockYSize b - Z.rem (J + nYOff a) (nBlockYSize b))
                    (nBufYSize a - J) in
  let Inner := fun st : Z * Z * Z * IOState =>
    let '(iSrcX, bx, boff, s) := st in
    nXOff a <= iSrcX <= nBufXSize a + nXOff a
    /\ boff = J * nLineSpace a + (iSrcX - nXOff a) * nPixelSpace a
    /\ (iSrcX < nBufXSize a + nXOff a ->
        bx * nBlockXSize b <= iSrcX < (bx + 1) * nBlockXSize b)
    /\ filled i2f32 i2f64 fconv b a s0 s
         (fun i j => j < J \/ (J <= j < J + kmax /\ i < iSrcX - nXOff a)) in
  Inner st ->
  (let '(iSrcX, _, _, _) := st in iSrcX <? nBufXSize a + nXOff a) = true ->
  ctl_next Inner (fun e _ => e <> CE_None)
    (window_inner_body cfg i2f32 i2f64 fconv b a J (J + nYOff a)
       (Z.quot (J + nYOff a) (nBlockYSize b)) (nBufXSize a + nXOff a) st).
Proof.
  intros HJ kmax Inner. destruct st as [[[iSrcX bx] boff] s].
  intros (Hrange & Hboff & Hblk & F) C. apply Z.ltb_lt in C. specialize (Hblk C).
  unfold window_inner_body. cbv zeta. rewrite Hread. cbn [andb orb negb].
  assert (F2 : filled i2f32 i2f64 fconv b a s0 (snd (Interrupted b s))
                 (fun i j => j < J \/ (J <= j < J + kmax /\ i < iSrcX - nXOff a)))
    by (apply filled_same with (s := s); [apply buf_Interrupted | apply blocks_Interrupted | exact F]).
  destruct (Interrupted b s) as [intr s2]. cbn [snd] in F2.
  destruct intr; [cbn [ctl_next]; discriminate|].
  match goal with |- context [GetLockedBlockRef b ?x ?y0 false s2] =>
    assert (F3 : filled i2f32 i2f64 fconv b a s0 (snd (GetLockedBlockRef b x y0 false s2))
                   (fun i j => j < J \/ (J <= j < J + kmax /\ i < iSrcX - nXOff a)))
      by (apply filled_same with (s := s2);
          [apply buf_GetLockedBlockRef | apply blocks_GetLockedBlockRef_read | exact F2]);
    destruct (GetLockedBlockRef b x y0 false s2) as [ok s3] end.
  cbn [snd] in F3. destruct ok; cbn [negb ctl_next]; [|discriminate].
  (* the end [E] of the span *)
  set (y := Z.quot (J + nYOff a) (nBlockYSize b)) in *.
  assert (Hrem := Z.rem_bound_pos (J + nYOff a) (nBlockYSize b) ltac:(lia) Hbh).
  assert (Hqr := Z.quot_rem' (J + nYOff a) (nBlockYSize b)). fold y in Hqr.
  set (nXRight := if bx * nBlockXSize b <? INT_MAX - nBlockXSize b
                  then bx * nBlockXSize b + nBlockXSize b else INT_MAX).
  set (E := if nXRight <? nBufXSize a + nXOff a then nXRight else nBufXSize a + nXOff a).
  assert (HE : iSrcX < E <= nBufXSize a + nXOff a
               /\ E <= (bx + 1) * nBlockXSize b
               /\ (E < nBufXSize a + nXOff a -> E = (bx + 1) * nBlockXSize b)).
  { subst E nXRight. unfold INT_MAX in *.
    destruct (Z.ltb_spec (bx * nBlockXSize b) (2147483647 - nBlockXSize b));
      match goal with |- context [if ?u <? ?v then _ else _] => destruct (Z.ltb_spec u v) end;
      lia. }
  destruct HE as (HE1 & HE2 & HE3).
  assert (Hkmax : 1 <= kmax <= nBufYSize a - J) by (subst kmax; lia).
  assert (Hkrow : kmax <= nBlockYSize b - Z.rem (J + nYOff a) (nBlockYSize b))
    by (subst kmax; lia).
  (* the lines of the span *)
  match goal with |- context [for_loop (Z.to_nat ?km) 0 ?f s3] =>
    assert (FL : filled i2f32 i2f64 fconv b a s0 (for_loop (Z.to_nat km) 0 f s3)
                   (fun i j => (j < J \/ (J <= j < J + kmax /\ i < iSrcX - nXOff a))
                               \/ (J <= j < J + km
                                   /\ iSrcX - nXOff a <= i < E - nXOff a)));
    [| generalize dependent (for_loop (Z.to_nat km) 0 f s3) ] end.
  - fold kmax.
    assert (G := @for_loop_indexed IOState
                   (fun k s' => filled i2f32 i2f64 fconv b a s0 s'
                      (fun i j => (j < J \/ (J <= j < J + kmax /\ i < iSrcX - nXOff a))
                                  \/ (J <= j < J + k
                                      /\ iSrcX - nXOff a <= i < E - nXOff a)))).
    match goal with |- filled _ _ _ _ _ _ (for_loop ?n 0 ?f s3) _ =>
      specialize (G f n 0 s3) end.
    rewrite Z2Nat.id, Z.add_0_l in G by lia. apply G; clear G.
    + intros k s' Hk Fk.
      destruct (GDALDataType_eqb (eDataType b) (eBufType a)
                && (nPixelSpace a =? GDALGetDataTypeSizeBytes (eBufType a))) eqn:M.
      * apply andb_true_iff in M. destruct M as [M1 M2].
        apply GDALDataType_eqb_eq in M1. apply Z.eqb_eq in M2.
        eapply filled_weaken;
          [| eapply memcpy_rw_filled with (s := s') (x := bx) (y := y)
                 (i := iSrcX - nXOff a) (j := J + k) (n := E - iSrcX);
             try eassumption; try lia ].
        cbv beta. intros i j Hi Hj [A|A]; [left; left; exact A|].
        destruct (Z.eq_dec j (J + k)) as [->|N]; [right; lia | left; right; lia].
      * eapply filled_weaken;
          [| eapply copy_words_rw_filled with (s := s') (x := bx) (y := y)
                 (i := iSrcX - nXOff a) (j := J + k) (n := E - iSrcX);
             try eassumption; try lia ].
        cbv beta. intros i j Hi Hj [A|A]; [left; left; exact A|].
        destruct (Z.eq_dec j (J + k)) as [->|N]; [right; lia | left; right; lia].
    + eapply filled_weaken; [|exact F3]. cbv beta. intros i j Hi Hj [A|A]; [exact A | lia].
  - intros s4 F4. fold E.
    replace (iSrcX + (E - iSrcX)) with E by lia.
    split; [lia|]. split; [rewrite Hboff; ring|]. split.
    + intro L. rewrite (HE3 L). lia.
    + apply filled_same with (s := s4); [apply buf_DropLock | apply blocks_DropLock |].
      eapply filled_weaken; [|exact F4]. cbv beta.
      intros i j Hi Hj [A|[A1 A2]]; [left; left; exact A|].
      destruct (Z_lt_ge_dec i (iSrcX - nXOff a)); [left; right; lia | right; lia].
Qed.


Lemma window_outer_body_filled (st : Z * Z * IOState) :
  let Outer := fun st : Z * Z * IOState =>
    let '(J, iSrcY, s) := st in
    0 <= J /\ iSrcY = J + nYOff a
    /\ filled i2f32 i2f64 fconv b a s0 s (fun _ j => j < J) in
  Outer st ->
  (let '(J, _, _) := st in J <? nBufYSize a) = true ->
  ctl_next Outer (fun e _ => e <> CE_None) (window_outer_body cfg i2f32 i2f64 fconv b a st).
Proof.
  intro Outer. destruct st as [[J iSrcY] s]. subst Outer. cbv beta iota.
  intros (HJ0 & E0 & F) C. subst iSrcY.
  apply Z.ltb_lt in C. unfold window_outer_body. cbv zeta.
  assert (In := fun st => @window_inner_body_filled J st (conj HJ0 C)). cbv zeta in In.
  set (kmax := Z.min (nBlockYSize b - Z.rem (J + nYOff a) (nBlockYSize b))
                     (nBufYSize a - J)) in *.
  assert (Hrem := Z.rem_bound_pos (J + nYOff a) (nBlockYSize b) ltac:(lia) Hbh).
  match goal with |- context [while_ctl ?n ?c ?body ?st0] =>
    assert (W := @while_ctl_next _ _ (fun e (_ : IOState) => e <> CE_None) c body
                   (fun st I C' => In st I C') n st0);
    destruct (while_ctl n c body st0) as [[[[x bx] o] s1] | [[[x bx] o] s1] | e s1 |] end;
    cbn [ctl_next] in W |- *.
  - destruct W as [(Hr & _ & _ & F1) C1].
    + split; [lia|]. split; [ring|]. split.
      * intro L. apply quot_block_bounds; lia.
      * eapply filled_weaken; [|exact F]. cbv beta. intros i j Hi Hj [A|A]; [exact A | lia].
    + apply Z.ltb_ge in C1.
      assert (F2 : filled i2f32 i2f64 fconv b a s0 s1 (fun _ j => j < J + kmax)).
      { eapply filled_weaken; [|exact F1]. cbv beta. intros i j Hi Hj A.
        destruct (Z_lt_ge_dec j J); [left; assumption | right; lia]. }
      match goal with |- context [progress_stops a ?q s1] =>
        assert (F3 : filled i2f32 i2f64 fconv b a s0 (snd (progress_stops a q s1))
                       (fun _ j => j < J + kmax))
          by (apply filled_same with (s := s1);
              [apply buf_progress_stops | apply blocks_progress_stops | exact F2]);
        destruct (progress_stops a q s1) as [stop s2] end.
      cbn [snd] in F3. destruct stop; cbn [ctl_next]; [discriminate|].
      split; [lia|]. split; [ring|].
      eapply filled_weaken; [|exact F3]. cbv beta. intros i j Hi Hj A. subst kmax. lia.
  - exfalso. apply W.
    split; [lia|]. split; [ring|]. split.
    + intro L. apply quot_block_bounds; lia.
    + eapply filled_weaken; [|exact F]. cbv beta. intros i j Hi Hj [A|A]; [exact A | lia].
  - apply W.
    split; [lia|]. split; [ring|]. split.
    + intro L. apply quot_block_bounds; lia.
    + eapply filled_weaken; [|exact F]. cbv beta. intros i j Hi Hj [A|A]; [exact A | lia].
  - exact I.
Qed.

Lemma IRasterIO_window_filled (s' : IOState) :
  IRasterIO_window cfg i2f32 i2f64 fconv b a s0 = Some (CE_None, s') ->
  filled i2f32 i2f64 fconv b a s0 s' (fun _ _ => True).
Proof.
  unfold IRasterIO_window.
  match goal with |- context [while_ctl ?n ?c ?body ?st0] =>
    assert (W := @while_ctl_next _ _ (fun e (_ : IOState) => e <> CE_None) c body
                   (fun st I C' => @window_outer_body_filled st I C') n st0);
    destruct (while_ctl n c body st0) as [[[J y] s1] | [[J y] s1] | e s1 |] end;
    cbn [ctl_next] in W; intro E; inversion E; subst.
  - destruct W as [(_ & _ & F) C].
    + split; [lia|]. split; [ring|]. split; [reflexivity|]. intros i j Hi Hj A. lia.
    + apply Z.ltb_ge in C. eapply filled_weaken; [|exact F]. cbv beta. intros. lia.
  - exfalso. apply W.
    split; [lia|]. split; [ring|]. split; [reflexivity|]. intros i j Hi Hj A. lia.
  - exfalso. apply W; [|reflexivity].
    split; [lia|]. split; [ring|]. split; [reflexivity|]. intros i j Hi Hj A. lia.
Qed.


(** The packed full-width case. *)
Lemma packed_body_filled (i : Z) (st : CPLErr * option (Z * Z) * Z * IOState) :
  nPixelSpace a = GDALGetDataTypeSizeBytes (eBufType a) ->
  nLineSpace a = nPixelSpace a * nBufXSize a ->
  nXOff a + nBufXSize a <= nBlockXSize b ->
  0 <= i < nBufYSize a ->
  (let '(e, _, _, s) := st in
   e = CE_None /\ filled i2f32 i2f64 fconv b a s0 s (fun _ j => j < i)) ->
  match packed_body cfg i2f32 i2f64 fconv b a i st with
  | Next (e, _, _, s) =>
      e = CE_None /\ filled i2f32 i2f64 fconv b a s0 s (fun _ j => j < i + 1)
  | Break (e, _, _, _) => e <> CE_None
  | Return e _ => e <> CE_None
  | Fuel => True
  end.
Proof.
  intros Eps Els Hfit Hi. destruct st as [[[e p] yb] s]. intros [-> F].
  assert (Row : forall (p' : option (Z * Z)) (y : Z) (s1 : IOState),
            y * nBlockYSize b <= i + nYOff a < (y + 1) * nBlockYSize b ->
            filled i2f32 i2f64 fconv b a s0 s1 (fun _ j => j < i) ->
            match packed_copy_row cfg i2f32 i2f64 fconv b a i CE_None p' y s1 with
            | Next (e, _, _, s) =>
                e = CE_None /\ filled i2f32 i2f64 fconv b a s0 s (fun _ j => j < i + 1)
            | Break (e, _, _, _) => e <> CE_None
            | Return e _ => e <> CE_None
            | Fuel => True
            end).
  { intros p' y s1 Hy1 F1. unfold packed_copy_row. cbv zeta.
    match goal with |- context [progress_stops a ?q ?s2] =>
      assert (F2 : filled i2f32 i2f64 fconv b a s0 s2 (fun _ j => j < i + 1));
      [| assert (F3 : filled i2f32 i2f64 fconv b a s0 (snd (progress_stops a q s2))
                        (fun _ j => j < i + 1))
           by (apply filled_same with (s := s2);
               [apply buf_progress_stops | apply blocks_progress_stops | exact F2]);
         destruct (progress_stops a q s2) as [stop s3] ] end.
    - destruct (GDALDataType_eqb (eDataType b) (eBufType a)) eqn:M.
      + apply GDALDataType_eqb_eq in M.
        replace (nLineSpace a) with (nBufXSize a * nPixelSpace a) at 2 by lia.
        eapply filled_weaken;
          [| eapply memcpy_rw_filled with (s := s1) (x := 0) (y := y)
                 (i := 0) (j := i) (n := nBufXSize a);
             try eassumption; try lia ].
        cbv beta. intros i' j Hi' Hj A.
        destruct (Z.eq_dec j i) as [->|N]; [right; lia | left; lia].
      + eapply filled_weaken;
          [| eapply copy_words_rw_filled with (s := s1) (x := 0) (y := y)
                 (i := 0) (j := i) (n := nBufXSize a);
             try eassumption; try lia ].
        cbv beta. intros i' j Hi' Hj A.
        destruct (Z.eq_dec j i) as [->|N]; [right; lia | left; lia].
    - cbn [snd] in F3. destruct stop; [discriminate | split; [reflexivity | exact F3]]. }
  unfold packed_body. cbv zeta.
  destruct ((i + nYOff a <? yb * nBlockYSize b)
            || (yb * nBlockYSize b <=? i + nYOff a - nBlockYSize b)) eqn:C.
  - rewrite Hread. cbn [andb orb negb].
    assert (F1 : filled i2f32 i2f64 fconv b a s0 (snd (Interrupted b (DropLock p s)))
                   (fun _ j => j < i)).
    { apply filled_same with (s := s); [| | exact F].
      - rewrite buf_Interrupted. apply buf_DropLock.
      - rewrite blocks_Interrupted. apply blocks_DropLock. }
    destruct (Interrupted b (DropLock p s)) as [intr s2]. cbn [snd] in F1.
    destruct intr; [discriminate|].
    match goal with |- context [GetLockedBlockRef b ?x ?y0 false s2] =>
      assert (F3 : filled i2f32 i2f64 fconv b a s0 (snd (GetLockedBlockRef b x y0 false s2))
                     (fun _ j => j < i))
        by (apply filled_same with (s := s2);
            [apply buf_GetLockedBlockRef | apply blocks_GetLockedBlockRef_read | exact F1]);
      destruct (GetLockedBlockRef b x y0 false s2) as [ok s3] end.
    cbn [snd] in F3. destruct ok; cbn [negb]; [|discriminate].
    apply Row; [|exact F3]. apply quot_block_bounds; lia.
  - apply orb_false_iff in C. destruct C as [C1 C2].
    apply Z.ltb_ge in C1. apply Z.leb_gt in C2.
    apply Row; [lia | exact F].
Qed.

Lemma IRasterIO_packed_filled (s' : IOState) :
  nPixelSpace a = GDALGetDataTypeSizeBytes (eBufType a) ->
  nLineSpace a = nPixelSpace a * nBufXSize a ->
  nXOff a + nBufXSize a <= nBlockXSize b ->
  IRasterIO_packed cfg i2f32 i2f64 fconv b a s0 = Some (CE_None, s') ->
  filled i2f32 i2f64 fconv b a s0 s' (fun _ _ => True).
Proof.
  intros Eps Els Hfit. unfold IRasterIO_packed.
  assert (G := @for_ctl_indexed _
                 (fun i (st : CPLErr * option (Z * Z) * Z * IOState) =>
                    let '(e, _, _, s) := st in
                    e = CE_None /\ filled i2f32 i2f64 fconv b a s0 s (fun _ j => j < i))
                 (fun st : CPLErr * option (Z * Z) * Z * IOState =>
                    let '(e, _, _, _) := st in e <> CE_None)
                 (fun e (_ : IOState) => e <> CE_None)
                 (packed_body cfg i2f32 i2f64 fconv b a)
                 (Z.to_nat (nBufYSize a)) 0 (CE_None, None, -1, s0)).
  cbv beta iota in G.
  assert (I0 : CE_None = CE_None
               /\ filled i2f32 i2f64 fconv b a s0 s0 (fun _ j : Z => j < 0)).
  { split; [reflexivity|]. split; [reflexivity|]. intros i j Hi Hj A. lia. }
  assert (G' := G (fun i st Hi I => @packed_body_filled i st Eps Els Hfit ltac:(lia) I) I0).
  clear G.
  destruct (for_ctl _ _ _ _) as [[[[e p] y] s1] | [[[e p] y] s1] | e s1 |];
    intro E; inversion E; subst.
  - destruct G' as [_ F].
    apply filled_same with (s := s1); [apply buf_DropLock | apply blocks_DropLock |].
    eapply filled_weaken; [|exact F]. cbv beta. intros. lia.
  - contradiction G'. reflexivity.
  - contradiction G'. reflexivity.
Qed.

End Read.

(** The cases of [IRasterIO] that serve a 1:1 read. *)
Lemma one_to_one_read_filled (cfg : BuildConfig) (i2f32 i2f64 : Z -> list byte)
    (fconv : CType -> CType -> list byte -> list byte)
    (b : Band) (a : RasterIOArgs) (s s' : IOState) :
  eRWFlag a = GF_Read ->
  is_window_case a = true ->
  known_type (eDataType b) = true -> known_type (eBufType a) = true ->
  0 < nBlockXSize b -> 0 < nBlockYSize b ->
  0 <= nXOff a -> 0 <= nYOff a -> nBufXSize a + nXOff a <= INT_MAX ->
  nXOff a + nXSize a <= nRasterXSize b ->
  0 <= nBufXSize a ->
  buffer_layout a ->
  IRasterIO cfg i2f32 i2f64 fconv b a s = Some (CE_None, s') ->
  filled i2f32 i2f64 fconv b a s s' (fun _ _ => True).
Proof.
  intros Hr Hcase Hband Hbuf Hbw Hbh Hx Hy Hmax Hfit Hw Hlay E.
  assert (Hread : is_write (eRWFlag a) = false) by (rewrite Hr; reflexivity).
  assert (Hsz := Hcase). unfold is_window_case in Hsz.
  apply andb_true_iff in Hsz. destruct Hsz as [Hsz _].
  apply andb_true_iff in Hsz. destruct Hsz as [Ex Ey].
  apply Z.eqb_eq in Ex. apply Z.eqb_eq in Ey.
  revert E. unfold IRasterIO. rewrite Hread. cbn [andb negb].
  replace ((nBlockXSize b <=? 0) || (nBlockYSize b <=? 0)) with false
    by (symmetry; apply orb_false_iff; split; apply Z.leb_gt; assumption).
  destruct (is_packed_case b a) eqn:Pk.
  - unfold is_packed_case in Pk. rewrite !andb_true_iff, !Z.eqb_eq in Pk.
    destruct Pk as (((((P1 & P2) & P3) & P4) & P5) & _).
    apply IRasterIO_packed_filled; try assumption; try lia.
  - cbv zeta.
    replace ((nBufXSize a <? nXSize a) || (nBufYSize a <? nYSize a)) with false
      by (symmetry; apply orb_false_iff; split; apply Z.ltb_ge; lia).
    cbn [andb]. rewrite Hcase.
    replace (nBufXSize a <? Z.quot (nXSize a) 100) with false.
    2: { symmetry. apply Z.ltb_ge. rewrite <- Ex.
         assert (0 <= Z.quot (nXSize a) 100 <= nXSize a); [|lia].
         split; [apply Z.quot_pos; lia|].
         rewrite <- (Z.quot_1_r (nXSize a)) at 2.
         apply Z.quot_le_compat_l; lia. }
    cbn [andb]. apply IRasterIO_window_filled; assumption.
Qed.

(** X21: a successful 1:1 read fills the buffer with the window: for a
    valid read request whose buffer has the size of the window (the packed
    full-width case and the arbitrary-window case), with known pixel types
    and a buffer whose pixels and lines do not overlap, when [IRasterIO]
    returns [CE_None] every pixel [(i, j)] of the buffer holds the
    conversion to the buffer type of pixel [(nXOff + i, nYOff + j)] of the
    raster, as its block held it when the call was made. *)
Theorem one_to_one_read_fills_the_buffer :
  forall (cfg : BuildConfig) (i2f32 i2f64 : Z -> list byte)
         (fconv : CType -> CType -> list byte -> list byte)
         (b : Band) (a : RasterIOArgs) (s s' : IOState),
    eRWFlag a = GF_Read ->
    is_window_case a = true ->
    known_type (eDataType b) = true -> known_type (eBufType a) = true ->
    0 < nBlockXSize b -> 0 < nBlockYSize b ->
    0 <= nXOff a -> 0 <= nYOff a -> nBufXSize a + nXOff a <= INT_MAX ->
    nXOff a + nXSize a <= nRasterXSize b ->
    buffer_layout a ->
    IRasterIO cfg i2f32 i2f64 fconv b a s = Some (CE_None, s') ->
    forall i j, 0 <= i < nBufXSize a -> 0 <= j < nBufYSize a ->
      buf_pixel a s' i j
      = pixel_bytes i2f32 i2f64 fconv (eDataType b) (eBufType a)
          (raster_pixel b s (nXOff a + i) (nYOff a + j)).
Proof.
  intros cfg i2f32 i2f64 fconv b a s s' Hr Hcase Hband Hbuf Hbw Hbh Hx Hy Hmax Hfit Hlay E
         i j Hi Hj.
  destruct (@one_to_one_read_filled cfg i2f32 i2f64 fconv b a s s' Hr Hcase Hband Hbuf
              Hbw Hbh Hx Hy Hmax Hfit ltac:(lia) Hlay E) as [_ F].
  apply F; try assumption. exact I.
Qed.

(* ------------------------------------------------------------------ *)
(** ** What a 1:1 write transfers *)

Lemma blocks_GetLockedBlockRef_other (b : Band) (x y : Z) (ji : bool) (s : IOState)
    (x' y' : Z) :
  x' <> x \/ y' <> y ->
  blocks (snd (GetLockedBlockRef b x y ji s)) x' y' = blocks s x' y'.
Proof.
  intro N. unfold GetLockedBlockRef. cbv zeta.
  destruct (block_ok _ _ _ _ _); [|reflexivity]. cbn [snd].
  destruct (_ && _); [|reflexivity]. cbn [set_block blocks log].
  replace ((x' =? x) && (y' =? y)) with false; [reflexivity|].
  symmetry. apply andb_false_iff. rewrite !Z.eqb_neq. exact N.
Qed.

Section Write.

Variable cfg : BuildConfig.
Variable i2f32 : Z -> list byte.
Variable i2f64 : Z -> list byte.
Variable fconv : CType -> CType -> list byte -> list byte.
Variable b : Band.
Variable a : RasterIOArgs.
Variable s0 : IOState.

Hypothesis Hwrite : is_write (eRWFlag a) = true.
Hypothesis Hband : known_type (eDataType b) = true.
Hypothesis Hbuf : known_type (eBufType a) = true.
Hypothesis Hbw : 0 < nBlockXSize b.
Hypothesis Hbh : 0 < nBlockYSize b.

Lemma stored_same (s s1 : IOState) (P : Z -> Z -> Prop) :
  buf s1 = buf s -> blocks s1 = blocks s ->
  stored i2f32 i2f64 fconv b a s0 s P -> stored i2f32 i2f64 fconv b a s0 s1 P.
Proof.
  intros Eb Ek [Hb Hp]. split; [congruence|].
  intros i j Hi Hj HP. unfold raster_pixel. rewrite Ek. apply Hp; assumption.
Qed.

Lemma stored_weaken (s : IOState) (P P' : Z -> Z -> Prop) :
  (forall i j, 0 <= i < nBufXSize a -> 0 <= j < nBufYSize a -> P' i j -> P i j) ->
  stored i2f32 i2f64 fconv b a s0 s P -> stored i2f32 i2f64 fconv b a s0 s P'.
Proof.
  intros H [Hk Hp]. split; [exact Hk|]. intros i j Hi Hj HP. apply Hp; auto.
Qed.

(** A step that changes block [(x, y)] only keeps the pixels stored in
    the other blocks. *)
Lemma stored_other_block (s s1 : IOState) (P : Z -> Z -> Prop) (x y : Z) :
  buf s1 = buf s ->
  (forall x' y', x' <> x \/ y' <> y -> blocks s1 x' y' = blocks s x' y') ->
  (forall i j, 0 <= i < nBufXSize a -> 0 <= j < nBufYSize a -> P i j ->
     Z.quot (nXOff a + i) (nBlockXSize b) <> x
     \/ Z.quot (nYOff a + j) (nBlockYSize b) <> y) ->
  stored i2f32 i2f64 fconv b a s0 s P -> stored i2f32 i2f64 fconv b a s0 s1 P.
Proof.
  intros Eb Ek Hout [Hb Hp]. split; [congruence|].
  intros i j Hi Hj HP. rewrite <- (Hp i j Hi Hj HP).
  unfold raster_pixel. cbv zeta. rewrite Ek by (apply Hout; assumption). reflexivity.
Qed.

(** A run of [n] pixels of line [j] of the buffer, from column [i] on,
    written to the block [(x, y)] that holds them. *)
Lemma run_stored (s : IOState) (P : Z -> Z -> Prop) (x y i j n : Z) (m1 : mem) :
  0 <= i -> i + n <= nBufXSize a -> 0 <= j < nBufYSize a ->
  0 <= nXOff a -> 0 <= nYOff a ->
  x * nBlockXSize b <= nXOff a + i -> nXOff a + i + n <= (x + 1) * nBlockXSize b ->
  y * nBlockYSize b <= nYOff a + j < (y + 1) * nBlockYSize b ->
  (forall k, 0 <= k < n ->
     load_bytes m1
       ((nXOff a + i - x * nBlockXSize b
         + (nYOff a + j - y * nBlockYSize b) * nBlockXSize b)
        * GDALGetDataTypeSizeBytes (eDataType b)
        + k * GDALGetDataTypeSizeBytes (eDataType b))
       (type_size (eDataType b))
     = pixel_bytes i2f32 i2f64 fconv (eBufType a) (eDataType b)
         (load_bytes (buf s) (buf_addr a (i + k) j) (type_size (eBufType a)))) ->
  (forall o,
     o < (nXOff a + i - x * nBlockXSize b
          + (nYOff a + j - y * nBlockYSize b) * nBlockXSize b)
         * GDALGetDataTypeSizeBytes (eDataType b)
     \/ (nXOff a + i - x * nBlockXSize b
         + (nYOff a + j - y * nBlockYSize b) * nBlockXSize b)
        * GDALGetDataTypeSizeBytes (eDataType b)
        + n * GDALGetDataTypeSizeBytes (eDataType b) <= o ->
     m1 o = blocks s x y o) ->
  (forall i' j', 0 <= i' < nBufXSize a -> 0 <= j' < nBufYSize a -> P i' j' ->
     ~ (j' = j /\ i <= i' < i + n)) ->
  stored i2f32 i2f64 fconv b a s0 s P ->
  stored i2f32 i2f64 fconv b a s0 (set_block x y m1 s)
         (fun i' j' => P i' j' \/ (j' = j /\ i <= i' < i + n)).
Proof.
  intros Hi Hin Hj Hx0 Hy0 Hx1 Hx2 Hy Hhit Hframe Hdis [Hb Hp].
  assert (Hsz := pixel_size_pos _ Hband).
  assert (Esz := @type_size_bytes _ Hband).
  set (bsz := GDALGetDataTypeSizeBytes (eDataType b)) in *.
  set (bw := nBlockXSize b) in *. set (bh := nBlockYSize b) in *.
  split; [exact Hb|]. intros i' j' Hi' Hj' HP.
  assert (Run : {j' = j /\ i <= i' < i + n} + {~ (j' = j /\ i <= i' < i + n)}).
  { destruct (Z.eq_dec j' j); [|right; lia].
    destruct (Z_le_gt_dec i i'); [|right; lia].
    destruct (Z_lt_ge_dec i' (i + n)); [left; lia | right; lia]. }
  destruct Run as [[-> R]|NR].
  - unfold raster_pixel. cbv zeta. fold bw bh bsz.
    rewrite (@quot_in_block (nXOff a + i') bw x) by lia.
    rewrite (@quot_in_block (nYOff a + j) bh y) by lia.
    cbn [set_block blocks]. rewrite !Z.eqb_refl. cbn [andb].
    specialize (Hhit (i' - i) ltac:(lia)).
    replace (i + (i' - i)) with i' in Hhit by lia.
    unfold buf_pixel. rewrite <- Hb, <- Hhit. f_equal. ring.
  - destruct HP as [HP|HP]; [|contradiction]. rewrite <- (Hp i' j' Hi' Hj' HP).
    unfold raster_pixel. cbv zeta. fold bw bh bsz.
    set (x' := Z.quot (nXOff a + i') bw). set (y' := Z.quot (nYOff a + j') bh).
    cbn [set_block blocks].
    destruct ((x' =? x) && (y' =? y)) eqn:B; [|reflexivity].
    apply andb_true_iff in B. destruct B as [B1 B2].
    apply Z.eqb_eq in B1. apply Z.eqb_eq in B2.
    assert (Bx := @quot_block_bounds (nXOff a + i') bw ltac:(lia) Hbw). fold x' in Bx.
    assert (By := @quot_block_bounds (nYOff a + j') bh ltac:(lia) Hbh). fold y' in By.
    rewrite B1 in *. rewrite B2 in *.
    apply load_bytes_ext. intros t Ht. rewrite <- Esz in Ht. apply Hframe.
    set (dx := nXOff a + i' - x * bw) in *. set (dy := nYOff a + j' - y * bh) in *.
    set (dx0 := nXOff a + i - x * bw) in *. set (dy0 := nYOff a + j - y * bh) in *.
    assert (Hdx : 0 <= dx < bw) by (subst dx; lia).
    assert (Hdx0 : 0 <= dx0 /\ dx0 + n <= bw) by (subst dx0; lia).
    destruct (Z.lt_trichotomy dy dy0) as [C|[C|C]].
    + left. assert ((dy + 1) * bw <= dy0 * bw) by (apply Z.mul_le_mono_nonneg_r; lia).
      assert ((dx + dy * bw + 1) * bsz <= (dx0 + dy0 * bw) * bsz)
        by (apply Z.mul_le_mono_nonneg_r; lia).
      lia.
    + assert (j' = j) by (subst dy dy0; lia). subst j'.
      destruct (Z_lt_ge_dec i' i) as [D|D].
      * left. assert ((dx + dy * bw + 1) * bsz <= (dx0 + dy0 * bw) * bsz)
          by (apply Z.mul_le_mono_nonneg_r; subst dx dx0; lia).
        lia.
      * right. assert (i + n <= i') by lia.
        assert ((dx0 + dy0 * bw + n) * bsz <= (dx + dy * bw) * bsz)
          by (apply Z.mul_le_mono_nonneg_r; subst dx dx0; lia).
        lia.
    + right. assert ((dy0 + 1) * bw <= dy * bw) by (apply Z.mul_le_mono_nonneg_r; lia).
      assert ((dx0 + dy0 * bw + n) * bsz <= (dx + dy * bw) * bsz)
        by (apply Z.mul_le_mono_nonneg_r; lia).
      lia.
Qed.


Hypothesis Hx : 0 <= nXOff a.
Hypothesis Hy : 0 <= nYOff a.

Lemma memcpy_rw_stored (s : IOState) (P : Z -> Z -> Prop) (x y i j n off boff : Z) :
  eDataType b = eBufType a ->
  nPixelSpace a = GDALGetDataTypeSizeBytes (eBufType a) ->
  0 <= i -> i + n <= nBufXSize a -> 0 <= j < nBufYSize a ->
  x * nBlockXSize b <= nXOff a + i -> nXOff a + i + n <= (x + 1) * nBlockXSize b ->
  y * nBlockYSize b <= nYOff a + j < (y + 1) * nBlockYSize b ->
  off = (nXOff a + i - x * nBlockXSize b
         + (nYOff a + j - y * nBlockYSize b) * nBlockXSize b)
        * GDALGetDataTypeSizeBytes (eDataType b) ->
  boff = j * nLineSpace a + i * nPixelSpace a ->
  (forall i' j', 0 <= i' < nBufXSize a -> 0 <= j' < nBufYSize a -> P i' j' ->
     ~ (j' = j /\ i <= i' < i + n)) ->
  stored i2f32 i2f64 fconv b a s0 s P ->
  stored i2f32 i2f64 fconv b a s0 (memcpy_rw a x y off boff (n * nPixelSpace a) s)
         (fun i' j' => P i' j' \/ (j' = j /\ i <= i' < i + n)).
Proof.
  intros Et Eps Hi Hin Hj Hx1 Hx2 Hy1 -> -> Hdis F.
  assert (Hsz := pixel_size_pos _ Hbuf).
  assert (Esz := @type_size_bytes _ Hbuf).
  unfold memcpy_rw. rewrite Hwrite.
  apply run_stored; try assumption.
  - intros k Hk.
    assert ((k + 1) * nPixelSpace a <= n * nPixelSpace a)
      by (apply Z.mul_le_mono_nonneg_r; lia).
    rewrite Et in *.
    rewrite load_bytes_memcpy_in by lia.
    rewrite pixel_bytes_same by apply load_bytes_length.
    f_equal. unfold buf_addr. rewrite Eps. ring.
  - intros o Ho. apply memcpy_frame. rewrite Eps. rewrite Et in *. exact Ho.
Qed.

Lemma copy_words_rw_stored (s : IOState) (P : Z -> Z -> Prop) (x y i j n off boff : Z) :
  0 <= i -> i + n <= nBufXSize a -> 0 <= j < nBufYSize a ->
  x * nBlockXSize b <= nXOff a + i -> nXOff a + i + n <= (x + 1) * nBlockXSize b ->
  y * nBlockYSize b <= nYOff a + j < (y + 1) * nBlockYSize b ->
  off = (nXOff a + i - x * nBlockXSize b
         + (nYOff a + j - y * nBlockYSize b) * nBlockXSize b)
        * GDALGetDataTypeSizeBytes (eDataType b) ->
  boff = j * nLineSpace a + i * nPixelSpace a ->
  (forall i' j', 0 <= i' < nBufXSize a -> 0 <= j' < nBufYSize a -> P i' j' ->
     ~ (j' = j /\ i <= i' < i + n)) ->
  stored i2f32 i2f64 fconv b a s0 s P ->
  stored i2f32 i2f64 fconv b a s0 (copy_words_rw cfg i2f32 i2f64 fconv b a x y off boff n s)
         (fun i' j' => P i' j' \/ (j' = j /\ i <= i' < i + n)).
Proof.
  intros Hi Hin Hj Hx1 Hx2 Hy1 -> -> Hdis F.
  assert (Hsz := pixel_size_pos _ Hband).
  unfold copy_words_rw. rewrite Hwrite.
  apply run_stored; try assumption.
  - intros k Hk. unfold type_size.
    rewrite (@GDALCopyWords_pixel_at cfg i2f32 i2f64 fconv (eBufType a) (eDataType b)
               (buf s) _ _ (blocks s x y) _ (GDALGetDataTypeSizeBytes (eDataType b)) n k
               Hbuf Hband) by lia.
    do 2 f_equal. unfold buf_addr. ring.
  - intros o Ho. apply GDALCopyWords_frame; assumption.
Qed.


Hypothesis Hmax : nBufXSize a + nXOff a <= INT_MAX.
Hypothesis Hw : 0 <= nBufXSize a.

Lemma quot_below (v w k : Z) : 0 < w -> 0 <= v -> v < k * w -> Z.quot v w <> k.
Proof.
  intros Hw0 Hv H E. assert (B := @quot_block_bounds v w Hv Hw0). rewrite E in B. lia.
Qed.

(** Fetching block [(x, y)] for a write, marking it dirty and zeroing it
    keep what is stored in the other blocks. *)
Lemma stored_fetch (s : IOState) (P : Z -> Z -> Prop) (x y : Z) (ji mz : bool) :
  (forall i j, 0 <= i < nBufXSize a -> 0 <= j < nBufYSize a -> P i j ->
     Z.quot (nXOff a + i) (nBlockXSize b) <> x
     \/ Z.quot (nYOff a + j) (nBlockYSize b) <> y) ->
  stored i2f32 i2f64 fconv b a s0 s P ->
  stored i2f32 i2f64 fconv b a s0
    (let s1 := MarkDirty x y (snd (GetLockedBlockRef b x y ji s)) in
     if mz then zero_block b x y s1 else s1) P.
Proof.
  intros Hout F. apply stored_other_block with (s := s) (x := x) (y := y);
    try assumption; cbv zeta.
  - destruct mz; unfold zero_block, set_block, MarkDirty, log; cbn [buf];
      apply buf_GetLockedBlockRef.
  - intros x' y' N.
    destruct mz; unfold zero_block, set_block, MarkDirty, log; cbn [blocks];
      [replace ((x' =? x) && (y' =? y)) with false
         by (symmetry; apply andb_false_iff; rewrite !Z.eqb_neq; exact N)|];
      apply blocks_GetLockedBlockRef_other; exact N.
Qed.

Lemma window_inner_body_stored (J : Z) (st : Z * Z * Z * IOState) :
  0 <= J < nBufYSize a ->
  J = 0 \/ Z.rem (J + nYOff a) (nBlockYSize b) = 0 ->
  let kmax := Z.min (nBlockYSize b - Z.rem (J + nYOff a) (nBlockYSize b))
                    (nBufYSize a - J) in
  let Inner := fun st : Z * Z * Z * IOState =>
    let '(iSrcX, bx, boff, s) := st in
    nXOff a <= iSrcX <= nBufXSize a + nXOff a
    /\ boff = J * nLineSpace a + (iSrcX - nXOff a) * nPixelSpace a
    /\ (iSrcX < nBufXSize a + nXOff a ->
        bx * nBlockXSize b <= iSrcX < (bx + 1) * nBlockXSize b
        /\ (iSrcX = nXOff a \/ iSrcX = bx * nBlockXSize b))
    /\ stored i2f32 i2f64 fconv b a s0 s
         (fun i j => j < J \/ (J <= j < J + kmax /\ i < iSrcX - nXOff a)) in
  Inner st ->
  (let '(iSrcX, _, _, _) := st in iSrcX <? nBufXSize a + nXOff a) = true ->
  ctl_next Inner (fun e _ => e <> CE_None)
    (window_inner_body cfg i2f32 i2f64 fconv b a J (J + nYOff a)
       (Z.quot (J + nYOff a) (nBlockYSize b)) (nBufXSize a + nXOff a) st).
Proof.
  intros HJ HJrow kmax Inner. destruct st as [[[iSrcX bx] boff] s].
  intros (Hrange & Hboff & Hblk & F) C. apply Z.ltb_lt in C.
  destruct (Hblk C) as [Hblk1 Hstart]. clear Hblk.
  unfold window_inner_body. cbv zeta. rewrite Hwrite.
  assert (F2 : stored i2f32 i2f64 fconv b a s0 (snd (Interrupted b s))
                 (fun i j => j < J \/ (J <= j < J + kmax /\ i < iSrcX - nXOff a)))
    by (apply stored_same with (s := s);
        [apply buf_Interrupted | apply blocks_Interrupted | exact F]).
  destruct (Interrupted b s) as [intr s2]. cbn [snd] in F2.
  destruct intr; [cbn [ctl_next]; discriminate|].
  set (y := Z.quot (J + nYOff a) (nBlockYSize b)) in *.
  assert (Hrem := Z.rem_bound_pos (J + nYOff a) (nBlockYSize b) ltac:(lia) Hbh).
  assert (Hqr := Z.quot_rem' (J + nYOff a) (nBlockYSize b)). fold y in Hqr.
  assert (Hout : forall i j, 0 <= i < nBufXSize a -> 0 <= j < nBufYSize a ->
             j < J \/ (J <= j < J + kmax /\ i < iSrcX - nXOff a) ->
             Z.quot (nXOff a + i) (nBlockXSize b) <> bx
             \/ Z.quot (nYOff a + j) (nBlockYSize b) <> y).
  { intros i j Hi Hj [A|[A1 A2]].
    - right. apply quot_below; lia.
    - left. apply quot_below; lia. }
  match goal with |- context [GetLockedBlockRef b bx y ?ji s2] =>
    match goal with |- context [if ?mz then zero_block b bx y _ else _] =>
      assert (F3 := @stored_fetch s2 _ bx y ji mz Hout F2);
      destruct (GetLockedBlockRef b bx y ji s2) as [ok s3]
    end end.
  cbv zeta in F3. cbn [snd] in F3.
  destruct ok; cbn [negb ctl_next]; [|discriminate].
  set (nXRight := if bx * nBlockXSize b <? INT_MAX - nBlockXSize b
                  then bx * nBlockXSize b + nBlockXSize b else INT_MAX) in *.
  set (E := if nXRight <? nBufXSize a + nXOff a then nXRight else nBufXSize a + nXOff a)
    in *.
  assert (HE : iSrcX < E <= nBufXSize a + nXOff a
               /\ E <= (bx + 1) * nBlockXSize b
               /\ (E < nBufXSize a + nXOff a -> E = (bx + 1) * nBlockXSize b)).
  { subst E nXRight. unfold INT_MAX in *.
    destruct (Z.ltb_spec (bx * nBlockXSize b) (2147483647 - nBlockXSize b));
      match goal with |- context [if ?u <? ?v then _ else _] => destruct (Z.ltb_spec u v) end;
      lia. }
  destruct HE as (HE1 & HE2 & HE3).
  assert (Hkmax : 1 <= kmax <= nBufYSize a - J) by (subst kmax; lia).
  assert (Hkrow : kmax <= nBlockYSize b - Z.rem (J + nYOff a) (nBlockYSize b))
    by (subst kmax; lia).
  match goal with |- context [for_loop (Z.to_nat ?km) 0 ?f ?s4] =>
    assert (FL : stored i2f32 i2f64 fconv b a s0 (for_loop (Z.to_nat km) 0 f s4)
                   (fun i j => (j < J \/ (J <= j < J + kmax /\ i < iSrcX - nXOff a))
                               \/ (J <= j < J + km
                                   /\ iSrcX - nXOff a <= i < E - nXOff a)));
    [| generalize dependent (for_loop (Z.to_nat km) 0 f s4) ] end.
  - fold kmax.
    assert (G := @for_loop_indexed IOState
                   (fun k s' => stored i2f32 i2f64 fconv b a s0 s'
                      (fun i j => (j < J \/ (J <= j < J + kmax /\ i < iSrcX - nXOff a))
                                  \/ (J <= j < J + k
                                      /\ iSrcX - nXOff a <= i < E - nXOff a)))).
    match goal with |- stored _ _ _ _ _ _ (for_loop ?n 0 ?f ?s4) _ =>
      specialize (G f n 0 s4) end.
    rewrite Z2Nat.id, Z.add_0_l in G by lia. apply G; clear G.
    + intros k s' Hk Fk.
      destruct (GDALDataType_eqb (eDataType b) (eBufType a)
                && (nPixelSpace a =? GDALGetDataTypeSizeBytes (eBufType a))) eqn:M.
      * apply andb_true_iff in M. destruct M as [M1 M2].
        apply GDALDataType_eqb_eq in M1. apply Z.eqb_eq in M2.
        eapply stored_weaken;
          [| eapply memcpy_rw_stored with (s := s') (x := bx) (y := y)
                 (i := iSrcX - nXOff a) (j := J + k) (n := E - iSrcX);
             try eassumption; try lia ].
        -- cbv beta. intros i j Hi Hj [A|A]; [left; left; exact A|].
           destruct (Z.eq_dec j (J + k)) as [->|N]; [right; lia | left; right; lia].
        -- cbv beta. intros i j Hi Hj A. lia.
      * eapply stored_weaken;
          [| eapply copy_words_rw_stored with (s := s') (x := bx) (y := y)
                 (i := iSrcX - nXOff a) (j := J + k) (n := E - iSrcX);
             try eassumption; try lia ].
        -- cbv beta. intros i j Hi Hj [A|A]; [left; left; exact A|].
           destruct (Z.eq_dec j (J + k)) as [->|N]; [right; lia | left; right; lia].
        -- cbv beta. intros i j Hi Hj A. lia.
    + eapply stored_weaken; [|exact F3]. cbv beta. intros i j Hi Hj [A|A]; [exact A | lia].
  - intros s4 F4. fold E.
    replace (iSrcX + (E - iSrcX)) with E by lia.
    split; [lia|]. split; [rewrite Hboff; ring|]. split.
    + intro L. rewrite (HE3 L). split; [lia | right; ring].
    + apply stored_same with (s := s4); [apply buf_DropLock | apply blocks_DropLock |].
      eapply stored_weaken; [|exact F4]. cbv beta.
      intros i j Hi Hj [A|[A1 A2]]; [left; left; exact A|].
      destruct (Z_lt_ge_dec i (iSrcX - nXOff a)); [left; right; lia | right; lia].
Qed.


Lemma window_outer_body_stored (st : Z * Z * IOState) :
  let Outer := fun st : Z * Z * IOState =>
    let '(J, iSrcY, s) := st in
    0 <= J /\ iSrcY = J + nYOff a
    /\ (J = 0 \/ Z.rem (J + nYOff a) (nBlockYSize b) = 0)
    /\ stored i2f32 i2f64 fconv b a s0 s (fun _ j => j < J) in
  Outer st ->
  (let '(J, _, _) := st in J <? nBufYSize a) = true ->
  ctl_next Outer (fun e _ => e <> CE_None) (window_outer_body cfg i2f32 i2f64 fconv b a st).
Proof.
  intro Outer. destruct st as [[J iSrcY] s]. subst Outer. cbv beta iota.
  intros (HJ0 & E0 & HJrow & F) C. subst iSrcY.
  apply Z.ltb_lt in C. unfold window_outer_body. cbv zeta.
  assert (In := fun st => @window_inner_body_stored J st (conj HJ0 C) HJrow).
  cbv zeta in In.
  set (kmax := Z.min (nBlockYSize b - Z.rem (J + nYOff a) (nBlockYSize b))
                     (nBufYSize a - J)) in *.
  assert (Hrem := Z.rem_bound_pos (J + nYOff a) (nBlockYSize b) ltac:(lia) Hbh).
  assert (Hnext : Z.rem (J + (nBlockYSize b - Z.rem (J + nYOff a) (nBlockYSize b))
                         + nYOff a) (nBlockYSize b) = 0).
  { assert (Hqr := Z.quot_rem' (J + nYOff a) (nBlockYSize b)).
    replace (J + (nBlockYSize b - Z.rem (J + nYOff a) (nBlockYSize b)) + nYOff a)
      with ((Z.quot (J + nYOff a) (nBlockYSize b) + 1) * nBlockYSize b) by lia.
    apply Z.rem_mul. lia. }
  assert (I0 : nXOff a <= nXOff a <= nBufXSize a + nXOff a
               /\ J * nLineSpace a = J * nLineSpace a + (nXOff a - nXOff a) * nPixelSpace a
               /\ (nXOff a < nBufXSize a + nXOff a ->
                   Z.quot (nXOff a) (nBlockXSize b) * nBlockXSize b <= nXOff a
                     < (Z.quot (nXOff a) (nBlockXSize b) + 1) * nBlockXSize b
                   /\ (nXOff a = nXOff a
                       \/ nXOff a = Z.quot (nXOff a) (nBlockXSize b) * nBlockXSize b))
               /\ stored i2f32 i2f64 fconv b a s0 s
                    (fun i j => j < J \/ (J <= j < J + kmax /\ i < nXOff a - nXOff a))).
  { split; [lia|]. split; [ring|]. split.
    - intro L. split; [apply quot_block_bounds; lia | left; reflexivity].
    - eapply stored_weaken; [|exact F]. cbv beta. intros i j Hi Hj [A|A]; [exact A | lia]. }
  match goal with |- context [while_ctl ?n ?c ?body ?st0] =>
    assert (W := @while_ctl_next _ _ (fun e (_ : IOState) => e <> CE_None) c body
                   (fun st I C' => In st I C') n st0 I0);
    destruct (while_ctl n c body st0) as [[[[x bx] o] s1] | [[[x bx] o] s1] | e s1 |] end;
    cbn [ctl_next] in W |- *.
  - destruct W as [(Hr & _ & _ & F1) C1].
    apply Z.ltb_ge in C1.
    assert (F2 : stored i2f32 i2f64 fconv b a s0 s1 (fun _ j => j < J + kmax)).
    { eapply stored_weaken; [|exact F1]. cbv beta. intros i j Hi Hj A.
      destruct (Z_lt_ge_dec j J); [left; assumption | right; lia]. }
    match goal with |- context [progress_stops a ?q s1] =>
      assert (F3 : stored i2f32 i2f64 fconv b a s0 (snd (progress_stops a q s1))
                     (fun _ j => j < J + kmax))
        by (apply stored_same with (s := s1);
            [apply buf_progress_stops | apply blocks_progress_stops | exact F2]);
      destruct (progress_stops a q s1) as [stop s2] end.
    cbn [snd] in F3. destruct stop; cbn [ctl_next]; [discriminate|].
    split; [lia|]. split; [ring|]. split; [right; exact Hnext|].
    eapply stored_weaken; [|exact F3]. cbv beta. intros i j Hi Hj A. subst kmax. lia.
  - exfalso. exact W.
  - exact W.
  - exact I.
Qed.

Lemma IRasterIO_window_stored (s' : IOState) :
  IRasterIO_window cfg i2f32 i2f64 fconv b a s0 = Some (CE_None, s') ->
  stored i2f32 i2f64 fconv b a s0 s' (fun _ _ => True).
Proof.
  unfold IRasterIO_window.
  assert (I0 : 0 <= 0 /\ nYOff a = 0 + nYOff a
               /\ (0 = 0 \/ Z.rem (0 + nYOff a) (nBlockYSize b) = 0)
               /\ stored i2f32 i2f64 fconv b a s0 s0 (fun _ j => j < 0)).
  { split; [lia|]. split; [ring|]. split; [left; reflexivity|].
    split; [reflexivity|]. intros i j Hi Hj A. lia. }
  match goal with |- context [while_ctl ?n ?c ?body ?st0] =>
    assert (W := @while_ctl_next _ _ (fun e (_ : IOState) => e <> CE_None) c body
                   (fun st I C' => @window_outer_body_stored st I C') n st0 I0);
    destruct (while_ctl n c body st0) as [[[J y] s1] | [[J y] s1] | e s1 |] end;
    cbn [ctl_next] in W; intro E; inversion E; subst.
  - destruct W as [(_ & _ & _ & F) C].
    apply Z.ltb_ge in C. eapply stored_weaken; [|exact F]. cbv beta. intros. lia.
  - exfalso. exact W.
  - exfalso. apply W. reflexivity.
Qed.


(** The packed full-width case. *)
Lemma packed_body_stored (i : Z) (st : CPLErr * option (Z * Z) * Z * IOState) :
  nPixelSpace a = GDALGetDataTypeSizeBytes (eBufType a) ->
  nLineSpace a = nPixelSpace a * nBufXSize a ->
  nXOff a + nBufXSize a <= nBlockXSize b ->
  0 <= i < nBufYSize a ->
  (let '(e, _, yb, s) := st in
   e = CE_None
   /\ (i = 0 \/ yb * nBlockYSize b <= nYOff a + i - 1 < (yb + 1) * nBlockYSize b)
   /\ stored i2f32 i2f64 fconv b a s0 s (fun _ j => j < i)) ->
  match packed_body cfg i2f32 i2f64 fconv b a i st with
  | Next (e, _, yb, s) =>
      e = CE_None
      /\ (i + 1 = 0
          \/ yb * nBlockYSize b <= nYOff a + (i + 1) - 1 < (yb + 1) * nBlockYSize b)
      /\ stored i2f32 i2f64 fconv b a s0 s (fun _ j => j < i + 1)
  | Break (e, _, _, _) => e <> CE_None
  | Return e _ => e <> CE_None
  | Fuel => True
  end.
Proof.
  intros Eps Els Hfit Hi. destruct st as [[[e p] yb] s]. intros (-> & Hyb & F).
  assert (Row : forall (p' : option (Z * Z)) (y : Z) (s1 : IOState),
            y * nBlockYSize b <= i + nYOff a < (y + 1) * nBlockYSize b ->
            stored i2f32 i2f64 fconv b a s0 s1 (fun _ j => j < i) ->
            match packed_copy_row cfg i2f32 i2f64 fconv b a i CE_None p' y s1 with
            | Next (e, _, yb, s) =>
                e = CE_None
                /\ (i + 1 = 0
                    \/ yb * nBlockYSize b <= nYOff a + (i + 1) - 1
                         < (yb + 1) * nBlockYSize b)
                /\ stored i2f32 i2f64 fconv b a s0 s (fun _ j => j < i + 1)
            | Break (e, _, _, _) => e <> CE_None
            | Return e _ => e <> CE_None
            | Fuel => True
            end).
  { intros p' y s1 Hy1 F1. unfold packed_copy_row. cbv zeta.
    match goal with |- context [progress_stops a ?q ?s2] =>
      assert (F2 : stored i2f32 i2f64 fconv b a s0 s2 (fun _ j => j < i + 1));
      [| assert (F3 : stored i2f32 i2f64 fconv b a s0 (snd (progress_stops a q s2))
                        (fun _ j => j < i + 1))
           by (apply stored_same with (s := s2);
               [apply buf_progress_stops | apply blocks_progress_stops | exact F2]);
         destruct (progress_stops a q s2) as [stop s3] ] end.
    - destruct (GDALDataType_eqb (eDataType b) (eBufType a)) eqn:M.
      + apply GDALDataType_eqb_eq in M.
        replace (nLineSpace a) with (nBufXSize a * nPixelSpace a) at 2 by lia.
        eapply stored_weaken;
          [| eapply memcpy_rw_stored with (s := s1) (x := 0) (y := y)
                 (i := 0) (j := i) (n := nBufXSize a);
             try eassumption; try lia ].
        * cbv beta. intros i' j Hi' Hj A.
          destruct (Z.eq_dec j i) as [->|N]; [right; lia | left; lia].
        * cbv beta. intros i' j Hi' Hj A. lia.
      + eapply stored_weaken;
          [| eapply copy_words_rw_stored with (s := s1) (x := 0) (y := y)
                 (i := 0) (j := i) (n := nBufXSize a);
             try eassumption; try lia ].
        * cbv beta. intros i' j Hi' Hj A.
          destruct (Z.eq_dec j i) as [->|N]; [right; lia | left; lia].
        * cbv beta. intros i' j Hi' Hj A. lia.
    - cbn [snd] in F3. destruct stop; [discriminate|].
      split; [reflexivity|]. split; [right; lia | exact F3]. }
  unfold packed_body. cbv zeta.
  destruct ((i + nYOff a <? yb * nBlockYSize b)
            || (yb * nBlockYSize b <=? i + nYOff a - nBlockYSize b)) eqn:C.
  - rewrite Hwrite.
    assert (F1 : stored i2f32 i2f64 fconv b a s0 (snd (Interrupted b (DropLock p s)))
                   (fun _ j => j < i)).
    { apply stored_same with (s := s); [| | exact F].
      - rewrite buf_Interrupted. apply buf_DropLock.
      - rewrite blocks_Interrupted. apply blocks_DropLock. }
    destruct (Interrupted b (DropLock p s)) as [intr s2]. cbn [snd] in F1.
    destruct intr; [discriminate|].
    set (y := Z.quot (i + nYOff a) (nBlockYSize b)) in *.
    assert (Hyq := @quot_block_bounds (i + nYOff a) (nBlockYSize b) ltac:(lia) Hbh).
    fold y in Hyq.
    assert (Hout : forall i' j, 0 <= i' < nBufXSize a -> 0 <= j < nBufYSize a ->
               j < i ->
               Z.quot (nXOff a + i') (nBlockXSize b) <> 0
               \/ Z.quot (nYOff a + j) (nBlockYSize b) <> y).
    { intros i' j Hi' Hj A. right. apply quot_below; try lia.
      destruct Hyb as [Hyb|Hyb]; [lia|].
      apply orb_true_iff in C. destruct C as [C|C];
        [apply Z.ltb_lt in C; lia | apply Z.leb_le in C].
      assert (Ey : i + nYOff a = (yb + 1) * nBlockYSize b) by lia.
      assert (y = yb + 1); [|subst y; lia].
      unfold y. rewrite Ey. apply Z.quot_mul. lia. }
    match goal with |- context [GetLockedBlockRef b 0 y ?ji s2] =>
      match goal with |- context [if ?mz then zero_block b 0 y _ else _] =>
        assert (F3 := @stored_fetch s2 _ 0 y ji mz Hout F1);
        destruct (GetLockedBlockRef b 0 y ji s2) as [ok s3]
      end end.
    cbv zeta in F3. cbn [snd] in F3. destruct ok; cbn [negb]; [|discriminate].
    apply Row; [lia | exact F3].
  - apply orb_false_iff in C. destruct C as [C1 C2].
    apply Z.ltb_ge in C1. apply Z.leb_gt in C2.
    apply Row; [lia | exact F].
Qed.

Lemma IRasterIO_packed_stored (s' : IOState) :
  nPixelSpace a = GDALGetDataTypeSizeBytes (eBufType a) ->
  nLineSpace a = nPixelSpace a * nBufXSize a ->
  nXOff a + nBufXSize a <= nBlockXSize b ->
  IRasterIO_packed cfg i2f32 i2f64 fconv b a s0 = Some (CE_None, s') ->
  stored i2f32 i2f64 fconv b a s0 s' (fun _ _ => True).
Proof.
  intros Eps Els Hfit. unfold IRasterIO_packed.
  assert (G := @for_ctl_indexed _
                 (fun i (st : CPLErr * option (Z * Z) * Z * IOState) =>
                    let '(e, _, yb, s) := st in
                    e = CE_None
                    /\ (i = 0
                        \/ yb * nBlockYSize b <= nYOff a + i - 1 < (yb + 1) * nBlockYSize b)
                    /\ stored i2f32 i2f64 fconv b a s0 s (fun _ j => j < i))
                 (fun st : CPLErr * option (Z * Z) * Z * IOState =>
                    let '(e, _, _, _) := st in e <> CE_None)
                 (fun e (_ : IOState) => e <> CE_None)
                 (packed_body cfg i2f32 i2f64 fconv b a)
                 (Z.to_nat (nBufYSize a)) 0 (CE_None, None, -1, s0)).
  cbv beta iota in G.
  assert (I0 : CE_None = CE_None
               /\ (0 = 0 \/ -1 * nBlockYSize b <= nYOff a + 0 - 1 < (-1 + 1) * nBlockYSize b)
               /\ stored i2f32 i2f64 fconv b a s0 s0 (fun _ j : Z => j < 0)).
  { split; [reflexivity|]. split; [left; reflexivity|].
    split; [reflexivity|]. intros i j Hi Hj A. lia. }
  assert (G' := G (fun i st Hi I => @packed_body_stored i st Eps Els Hfit ltac:(lia) I) I0).
  clear G.
  destruct (for_ctl _ _ _ _) as [[[[e p] y] s1] | [[[e p] y] s1] | e s1 |];
    intro E; inversion E; subst.
  - destruct G' as (_ & _ & F).
    apply stored_same with (s := s1); [apply buf_DropLock | apply blocks_DropLock |].
    eapply stored_weaken; [|exact F]. cbv beta. intros. lia.
  - contradiction G'. reflexivity.
  - contradiction G'. reflexivity.
Qed.

End Write.

(** The cases of [IRasterIO] that serve a 1:1 write. *)
Lemma one_to_one_write_stored (cfg : BuildConfig) (i2f32 i2f64 : Z -> list byte)
    (fconv : CType -> CType -> list byte -> list byte)
    (b : Band) (a : RasterIOArgs) (s s' : IOState) :
  eRWFlag a = GF_Write ->
  is_window_case a = true ->
  known_type (eDataType b) = true -> known_type (eBufType a) = true ->
  0 < nBlockXSize b -> 0 < nBlockYSize b ->
  0 <= nXOff a -> 0 <= nYOff a -> nBufXSize a + nXOff a <= INT_MAX ->
  nXOff a + nXSize a <= nRasterXSize b ->
  0 <= nBufXSize a ->
  IRasterIO cfg i2f32 i2f64 fconv b a s = Some (CE_None, s') ->
  stored i2f32 i2f64 fconv b a s s' (fun _ _ => True).
Proof.
  intros Hr Hcase Hband Hbuf Hbw Hbh Hx Hy Hmax Hfit Hw E.
  assert (Hwrite : is_write (eRWFlag a) = true) by (rewrite Hr; reflexivity).
  assert (Hsz := Hcase). unfold is_window_case in Hsz.
  apply andb_true_iff in Hsz. destruct Hsz as [Hsz _].
  apply andb_true_iff in Hsz. destruct Hsz as [Ex Ey].
  apply Z.eqb_eq in Ex. apply Z.eqb_eq in Ey.
  revert E. unfold IRasterIO. rewrite Hwrite. cbn [andb negb].
  destruct (negb (CPLErr_eqb (eFlushBlockErr s) CE_None)) eqn:Fl.
  { intro E. inversion E as [[E1 E2]]. rewrite E1 in Fl. discriminate Fl. }
  replace ((nBlockXSize b <=? 0) || (nBlockYSize b <=? 0)) with false
    by (symmetry; apply orb_false_iff; split; apply Z.leb_gt; assumption).
  destruct (is_packed_case b a) eqn:Pk.
  - unfold is_packed_case in Pk. rewrite !andb_true_iff, !Z.eqb_eq in Pk.
    destruct Pk as (((((P1 & P2) & P3) & P4) & P5) & _).
    apply IRasterIO_packed_stored; try assumption; try lia.
  - cbv zeta. rewrite andb_false_r. rewrite Hcase.
    apply IRasterIO_window_stored; assumption.
Qed.

(** X22: a successful 1:1 write stores the buffer in the raster: for a
    valid write request whose buffer has the size of the window (the packed
    full-width case and the arbitrary-window case), with known pixel
    types, when [IRasterIO] returns [CE_None] every pixel
    [(nXOff + i, nYOff + j)] of the window holds, in its block, the
    conversion to the band type of pixel [(i, j)] of the buffer, whatever
    the blocks held before and whether they were loaded, just initialised
    or zeroed. *)
Theorem one_to_one_write_stores_the_buffer :
  forall (cfg : BuildConfig) (i2f32 i2f64 : Z -> list byte)
         (fconv : CType -> CType -> list byte -> list byte)
         (b : Band) (a : RasterIOArgs) (s s' : IOState),
    eRWFlag a = GF_Write ->
    is_window_case a = true ->
    known_type (eDataType b) = true -> known_type (eBufType a) = true ->
    0 < nBlockXSize b -> 0 < nBlockYSize b ->
    0 <= nXOff a -> 0 <= nYOff a -> nBufXSize a + nXOff a <= INT_MAX ->
    nXOff a + nXSize a <= nRasterXSize b ->
    IRasterIO cfg i2f32 i2f64 fconv b a s = Some (CE_None, s') ->
    forall i j, 0 <= i < nBufXSize a -> 0 <= j < nBufYSize a ->
      raster_pixel b s' (nXOff a + i) (nYOff a + j)
      = pixel_bytes i2f32 i2f64 fconv (eBufType a) (eDataType b) (buf_pixel a s i j).
Proof.
  intros cfg i2f32 i2f64 fconv b a s s' Hr Hcase Hband Hbuf Hbw Hbh Hx Hy Hmax Hfit E
         i j Hi Hj.
  destruct (@one_to_one_write_stored cfg i2f32 i2f64 fconv b a s s' Hr Hcase Hband Hbuf
              Hbw Hbh Hx Hy Hmax Hfit ltac:(lia) E) as [_ F].
  apply F; try assumption. exact I.
Qed.

(* ------------------------------------------------------------------ *)
(** ** What a write without a 1:1 mapping transfers *)

Lemma fetched_app (x y : Z) (new t : list Event) :
  fetched x y t -> fetched x y (new ++ t).
Proof. intros [ji H]. exists ji. apply in_or_app. right. exact H. Qed.

Lemma trace_progress_stops (a : RasterIOArgs) (q : Q) (s : IOState) :
  exists new, trace (snd (progress_stops a q s)) = new ++ trace s.
Proof.
  unfold progress_stops. destruct (pfnProgress _).
  - cbn [snd log trace]. eexists [_]. reflexivity.
  - exists []. reflexivity.
Qed.

Lemma trace_DropLock (p : option (Z * Z)) (s : IOState) :
  exists new, trace (DropLock p s) = new ++ trace s.
Proof.
  destruct p as [[x y]|]; cbn [DropLock log trace].
  - eexists [_]. reflexivity.
  - exists []. reflexivity.
Qed.

(** A copy of one word stores its conversion, whatever the strides. *)
Lemma GDALCopyWords_one (cfg : BuildConfig) (i2f32 i2f64 : Z -> list byte)
    (fconv : CType -> CType -> list byte -> list byte)
    (eS eD : GDALDataType) (src : mem) (pS sS : Z) (dst : mem) (pD dS : Z) :
  known_type eS = true -> known_type eD = true ->
  GDALCopyWords cfg i2f32 i2f64 fconv src pS eS sS dst pD eD dS 1
  = store_bytes dst pD
      (pixel_bytes i2f32 i2f64 fconv eS eD
         (load_bytes src pS (pixel_size (component_type eS) (GDALDataTypeIsComplex eS)))).
Proof.
  intros HS HD. rewrite GDALCopyWords_is_generic by assumption.
  rewrite GDALCopyWords_generic_stores.
  change (Z.to_nat 1) with 1%nat. cbn [for_loop].
  rewrite !Z.mul_0_l, !Z.add_0_r. reflexivity.
Qed.

Section GWrite.

Variable cfg : BuildConfig.
Variable i2f32 : Z -> list byte.
Variable i2f64 : Z -> list byte.
Variable fconv : CType -> CType -> list byte -> list byte.
Variable b : Band.
Variable a : RasterIOArgs.
Variable s0 : IOState.

Hypothesis Hband : known_type (eDataType b) = true.
Hypothesis Hbuf : known_type (eBufType a) = true.
Hypothesis Hbw : 0 < nBlockXSize b.
Hypothesis Hbh : 0 < nBlockYSize b.
Hypothesis Hx : 0 <= nXOff a.
Hypothesis Hy : 0 <= nYOff a.
Hypothesis Hcache : cache_keeps_blocks b.

Lemma resampled_same (s s1 : IOState) (P : Z -> Z -> Prop) :
  buf s1 = buf s -> blocks s1 = blocks s ->
  (exists new, trace s1 = new ++ trace s) ->
  resampled i2f32 i2f64 fconv b a s0 s P -> resampled i2f32 i2f64 fconv b a s0 s1 P.
Proof.
  intros Eb Ek [new Et] [Hb Hp]. split; [congruence|].
  intros x y Hwx Hwy HP. destruct (Hp x y Hwx Hwy HP) as [F V]. split.
  - rewrite Et. apply fetched_app. exact F.
  - unfold raster_pixel. rewrite Ek. exact V.
Qed.

Lemma resampled_weaken (s : IOState) (P P' : Z -> Z -> Prop) :
  (forall x y, nXOff a <= x < nXOff a + nXSize a ->
               nYOff a <= y < nYOff a + nYSize a -> P' x y -> P x y) ->
  resampled i2f32 i2f64 fconv b a s0 s P -> resampled i2f32 i2f64 fconv b a s0 s P'.
Proof.
  intros H [Hk Hp]. split; [exact Hk|]. intros x y Hwx Hwy HP. apply Hp; auto.
Qed.

(** Fetching a block keeps what was stored: a block that holds stored
    pixels was fetched before, so the cache still has it and it is not
    created anew. *)
Lemma resampled_fetch (s : IOState) (P : Z -> Z -> Prop) (x y : Z) (ji : bool) :
  resampled i2f32 i2f64 fconv b a s0 s P ->
  fst (GetLockedBlockRef b x y ji s) = true ->
  resampled i2f32 i2f64 fconv b a s0 (snd (GetLockedBlockRef b x y ji s)) P
  /\ fetched x y (trace (snd (GetLockedBlockRef b x y ji s))).
Proof.
  intros [Hb Hp]. unfold GetLockedBlockRef. cbv zeta.
  destruct (block_ok b (List.length (trace s)) x y ji) eqn:K;
    cbn [fst snd]; [intros _ | discriminate].
  assert (T : trace (if ji && negb (block_cached b (List.length (trace s)) x y)
                     then set_block x y (block_init b (List.length (trace s)) x y)
                            (log (EvFetch x y ji true) s)
                     else log (EvFetch x y ji true) s)
              = EvFetch x y ji true :: trace s)
    by (destruct (_ && _); reflexivity).
  split; [split|].
  - destruct (_ && _); cbn [set_block log buf]; exact Hb.
  - intros x' y' Hwx Hwy HP. destruct (Hp x' y' Hwx Hwy HP) as [F V]. split.
    + rewrite T. apply (@fetched_app _ _ [_]). exact F.
    + rewrite <- V. unfold raster_pixel. cbv zeta.
      destruct (ji && negb (block_cached b (List.length (trace s)) x y)) eqn:C;
        [|reflexivity].
      cbn [set_block log blocks].
      destruct ((Z.quot x' (nBlockXSize b) =? x) && (Z.quot y' (nBlockYSize b) =? y)) eqn:B;
        [|reflexivity].
      apply andb_true_iff in B. destruct B as [B1 B2].
      apply Z.eqb_eq in B1. apply Z.eqb_eq in B2. rewrite B1, B2 in F.
      rewrite (Hcache F) in C. rewrite andb_false_r in C. discriminate C.
  - rewrite T. exists ji. left. reflexivity.
Qed.


(** One pixel written into the fetched block [(bx, by_)] that holds it. *)
Lemma pixel_resampled (s : IOState) (P : Z -> Z -> Prop) (x y bx by_ : Z) (m1 : mem) :
  nXOff a <= x -> nYOff a <= y ->
  bx * nBlockXSize b <= x < (bx + 1) * nBlockXSize b ->
  by_ * nBlockYSize b <= y < (by_ + 1) * nBlockYSize b ->
  fetched bx by_ (trace s) ->
  load_bytes m1
    ((x - bx * nBlockXSize b + (y - by_ * nBlockYSize b) * nBlockXSize b)
     * GDALGetDataTypeSizeBytes (eDataType b))
    (type_size (eDataType b))
  = pixel_bytes i2f32 i2f64 fconv (eBufType a) (eDataType b)
      (buf_pixel a s (buf_column a x) (buf_line a y)) ->
  (forall o,
     o < (x - bx * nBlockXSize b + (y - by_ * nBlockYSize b) * nBlockXSize b)
         * GDALGetDataTypeSizeBytes (eDataType b)
     \/ (x - bx * nBlockXSize b + (y - by_ * nBlockYSize b) * nBlockXSize b)
        * GDALGetDataTypeSizeBytes (eDataType b)
        + GDALGetDataTypeSizeBytes (eDataType b) <= o ->
     m1 o = blocks s bx by_ o) ->
  resampled i2f32 i2f64 fconv b a s0 s P ->
  resampled i2f32 i2f64 fconv b a s0 (set_block bx by_ m1 s)
            (fun x' y' => P x' y' \/ (x' = x /\ y' = y)).
Proof.
  intros Hx0 Hy0 Hbx Hby Hf Hhit Hframe [Hb Hp].
  assert (Hsz := pixel_size_pos _ Hband).
  assert (Esz := @type_size_bytes _ Hband).
  set (bsz := GDALGetDataTypeSizeBytes (eDataType b)) in *.
  set (bw := nBlockXSize b) in *. set (bh := nBlockYSize b) in *.
  split; [exact Hb|]. intros x' y' Hwx Hwy HP.
  assert (Here : {x' = x /\ y' = y} + {~ (x' = x /\ y' = y)}).
  { destruct (Z.eq_dec x' x); [|right; lia].
    destruct (Z.eq_dec y' y); [left; split; assumption | right; lia]. }
  destruct Here as [[-> ->]|NR].
  - unfold raster_pixel. cbv zeta. fold bw bh bsz.
    rewrite (@quot_in_block x bw bx) by lia.
    rewrite (@quot_in_block y bh by_) by lia.
    split; [exact Hf|].
    cbn [set_block blocks]. rewrite !Z.eqb_refl. cbn [andb].
    rewrite Hhit. unfold buf_pixel. rewrite Hb. reflexivity.
  - destruct HP as [HP|HP]; [|contradiction].
    destruct (Hp x' y' Hwx Hwy HP) as [F V]. split; [exact F|].
    rewrite <- V. unfold raster_pixel. cbv zeta. fold bw bh bsz.
    set (qx := Z.quot x' bw). set (qy := Z.quot y' bh).
    cbn [set_block blocks].
    destruct ((qx =? bx) && (qy =? by_)) eqn:B; [|reflexivity].
    apply andb_true_iff in B. destruct B as [B1 B2].
    apply Z.eqb_eq in B1. apply Z.eqb_eq in B2.
    assert (Bx := @quot_block_bounds x' bw ltac:(lia) Hbw). fold qx in Bx.
    assert (By := @quot_block_bounds y' bh ltac:(lia) Hbh). fold qy in By.
    rewrite B1 in *. rewrite B2 in *.
    apply load_bytes_ext. intros t Ht. rewrite <- Esz in Ht. apply Hframe.
    set (dx := x' - bx * bw) in *. set (dy := y' - by_ * bh) in *.
    set (dx0 := x - bx * bw) in *. set (dy0 := y - by_ * bh) in *.
    assert (Hdx : 0 <= dx < bw) by (subst dx; lia).
    assert (Hdx0 : 0 <= dx0 < bw) by (subst dx0; lia).
    destruct (Z.lt_trichotomy dy dy0) as [C|[C|C]].
    + left. assert ((dy + 1) * bw <= dy0 * bw) by (apply Z.mul_le_mono_nonneg_r; lia).
      assert ((dx + dy * bw + 1) * bsz <= (dx0 + dy0 * bw) * bsz)
        by (apply Z.mul_le_mono_nonneg_r; lia).
      lia.
    + assert (y' = y) by (subst dy dy0; lia). subst y'.
      destruct (Z_lt_ge_dec x' x) as [D|D].
      * left. assert ((dx + dy * bw + 1) * bsz <= (dx0 + dy0 * bw) * bsz)
          by (apply Z.mul_le_mono_nonneg_r; subst dx dx0; lia).
        lia.
      * right. assert (x + 1 <= x') by lia.
        assert ((dx0 + dy0 * bw + 1) * bsz <= (dx + dy * bw) * bsz)
          by (apply Z.mul_le_mono_nonneg_r; subst dx dx0; lia).
        lia.
    + right. assert ((dy0 + 1) * bw <= dy * bw) by (apply Z.mul_le_mono_nonneg_r; lia).
      assert ((dx0 + dy0 * bw + 1) * bsz <= (dx + dy * bw) * bsz)
        by (apply Z.mul_le_mono_nonneg_r; lia).
      lia.
Qed.


(** The copy of one pixel made by the loop over the columns. *)
Lemma gwrite_copy_resampled (s1 : IOState) (P : Z -> Z -> Prop) (x y bx by_ : Z) :
  nXOff a <= x -> nYOff a <= y ->
  bx * nBlockXSize b <= x < (bx + 1) * nBlockXSize b ->
  by_ * nBlockYSize b <= y < (by_ + 1) * nBlockYSize b ->
  fetched bx by_ (trace s1) ->
  resampled i2f32 i2f64 fconv b a s0 s1 P ->
  resampled i2f32 i2f64 fconv b a s0
    (if GDALDataType_eqb (eDataType b) (eBufType a)
     then set_block bx by_
            (memcpy (blocks s1 bx by_)
               ((x - bx * nBlockXSize b + (y - by_ * nBlockYSize b) * nBlockXSize b)
                * GDALGetDataTypeSizeBytes (eDataType b))
               (buf s1)
               (pData a + (buf_line a y * nLineSpace a + buf_column a x * nPixelSpace a))
               (GDALGetDataTypeSizeBytes (eDataType b))) s1
     else set_block bx by_
            (GDALCopyWords cfg i2f32 i2f64 fconv (buf s1)
               (pData a + (buf_line a y * nLineSpace a + buf_column a x * nPixelSpace a))
               (eBufType a) 0 (blocks s1 bx by_)
               ((x - bx * nBlockXSize b + (y - by_ * nBlockYSize b) * nBlockXSize b)
                * GDALGetDataTypeSizeBytes (eDataType b))
               (eDataType b) 0 1) s1)
    (fun x' y' => P x' y' \/ (x' = x /\ y' = y)).
Proof.
  intros Hx0 Hy0 Hbx Hby Hf F.
  assert (Hsz := pixel_size_pos _ Hband).
  assert (Esz := @type_size_bytes _ Hband).
  destruct (GDALDataType_eqb (eDataType b) (eBufType a)) eqn:M.
  - apply GDALDataType_eqb_eq in M.
    apply pixel_resampled; try assumption.
    + rewrite load_bytes_memcpy_in by lia.
      unfold buf_pixel, buf_addr. rewrite <- M.
      rewrite pixel_bytes_same by apply load_bytes_length.
      f_equal. ring.
    + intros o Ho. apply memcpy_frame. exact Ho.
  - apply pixel_resampled; try assumption.
    + rewrite GDALCopyWords_one by assumption. unfold type_size.
      rewrite <- (@pixel_bytes_length i2f32 i2f64 fconv (eBufType a) (eDataType b)
                    (load_bytes (buf s1)
                       (pData a + (buf_line a y * nLineSpace a
                                   + buf_column a x * nPixelSpace a))
                       (pixel_size (component_type (eBufType a))
                          (GDALDataTypeIsComplex (eBufType a))))) at 1.
      rewrite load_bytes_store_bytes. reflexivity.
    + intros o Ho. rewrite GDALCopyWords_one by assumption.
      apply store_bytes_frame. rewrite pixel_bytes_length.
      fold (type_size (eDataType b)). rewrite <- Esz. exact Ho.
Qed.

Lemma gwrite_pixel_resampled (y x : Z) (st : CPLErr * option (Z * Z) * Z * Z * IOState) :
  nYOff a <= y -> nXOff a <= x ->
  (let '(e, _, bx, by_, s) := st in
   e = CE_None /\ (bx < 0 \/ fetched bx by_ (trace s))
   /\ resampled i2f32 i2f64 fconv b a s0 s (fun x' y' => y' < y \/ (y' = y /\ x' < x))) ->
  match gwrite_pixel cfg i2f32 i2f64 fconv b a y (buf_line a y) x st with
  | Next (e, _, bx, by_, s) =>
      e = CE_None /\ (bx < 0 \/ fetched bx by_ (trace s))
      /\ resampled i2f32 i2f64 fconv b a s0 s
           (fun x' y' => y' < y \/ (y' = y /\ x' < x + 1))
  | Break _ => False
  | Return e _ => e <> CE_None
  | Fuel => True
  end.
Proof.
  intros Hy0 Hx0. destruct st as [[[[e p] bx] by_] s]. intros (-> & Hf & F).
  unfold gwrite_pixel. cbv zeta.
  destruct ((x <? bx * nBlockXSize b) || (bx * nBlockXSize b <=? x - nBlockXSize b)
            || (y <? by_ * nBlockYSize b) || (by_ * nBlockYSize b <=? y - nBlockYSize b))
    eqn:C.
  - set (qx := Z.quot x (nBlockXSize b)). set (qy := Z.quot y (nBlockYSize b)).
    assert (Bx := @quot_block_bounds x (nBlockXSize b) ltac:(lia) Hbw). fold qx in Bx.
    assert (By := @quot_block_bounds y (nBlockYSize b) ltac:(lia) Hbh). fold qy in By.
    assert (F1 : resampled i2f32 i2f64 fconv b a s0 (DropLock p s)
                   (fun x' y' => y' < y \/ (y' = y /\ x' < x)))
      by (apply resampled_same with (s := s);
          [apply buf_DropLock | apply blocks_DropLock | apply trace_DropLock | exact F]).
    match goal with |- context [GetLockedBlockRef b qx qy ?ji (DropLock p s)] =>
      assert (F2 := @resampled_fetch (DropLock p s) _ qx qy ji F1);
      destruct (GetLockedBlockRef b qx qy ji (DropLock p s)) as [ok s2] end.
    cbn [fst snd] in F2. destruct ok; cbn [negb]; [|discriminate].
    destruct (F2 eq_refl) as [F3 Hf3]. clear F2.
    split; [reflexivity|]. split.
    + right. cbn [MarkDirty]. destruct (GDALDataType_eqb _ _);
        cbn [set_block log trace]; destruct Hf3 as [ji' I']; exists ji'; right; exact I'.
    + eapply resampled_weaken;
        [| apply gwrite_copy_resampled with (s1 := MarkDirty qx qy s2) (x := x) (y := y)
               (bx := qx) (by_ := qy) (P := fun x' y' => y' < y \/ (y' = y /\ x' < x));
           try assumption ].
      * cbv beta. intros x' y' Hwx Hwy [A|[A1 A2]]; [left; left; exact A|].
        destruct (Z.eq_dec x' x); [right; split; assumption | left; right; lia].
      * destruct Hf3 as [ji' I']. exists ji'. right. exact I'.
      * apply resampled_same with (s := s2); try reflexivity; [|exact F3].
        eexists [_]. reflexivity.
  - apply orb_false_iff in C. destruct C as [C C4].
    apply orb_false_iff in C. destruct C as [C C3].
    apply orb_false_iff in C. destruct C as [C1 C2].
    apply Z.ltb_ge in C1. apply Z.leb_gt in C2. apply Z.ltb_ge in C3. apply Z.leb_gt in C4.
    assert (Hf1 : fetched bx by_ (trace s)).
    { destruct Hf as [N|Hf]; [|exact Hf]. exfalso.
      assert (bx * nBlockXSize b <= -1 * nBlockXSize b)
        by (apply Z.mul_le_mono_nonneg_r; lia).
      lia. }
    split; [reflexivity|]. split.
    + right. destruct (GDALDataType_eqb _ _); cbn [set_block trace]; exact Hf1.
    + eapply resampled_weaken;
        [| apply gwrite_copy_resampled with (s1 := s) (x := x) (y := y)
               (bx := bx) (by_ := by_) (P := fun x' y' => y' < y \/ (y' = y /\ x' < x));
           try assumption; try lia ].
      cbv beta. intros x' y' Hwx Hwy [A|[A1 A2]]; [left; left; exact A|].
      destruct (Z.eq_dec x' x); [right; split; assumption | left; right; lia].
Qed.


Lemma gwrite_row_resampled (y : Z) (st : CPLErr * option (Z * Z) * Z * Z * IOState) :
  nYOff a <= y ->
  (let '(e, _, bx, by_, s) := st in
   e = CE_None /\ (bx < 0 \/ fetched bx by_ (trace s))
   /\ resampled i2f32 i2f64 fconv b a s0 s (fun _ y' => y' < y)) ->
  match gwrite_row cfg i2f32 i2f64 fconv b a y st with
  | Next (e, _, bx, by_, s) =>
      e = CE_None /\ (bx < 0 \/ fetched bx by_ (trace s))
      /\ resampled i2f32 i2f64 fconv b a s0 s (fun _ y' => y' < y + 1)
  | Break (e, _, _, _, _) => e <> CE_None
  | Return e _ => e <> CE_None
  | Fuel => True
  end.
Proof.
  intros Hy0 I0. unfold gwrite_row. cbv zeta.
  assert (G := @for_ctl_indexed _
                 (fun x (st : CPLErr * option (Z * Z) * Z * Z * IOState) =>
                    let '(e, _, bx, by_, s) := st in
                    e = CE_None /\ (bx < 0 \/ fetched bx by_ (trace s))
                    /\ resampled i2f32 i2f64 fconv b a s0 s
                         (fun x' y' => y' < y \/ (y' = y /\ x' < x)))
                 (fun _ => False)
                 (fun e (_ : IOState) => e <> CE_None)
                 (gwrite_pixel cfg i2f32 i2f64 fconv b a y (buf_line a y))
                 (Z.to_nat (nXSize a)) (nXOff a) st).
  cbv beta in G.
  assert (I1 : let '(e, _, bx, by_, s) := st in
               e = CE_None /\ (bx < 0 \/ fetched bx by_ (trace s))
               /\ resampled i2f32 i2f64 fconv b a s0 s
                    (fun x' y' => y' < y \/ (y' = y /\ x' < nXOff a))).
  { destruct st as [[[[e p] bx] by_] s]. destruct I0 as (E & Hf & F).
    split; [exact E|]. split; [exact Hf|].
    eapply resampled_weaken; [|exact F]. cbv beta. intros x' y' Hwx Hwy [A|A]; lia. }
  assert (G' := G (fun x st Hi I => @gwrite_pixel_resampled y x st Hy0 ltac:(lia) I) I1).
  clear G.
  change (trunc (inject_Z (y - nYOff a) / dfSrcYInc a)) with (buf_line a y).
  destruct (for_ctl _ _ _ _) as [[[[[e p] bx] by_] s1] | [[[[e p] bx] by_] s1] | e s1 |];
    try exact G'; [|contradiction].
  destruct G' as (-> & Hf & F).
  match goal with |- context [progress_stops a ?q s1] =>
    assert (F3 : resampled i2f32 i2f64 fconv b a s0 (snd (progress_stops a q s1))
                   (fun x' y' => y' < y
                                 \/ (y' = y /\ x' < nXOff a + Z.of_nat (Z.to_nat (nXSize a)))))
      by (apply resampled_same with (s := s1);
          [apply buf_progress_stops | apply blocks_progress_stops
          | apply trace_progress_stops | exact F]);
    assert (T3 := @trace_progress_stops a q s1);
    destruct (progress_stops a q s1) as [stop s2] end.
  cbn [snd] in F3, T3. destruct stop; [discriminate|].
  split; [reflexivity|]. split.
  - destruct Hf as [N|Hf]; [left; exact N | right].
    destruct T3 as [new ->]. apply fetched_app. exact Hf.
  - eapply resampled_weaken; [|exact F3]. cbv beta. intros x' y' Hwx Hwy A. lia.
Qed.

Lemma IRasterIO_general_write_resampled (s' : IOState) :
  IRasterIO_general_write cfg i2f32 i2f64 fconv b a s0 = Some (CE_None, s') ->
  resampled i2f32 i2f64 fconv b a s0 s' (fun _ _ => True).
Proof.
  unfold IRasterIO_general_write.
  assert (G := @for_ctl_indexed _
                 (fun y (st : CPLErr * option (Z * Z) * Z * Z * IOState) =>
                    let '(e, _, bx, by_, s) := st in
                    e = CE_None /\ (bx < 0 \/ fetched bx by_ (trace s))
                    /\ resampled i2f32 i2f64 fconv b a s0 s (fun _ y' => y' < y))
                 (fun st : CPLErr * option (Z * Z) * Z * Z * IOState =>
                    let '(e, _, _, _, _) := st in e <> CE_None)
                 (fun e (_ : IOState) => e <> CE_None)
                 (gwrite_row cfg i2f32 i2f64 fconv b a)
                 (Z.to_nat (nYSize a)) (nYOff a) (CE_None, None, -1, -1, s0)).
  cbv beta iota in G.
  assert (I0 : CE_None = CE_None /\ (-1 < 0 \/ fetched (-1) (-1) (trace s0))
               /\ resampled i2f32 i2f64 fconv b a s0 s0 (fun _ y' => y' < nYOff a)).
  { split; [reflexivity|]. split; [left; lia|].
    split; [reflexivity|]. intros x y Hwx Hwy A. lia. }
  assert (G' := G (fun y st Hi I => @gwrite_row_resampled y st ltac:(lia) I) I0).
  clear G.
  destruct (for_ctl _ _ _ _) as [[[[[e p] bx] by_] s1] | [[[[e p] bx] by_] s1] | e s1 |];
    intro E; inversion E; subst.
  - destruct G' as (_ & _ & F).
    apply resampled_same with (s := s1);
      [apply buf_DropLock | apply blocks_DropLock | apply trace_DropLock |].
    eapply resampled_weaken; [|exact F]. cbv beta. intros. lia.
  - contradiction G'. reflexivity.
  - contradiction G'. reflexivity.
Qed.

End GWrite.


(* ------------------------------------------------------------------ *)
(** ** Lock discipline of the cases without a 1:1 mapping *)

Section GLocks.

Variable cfg : BuildConfig.
Variable i2f32 : Z -> list byte.
Variable i2f64 : Z -> list byte.
Variable fconv : CType -> CType -> list byte -> list byte.
Variable b : Band.
Variable a : RasterIOArgs.

Lemma gwrite_pixel_locks (iDstY iBufYOff iDstX : Z)
    (st : CPLErr * option (Z * Z) * Z * Z * IOState) :
  (let '(_, p, _, _, s) := st in lock_inv p s) ->
  ctl_post (fun st : CPLErr * option (Z * Z) * Z * Z * IOState =>
              let '(_, p, _, _, s) := st in lock_inv p s)
           ret_inv
           (gwrite_pixel cfg i2f32 i2f64 fconv b a iDstY iBufYOff iDstX st).
Proof.
  destruct st as [[[[e p] bx] by_] s]. intro I. unfold gwrite_pixel. cbv zeta.
  destruct (_ || _).
  - assert (I1 := lock_inv_DropLock I).
    match goal with |- context [GetLockedBlockRef b ?x ?y0 ?ji (DropLock p s)] =>
      assert (G := @lock_inv_GetLockedBlockRef b x y0 ji (DropLock p s) I1);
      destruct (GetLockedBlockRef b x y0 ji (DropLock p s)) as [ok s3] end.
    cbv zeta in G. cbn [fst snd] in G.
    destruct ok; cbn [negb ctl_post]; [|exact G].
    eapply lock_inv_quiet; [exact G|]. eapply quiet_trans; [apply quiet_MarkDirty|].
    apply quiet_same_trace. destruct (GDALDataType_eqb _ _); reflexivity.
  - cbn [ctl_post]. eapply lock_inv_quiet; [exact I|].
    apply quiet_same_trace. destruct (GDALDataType_eqb _ _); reflexivity.
Qed.

Lemma gwrite_row_locks (iDstY : Z) (st : CPLErr * option (Z * Z) * Z * Z * IOState) :
  (let '(_, p, _, _, s) := st in lock_inv p s) ->
  ctl_post (fun st : CPLErr * option (Z * Z) * Z * Z * IOState =>
              let '(_, p, _, _, s) := st in lock_inv p s)
           ret_inv
           (gwrite_row cfg i2f32 i2f64 fconv b a iDstY st).
Proof.
  intro I. unfold gwrite_row. cbv zeta.
  match goal with |- context [for_ctl ?n ?i0 ?body st] =>
    assert (H := @for_ctl_post _
                   (fun st : CPLErr * option (Z * Z) * Z * Z * IOState =>
                      let '(_, p, _, _, s) := st in lock_inv p s)
                   ret_inv body
                   (fun x st' I' => @gwrite_pixel_locks iDstY _ x st' I') n i0 st I);
    destruct (for_ctl n i0 body st)
      as [[[[[e p] bx] by_] s1] | [[[[e p] bx] by_] s1] | e s1 |] end;
    cbn [ctl_post] in H; try exact H.
  - match goal with |- context [progress_stops a ?q s1] =>
      assert (Q := quiet_progress a q s1);
      destruct (progress_stops a q s1) as [stop s2] end.
    cbn [snd] in Q. destruct stop; cbn [ctl_post]; eapply lock_inv_quiet; eassumption.
  - match goal with |- context [progress_stops a ?q s1] =>
      assert (Q := quiet_progress a q s1);
      destruct (progress_stops a q s1) as [stop s2] end.
    cbn [snd] in Q. destruct stop; cbn [ctl_post]; eapply lock_inv_quiet; eassumption.
Qed.

Lemma IRasterIO_general_write_locks (s : IOState) :
  lock_inv None s ->
  exists e s', IRasterIO_general_write cfg i2f32 i2f64 fconv b a s = Some (e, s')
               /\ lock_inv None s'.
Proof.
  intro I. unfold IRasterIO_general_write.
  assert (H := @for_ctl_post _
                 (fun st : CPLErr * option (Z * Z) * Z * Z * IOState =>
                    let '(_, p, _, _, s) := st in lock_inv p s)
                 ret_inv (gwrite_row cfg i2f32 i2f64 fconv b a)
                 gwrite_row_locks (Z.to_nat (nYSize a)) (nYOff a)
                 (CE_None, None, -1, -1, s) I).
  destruct (for_ctl _ _ _ _)
    as [[[[[e p] bx] by_] s'] | [[[[e p] bx] by_] s'] | e s' |]; cbn [ctl_post] in H.
  - exists e, (DropLock p s'). split; [reflexivity | apply lock_inv_DropLock; exact H].
  - exists e, (DropLock p s'). split; [reflexivity | apply lock_inv_DropLock; exact H].
  - exists e, s'. split; [reflexivity | exact H].
  - contradiction.
Qed.

Lemma trace_gread_pixel (x y j sy i0 i : Z) (s : IOState) :
  trace (gread_pixel cfg i2f32 i2f64 fconv b a x y j sy i0 i s) = trace s.
Proof.
  unfold gread_pixel. cbv zeta.
  destruct (_ && _); [reflexivity|]. destruct (GDALDataType_eqb _ _); reflexivity.
Qed.

Lemma gread_row_locks (x y j : Z) (st : CPLErr * option (Z * Z) * IOState) :
  (let '(_, p, s) := st in lock_inv p s) ->
  ctl_post (fun st : CPLErr * option (Z * Z) * IOState =>
              let '(_, p, s) := st in lock_inv p s)
           ret_inv
           (gread_row cfg i2f32 i2f64 fconv b a x y j st).
Proof.
  destruct st as [[e p] s]. intro I. unfold gread_row. cbv zeta.
  match goal with |- context [for_loop ?n ?i0 ?f s] =>
    assert (T : trace (for_loop n i0 f s) = trace s)
      by (apply trace_for_loop; intros; apply trace_gread_pixel);
    generalize dependent (for_loop n i0 f s) end.
  intros s1 T. assert (I1 : lock_inv p s1)
    by (eapply lock_inv_quiet; [exact I | apply quiet_same_trace; exact T]).
  assert (K : forall q,
            ctl_post (fun st : CPLErr * option (Z * Z) * IOState =>
                        let '(_, p, s) := st in lock_inv p s) ret_inv
              (let '(stop, s2) := progress_stops a q s1 in
               if stop then Break (CE_Failure, p, s2) else Next (e, p, s2))).
  { intro q. assert (Q := quiet_progress a q s1).
    destruct (progress_stops a q s1) as [stop s2]. cbn [snd] in Q.
    destruct stop; cbn [ctl_post]; eapply lock_inv_quiet; eassumption. }
  destruct e; try apply K. exact I1.
Qed.


Lemma gread_block_locks (y x : Z) (st : CPLErr * option (Z * Z) * IOState) :
  (let '(_, p, s) := st in lock_inv p s) ->
  ctl_post (fun st : CPLErr * option (Z * Z) * IOState =>
              let '(_, p, s) := st in lock_inv p s)
           ret_inv
           (gread_block cfg i2f32 i2f64 fconv b a y x st).
Proof.
  destruct st as [[e p] s]. intro I. unfold gread_block. cbv zeta.
  assert (I1 := lock_inv_DropLock I).
  assert (Q := quiet_Interrupted b (DropLock p s)).
  destruct (Interrupted b (DropLock p s)) as [intr s2]. cbn [snd] in Q.
  assert (I2 := lock_inv_quiet I1 Q).
  destruct intr; [exact I2|].
  assert (G := @lock_inv_GetLockedBlockRef b x y false s2 I2).
  destruct (GetLockedBlockRef b x y false s2) as [ok s3].
  cbv zeta in G. cbn [fst snd] in G.
  destruct ok; cbn [negb ctl_post]; [|exact G].
  match goal with |- context [for_ctl ?n ?i0 ?body ?st0] =>
    assert (H := @for_ctl_post _
                   (fun st : CPLErr * option (Z * Z) * IOState =>
                      let '(_, p, s) := st in lock_inv p s)
                   ret_inv body
                   (fun j st' I' => @gread_row_locks x y j st' I') n i0 st0 G);
    destruct (for_ctl n i0 body st0) as [st1 | st1 | e1 s1 |] end;
    cbn [ctl_post] in H |- *; exact H.
Qed.

Lemma gread_block_row_locks (x0 x1 y : Z) (st : CPLErr * option (Z * Z) * IOState) :
  (let '(_, p, s) := st in lock_inv p s) ->
  ctl_post (fun st : CPLErr * option (Z * Z) * IOState =>
              let '(_, p, s) := st in lock_inv p s)
           ret_inv
           (gread_block_row cfg i2f32 i2f64 fconv b a x0 x1 y st).
Proof.
  intro I. unfold gread_block_row.
  match goal with |- context [for_ctl ?n ?i0 ?body st] =>
    assert (H := @for_ctl_post _
                   (fun st : CPLErr * option (Z * Z) * IOState =>
                      let '(_, p, s) := st in lock_inv p s)
                   ret_inv body
                   (fun x st' I' => @gread_block_locks y x st' I') n i0 st I);
    destruct (for_ctl n i0 body st) as [st1 | st1 | e1 s1 |] end;
    cbn [ctl_post] in H |- *; exact H.
Qed.

Lemma IRasterIO_general_read_locks (s : IOState) :
  lock_inv None s ->
  exists e s', IRasterIO_general_read cfg i2f32 i2f64 fconv b a s = Some (e, s')
               /\ lock_inv None s'.
Proof.
  intro I. unfold IRasterIO_general_read. cbv zeta.
  match goal with |- context [for_ctl ?n ?i0 ?body ?st0] =>
    assert (H := @for_ctl_post _
                   (fun st : CPLErr * option (Z * Z) * IOState =>
                      let '(_, p, s) := st in lock_inv p s)
                   ret_inv body
                   (fun y st' I' => @gread_block_row_locks _ _ y st' I') n i0 st0 I);
    destruct (for_ctl n i0 body st0) as [[[e p] s'] | [[e p] s'] | e s' |] end;
    cbn [ctl_post] in H.
  - exists e, (DropLock p s'). split; [reflexivity | apply lock_inv_DropLock; exact H].
  - exists e, (DropLock p s'). split; [reflexivity | apply lock_inv_DropLock; exact H].
  - exists e, s'. split; [reflexivity | exact H].
  - contradiction.
Qed.

End GLocks.

(** X24: the cases of [IRasterIO] without a 1:1 mapping keep the lock
    discipline: when the buffer has not the size of an integer window (a
    stored flush error, a bad block size, an overview, the blank buffer of
    GDAL_NO_COSTLY_OVERVIEW, the nearest-neighbour write and read, the
    resampled read), the call returns, and if the trace of the collaborator
    calls obeyed the discipline with no lock held before the call, and the
    requests handed to an overview or to [RasterIOResampled] keep it, then
    it obeys it after the call with no lock held, whether the call
    succeeds, fails or is interrupted. *)
Theorem other_cases_hold_one_lock :
  forall (cfg : BuildConfig) (i2f32 i2f64 : Z -> list byte)
         (fconv : CType -> CType -> list byte -> list byte)
         (b : Band) (a : RasterIOArgs) (s : IOState),
    is_window_case a = false ->
    (forall n a' s1, lock_inv None s1 ->
       lock_inv None (snd (overview_RasterIO b n a' s1))) ->
    (forall a' s1, lock_inv None s1 -> lock_inv None (snd (RasterIOResampled b a' s1))) ->
    lock_inv None s ->
    exists e s',
      IRasterIO cfg i2f32 i2f64 fconv b a s = Some (e, s') /\ lock_inv None s'.
Proof.
  intros cfg i2f32 i2f64 fconv b a s Hcase Hov Hrs I.
  unfold IRasterIO.
  destruct (is_write (eRWFlag a) && negb (CPLErr_eqb (eFlushBlockErr s) CE_None)).
  { exists (eFlushBlockErr s), (set_flush CE_None s). split; [reflexivity | exact I]. }
  destruct ((nBlockXSize b <=? 0) || (nBlockYSize b <=? 0)).
  { exists CE_Failure, s. split; [reflexivity | exact I]. }
  destruct (is_packed_case b a); [apply IRasterIO_packed_locks; exact I|].
  cbv zeta. rewrite Hcase.
  match goal with |- context [if ?c then Some (CE_None, ?z) else ?g] =>
    set (after := if c then Some (CE_None, z) else g);
    assert (A : exists e s', after = Some (e, s') /\ lock_inv None s');
    [subst after; destruct c|] end.
  { eexists _, _. split; [reflexivity | exact I]. }
  { unfold IRasterIO_general.
    destruct (is_write (eRWFlag a)); [apply IRasterIO_general_write_locks; exact I|].
    cbv zeta.
    match goal with |- context [if ?c then IRasterIO_general_read _ _ _ _ _ _ _ else _] =>
      destruct c end.
    - apply IRasterIO_general_read_locks. exact I.
    - specialize (Hrs a s I). destruct (RasterIOResampled b a s) as [e s'].
      exists e, s'. split; [reflexivity | exact Hrs]. }
  clearbody after.
  destruct (_ && _); [|exact A].
  destruct (GDALBandGetBestOverviewLevel2 _ _ _ _ _) as [[lvl w'] ex].
  destruct (0 <=? lvl); [|exact A].
  destruct (nth_error _ _) as [[o|]|]; try (exists CE_Failure, s; split; [reflexivity | exact I]).
  destruct ex as [e0|]; [|exists CE_Failure, s; split; [reflexivity | exact I]].
  match goal with |- context [overview_RasterIO b lvl ?a' s] =>
    specialize (Hov lvl a' s I); destruct (overview_RasterIO b lvl a' s) as [e s'] end.
  exists e, s'. split; [reflexivity | exact Hov].
Qed.

(* ------------------------------------------------------------------ *)
(** ** What a nearest-neighbour read samples *)

Lemma trunc_nonpos (q : Q) : (q <= 0)%Q -> trunc q <= 0.
Proof.
  intro H. unfold trunc. unfold Qle in H. cbn in H.
  assert (E : Qnum q <= 0) by lia.
  rewrite <- (Z.opp_involutive (Qnum q)). rewrite Z.quot_opp_l by lia.
  assert (0 <= Z.quot (- Qnum q) (Z.pos (Qden q))) by (apply Z.quot_pos; lia).
  lia.
Qed.

Lemma trunc_le_ceiling (q : Q) : trunc q <= Qceiling q.
Proof.
  unfold trunc, Qceiling, Qfloor. destruct q as [n d]. cbn [Qnum Qden Qopp].
  destruct (Z_le_gt_dec 0 n) as [H|H].
  - rewrite Z.quot_div_nonneg by lia.
    assert (A := Z.div_mod n (Z.pos d) ltac:(lia)).
    assert (B := Z.mod_pos_bound n (Z.pos d) ltac:(lia)).
    assert (A' := Z.div_mod (- n) (Z.pos d) ltac:(lia)).
    assert (B' := Z.mod_pos_bound (- n) (Z.pos d) ltac:(lia)).
    nia.
  - rewrite <- (Z.opp_involutive n) at 1. rewrite Z.quot_opp_l by lia.
    rewrite Z.quot_div_nonneg by lia. lia.
Qed.

Lemma ceiling_lower (q : Q) (n : Z) : (inject_Z n <= q)%Q -> n <= Qceiling q.
Proof.
  intro H. rewrite Zle_Qle. apply (Qle_trans _ q); [exact H | apply Qle_ceiling].
Qed.

(** The increment of a request without a floating-point window. *)
Lemma inc_pos (size n : Z) : 0 < size -> 0 < n -> (0 < inject_Z size / inject_Z n)%Q.
Proof.
  intros Hs Hn. apply Qlt_shift_div_l.
  - change 0%Q with (inject_Z 0). rewrite <- Zlt_Qlt. exact Hn.
  - rewrite Qmult_0_l. change 0%Q with (inject_Z 0). rewrite <- Zlt_Qlt. exact Hs.
Qed.

(** The first block of the window serves the buffer from index 0 on. *)
Lemma buf_lo_first (blk bsz off : Z) (inc : Q) :
  (0 < inc)%Q -> blk * bsz <= off -> buf_lo blk bsz off inc = 0.
Proof.
  intros Hinc H. unfold buf_lo. cbv zeta.
  assert (T : trunc (inject_Z (blk * bsz - off) / inc) <= 0).
  { apply trunc_nonpos. apply Qle_shift_div_r; [exact Hinc|].
    rewrite Qmult_0_l. change 0%Q with (inject_Z 0). rewrite <- Zle_Qle. lia. }
  destruct (Z.ltb_spec (trunc (inject_Z (blk * bsz - off) / inc)) 0); lia.
Qed.

(** The last block of the window serves the buffer up to its end. *)
Lemma buf_lim_last (blk bsz off size n : Z) :
  0 < size -> 0 < n -> off + size <= (blk + 1) * bsz ->
  buf_lim blk bsz off (inject_Z size / inject_Z n) n = n.
Proof.
  intros Hs Hn H. unfold buf_lim. cbv zeta.
  assert (T : n <= Qceiling (inject_Z ((blk + 1) * bsz - off)
                             / (inject_Z size / inject_Z n))).
  { apply ceiling_lower. apply Qle_shift_div_l; [apply inc_pos; assumption|].
    apply (Qle_trans _ (inject_Z size)).
    - apply Qle_lteq. right. field. intro E.
      assert (K : (0 < inject_Z n)%Q)
        by (change 0%Q with (inject_Z 0); rewrite <- Zlt_Qlt; exact Hn).
      rewrite E in K. discriminate K.
    - rewrite <- Zle_Qle. lia. }
  destruct (Z.ltb_spec n (Qceiling (inject_Z ((blk + 1) * bsz - off)
                                    / (inject_Z size / inject_Z n)))); lia.
Qed.

(** The indices a block leaves are taken up by the next block. *)
Lemma buf_lo_next (blk bsz off : Z) (inc : Q) (n i : Z) :
  0 <= i < n -> buf_lim blk bsz off inc n <= i -> buf_lo (blk + 1) bsz off inc <= i.
Proof.
  intros Hi. unfold buf_lim, buf_lo. cbv zeta.
  assert (T := trunc_le_ceiling (inject_Z ((blk + 1) * bsz - off) / inc)).
  destruct (Z.ltb_spec n (Qceiling (inject_Z ((blk + 1) * bsz - off) / inc)));
    destruct (Z.ltb_spec (trunc (inject_Z ((blk + 1) * bsz - off) / inc)) 0); lia.
Qed.

(** Every index of the buffer is served by a block of the window. *)
Lemma serves_cover (bsz off size n : Z) :
  0 < bsz -> 0 <= off -> 0 < size -> 0 < n ->
  forall i, 0 <= i < n ->
    exists blk, Z.quot off bsz <= blk <= Z.quot (off + size - 1) bsz
                /\ serves blk bsz off (inject_Z size / inject_Z n) n i.
Proof.
  intros Hb Ho Hs Hn i Hi.
  set (inc := (inject_Z size / inject_Z n)%Q).
  assert (Hinc : (0 < inc)%Q) by (apply inc_pos; assumption).
  assert (B1 := @quot_block_bounds off bsz Ho Hb).
  assert (B2 := @quot_block_bounds (off + size - 1) bsz ltac:(lia) Hb).
  set (first := Z.quot off bsz) in *. set (last := Z.quot (off + size - 1) bsz) in *.
  assert (Hfl : first <= last).
  { subst first last. rewrite !Z.quot_div_nonneg by lia.
    apply Z.div_le_mono; lia. }
  assert (C : forall k : nat, first + Z.of_nat k <= last ->
            i < buf_lim (first + Z.of_nat k) bsz off inc n ->
            exists blk, first <= blk <= first + Z.of_nat k /\ serves blk bsz off inc n i).
  { induction k as [|k IH]; intros Hk Hl.
    - exists first. replace (first + Z.of_nat 0) with first in * by lia.
      split; [lia|]. split; [|exact Hl].
      rewrite buf_lo_first by (assumption || lia). lia.
    - destruct (Z_lt_ge_dec i (buf_lim (first + Z.of_nat k) bsz off inc n)) as [L|L].
      + destruct (IH ltac:(lia) L) as (blk & Hblk & S). exists blk. split; [lia | exact S].
      + exists (first + Z.of_nat (S k)). split; [lia|]. split; [|exact Hl].
        replace (first + Z.of_nat (S k)) with (first + Z.of_nat k + 1) by lia.
        apply buf_lo_next with (n := n); [exact Hi | lia]. }
  destruct (C (Z.to_nat (last - first))) as (blk & Hblk & S).
  - lia.
  - replace (first + Z.of_nat (Z.to_nat (last - first))) with last by lia.
    subst inc. rewrite buf_lim_last by (assumption || lia). lia.
  - exists blk. split; [lia | exact S].
Qed.

Lemma src_coord_in_block (i : Z) (inc : Q) (off blk bsz : Z) :
  0 < bsz -> blk * bsz <= src_coord i inc off blk bsz < (blk + 1) * bsz.
Proof.
  intro H. unfold src_coord. cbv zeta.
  destruct (Z.ltb_spec (trunc ((inject_Z i + (1 # 2)) * inc + inject_Z off + EPS))
                       (blk * bsz)); [lia|].
  destruct (Z.leb_spec ((blk + 1) * bsz)
                       (trunc ((inject_Z i + (1 # 2)) * inc + inject_Z off + EPS))); lia.
Qed.

Lemma buf_lo_nonneg (blk bsz off : Z) (inc : Q) : 0 <= buf_lo blk bsz off inc.
Proof.
  unfold buf_lo. cbv zeta.
  destruct (Z.ltb_spec (trunc (inject_Z (blk * bsz - off) / inc)) 0); lia.
Qed.

Lemma buf_lim_le (blk bsz off : Z) (inc : Q) (n : Z) : buf_lim blk bsz off inc n <= n.
Proof.
  unfold buf_lim. cbv zeta.
  destruct (Z.ltb_spec n (Qceiling (inject_Z ((blk + 1) * bsz - off) / inc))); lia.
Qed.

Section GRead.

Variable cfg : BuildConfig.
Variable i2f32 : Z -> list byte.
Variable i2f64 : Z -> list byte.
Variable fconv : CType -> CType -> list byte -> list byte.
Variable b : Band.
Variable a : RasterIOArgs.
Variable s0 : IOState.

Hypothesis Hband : known_type (eDataType b) = true.
Hypothesis Hbuf : known_type (eBufType a) = true.
Hypothesis Hbw : 0 < nBlockXSize b.
Hypothesis Hbh : 0 < nBlockYSize b.
Hypothesis Hx : 0 <= nXOff a.
Hypothesis Hy : 0 <= nYOff a.
Hypothesis Hlayout : buffer_layout a.

Lemma sampled_same (s s1 : IOState) (P : Z -> Z -> Prop) :
  buf s1 = buf s -> blocks s1 = blocks s ->
  sampled i2f32 i2f64 fconv b a s0 s P -> sampled i2f32 i2f64 fconv b a s0 s1 P.
Proof.
  intros Eb Ek [Hk Hp]. split; [congruence|].
  intros i j Hi Hj HP. destruct (Hp i j Hi Hj HP) as (bx & by_ & H1 & H2 & H3 & H4 & V).
  exists bx, by_. repeat (split; [assumption|]).
  unfold sampled_from, buf_pixel. rewrite Eb. exact V.
Qed.

Lemma sampled_weaken (s : IOState) (P P' : Z -> Z -> Prop) :
  (forall i j, 0 <= i < nBufXSize a -> 0 <= j < nBufYSize a -> P' i j -> P i j) ->
  sampled i2f32 i2f64 fconv b a s0 s P -> sampled i2f32 i2f64 fconv b a s0 s P'.
Proof.
  intros H [Hk Hp]. split; [exact Hk|]. intros i j Hi Hj HP. apply Hp; auto.
Qed.

(** The pixel of the raster a block is asked for lies in that block. *)
Lemma raster_pixel_in_block (s : IOState) (bx by_ i j : Z) :
  0 <= bx -> 0 <= by_ ->
  raster_pixel b s
    (src_coord i (dfSrcXInc a) (nXOff a) bx (nBlockXSize b))
    (src_coord j (dfSrcYInc a) (nYOff a) by_ (nBlockYSize b))
  = load_bytes (blocks s bx by_)
      ((src_coord i (dfSrcXInc a) (nXOff a) bx (nBlockXSize b) - bx * nBlockXSize b
        + (src_coord j (dfSrcYInc a) (nYOff a) by_ (nBlockYSize b) - by_ * nBlockYSize b)
          * nBlockXSize b)
       * GDALGetDataTypeSizeBytes (eDataType b))
      (type_size (eDataType b)).
Proof.
  intros Hbx Hby.
  assert (Bx := @src_coord_in_block i (dfSrcXInc a) (nXOff a) bx (nBlockXSize b) Hbw).
  assert (By := @src_coord_in_block j (dfSrcYInc a) (nYOff a) by_ (nBlockYSize b) Hbh).
  assert (0 <= bx * nBlockXSize b) by (apply Z.mul_nonneg_nonneg; lia).
  assert (0 <= by_ * nBlockYSize b) by (apply Z.mul_nonneg_nonneg; lia).
  unfold raster_pixel. cbv zeta.
  rewrite (@quot_in_block _ (nBlockXSize b) bx) by lia.
  rewrite (@quot_in_block _ (nBlockYSize b) by_) by lia.
  reflexivity.
Qed.

(** One pixel of the buffer written with the pixel sampled in a block
    that serves it. *)
Lemma pixel_sampled (s : IOState) (m : mem) (P : Z -> Z -> Prop) (bx by_ i j : Z) :
  Z.quot (nXOff a) (nBlockXSize b) <= bx
    <= Z.quot (nXOff a + nXSize a - 1) (nBlockXSize b) ->
  Z.quot (nYOff a) (nBlockYSize b) <= by_
    <= Z.quot (nYOff a + nYSize a - 1) (nBlockYSize b) ->
  0 <= i < nBufXSize a -> 0 <= j < nBufYSize a ->
  serves bx (nBlockXSize b) (nXOff a) (dfSrcXInc a) (nBufXSize a) i ->
  serves by_ (nBlockYSize b) (nYOff a) (dfSrcYInc a) (nBufYSize a) j ->
  load_bytes m (buf_addr a i j) (type_size (eBufType a))
  = pixel_bytes i2f32 i2f64 fconv (eDataType b) (eBufType a)
      (raster_pixel b s
         (src_coord i (dfSrcXInc a) (nXOff a) bx (nBlockXSize b))
         (src_coord j (dfSrcYInc a) (nYOff a) by_ (nBlockYSize b))) ->
  (forall o, o < buf_addr a i j
             \/ buf_addr a i j + GDALGetDataTypeSizeBytes (eBufType a) <= o ->
     m o = buf s o) ->
  sampled i2f32 i2f64 fconv b a s0 s P ->
  sampled i2f32 i2f64 fconv b a s0 (set_buf m s) (fun i' j' => P i' j' \/ (i' = i /\ j' = j)).
Proof.
  intros Rx Ry Hi Hj Sx Sy Hhit Hframe [Hk Hp]. split; [exact Hk|].
  intros i' j' Hi' Hj' HP.
  assert (Here : {i' = i /\ j' = j} + {j' <> j \/ i' <> i}).
  { destruct (Z.eq_dec i' i); [|right; right; assumption].
    destruct (Z.eq_dec j' j); [left; split; assumption | right; left; assumption]. }
  destruct Here as [[-> ->]|N].
  - exists bx, by_. repeat (split; [assumption|]).
    unfold sampled_from, buf_pixel. cbn [set_buf buf]. rewrite Hhit.
    unfold raster_pixel. rewrite Hk. reflexivity.
  - destruct HP as [HP|HP]; [|lia].
    destruct (Hp i' j' Hi' Hj' HP) as (bx' & by' & H1 & H2 & H3 & H4 & V).
    exists bx', by'. repeat (split; [assumption|]).
    unfold sampled_from, buf_pixel in *. cbn [set_buf buf]. rewrite <- V.
    apply load_bytes_ext. intros k Hk'. apply Hframe.
    rewrite <- type_size_bytes in Hk' by exact Hbuf.
    apply (@buf_pixels_apart a Hbuf Hlayout i j i' j' k); try assumption.
    destruct N as [N|N]; [left | right]; congruence.
Qed.


Lemma gread_pixel_sampled (s : IOState) (P : Z -> Z -> Prop) (bx by_ i j lo : Z) :
  Z.quot (nXOff a) (nBlockXSize b) <= bx
    <= Z.quot (nXOff a + nXSize a - 1) (nBlockXSize b) ->
  Z.quot (nYOff a) (nBlockYSize b) <= by_
    <= Z.quot (nYOff a + nYSize a - 1) (nBlockYSize b) ->
  0 <= i < nBufXSize a -> 0 <= j < nBufYSize a ->
  serves bx (nBlockXSize b) (nXOff a) (dfSrcXInc a) (nBufXSize a) i ->
  serves by_ (nBlockYSize b) (nYOff a) (dfSrcYInc a) (nBufYSize a) j ->
  sampled i2f32 i2f64 fconv b a s0 s P ->
  sampled i2f32 i2f64 fconv b a s0
    (gread_pixel cfg i2f32 i2f64 fconv b a bx by_ j
       (src_coord j (dfSrcYInc a) (nYOff a) by_ (nBlockYSize b)) lo i s)
    (fun i' j' => P i' j' \/ (i' = i /\ j' = j)).
Proof.
  intros Rx Ry Hi Hj Sx Sy F.
  assert (Hsz := pixel_size_pos _ Hband).
  assert (Esz := @type_size_bytes _ Hband).
  assert (Esz' := @type_size_bytes _ Hbuf).
  assert (Hbx : 0 <= bx).
  { assert (0 <= Z.quot (nXOff a) (nBlockXSize b)) by (apply Z.quot_pos; lia). lia. }
  assert (Hby : 0 <= by_).
  { assert (0 <= Z.quot (nYOff a) (nBlockYSize b)) by (apply Z.quot_pos; lia). lia. }
  assert (Addr : pData a + (j * nLineSpace a + lo * nPixelSpace a + (i - lo) * nPixelSpace a)
                 = buf_addr a i j) by (unfold buf_addr; ring).
  unfold gread_pixel. cbv zeta. rewrite Addr.
  set (sx := src_coord i (dfSrcXInc a) (nXOff a) bx (nBlockXSize b)).
  set (sy := src_coord j (dfSrcYInc a) (nYOff a) by_ (nBlockYSize b)).
  assert (RP := @raster_pixel_in_block s bx by_ i j Hbx Hby). fold sx sy in RP.
  destruct (GDALDataType_eqb (eDataType b) (eBufType a)) eqn:M.
  - apply GDALDataType_eqb_eq in M. cbn [andb].
    destruct (Z.eqb_spec (GDALGetDataTypeSizeBytes (eDataType b)) 1) as [One|NOne].
    + apply pixel_sampled with (bx := bx) (by_ := by_); try assumption.
      * fold sx sy. rewrite RP. rewrite <- M.
        rewrite pixel_bytes_same by apply load_bytes_length.
        assert (T1 : type_size (eDataType b) = 1%nat) by lia. rewrite T1.
        unfold load_bytes. cbn [seq map]. rewrite !Z.add_0_r, Z.eqb_refl.
        rewrite One, Z.mul_1_r. reflexivity.
      * intros o Ho. destruct (Z.eqb_spec o (buf_addr a i j)) as [E|E]; [|reflexivity].
        rewrite <- M in Ho. lia.
    + apply pixel_sampled with (bx := bx) (by_ := by_); try assumption.
      * fold sx sy. rewrite RP. rewrite <- M.
        rewrite load_bytes_memcpy_in by lia.
        rewrite pixel_bytes_same by apply load_bytes_length.
        f_equal. ring.
      * intros o Ho. apply memcpy_frame. rewrite M. exact Ho.
  - cbn [andb]. apply pixel_sampled with (bx := bx) (by_ := by_); try assumption.
    + fold sx sy. rewrite RP. rewrite GDALCopyWords_one by assumption. unfold type_size.
      rewrite <- (@pixel_bytes_length i2f32 i2f64 fconv (eDataType b) (eBufType a)
                    (load_bytes (blocks s bx by_)
                       ((sx - bx * nBlockXSize b + (sy - by_ * nBlockYSize b) * nBlockXSize b)
                        * GDALGetDataTypeSizeBytes (eDataType b))
                       (pixel_size (component_type (eDataType b))
                          (GDALDataTypeIsComplex (eDataType b))))) at 1.
      rewrite load_bytes_store_bytes. reflexivity.
    + intros o Ho. rewrite GDALCopyWords_one by assumption.
      apply store_bytes_frame. rewrite pixel_bytes_length.
      fold (type_size (eBufType a)). rewrite <- Esz'. exact Ho.
Qed.


(** One row of the buffer served by block [(bx, by_)]. *)
Lemma gread_row_sampled (Prev : Z -> Z -> Prop) (bx by_ j : Z)
    (st : CPLErr * option (Z * Z) * IOState) :
  Z.quot (nXOff a) (nBlockXSize b) <= bx
    <= Z.quot (nXOff a + nXSize a - 1) (nBlockXSize b) ->
  Z.quot (nYOff a) (nBlockYSize b) <= by_
    <= Z.quot (nYOff a + nYSize a - 1) (nBlockYSize b) ->
  serves by_ (nBlockYSize b) (nYOff a) (dfSrcYInc a) (nBufYSize a) j ->
  (let '(e, _, s) := st in
   e = CE_None ->
   sampled i2f32 i2f64 fconv b a s0 s
     (fun i' j' => Prev i' j'
        \/ (serves bx (nBlockXSize b) (nXOff a) (dfSrcXInc a) (nBufXSize a) i'
            /\ buf_lo by_ (nBlockYSize b) (nYOff a) (dfSrcYInc a) <= j' < j))) ->
  match gread_row cfg i2f32 i2f64 fconv b a bx by_ j st with
  | Next (e, _, s) =>
      e = CE_None ->
      sampled i2f32 i2f64 fconv b a s0 s
        (fun i' j' => Prev i' j'
           \/ (serves bx (nBlockXSize b) (nXOff a) (dfSrcXInc a) (nBufXSize a) i'
               /\ buf_lo by_ (nBlockYSize b) (nYOff a) (dfSrcYInc a) <= j' < j + 1))
  | Break (e, _, _) => e <> CE_None
  | Return e _ => e <> CE_None
  | Fuel => True
  end.
Proof.
  intros Rx Ry Sy. destruct st as [[e p] s]. intro F.
  assert (Hj : 0 <= j < nBufYSize a).
  { unfold serves in Sy.
    assert (L := buf_lo_nonneg by_ (nBlockYSize b) (nYOff a) (dfSrcYInc a)).
    assert (U := buf_lim_le by_ (nBlockYSize b) (nYOff a) (dfSrcYInc a) (nBufYSize a)).
    lia. }
  unfold gread_row. cbv zeta.
  set (lo := buf_lo bx (nBlockXSize b) (nXOff a) (dfSrcXInc a)).
  set (lim := buf_lim bx (nBlockXSize b) (nXOff a) (dfSrcXInc a) (nBufXSize a)).
  assert (Llo : 0 <= lo) by apply buf_lo_nonneg.
  assert (Ulim : lim <= nBufXSize a) by apply buf_lim_le.
  destruct e;
    try solve [ destruct (progress_stops _ _ _) as [[] ?]; [discriminate | intro; discriminate]
              | discriminate ].
  specialize (F eq_refl).
  match goal with |- context [for_loop ?n lo ?f s] =>
    assert (FL := @for_loop_indexed IOState
                    (fun i s' => sampled i2f32 i2f64 fconv b a s0 s'
                       (fun i' j' =>
                          (Prev i' j'
                           \/ (serves bx (nBlockXSize b) (nXOff a) (dfSrcXInc a)
                                 (nBufXSize a) i'
                               /\ buf_lo by_ (nBlockYSize b) (nYOff a) (dfSrcYInc a)
                                  <= j' < j))
                          \/ (j' = j /\ lo <= i' < i)))
                    f n lo s);
    generalize dependent (for_loop n lo f s) end.
  intros s1 FL.
  assert (F1 : sampled i2f32 i2f64 fconv b a s0 s1
                 (fun i' j' => Prev i' j'
                    \/ (serves bx (nBlockXSize b) (nXOff a) (dfSrcXInc a) (nBufXSize a) i'
                        /\ buf_lo by_ (nBlockYSize b) (nYOff a) (dfSrcYInc a)
                           <= j' < j + 1))).
  { eapply sampled_weaken; [|apply FL].
    - cbv beta. intros i' j' Hi' Hj' [A|[A1 A2]]; [left; left; exact A|].
      destruct (Z.eq_dec j' j) as [->|N]; [right | left; right; split; [exact A1 | lia]].
      unfold serves in A1. fold lo lim in A1. lia.
    - intros i s' Hi Fi.
      eapply sampled_weaken;
        [| apply gread_pixel_sampled with (s := s') (bx := bx) (by_ := by_) (i := i) (j := j)
               (lo := lo); try assumption; [lia | unfold serves; fold lo lim; lia | exact Fi] ].
      cbv beta. intros i' j' Hi' Hj' [A|[-> A]]; [left; left; exact A|].
      destruct (Z.eq_dec i' i) as [->|N]; [right; split; reflexivity|left; right; lia].
    - eapply sampled_weaken; [|exact F]. cbv beta.
      intros i' j' Hi' Hj' [A|A]; [exact A | lia]. }
  match goal with |- context [progress_stops a ?q s1] =>
    assert (F3 : sampled i2f32 i2f64 fconv b a s0 (snd (progress_stops a q s1))
                   (fun i' j' => Prev i' j'
                      \/ (serves bx (nBlockXSize b) (nXOff a) (dfSrcXInc a)
                            (nBufXSize a) i'
                          /\ buf_lo by_ (nBlockYSize b) (nYOff a) (dfSrcYInc a)
                             <= j' < j + 1)))
      by (apply sampled_same with (s := s1);
          [apply buf_progress_stops | apply blocks_progress_stops | exact F1]);
    destruct (progress_stops a q s1) as [stop s2] end.
  cbn [snd] in F3. destruct stop; [discriminate | intros _; exact F3].
Qed.


(** One block of the window. *)
Lemma gread_block_sampled (Prev : Z -> Z -> Prop) (by_ bx : Z)
    (st : CPLErr * option (Z * Z) * IOState) :
  Z.quot (nXOff a) (nBlockXSize b) <= bx
    <= Z.quot (nXOff a + nXSize a - 1) (nBlockXSize b) ->
  Z.quot (nYOff a) (nBlockYSize b) <= by_
    <= Z.quot (nYOff a + nYSize a - 1) (nBlockYSize b) ->
  (let '(e, _, s) := st in
   e = CE_None ->
   sampled i2f32 i2f64 fconv b a s0 s
     (fun i' j' => Prev i' j'
        \/ (serves by_ (nBlockYSize b) (nYOff a) (dfSrcYInc a) (nBufYSize a) j'
            /\ exists bx', Z.quot (nXOff a) (nBlockXSize b) <= bx' < bx
                 /\ serves bx' (nBlockXSize b) (nXOff a) (dfSrcXInc a) (nBufXSize a) i'))) ->
  match gread_block cfg i2f32 i2f64 fconv b a by_ bx st with
  | Next (e, _, s) =>
      e = CE_None ->
      sampled i2f32 i2f64 fconv b a s0 s
        (fun i' j' => Prev i' j'
           \/ (serves by_ (nBlockYSize b) (nYOff a) (dfSrcYInc a) (nBufYSize a) j'
               /\ exists bx', Z.quot (nXOff a) (nBlockXSize b) <= bx' < bx + 1
                    /\ serves bx' (nBlockXSize b) (nXOff a) (dfSrcXInc a)
                         (nBufXSize a) i'))
  | Break (e, _, _) => e <> CE_None
  | Return e _ => e <> CE_None
  | Fuel => True
  end.
Proof.
  intros Rx Ry. destruct st as [[e p] s]. intro F.
  set (PB := fun i' j' : Z => Prev i' j'
        \/ (serves by_ (nBlockYSize b) (nYOff a) (dfSrcYInc a) (nBufYSize a) j'
            /\ exists bx', Z.quot (nXOff a) (nBlockXSize b) <= bx' < bx
                 /\ serves bx' (nBlockXSize b) (nXOff a) (dfSrcXInc a) (nBufXSize a) i'))
    in *.
  unfold gread_block. cbv zeta.
  assert (F1 : e = CE_None ->
               sampled i2f32 i2f64 fconv b a s0 (snd (Interrupted b (DropLock p s))) PB).
  { intro E. apply sampled_same with (s := s); [| | exact (F E)].
    - rewrite buf_Interrupted. apply buf_DropLock.
    - rewrite blocks_Interrupted. apply blocks_DropLock. }
  destruct (Interrupted b (DropLock p s)) as [intr s2]. cbn [snd] in F1.
  destruct intr; [discriminate|].
  assert (F2 : e = CE_None ->
               sampled i2f32 i2f64 fconv b a s0
                 (snd (GetLockedBlockRef b bx by_ false s2)) PB).
  { intro E. apply sampled_same with (s := s2);
      [apply buf_GetLockedBlockRef | apply blocks_GetLockedBlockRef_read | exact (F1 E)]. }
  destruct (GetLockedBlockRef b bx by_ false s2) as [ok s3]. cbn [snd] in F2.
  destruct ok; cbn [negb]; [|discriminate].
  set (lo := buf_lo by_ (nBlockYSize b) (nYOff a) (dfSrcYInc a)).
  set (lim := buf_lim by_ (nBlockYSize b) (nYOff a) (dfSrcYInc a) (nBufYSize a)).
  assert (G := @for_ctl_indexed _
                 (fun j (st : CPLErr * option (Z * Z) * IOState) =>
                    let '(e, _, s) := st in
                    e = CE_None ->
                    sampled i2f32 i2f64 fconv b a s0 s
                      (fun i' j' => PB i' j'
                         \/ (serves bx (nBlockXSize b) (nXOff a) (dfSrcXInc a)
                               (nBufXSize a) i'
                             /\ lo <= j' < j)))
                 (fun st : CPLErr * option (Z * Z) * IOState =>
                    let '(e, _, _) := st in e <> CE_None)
                 (fun e (_ : IOState) => e <> CE_None)
                 (gread_row cfg i2f32 i2f64 fconv b a bx by_)
                 (Z.to_nat (lim - lo)) lo (e, Some (bx, by_), s3)).
  cbv beta iota in G.
  assert (G' := G (fun j st Hj I =>
                     @gread_row_sampled PB bx by_ j st Rx Ry
                       ltac:(unfold serves; fold lo lim; lia) I)).
  clear G.
  match type of G' with ?A -> _ =>
    assert (I0 : A);
    [ intro E; eapply sampled_weaken; [|exact (F2 E)]; cbv beta;
      intros i' j' Hi' Hj' [A0|A0]; [exact A0 | lia]
    | specialize (G' I0) ] end.
  destruct (for_ctl _ _ _ _) as [[[e1 p1] s1] | [[e1 p1] s1] | e1 s1 |].
  - intro E. eapply sampled_weaken; [|exact (G' E)]. cbv beta.
    intros i' j' Hi' Hj' [A|[A1 (bx' & A2 & A3)]].
    + left. left. exact A.
    + destruct (Z.eq_dec bx' bx) as [->|N].
      * right. split; [exact A3|]. unfold serves in A1. fold lo lim in A1. lia.
      * left. right. split; [exact A1|]. exists bx'. split; [lia | exact A3].
  - intro E. contradiction.
  - exact G'.
  - exact I.
Qed.

(** One row of blocks of the window. *)
Lemma gread_block_row_sampled (by_ : Z) (st : CPLErr * option (Z * Z) * IOState) :
  Z.quot (nYOff a) (nBlockYSize b) <= by_
    <= Z.quot (nYOff a + nYSize a - 1) (nBlockYSize b) ->
  (let '(e, _, s) := st in
   e = CE_None ->
   sampled i2f32 i2f64 fconv b a s0 s
     (fun i' j' =>
        exists by', Z.quot (nYOff a) (nBlockYSize b) <= by' < by_
          /\ serves by' (nBlockYSize b) (nYOff a) (dfSrcYInc a) (nBufYSize a) j'
          /\ exists bx', Z.quot (nXOff a) (nBlockXSize b) <= bx'
                           <= Z.quot (nXOff a + nXSize a - 1) (nBlockXSize b)
               /\ serves bx' (nBlockXSize b) (nXOff a) (dfSrcXInc a) (nBufXSize a) i')) ->
  match gread_block_row cfg i2f32 i2f64 fconv b a
          (Z.quot (nXOff a) (nBlockXSize b))
          (Z.quot (nXOff a + nXSize a - 1) (nBlockXSize b)) by_ st with
  | Next (e, _, s) =>
      e = CE_None ->
      sampled i2f32 i2f64 fconv b a s0 s
        (fun i' j' =>
           exists by', Z.quot (nYOff a) (nBlockYSize b) <= by' < by_ + 1
             /\ serves by' (nBlockYSize b) (nYOff a) (dfSrcYInc a) (nBufYSize a) j'
             /\ exists bx', Z.quot (nXOff a) (nBlockXSize b) <= bx'
                              <= Z.quot (nXOff a + nXSize a - 1) (nBlockXSize b)
                  /\ serves bx' (nBlockXSize b) (nXOff a) (dfSrcXInc a) (nBufXSize a) i')
  | Break (e, _, _) => e <> CE_None
  | Return e _ => e <> CE_None
  | Fuel => True
  end.
Proof.
  intros Ry I0. unfold gread_block_row.
  set (first := Z.quot (nXOff a) (nBlockXSize b)) in *.
  set (last := Z.quot (nXOff a + nXSize a - 1) (nBlockXSize b)) in *.
  set (PR := fun i' j' : Z =>
        exists by', Z.quot (nYOff a) (nBlockYSize b) <= by' < by_
          /\ serves by' (nBlockYSize b) (nYOff a) (dfSrcYInc a) (nBufYSize a) j'
          /\ exists bx', first <= bx' <= last
               /\ serves bx' (nBlockXSize b) (nXOff a) (dfSrcXInc a) (nBufXSize a) i')
    in *.
  assert (G := @for_ctl_indexed _
                 (fun bx (st : CPLErr * option (Z * Z) * IOState) =>
                    let '(e, _, s) := st in
                    e = CE_None ->
                    sampled i2f32 i2f64 fconv b a s0 s
                      (fun i' j' => PR i' j'
                         \/ (serves by_ (nBlockYSize b) (nYOff a) (dfSrcYInc a)
                               (nBufYSize a) j'
                             /\ exists bx', first <= bx' < bx
                                  /\ serves bx' (nBlockXSize b) (nXOff a) (dfSrcXInc a)
                                       (nBufXSize a) i')))
                 (fun st : CPLErr * option (Z * Z) * IOState =>
                    let '(e, _, _) := st in e <> CE_None)
                 (fun e (_ : IOState) => e <> CE_None)
                 (gread_block cfg i2f32 i2f64 fconv b a by_)
                 (Z.to_nat (last - first + 1)) first st).
  cbv beta iota in G.
  assert (G' := G (fun bx st Hbx I =>
                     @gread_block_sampled PR by_ bx st ltac:(fold first last; lia) Ry I)).
  clear G.
  match type of G' with ?A -> _ =>
    assert (I1 : A);
    [ destruct st as [[e p] s]; intro E; eapply sampled_weaken; [|exact (I0 E)]; cbv beta;
      intros i' j' Hi' Hj' [A0|[_ (bx' & A0 & _)]]; [exact A0 | lia]
    | specialize (G' I1) ] end.
  destruct (for_ctl _ _ _ _) as [[[e1 p1] s1] | [[e1 p1] s1] | e1 s1 |].
  - intro E. eapply sampled_weaken; [|exact (G' E)]. cbv beta.
    intros i' j' Hi' Hj' (by' & A1 & A2 & bx' & A3 & A4).
    destruct (Z.eq_dec by' by_) as [->|N].
    + right. split; [exact A2|]. exists bx'. split; [lia | exact A4].
    + left. exists by'. split; [lia|]. split; [exact A2|]. exists bx'. split; assumption.
  - intro E. contradiction.
  - exact G'.
  - exact I.
Qed.


Lemma IRasterIO_general_read_sampled (s' : IOState) :
  bFloatingPointWindowValidity (psExtraArg a) = false ->
  0 < nXSize a -> 0 < nYSize a ->
  IRasterIO_general_read cfg i2f32 i2f64 fconv b a s0 = Some (CE_None, s') ->
  sampled i2f32 i2f64 fconv b a s0 s' (fun _ _ => True).
Proof.
  intros Hfp Hxs Hys. unfold IRasterIO_general_read. cbv zeta.
  set (first := Z.quot (nYOff a) (nBlockYSize b)).
  set (last := Z.quot (nYOff a + nYSize a - 1) (nBlockYSize b)).
  assert (G := @for_ctl_indexed _
                 (fun by_ (st : CPLErr * option (Z * Z) * IOState) =>
                    let '(e, _, s) := st in
                    e = CE_None ->
                    sampled i2f32 i2f64 fconv b a s0 s
                      (fun i' j' =>
                         exists by', first <= by' < by_
                           /\ serves by' (nBlockYSize b) (nYOff a) (dfSrcYInc a)
                                (nBufYSize a) j'
                           /\ exists bx', Z.quot (nXOff a) (nBlockXSize b) <= bx'
                                            <= Z.quot (nXOff a + nXSize a - 1) (nBlockXSize b)
                                /\ serves bx' (nBlockXSize b) (nXOff a) (dfSrcXInc a)
                                     (nBufXSize a) i'))
                 (fun st : CPLErr * option (Z * Z) * IOState =>
                    let '(e, _, _) := st in e <> CE_None)
                 (fun e (_ : IOState) => e <> CE_None)
                 (gread_block_row cfg i2f32 i2f64 fconv b a
                    (Z.quot (nXOff a) (nBlockXSize b))
                    (Z.quot (nXOff a + nXSize a - 1) (nBlockXSize b)))
                 (Z.to_nat (last - first + 1)) first (CE_None, None, s0)).
  cbv beta iota in G.
  assert (G' := G (fun by_ st Hby I =>
                     @gread_block_row_sampled by_ st ltac:(fold first last; lia) I)).
  clear G.
  match type of G' with ?A -> _ =>
    assert (I1 : A);
    [ intros _; split; [reflexivity|]; intros i' j' Hi' Hj' (by' & A0 & _); lia
    | specialize (G' I1) ] end.
  assert (Full : forall s1, 
            sampled i2f32 i2f64 fconv b a s0 s1
              (fun i' j' =>
                 exists by', first <= by' < first + Z.of_nat (Z.to_nat (last - first + 1))
                   /\ serves by' (nBlockYSize b) (nYOff a) (dfSrcYInc a) (nBufYSize a) j'
                   /\ exists bx', Z.quot (nXOff a) (nBlockXSize b) <= bx'
                                    <= Z.quot (nXOff a + nXSize a - 1) (nBlockXSize b)
                        /\ serves bx' (nBlockXSize b) (nXOff a) (dfSrcXInc a)
                             (nBufXSize a) i') ->
            sampled i2f32 i2f64 fconv b a s0 s1 (fun _ _ => True)).
  { intros s1 F. eapply sampled_weaken; [|exact F]. cbv beta.
    intros i' j' Hi' Hj' _.
    destruct (@serves_cover (nBlockYSize b) (nYOff a) (nYSize a) (nBufYSize a)
                Hbh Hy Hys ltac:(lia) j' Hj') as (by' & Ry & Sy).
    destruct (@serves_cover (nBlockXSize b) (nXOff a) (nXSize a) (nBufXSize a)
                Hbw Hx Hxs ltac:(lia) i' Hi') as (bx' & Rx & Sx).
    fold first last in Ry.
    exists by'. split; [lia|]. split.
    - unfold dfSrcYInc. rewrite Hfp. exact Sy.
    - exists bx'. split; [exact Rx|]. unfold dfSrcXInc. rewrite Hfp. exact Sx. }
  destruct (for_ctl _ _ _ _) as [[[e p] s1] | [[e p] s1] | e s1 |];
    intro E; inversion E; subst.
  - apply sampled_same with (s := s1); [apply buf_DropLock | apply blocks_DropLock |].
    apply Full. apply G'. reflexivity.
  - contradiction G'. reflexivity.
  - contradiction G'. reflexivity.
Qed.

End GRead.


(** The truncation of a rational that is not negative is its floor. *)
Lemma trunc_floor (q : Q) : (0 <= q)%Q -> trunc q = Qfloor q.
Proof.
  intro H. unfold trunc, Qfloor. destruct q as [n d]. cbn [Qnum Qden].
  unfold Qle in H. cbn in H. apply Z.quot_div_nonneg; lia.
Qed.

Lemma trunc_lt_succ (q : Q) (i : Z) : 0 <= i -> trunc q <= i -> (q < inject_Z (i + 1))%Q.
Proof.
  intros Hi H. destruct (Qlt_le_dec q 0) as [N|N].
  - apply (Qlt_le_trans _ 0); [exact N|].
    change 0%Q with (inject_Z 0). rewrite <- Zle_Qle. lia.
  - rewrite (trunc_floor N) in H.
    apply (Qlt_le_trans _ (inject_Z (Qfloor q + 1))); [apply Qlt_floor|].
    rewrite <- Zle_Qle. lia.
Qed.

Lemma lt_ceiling (q : Q) (i : Z) : i < Qceiling q -> (inject_Z i < q)%Q.
Proof.
  intro H. apply (Qle_lt_trans _ (inject_Z (Qceiling q - 1))); [|apply Qceiling_lt].
  rewrite <- Zle_Qle. lia.
Qed.

Lemma div_lt_mul (x c q : Q) : (0 < c)%Q -> (x / c < q)%Q -> (x < q * c)%Q.
Proof.
  intros Hc H. apply (Qmult_lt_compat_r _ _ c) in H; [|exact Hc].
  assert (E : (x / c * c == x)%Q) by (field; lra).
  rewrite E in H. exact H.
Qed.

Lemma lt_div_mul (x c q : Q) : (0 < c)%Q -> (q < x / c)%Q -> (q * c < x)%Q.
Proof.
  intros Hc H. apply (Qmult_lt_compat_r _ _ c) in H; [|exact Hc].
  assert (E : (x / c * c == x)%Q) by (field; lra).
  rewrite E in H. exact H.
Qed.



(* ------------------------------------------------------------------ *)
(** ** The extent of what a read writes *)

(** An address inside a run of [n] adjacent pixels of line [j] belongs to
    one of them. *)
Lemma run_pixel_free (a : RasterIOArgs) (i j n o : Z) :
  nPixelSpace a = GDALGetDataTypeSizeBytes (eBufType a) ->
  0 < GDALGetDataTypeSizeBytes (eBufType a) ->
  0 <= i -> i + n <= nBufXSize a -> 0 <= j < nBufYSize a ->
  pixel_free a o ->
  o < buf_addr a i j \/ buf_addr a i j + n * nPixelSpace a <= o.
Proof.
  intros Eps Hsz Hi Hin Hj Ho.
  destruct (Z_lt_ge_dec o (buf_addr a i j)) as [L|L]; [left; exact L|].
  destruct (Z_lt_ge_dec o (buf_addr a i j + n * nPixelSpace a)) as [U|U]; [|right; lia].
  exfalso. rewrite Eps in U.
  set (sz := GDALGetDataTypeSizeBytes (eBufType a)) in *.
  set (k := (o - buf_addr a i j) / sz).
  assert (D := Z.div_mod (o - buf_addr a i j) sz ltac:(lia)).
  assert (M := Z.mod_pos_bound (o - buf_addr a i j) sz Hsz). fold k in D.
  assert (Hk0 : 0 <= k) by (apply Z.div_pos; lia).
  assert (Hkn : k < n) by (apply Z.div_lt_upper_bound; lia).
  assert (E : buf_addr a (i + k) j = buf_addr a i j + sz * k)
    by (unfold buf_addr; rewrite Eps; fold sz; ring).
  destruct (Ho (i + k) j ltac:(lia) Hj) as [A|A]; rewrite E in A; fold sz in A; lia.
Qed.

Section Frame.

Variable cfg : BuildConfig.
Variable i2f32 : Z -> list byte.
Variable i2f64 : Z -> list byte.
Variable fconv : CType -> CType -> list byte -> list byte.
Variable b : Band.
Variable a : RasterIOArgs.
Variable s0 : IOState.

Hypothesis Hread : is_write (eRWFlag a) = false.
Hypothesis Hband : known_type (eDataType b) = true.
Hypothesis Hbuf : known_type (eBufType a) = true.

Lemma only_same (s s1 : IOState) :
  buf s1 = buf s -> only_pixels a s0 s -> only_pixels a s0 s1.
Proof. intros E H o Ho. rewrite E. apply H. exact Ho. Qed.

Lemma memcpy_rw_only (s : IOState) (x y i j n off boff : Z) :
  nPixelSpace a = GDALGetDataTypeSizeBytes (eBufType a) ->
  0 <= i -> i + n <= nBufXSize a -> 0 <= j < nBufYSize a ->
  boff = j * nLineSpace a + i * nPixelSpace a ->
  only_pixels a s0 s ->
  only_pixels a s0 (memcpy_rw a x y off boff (n * nPixelSpace a) s).
Proof.
  intros Eps Hi Hin Hj -> H o Ho. unfold memcpy_rw. rewrite Hread. cbn [set_buf buf].
  rewrite memcpy_frame; [apply H; exact Ho|].
  apply (@run_pixel_free a i j n o Eps (pixel_size_pos _ Hbuf) Hi Hin Hj Ho).
Qed.

Lemma copy_words_rw_only (s : IOState) (x y i j n off boff : Z) :
  0 <= i -> i + n <= nBufXSize a -> 0 <= j < nBufYSize a ->
  boff = j * nLineSpace a + i * nPixelSpace a ->
  only_pixels a s0 s ->
  only_pixels a s0 (copy_words_rw cfg i2f32 i2f64 fconv b a x y off boff n s).
Proof.
  intros Hi Hin Hj -> H o Ho. unfold copy_words_rw. rewrite Hread. cbn [set_buf buf].
  rewrite GDALCopyWords_frame_strided; try assumption; [apply H; exact Ho|].
  intros k Hk. specialize (Ho (i + k) j ltac:(lia) Hj).
  unfold buf_addr in Ho.
  replace (pData a + (j * nLineSpace a + i * nPixelSpace a) + k * nPixelSpace a)
    with (pData a + (j * nLineSpace a + (i + k) * nPixelSpace a)) by ring.
  exact Ho.
Qed.

Lemma gread_pixel_only (s : IOState) (x y i j sy lo : Z) :
  0 <= i < nBufXSize a -> 0 <= j < nBufYSize a ->
  only_pixels a s0 s ->
  only_pixels a s0 (gread_pixel cfg i2f32 i2f64 fconv b a x y j sy lo i s).
Proof.
  intros Hi Hj H o Ho.
  assert (Hsz := pixel_size_pos _ Hbuf).
  assert (Addr : pData a + (j * nLineSpace a + lo * nPixelSpace a + (i - lo) * nPixelSpace a)
                 = buf_addr a i j) by (unfold buf_addr; ring).
  specialize (Ho i j Hi Hj) as Hfree.
  unfold gread_pixel. cbv zeta. rewrite Addr.
  destruct (GDALDataType_eqb (eDataType b) (eBufType a)) eqn:M; cbn [andb].
  - apply GDALDataType_eqb_eq in M.
    destruct (GDALGetDataTypeSizeBytes (eDataType b) =? 1); cbn [set_buf buf].
    + destruct (Z.eqb_spec o (buf_addr a i j)) as [E|E]; [lia | apply H; exact Ho].
    + rewrite memcpy_frame by (rewrite M; exact Hfree). apply H; exact Ho.
  - cbn [set_buf buf]. rewrite GDALCopyWords_one by assumption.
    rewrite store_bytes_frame; [apply H; exact Ho|].
    rewrite pixel_bytes_length. rewrite <- (pixel_size_bytes _ Hbuf). exact Hfree.
Qed.


(** The packed full-width case. *)
Lemma packed_body_only (i : Z) (st : CPLErr * option (Z * Z) * Z * IOState) :
  nPixelSpace a = GDALGetDataTypeSizeBytes (eBufType a) ->
  nLineSpace a = nPixelSpace a * nBufXSize a ->
  0 <= i < nBufYSize a ->
  (let '(_, _, _, s) := st in only_pixels a s0 s) ->
  match packed_body cfg i2f32 i2f64 fconv b a i st with
  | Next st' | Break st' => let '(_, _, _, s) := st' in only_pixels a s0 s
  | Return _ s => only_pixels a s0 s
  | Fuel => True
  end.
Proof.
  intros Eps Els Hi. destruct st as [[[e p] yb] s]. intro F.
  assert (Row : forall (p' : option (Z * Z)) (y : Z) (s1 : IOState),
            only_pixels a s0 s1 ->
            match packed_copy_row cfg i2f32 i2f64 fconv b a i e p' y s1 with
            | Next st' | Break st' => let '(_, _, _, s) := st' in only_pixels a s0 s
            | Return _ s => only_pixels a s0 s
            | Fuel => True
            end).
  { intros p' y s1 F1. unfold packed_copy_row. cbv zeta.
    match goal with |- context [progress_stops a ?q ?s2] =>
      assert (F2 : only_pixels a s0 s2);
      [| assert (F3 : only_pixels a s0 (snd (progress_stops a q s2)))
           by (apply only_same with (s := s2); [apply buf_progress_stops | exact F2]);
         destruct (progress_stops a q s2) as [stop s3] ] end.
    - destruct (GDALDataType_eqb (eDataType b) (eBufType a)).
      + replace (nLineSpace a) with (nBufXSize a * nPixelSpace a) at 2 by lia.
        apply memcpy_rw_only with (i := 0) (j := i); try assumption; lia.
      + apply copy_words_rw_only with (i := 0) (j := i); try assumption; lia.
    - cbn [snd] in F3. destruct stop; exact F3. }
  unfold packed_body. cbv zeta.
  destruct ((i + nYOff a <? yb * nBlockYSize b)
            || (yb * nBlockYSize b <=? i + nYOff a - nBlockYSize b)).
  - rewrite Hread. cbn [andb orb negb].
    assert (F1 : only_pixels a s0 (snd (Interrupted b (DropLock p s)))).
    { apply only_same with (s := s); [|exact F].
      rewrite buf_Interrupted. apply buf_DropLock. }
    destruct (Interrupted b (DropLock p s)) as [intr s2]. cbn [snd] in F1.
    destruct intr; [exact F1|].
    match goal with |- context [GetLockedBlockRef b ?x ?y0 false s2] =>
      assert (F3 : only_pixels a s0 (snd (GetLockedBlockRef b x y0 false s2)))
        by (apply only_same with (s := s2); [apply buf_GetLockedBlockRef | exact F1]);
      destruct (GetLockedBlockRef b x y0 false s2) as [ok s3] end.
    cbn [snd] in F3. destruct ok; cbn [negb]; [|exact F3].
    apply Row. exact F3.
  - apply Row. exact F.
Qed.

Lemma IRasterIO_packed_only (e : CPLErr) (s' : IOState) :
  nPixelSpace a = GDALGetDataTypeSizeBytes (eBufType a) ->
  nLineSpace a = nPixelSpace a * nBufXSize a ->
  IRasterIO_packed cfg i2f32 i2f64 fconv b a s0 = Some (e, s') ->
  only_pixels a s0 s'.
Proof.
  intros Eps Els. unfold IRasterIO_packed.
  assert (G := @for_ctl_indexed _
                 (fun (_ : Z) (st : CPLErr * option (Z * Z) * Z * IOState) =>
                    let '(_, _, _, s) := st in only_pixels a s0 s)
                 (fun st : CPLErr * option (Z * Z) * Z * IOState =>
                    let '(_, _, _, s) := st in only_pixels a s0 s)
                 (fun (_ : CPLErr) (s : IOState) => only_pixels a s0 s)
                 (packed_body cfg i2f32 i2f64 fconv b a)
                 (Z.to_nat (nBufYSize a)) 0 (CE_None, None, -1, s0)).
  cbv beta iota in G.
  assert (G' := G (fun i st Hi I => @packed_body_only i st Eps Els ltac:(lia) I)
                  (fun o _ => eq_refl)).
  clear G.
  destruct (for_ctl _ _ _ _) as [[[[e1 p] y] s1] | [[[e1 p] y] s1] | e1 s1 |];
    intro E; inversion E; subst;
    try (apply only_same with (s := s1); [apply buf_DropLock | exact G']); exact G'.
Qed.


(** The 1:1 arbitrary-window case. *)
Section Window.

Hypothesis Hbw : 0 < nBlockXSize b.
Hypothesis Hbh : 0 < nBlockYSize b.
Hypothesis Hx : 0 <= nXOff a.
Hypothesis Hy : 0 <= nYOff a.
Hypothesis Hmax : nBufXSize a + nXOff a <= INT_MAX.
Hypothesis Hw : 0 <= nBufXSize a.

Lemma window_inner_body_only (J : Z) (st : Z * Z * Z * IOState) :
  0 <= J < nBufYSize a ->
  let Inner := fun st : Z * Z * Z * IOState =>
    let '(iSrcX, bx, boff, s) := st in
    nXOff a <= iSrcX <= nBufXSize a + nXOff a
    /\ boff = J * nLineSpace a + (iSrcX - nXOff a) * nPixelSpace a
    /\ (iSrcX < nBufXSize a + nXOff a ->
        bx * nBlockXSize b <= iSrcX < (bx + 1) * nBlockXSize b)
    /\ only_pixels a s0 s in
  Inner st ->
  (let '(iSrcX, _, _, _) := st in iSrcX <? nBufXSize a + nXOff a) = true ->
  ctl_next Inner (fun _ s => only_pixels a s0 s)
    (window_inner_body cfg i2f32 i2f64 fconv b a J (J + nYOff a)
       (Z.quot (J + nYOff a) (nBlockYSize b)) (nBufXSize a + nXOff a) st).
Proof.
  intros HJ Inner. destruct st as [[[iSrcX bx] boff] s].
  intros (Hrange & Hboff & Hblk & F) C. apply Z.ltb_lt in C. specialize (Hblk C).
  unfold window_inner_body. cbv zeta. rewrite Hread. cbn [andb orb negb].
  assert (F2 : only_pixels a s0 (snd (Interrupted b s)))
    by (apply only_same with (s := s); [apply buf_Interrupted | exact F]).
  destruct (Interrupted b s) as [intr s2]. cbn [snd] in F2.
  destruct intr; [exact F2|].
  match goal with |- context [GetLockedBlockRef b ?x ?y0 false s2] =>
    assert (F3 : only_pixels a s0 (snd (GetLockedBlockRef b x y0 false s2)))
      by (apply only_same with (s := s2); [apply buf_GetLockedBlockRef | exact F2]);
    destruct (GetLockedBlockRef b x y0 false s2) as [ok s3] end.
  cbn [snd] in F3. destruct ok; cbn [negb ctl_next]; [|exact F3].
  assert (Hrem := Z.rem_bound_pos (J + nYOff a) (nBlockYSize b) ltac:(lia) Hbh).
  set (nXRight := if bx * nBlockXSize b <? INT_MAX - nBlockXSize b
                  then bx * nBlockXSize b + nBlockXSize b else INT_MAX).
  set (E := if nXRight <? nBufXSize a + nXOff a then nXRight else nBufXSize a + nXOff a).
  assert (HE : iSrcX < E <= nBufXSize a + nXOff a
               /\ (E < nBufXSize a + nXOff a -> E = (bx + 1) * nBlockXSize b)).
  { subst E nXRight. unfold INT_MAX in *.
    destruct (Z.ltb_spec (bx * nBlockXSize b) (2147483647 - nBlockXSize b));
      match goal with |- context [if ?u <? ?v then _ else _] => destruct (Z.ltb_spec u v) end;
      lia. }
  destruct HE as (HE1 & HE3).
  set (kmax := Z.min (nBlockYSize b - Z.rem (J + nYOff a) (nBlockYSize b))
                     (nBufYSize a - J)).
  assert (Hkmax : 1 <= kmax <= nBufYSize a - J) by (subst kmax; lia).
  match goal with |- context [for_loop (Z.to_nat kmax) 0 ?f s3] =>
    assert (FL : only_pixels a s0 (for_loop (Z.to_nat kmax) 0 f s3));
    [| generalize dependent (for_loop (Z.to_nat kmax) 0 f s3) ] end.
  - match goal with |- only_pixels a s0 (for_loop ?n 0 ?f s3) =>
      assert (G := @for_loop_indexed IOState (fun _ s' => only_pixels a s0 s') f n 0 s3) end.
    cbv beta in G. apply G; clear G; [|exact F3].
    intros k s' Hk Fk.
    destruct (GDALDataType_eqb (eDataType b) (eBufType a)
              && (nPixelSpace a =? GDALGetDataTypeSizeBytes (eBufType a))) eqn:M.
    + apply andb_true_iff in M. destruct M as [_ M2]. apply Z.eqb_eq in M2.
      apply memcpy_rw_only with (i := iSrcX - nXOff a) (j := J + k);
        try assumption; try lia.
    + apply copy_words_rw_only with (i := iSrcX - nXOff a) (j := J + k);
        try assumption; try lia.
  - intros s4 F4. fold E.
    replace (iSrcX + (E - iSrcX)) with E by lia.
    split; [lia|]. split; [rewrite Hboff; ring|]. split.
    + intro L. rewrite (HE3 L). lia.
    + apply only_same with (s := s4); [apply buf_DropLock | exact F4].
Qed.

Lemma window_outer_body_only (st : Z * Z * IOState) :
  let Outer := fun st : Z * Z * IOState =>
    let '(J, iSrcY, s) := st in
    0 <= J /\ iSrcY = J + nYOff a /\ only_pixels a s0 s in
  Outer st ->
  (let '(J, _, _) := st in J <? nBufYSize a) = true ->
  ctl_next Outer (fun _ s => only_pixels a s0 s)
    (window_outer_body cfg i2f32 i2f64 fconv b a st).
Proof.
  intro Outer. destruct st as [[J iSrcY] s]. subst Outer. cbv beta iota.
  intros (HJ0 & E0 & F) C. subst iSrcY.
  apply Z.ltb_lt in C. unfold window_outer_body. cbv zeta.
  assert (In := fun st => @window_inner_body_only J st (conj HJ0 C)). cbv zeta in In.
  assert (Hrem := Z.rem_bound_pos (J + nYOff a) (nBlockYSize b) ltac:(lia) Hbh).
  assert (I0 : nXOff a <= nXOff a <= nBufXSize a + nXOff a
               /\ J * nLineSpace a = J * nLineSpace a + (nXOff a - nXOff a) * nPixelSpace a
               /\ (nXOff a < nBufXSize a + nXOff a ->
                   Z.quot (nXOff a) (nBlockXSize b) * nBlockXSize b <= nXOff a
                     < (Z.quot (nXOff a) (nBlockXSize b) + 1) * nBlockXSize b)
               /\ only_pixels a s0 s).
  { split; [lia|]. split; [ring|].
    split; [intro L; apply quot_block_bounds; lia | exact F]. }
  match goal with |- context [while_ctl ?n ?c ?body ?st0] =>
    assert (W := @while_ctl_next _ _ (fun (_ : CPLErr) (s : IOState) => only_pixels a s0 s)
                   c body (fun st I C' => In st I C') n st0);
    destruct (while_ctl n c body st0) as [[[[x bx] o] s1] | [[[x bx] o] s1] | e s1 |] end;
    cbn [ctl_next] in W |- *.
  - destruct (W I0) as [(_ & _ & _ & F1) _].
    match goal with |- context [progress_stops a ?q s1] =>
      assert (F3 : only_pixels a s0 (snd (progress_stops a q s1)))
        by (apply only_same with (s := s1); [apply buf_progress_stops | exact F1]);
      destruct (progress_stops a q s1) as [stop s2] end.
    cbn [snd] in F3. destruct stop; cbn [ctl_next]; [exact F3|].
    split; [lia|]. split; [ring | exact F3].
  - exfalso. exact (W I0).
  - exact (W I0).
  - exact I.
Qed.

Lemma IRasterIO_window_only (e : CPLErr) (s' : IOState) :
  IRasterIO_window cfg i2f32 i2f64 fconv b a s0 = Some (e, s') ->
  only_pixels a s0 s'.
Proof.
  unfold IRasterIO_window.
  assert (I0 : 0 <= 0 /\ nYOff a = 0 + nYOff a /\ only_pixels a s0 s0)
    by (split; [lia | split; [ring | intros o _; reflexivity]]).
  match goal with |- context [while_ctl ?n ?c ?body ?st0] =>
    assert (W := @while_ctl_next _ _ (fun (_ : CPLErr) (s : IOState) => only_pixels a s0 s)
                   c body (fun st I C' => @window_outer_body_only st I C') n st0 I0);
    destruct (while_ctl n c body st0) as [[[J y] s1] | [[J y] s1] | e1 s1 |] end;
    cbn [ctl_next] in W; intro E; inversion E; subst.
  - destruct W as [(_ & _ & F) _]. exact F.
  - exfalso. exact W.
  - exact W.
Qed.

End Window.


(** The nearest-neighbour read. *)
Lemma gread_row_only (bx by_ j : Z) (st : CPLErr * option (Z * Z) * IOState) :
  0 <= j < nBufYSize a ->
  (let '(_, _, s) := st in only_pixels a s0 s) ->
  match gread_row cfg i2f32 i2f64 fconv b a bx by_ j st with
  | Next st' | Break st' => let '(_, _, s) := st' in only_pixels a s0 s
  | Return _ s => only_pixels a s0 s
  | Fuel => True
  end.
Proof.
  intros Hj. destruct st as [[e p] s]. intro F. unfold gread_row. cbv zeta.
  set (lo := buf_lo bx (nBlockXSize b) (nXOff a) (dfSrcXInc a)).
  set (lim := buf_lim bx (nBlockXSize b) (nXOff a) (dfSrcXInc a) (nBufXSize a)).
  assert (Llo : 0 <= lo) by apply buf_lo_nonneg.
  assert (Ulim : lim <= nBufXSize a) by apply buf_lim_le.
  match goal with |- context [for_loop ?n lo ?f s] =>
    assert (FL := @for_loop_indexed IOState (fun _ s' => only_pixels a s0 s') f n lo s);
    generalize dependent (for_loop n lo f s) end.
  cbv beta. intros s1 FL.
  assert (F1 : only_pixels a s0 s1).
  { apply FL; [|exact F]. intros i s' Hi Fi. apply gread_pixel_only; [lia | exact Hj | exact Fi]. }
  assert (K : forall q,
            match (let '(stop, s2) := progress_stops a q s1 in
                   if stop then Break (CE_Failure, p, s2) else Next (e, p, s2)) with
            | Next st' | Break st' => let '(_, _, s) := st' in only_pixels a s0 s
            | Return _ s => only_pixels a s0 s
            | Fuel => True
            end).
  { intro q.
    assert (F3 : only_pixels a s0 (snd (progress_stops a q s1)))
      by (apply only_same with (s := s1); [apply buf_progress_stops | exact F1]).
    destruct (progress_stops a q s1) as [stop s2]. cbn [snd] in F3.
    destruct stop; exact F3. }
  destruct e; try apply K. exact F1.
Qed.

Lemma gread_block_only (by_ bx : Z) (st : CPLErr * option (Z * Z) * IOState) :
  (let '(_, _, s) := st in only_pixels a s0 s) ->
  match gread_block cfg i2f32 i2f64 fconv b a by_ bx st with
  | Next st' | Break st' => let '(_, _, s) := st' in only_pixels a s0 s
  | Return _ s => only_pixels a s0 s
  | Fuel => True
  end.
Proof.
  destruct st as [[e p] s]. intro F. unfold gread_block. cbv zeta.
  assert (F1 : only_pixels a s0 (snd (Interrupted b (DropLock p s)))).
  { apply only_same with (s := s); [|exact F].
    rewrite buf_Interrupted. apply buf_DropLock. }
  destruct (Interrupted b (DropLock p s)) as [intr s2]. cbn [snd] in F1.
  destruct intr; [exact F1|].
  assert (F2 : only_pixels a s0 (snd (GetLockedBlockRef b bx by_ false s2)))
    by (apply only_same with (s := s2); [apply buf_GetLockedBlockRef | exact F1]).
  destruct (GetLockedBlockRef b bx by_ false s2) as [ok s3]. cbn [snd] in F2.
  destruct ok; cbn [negb]; [|exact F2].
  set (lo := buf_lo by_ (nBlockYSize b) (nYOff a) (dfSrcYInc a)).
  set (lim := buf_lim by_ (nBlockYSize b) (nYOff a) (dfSrcYInc a) (nBufYSize a)).
  assert (Llo : 0 <= lo) by apply buf_lo_nonneg.
  assert (Ulim : lim <= nBufYSize a) by apply buf_lim_le.
  assert (G := @for_ctl_indexed _
                 (fun (_ : Z) (st : CPLErr * option (Z * Z) * IOState) =>
                    let '(_, _, s) := st in only_pixels a s0 s)
                 (fun st : CPLErr * option (Z * Z) * IOState =>
                    let '(_, _, s) := st in only_pixels a s0 s)
                 (fun (_ : CPLErr) (s : IOState) => only_pixels a s0 s)
                 (gread_row cfg i2f32 i2f64 fconv b a bx by_)
                 (Z.to_nat (lim - lo)) lo (e, Some (bx, by_), s3)
                 (fun j st Hj I => @gread_row_only bx by_ j st ltac:(lia) I) F2).
  destruct (for_ctl _ _ _ _) as [st1 | st1 | e1 s1 |]; exact G.
Qed.

Lemma gread_block_row_only (x0 x1 by_ : Z) (st : CPLErr * option (Z * Z) * IOState) :
  (let '(_, _, s) := st in only_pixels a s0 s) ->
  match gread_block_row cfg i2f32 i2f64 fconv b a x0 x1 by_ st with
  | Next st' | Break st' => let '(_, _, s) := st' in only_pixels a s0 s
  | Return _ s => only_pixels a s0 s
  | Fuel => True
  end.
Proof.
  intro F. unfold gread_block_row.
  assert (G := @for_ctl_indexed _
                 (fun (_ : Z) (st : CPLErr * option (Z * Z) * IOState) =>
                    let '(_, _, s) := st in only_pixels a s0 s)
                 (fun st : CPLErr * option (Z * Z) * IOState =>
                    let '(_, _, s) := st in only_pixels a s0 s)
                 (fun (_ : CPLErr) (s : IOState) => only_pixels a s0 s)
                 (gread_block cfg i2f32 i2f64 fconv b a by_)
                 (Z.to_nat (x1 - x0 + 1)) x0 st
                 (fun bx st _ I => @gread_block_only by_ bx st I) F).
  destruct (for_ctl _ _ _ _) as [st1 | st1 | e1 s1 |]; exact G.
Qed.

Lemma IRasterIO_general_read_only (e : CPLErr) (s' : IOState) :
  IRasterIO_general_read cfg i2f32 i2f64 fconv b a s0 = Some (e, s') ->
  only_pixels a s0 s'.
Proof.
  unfold IRasterIO_general_read. cbv zeta.
  match goal with |- context [for_ctl ?n ?i0 ?body ?st0] =>
    assert (G := @for_ctl_indexed _
                   (fun (_ : Z) (st : CPLErr * option (Z * Z) * IOState) =>
                      let '(_, _, s) := st in only_pixels a s0 s)
                   (fun st : CPLErr * option (Z * Z) * IOState =>
                      let '(_, _, s) := st in only_pixels a s0 s)
                   (fun (_ : CPLErr) (s : IOState) => only_pixels a s0 s)
                   body n i0 st0
                   (fun by_ st _ I => @gread_block_row_only _ _ by_ st I)
                   (fun o _ => eq_refl));
    destruct (for_ctl n i0 body st0) as [[[e1 p] s1] | [[e1 p] s1] | e1 s1 |] end;
    intro E; inversion E; subst;
    try (apply only_same with (s := s1); [apply buf_DropLock | exact G]); exact G.
Qed.

End Frame.

(** X27: a read writes nothing but the pixels of the buffer: for a valid
    read request served by the loops of [IRasterIO] (a band without
    overviews, nearest neighbour), with known pixel types, the call
    returns, and whether it succeeds, fails or is interrupted, every byte
    of the memory of the caller that belongs to no pixel [(i, j)] of the
    buffer, [0 <= i < nBufXSize] and [0 <= j < nBufYSize], is left as it
    was: the bytes before and after the buffer, and the padding between
    its pixels and between its lines.  The offsets fit the [int] variables
    of the source. *)
Theorem read_writes_only_buffer_pixels :
  forall (cfg : BuildConfig) (i2f32 i2f64 : Z -> list byte)
         (fconv : CType -> CType -> list byte -> list byte)
         (b : Band) (a : RasterIOArgs) (s : IOState),
    eRWFlag a = GF_Read ->
    own_loops b a = true ->
    known_type (eDataType b) = true -> known_type (eBufType a) = true ->
    0 <= nXOff a -> 0 <= nYOff a -> 0 < nBufXSize a -> 0 < nBufYSize a ->
    nBufXSize a + nXOff a <= INT_MAX ->
    buffer_layout a -> nLineSpace a * nBufYSize a <= INT_MAX ->
    exists e s',
      IRasterIO cfg i2f32 i2f64 fconv b a s = Some (e, s')
      /\ forall o, pixel_free a o -> buf s' o = buf s o.
Proof.
  intros cfg i2f32 i2f64 fconv b a s Hr Hown Hband Hbuf Hx Hy Hbx Hby Hmax _ _.
  assert (Hread : is_write (eRWFlag a) = false) by (rewrite Hr; reflexivity).
  destruct (own_loops_read b a Hown Hread) as [Hov Halg].
  destruct (@IRasterIO_returns cfg i2f32 i2f64 fconv b a s Hown Hx Hy Hmax) as [[e s'] E].
  exists e, s'. split; [exact E|]. fold (only_pixels a s s').
  revert E. unfold IRasterIO. rewrite Hread. cbn [andb negb].
  destruct ((nBlockXSize b <=? 0) || (nBlockYSize b <=? 0)) eqn:Eb.
  { intro E; inversion E; subst. intros o _. reflexivity. }
  apply orb_false_iff in Eb. destruct Eb as [Ebw Ebh].
  apply Z.leb_gt in Ebw. apply Z.leb_gt in Ebh.
  destruct (is_packed_case b a) eqn:Pk.
  { unfold is_packed_case in Pk. rewrite !andb_true_iff, !Z.eqb_eq in Pk.
    destruct Pk as (((((P1 & P2) & P3) & P4) & P5) & _).
    apply IRasterIO_packed_only; try assumption. lia. }
  cbv zeta.
  replace (0 <? Z.of_nat (List.length (overviews b))) with false
    by (symmetry; apply Z.ltb_ge; lia).
  rewrite andb_false_r. cbn [andb].
  match goal with |- context [if ?c then Some (CE_None, ?z) else ?g] =>
    destruct c eqn:Blank end.
  { intro E; inversion E; subst. clear E.
    rewrite !andb_true_iff in Blank. destruct Blank as ((((_ & _) & B3) & B4) & _).
    apply Z.eqb_eq in B3. apply Z.eqb_eq in B4.
    assert (Hsz := pixel_size_pos _ Hbuf).
    intros o Ho. cbn [set_buf buf]. unfold memset.
    destruct ((pData a <=? o) && (o <? pData a + nLineSpace a * nBufYSize a)) eqn:In;
      [|reflexivity].
    exfalso. apply andb_true_iff in In. destruct In as [I1 I2].
    apply Z.leb_le in I1. apply Z.ltb_lt in I2.
    assert (Hls : 0 < nLineSpace a) by (rewrite B4, B3; apply Z.mul_pos_pos; lia).
    set (j := (o - pData a) / nLineSpace a).
    assert (D := Z.div_mod (o - pData a) (nLineSpace a) ltac:(lia)).
    assert (M := Z.mod_pos_bound (o - pData a) (nLineSpace a) Hls). fold j in D.
    assert (Hj0 : 0 <= j) by (apply Z.div_pos; lia).
    assert (Hjn : j < nBufYSize a) by (apply Z.div_lt_upper_bound; lia).
    destruct (@run_pixel_free a 0 j (nBufXSize a) o B3 Hsz ltac:(lia) ltac:(lia)
                ltac:(lia) Ho) as [A|A];
      unfold buf_addr in A; lia. }
  destruct (is_window_case a).
  { apply IRasterIO_window_only; try assumption; lia. }
  unfold IRasterIO_general. rewrite Hread, Halg.
  apply IRasterIO_general_read_only; assumption.
Qed.

(* ------------------------------------------------------------------ *)
(** ** The extent of what a write changes *)

(** In a block of width [bw], the bytes of a pixel and those of a run of
    [n] pixels of one line that does not hold it are apart. *)
Lemma block_bytes_apart (bw bsz dx dy dx0 dy0 n t : Z) :
  0 < bw -> 0 < bsz -> 0 <= dx < bw -> 0 <= dx0 -> dx0 + n <= bw ->
  dy <> dy0 \/ dx < dx0 \/ dx0 + n <= dx ->
  0 <= t < bsz ->
  (dx + dy * bw) * bsz + t < (dx0 + dy0 * bw) * bsz
  \/ (dx0 + dy0 * bw) * bsz + n * bsz <= (dx + dy * bw) * bsz + t.
Proof.
  intros Hbw Hsz Hdx Hdx0 Hn Hne Ht.
  destruct (Z.lt_trichotomy dy dy0) as [C|[C|C]].
  - left. assert ((dy + 1) * bw <= dy0 * bw) by (apply Z.mul_le_mono_nonneg_r; lia).
    assert ((dx + dy * bw + 1) * bsz <= (dx0 + dy0 * bw) * bsz)
      by (apply Z.mul_le_mono_nonneg_r; lia).
    lia.
  - subst dy0. destruct Hne as [Hne|[Hne|Hne]]; [lia | left | right].
    + assert ((dx + dy * bw + 1) * bsz <= (dx0 + dy * bw) * bsz)
        by (apply Z.mul_le_mono_nonneg_r; lia).
      lia.
    + assert ((dx0 + dy * bw + n) * bsz <= (dx + dy * bw) * bsz)
        by (apply Z.mul_le_mono_nonneg_r; lia).
      lia.
  - right. assert ((dy0 + 1) * bw <= dy * bw) by (apply Z.mul_le_mono_nonneg_r; lia).
    assert ((dx0 + dy0 * bw + n) * bsz <= (dx + dy * bw) * bsz)
      by (apply Z.mul_le_mono_nonneg_r; lia).
    lia.
Qed.

Section WFrame.

Variable cfg : BuildConfig.
Variable i2f32 : Z -> list byte.
Variable i2f64 : Z -> list byte.
Variable fconv : CType -> CType -> list byte -> list byte.
Variable b : Band.
Variable a : RasterIOArgs.
Variable s0 : IOState.

Hypothesis Hwrite : is_write (eRWFlag a) = true.
Hypothesis Hband : known_type (eDataType b) = true.
Hypothesis Hbuf : known_type (eBufType a) = true.
Hypothesis Hbw : 0 < nBlockXSize b.
Hypothesis Hbh : 0 < nBlockYSize b.

Lemma outside_same (s s1 : IOState) :
  blocks s1 = blocks s -> outside_kept b a s0 s -> outside_kept b a s0 s1.
Proof. intros E H x y Hx Hy N. unfold raster_pixel. rewrite E. apply H; assumption. Qed.

(** A step that changes block [(bx, by_)] only, when all its pixels lie
    in the window. *)
Lemma outside_block (s s1 : IOState) (bx by_ : Z) :
  (forall x' y', x' <> bx \/ y' <> by_ -> blocks s1 x' y' = blocks s x' y') ->
  block_in_window b a bx by_ ->
  outside_kept b a s0 s -> outside_kept b a s0 s1.
Proof.
  intros Ek C H x y Hx Hy N. rewrite <- (H x y Hx Hy N).
  unfold raster_pixel. cbv zeta. rewrite Ek; [reflexivity|].
  destruct (Z.eq_dec (Z.quot x (nBlockXSize b)) bx) as [E1|E1]; [|left; exact E1].
  destruct (Z.eq_dec (Z.quot y (nBlockYSize b)) by_) as [E2|E2]; [|right; exact E2].
  exfalso. apply N. apply (C x y Hx Hy E1 E2).
Qed.

(** Fetching a block for a write. *)
Lemma outside_fetch (s : IOState) (bx by_ : Z) (ji : bool) :
  (ji = true -> block_in_window b a bx by_) ->
  outside_kept b a s0 s ->
  outside_kept b a s0 (snd (GetLockedBlockRef b bx by_ ji s)).
Proof.
  intros Hji H. destruct ji.
  - apply outside_block with (s := s) (bx := bx) (by_ := by_);
      [intros x' y' N; apply blocks_GetLockedBlockRef_other; exact N
      | apply Hji; reflexivity | exact H].
  - apply outside_same with (s := s); [apply blocks_GetLockedBlockRef_read | exact H].
Qed.

(** Marking the fetched block dirty and zeroing it. *)
Lemma outside_dirty_zero (s : IOState) (bx by_ : Z) (mz : bool) :
  (mz = true -> block_in_window b a bx by_) ->
  outside_kept b a s0 s ->
  outside_kept b a s0
    (let s1 := MarkDirty bx by_ s in if mz then zero_block b bx by_ s1 else s1).
Proof.
  intros Hmz H. cbv zeta. destruct mz.
  - apply outside_block with (s := s) (bx := bx) (by_ := by_);
      [| apply Hmz; reflexivity | exact H].
    intros x' y' N. unfold zero_block, set_block, MarkDirty, log. cbn [blocks].
    replace ((x' =? bx) && (y' =? by_)) with false; [reflexivity|].
    symmetry. apply andb_false_iff. rewrite !Z.eqb_neq. exact N.
  - apply outside_same with (s := s); [reflexivity | exact H].
Qed.

(** A run of [n] pixels of line [y0] of the window, from column [x0] on,
    written into the block [(bx, by_)] that holds them. *)
Lemma outside_run (s : IOState) (m1 : mem) (bx by_ x0 y0 n : Z) :
  nXOff a <= x0 -> x0 + n <= nXOff a + nXSize a ->
  nYOff a <= y0 < nYOff a + nYSize a ->
  bx * nBlockXSize b <= x0 -> x0 + n <= (bx + 1) * nBlockXSize b ->
  (forall o,
     o < (x0 - bx * nBlockXSize b + (y0 - by_ * nBlockYSize b) * nBlockXSize b)
         * GDALGetDataTypeSizeBytes (eDataType b)
     \/ (x0 - bx * nBlockXSize b + (y0 - by_ * nBlockYSize b) * nBlockXSize b)
        * GDALGetDataTypeSizeBytes (eDataType b)
        + n * GDALGetDataTypeSizeBytes (eDataType b) <= o ->
     m1 o = blocks s bx by_ o) ->
  outside_kept b a s0 s ->
  outside_kept b a s0 (set_block bx by_ m1 s).
Proof.
  intros Hx0 Hxn Hy0 Hb0 Hbn Hframe H x y Hx Hy N.
  assert (Hsz := pixel_size_pos _ Hband).
  assert (Esz := @type_size_bytes _ Hband).
  rewrite <- (H x y Hx Hy N). unfold raster_pixel. cbv zeta.
  set (qx := Z.quot x (nBlockXSize b)). set (qy := Z.quot y (nBlockYSize b)).
  cbn [set_block blocks].
  destruct ((qx =? bx) && (qy =? by_)) eqn:B; [|reflexivity].
  apply andb_true_iff in B. destruct B as [B1 B2].
  apply Z.eqb_eq in B1. apply Z.eqb_eq in B2.
  assert (Bx := @quot_block_bounds x (nBlockXSize b) ltac:(lia) Hbw). fold qx in Bx.
  rewrite B1 in *. rewrite B2 in *.
  apply load_bytes_ext. intros t Ht. rewrite <- Esz in Ht. apply Hframe.
  apply block_bytes_apart; try assumption; try lia.
  destruct (Z.eq_dec (y - by_ * nBlockYSize b) (y0 - by_ * nBlockYSize b)) as [E|E];
    [|left; exact E].
  right. assert (y = y0) by lia. subst y0.
  unfold in_window in N. lia.
Qed.


(** A block the window covers, up to the edges of the raster. *)
Lemma block_in_window_intro (bx by_ : Z) :
  nXOff a <= bx * nBlockXSize b -> nYOff a <= by_ * nBlockYSize b ->
  (bx + 1) * nBlockXSize b <= nXOff a + nXSize a
  \/ nRasterXSize b <= nXOff a + nXSize a ->
  (by_ + 1) * nBlockYSize b <= nYOff a + nYSize a
  \/ nRasterYSize b <= nYOff a + nYSize a ->
  block_in_window b a bx by_.
Proof.
  intros H1 H2 H3 H4 x y Hx Hy Ex Ey.
  assert (Bx := @quot_block_bounds x (nBlockXSize b) ltac:(lia) Hbw).
  assert (By := @quot_block_bounds y (nBlockYSize b) ltac:(lia) Hbh).
  rewrite Ex in Bx. rewrite Ey in By. unfold in_window. lia.
Qed.

Lemma memcpy_rw_outside (s : IOState) (bx by_ x0 y0 n off boff : Z) :
  eDataType b = eBufType a ->
  nPixelSpace a = GDALGetDataTypeSizeBytes (eBufType a) ->
  nXOff a <= x0 -> x0 + n <= nXOff a + nXSize a ->
  nYOff a <= y0 < nYOff a + nYSize a ->
  bx * nBlockXSize b <= x0 -> x0 + n <= (bx + 1) * nBlockXSize b ->
  off = (x0 - bx * nBlockXSize b + (y0 - by_ * nBlockYSize b) * nBlockXSize b)
        * GDALGetDataTypeSizeBytes (eDataType b) ->
  outside_kept b a s0 s ->
  outside_kept b a s0 (memcpy_rw a bx by_ off boff (n * nPixelSpace a) s).
Proof.
  intros Et Eps Hx0 Hxn Hy0 Hb0 Hbn -> H. unfold memcpy_rw. rewrite Hwrite.
  apply outside_run with (x0 := x0) (y0 := y0) (n := n); try assumption.
  intros o Ho. apply memcpy_frame. rewrite Eps, <- Et. exact Ho.
Qed.

Lemma copy_words_rw_outside (s : IOState) (bx by_ x0 y0 n off boff : Z) :
  nXOff a <= x0 -> x0 + n <= nXOff a + nXSize a ->
  nYOff a <= y0 < nYOff a + nYSize a ->
  bx * nBlockXSize b <= x0 -> x0 + n <= (bx + 1) * nBlockXSize b ->
  off = (x0 - bx * nBlockXSize b + (y0 - by_ * nBlockYSize b) * nBlockXSize b)
        * GDALGetDataTypeSizeBytes (eDataType b) ->
  outside_kept b a s0 s ->
  outside_kept b a s0 (copy_words_rw cfg i2f32 i2f64 fconv b a bx by_ off boff n s).
Proof.
  intros Hx0 Hxn Hy0 Hb0 Hbn -> H. unfold copy_words_rw. rewrite Hwrite.
  apply outside_run with (x0 := x0) (y0 := y0) (n := n); try assumption.
  intros o Ho. apply GDALCopyWords_frame; assumption.
Qed.

Hypothesis Hx : 0 <= nXOff a.
Hypothesis Hy : 0 <= nYOff a.

(** The packed full-width case. *)
Lemma packed_body_outside (i : Z) (st : CPLErr * option (Z * Z) * Z * IOState) :
  nPixelSpace a = GDALGetDataTypeSizeBytes (eBufType a) ->
  nLineSpace a = nPixelSpace a * nBufXSize a ->
  nBufXSize a = nXSize a -> nBufYSize a = nYSize a ->
  nXOff a + nXSize a <= nBlockXSize b ->
  0 <= i < nBufYSize a ->
  (let '(_, _, _, s) := st in outside_kept b a s0 s) ->
  match packed_body cfg i2f32 i2f64 fconv b a i st with
  | Next st' | Break st' => let '(_, _, _, s) := st' in outside_kept b a s0 s
  | Return _ s => outside_kept b a s0 s
  | Fuel => True
  end.
Proof.
  intros Eps Els Ebx Eby Hfit Hi. destruct st as [[[e p] yb] s]. intro F.
  assert (Row : forall (p' : option (Z * Z)) (y : Z) (s1 : IOState),
            outside_kept b a s0 s1 ->
            match packed_copy_row cfg i2f32 i2f64 fconv b a i e p' y s1 with
            | Next st' | Break st' => let '(_, _, _, s) := st' in outside_kept b a s0 s
            | Return _ s => outside_kept b a s0 s
            | Fuel => True
            end).
  { intros p' y s1 F1. unfold packed_copy_row. cbv zeta.
    match goal with |- context [progress_stops a ?q ?s2] =>
      assert (F2 : outside_kept b a s0 s2);
      [| assert (F3 : outside_kept b a s0 (snd (progress_stops a q s2)))
           by (apply outside_same with (s := s2); [apply blocks_progress_stops | exact F2]);
         destruct (progress_stops a q s2) as [stop s3] ] end.
    - destruct (GDALDataType_eqb (eDataType b) (eBufType a)) eqn:M.
      + apply GDALDataType_eqb_eq in M.
        replace (nLineSpace a) with (nBufXSize a * nPixelSpace a) at 2 by lia.
        apply memcpy_rw_outside with (x0 := nXOff a) (y0 := i + nYOff a);
          try assumption; try lia.
      + apply copy_words_rw_outside with (x0 := nXOff a) (y0 := i + nYOff a);
          try assumption; try lia.
    - cbn [snd] in F3. destruct stop; exact F3. }
  unfold packed_body. cbv zeta.
  destruct ((i + nYOff a <? yb * nBlockYSize b)
            || (yb * nBlockYSize b <=? i + nYOff a - nBlockYSize b)).
  - rewrite Hwrite. cbn [andb].
    assert (F1 : outside_kept b a s0 (snd (Interrupted b (DropLock p s)))).
    { apply outside_same with (s := s); [|exact F].
      rewrite blocks_Interrupted. apply blocks_DropLock. }
    destruct (Interrupted b (DropLock p s)) as [intr s2]. cbn [snd] in F1.
    destruct intr; [exact F1|].
    set (y := Z.quot (i + nYOff a) (nBlockYSize b)) in *.
    match goal with |- context [GetLockedBlockRef b 0 y ?ji s2] =>
      assert (F3 : outside_kept b a s0 (snd (GetLockedBlockRef b 0 y ji s2)));
      [ apply outside_fetch; [|exact F1]
      | destruct (GetLockedBlockRef b 0 y ji s2) as [ok s3] ] end.
    + intro T. apply orb_true_iff in T. destruct T as [T|T];
        rewrite !andb_true_iff in T; rewrite ?negb_true_iff in T;
        rewrite ?Z.eqb_eq, ?Z.leb_le, ?Z.ltb_lt in T;
        apply block_in_window_intro; lia.
    + cbn [snd] in F3. destruct ok; cbn [negb]; [|exact F3].
      apply Row.
      match goal with |- context [if ?mz then zero_block b 0 y _ else _] =>
        apply (@outside_dirty_zero s3 0 y mz); [|exact F3] end.
      intro T. rewrite !andb_true_iff in T. rewrite ?negb_true_iff in T.
      rewrite ?Z.eqb_eq, ?Z.leb_le, ?Z.ltb_lt in T.
      apply block_in_window_intro; lia.
  - apply Row. exact F.
Qed.


Lemma IRasterIO_packed_outside (e : CPLErr) (s' : IOState) :
  nPixelSpace a = GDALGetDataTypeSizeBytes (eBufType a) ->
  nLineSpace a = nPixelSpace a * nBufXSize a ->
  nBufXSize a = nXSize a -> nBufYSize a = nYSize a ->
  nXOff a + nXSize a <= nBlockXSize b ->
  IRasterIO_packed cfg i2f32 i2f64 fconv b a s0 = Some (e, s') ->
  outside_kept b a s0 s'.
Proof.
  intros Eps Els Ebx Eby Hfit. unfold IRasterIO_packed.
  assert (G := @for_ctl_indexed _
                 (fun (_ : Z) (st : CPLErr * option (Z * Z) * Z * IOState) =>
                    let '(_, _, _, s) := st in outside_kept b a s0 s)
                 (fun st : CPLErr * option (Z * Z) * Z * IOState =>
                    let '(_, _, _, s) := st in outside_kept b a s0 s)
                 (fun (_ : CPLErr) (s : IOState) => outside_kept b a s0 s)
                 (packed_body cfg i2f32 i2f64 fconv b a)
                 (Z.to_nat (nBufYSize a)) 0 (CE_None, None, -1, s0)
                 (fun i st Hi I =>
                    @packed_body_outside i st Eps Els Ebx Eby Hfit ltac:(lia) I)
                 (fun x y _ _ _ => eq_refl)).
  destruct (for_ctl _ _ _ _) as [[[[e1 p] y] s1] | [[[e1 p] y] s1] | e1 s1 |];
    intro E; inversion E; subst;
    try (apply outside_same with (s := s1); [apply blocks_DropLock | exact G]); exact G.
Qed.

(** The 1:1 arbitrary-window case. *)
Section Window.

Hypothesis Hmax : nBufXSize a + nXOff a <= INT_MAX.
Hypothesis Hw : 0 <= nBufXSize a.
Hypothesis Ebx : nXSize a = nBufXSize a.
Hypothesis Eby : nYSize a = nBufYSize a.
Hypothesis Hrx : nRasterXSize b <= INT_MAX.

Lemma window_inner_body_outside (J : Z) (st : Z * Z * Z * IOState) :
  0 <= J < nBufYSize a ->
  let Inner := fun st : Z * Z * Z * IOState =>
    let '(iSrcX, bx, boff, s) := st in
    nXOff a <= iSrcX <= nBufXSize a + nXOff a
    /\ (iSrcX < nBufXSize a + nXOff a ->
        bx * nBlockXSize b <= iSrcX < (bx + 1) * nBlockXSize b)
    /\ outside_kept b a s0 s in
  Inner st ->
  (let '(iSrcX, _, _, _) := st in iSrcX <? nBufXSize a + nXOff a) = true ->
  ctl_next Inner (fun _ s => outside_kept b a s0 s)
    (window_inner_body cfg i2f32 i2f64 fconv b a J (J + nYOff a)
       (Z.quot (J + nYOff a) (nBlockYSize b)) (nBufXSize a + nXOff a) st).
Proof.
  intros HJ Inner. destruct st as [[[iSrcX bx] boff] s].
  intros (Hrange & Hblk & F) C. apply Z.ltb_lt in C. specialize (Hblk C).
  unfold window_inner_body. cbv zeta. rewrite Hwrite. cbn [andb].
  assert (F2 : outside_kept b a s0 (snd (Interrupted b s)))
    by (apply outside_same with (s := s); [apply blocks_Interrupted | exact F]).
  destruct (Interrupted b s) as [intr s2]. cbn [snd] in F2.
  destruct intr; [exact F2|].
  set (y := Z.quot (J + nYOff a) (nBlockYSize b)) in *.
  assert (Hrem := Z.rem_bound_pos (J + nYOff a) (nBlockYSize b) ltac:(lia) Hbh).
  assert (Hqr := Z.quot_rem' (J + nYOff a) (nBlockYSize b)). fold y in Hqr.
  set (nXRight := if bx * nBlockXSize b <? INT_MAX - nBlockXSize b
                  then bx * nBlockXSize b + nBlockXSize b else INT_MAX) in *.
  assert (HR : nXRight <= (bx + 1) * nBlockXSize b
               /\ (nXRight < (bx + 1) * nBlockXSize b -> nXRight = INT_MAX)).
  { subst nXRight.
    destruct (Z.ltb_spec (bx * nBlockXSize b) (INT_MAX - nBlockXSize b)); lia. }
  destruct HR as [HR1 HR2].
  assert (Edge : nXRight <= nXOff a + nXSize a ->
                 (bx + 1) * nBlockXSize b <= nXOff a + nXSize a
                 \/ nRasterXSize b <= nXOff a + nXSize a).
  { intro L. destruct (Z_lt_ge_dec nXRight ((bx + 1) * nBlockXSize b)) as [D|D];
      [right; rewrite (HR2 D) in L; lia | left; lia]. }
  match goal with |- context [GetLockedBlockRef b bx y ?ji s2] =>
    assert (F3 : outside_kept b a s0 (snd (GetLockedBlockRef b bx y ji s2)));
    [ apply outside_fetch; [|exact F2]
    | destruct (GetLockedBlockRef b bx y ji s2) as [ok s3] ] end.
  { intro T. apply orb_true_iff in T. destruct T as [T|T];
      rewrite !andb_true_iff in T; rewrite ?negb_true_iff in T;
      rewrite ?orb_true_iff, ?andb_true_iff in T;
      rewrite ?Z.eqb_eq, ?Z.leb_le, ?Z.ltb_lt in T.
    - apply block_in_window_intro; lia.
    - apply block_in_window_intro; lia. }
  cbn [snd] in F3. destruct ok; cbn [negb ctl_next]; [|exact F3].
  set (E := if nXRight <? nBufXSize a + nXOff a then nXRight else nBufXSize a + nXOff a)
    in *.
  assert (HE : iSrcX < E <= nBufXSize a + nXOff a
               /\ E <= (bx + 1) * nBlockXSize b
               /\ (E < nBufXSize a + nXOff a -> E = (bx + 1) * nBlockXSize b)).
  { subst E nXRight. unfold INT_MAX in *.
    destruct (Z.ltb_spec (bx * nBlockXSize b) (2147483647 - nBlockXSize b));
      match goal with |- context [if ?u <? ?v then _ else _] => destruct (Z.ltb_spec u v) end;
      lia. }
  destruct HE as (HE1 & HE2 & HE3).
  set (kmax := Z.min (nBlockYSize b - Z.rem (J + nYOff a) (nBlockYSize b))
                     (nBufYSize a - J)) in *.
  assert (Hkmax : 1 <= kmax <= nBufYSize a - J) by (subst kmax; lia).
  match goal with |- context [for_loop (Z.to_nat kmax) 0 ?f ?s4] =>
    assert (F4 : outside_kept b a s0 s4);
    [| assert (FL : outside_kept b a s0 (for_loop (Z.to_nat kmax) 0 f s4));
       [| generalize dependent (for_loop (Z.to_nat kmax) 0 f s4) ] ] end.
  - match goal with |- context [if ?mz then zero_block b bx y _ else _] =>
      apply (@outside_dirty_zero s3 bx y mz); [|exact F3] end.
    intro T. rewrite !andb_true_iff in T. rewrite ?negb_true_iff in T.
    rewrite ?orb_true_iff, ?andb_true_iff in T.
    rewrite ?Z.eqb_eq, ?Z.leb_le, ?Z.ltb_lt in T.
    apply block_in_window_intro; lia.
  - match goal with |- outside_kept b a s0 (for_loop ?n 0 ?f ?s4) =>
      assert (G := @for_loop_indexed IOState (fun _ s' => outside_kept b a s0 s') f n 0 s4)
    end.
    cbv beta in G. apply G; clear G; [|exact F4].
    intros k s' Hk Fk.
    destruct (GDALDataType_eqb (eDataType b) (eBufType a)
              && (nPixelSpace a =? GDALGetDataTypeSizeBytes (eBufType a))) eqn:M.
    + apply andb_true_iff in M. destruct M as [M1 M2].
      apply GDALDataType_eqb_eq in M1. apply Z.eqb_eq in M2.
      apply memcpy_rw_outside with (x0 := iSrcX) (y0 := J + k + nYOff a);
        try assumption; try lia.
    + apply copy_words_rw_outside with (x0 := iSrcX) (y0 := J + k + nYOff a);
        try assumption; try lia.
  - intros s5 F5. fold E.
    replace (iSrcX + (E - iSrcX)) with E by lia.
    split; [lia|]. split.
    + intro L. rewrite (HE3 L). lia.
    + apply outside_same with (s := s5); [apply blocks_DropLock | exact F5].
Qed.


Lemma window_outer_body_outside (st : Z * Z * IOState) :
  let Outer := fun st : Z * Z * IOState =>
    let '(J, iSrcY, s) := st in
    0 <= J /\ iSrcY = J + nYOff a /\ outside_kept b a s0 s in
  Outer st ->
  (let '(J, _, _) := st in J <? nBufYSize a) = true ->
  ctl_next Outer (fun _ s => outside_kept b a s0 s)
    (window_outer_body cfg i2f32 i2f64 fconv b a st).
Proof.
  intro Outer. destruct st as [[J iSrcY] s]. subst Outer. cbv beta iota.
  intros (HJ0 & E0 & F) C. subst iSrcY.
  apply Z.ltb_lt in C. unfold window_outer_body. cbv zeta.
  assert (In := fun st => @window_inner_body_outside J st (conj HJ0 C)). cbv zeta in In.
  assert (Hrem := Z.rem_bound_pos (J + nYOff a) (nBlockYSize b) ltac:(lia) Hbh).
  assert (I0 : nXOff a <= nXOff a <= nBufXSize a + nXOff a
               /\ (nXOff a < nBufXSize a + nXOff a ->
                   Z.quot (nXOff a) (nBlockXSize b) * nBlockXSize b <= nXOff a
                     < (Z.quot (nXOff a) (nBlockXSize b) + 1) * nBlockXSize b)
               /\ outside_kept b a s0 s).
  { split; [lia|]. split; [intro L; apply quot_block_bounds; lia | exact F]. }
  match goal with |- context [while_ctl ?n ?c ?body ?st0] =>
    assert (W := @while_ctl_next _ _ (fun (_ : CPLErr) (s : IOState) => outside_kept b a s0 s)
                   c body (fun st I C' => In st I C') n st0 I0);
    destruct (while_ctl n c body st0) as [[[[x bx] o] s1] | [[[x bx] o] s1] | e s1 |] end;
    cbn [ctl_next] in W |- *.
  - destruct W as [(_ & _ & F1) _].
    match goal with |- context [progress_stops a ?q s1] =>
      assert (F3 : outside_kept b a s0 (snd (progress_stops a q s1)))
        by (apply outside_same with (s := s1); [apply blocks_progress_stops | exact F1]);
      destruct (progress_stops a q s1) as [stop s2] end.
    cbn [snd] in F3. destruct stop; cbn [ctl_next]; [exact F3|].
    split; [lia|]. split; [ring | exact F3].
  - exfalso. exact W.
  - exact W.
  - exact I.
Qed.

Lemma IRasterIO_window_outside (e : CPLErr) (s' : IOState) :
  IRasterIO_window cfg i2f32 i2f64 fconv b a s0 = Some (e, s') ->
  outside_kept b a s0 s'.
Proof.
  unfold IRasterIO_window.
  assert (I0 : 0 <= 0 /\ nYOff a = 0 + nYOff a /\ outside_kept b a s0 s0)
    by (split; [lia | split; [ring | intros x y _ _ _; reflexivity]]).
  match goal with |- context [while_ctl ?n ?c ?body ?st0] =>
    assert (W := @while_ctl_next _ _ (fun (_ : CPLErr) (s : IOState) => outside_kept b a s0 s)
                   c body (fun st I C' => @window_outer_body_outside st I C') n st0 I0);
    destruct (while_ctl n c body st0) as [[[J y] s1] | [[J y] s1] | e1 s1 |] end;
    cbn [ctl_next] in W; intro E; inversion E; subst.
  - destruct W as [(_ & _ & F) _]. exact F.
  - exfalso. exact W.
  - exact W.
Qed.

End Window.

(** The write without a 1:1 mapping. *)
Lemma gwrite_pixel_outside (y ybuf x : Z)
    (st : CPLErr * option (Z * Z) * Z * Z * IOState) :
  nXOff a <= x < nXOff a + nXSize a -> nYOff a <= y < nYOff a + nYSize a ->
  (let '(_, _, _, _, s) := st in outside_kept b a s0 s) ->
  match gwrite_pixel cfg i2f32 i2f64 fconv b a y ybuf x st with
  | Next st' | Break st' => let '(_, _, _, _, s) := st' in outside_kept b a s0 s
  | Return _ s => outside_kept b a s0 s
  | Fuel => True
  end.
Proof.
  intros Hwx Hwy. destruct st as [[[[e p] bx] by_] s]. intro F.
  assert (Copy : forall bx' by' s1,
            bx' * nBlockXSize b <= x < (bx' + 1) * nBlockXSize b ->
            outside_kept b a s0 s1 ->
            forall m1,
              (forall o,
                 o < (x - bx' * nBlockXSize b + (y - by' * nBlockYSize b) * nBlockXSize b)
                     * GDALGetDataTypeSizeBytes (eDataType b)
                 \/ (x - bx' * nBlockXSize b + (y - by' * nBlockYSize b) * nBlockXSize b)
                    * GDALGetDataTypeSizeBytes (eDataType b)
                    + 1 * GDALGetDataTypeSizeBytes (eDataType b) <= o ->
                 m1 o = blocks s1 bx' by' o) ->
              outside_kept b a s0 (set_block bx' by' m1 s1)).
  { intros bx' by' s1 Bx F1 m1 Fr.
    apply outside_run with (x0 := x) (y0 := y) (n := 1); try assumption; lia. }
  unfold gwrite_pixel. cbv zeta.
  destruct ((x <? bx * nBlockXSize b) || (bx * nBlockXSize b <=? x - nBlockXSize b)
            || (y <? by_ * nBlockYSize b) || (by_ * nBlockYSize b <=? y - nBlockYSize b))
    eqn:C.
  - set (qx := Z.quot x (nBlockXSize b)). set (qy := Z.quot y (nBlockYSize b)).
    assert (Bx := @quot_block_bounds x (nBlockXSize b) ltac:(lia) Hbw). fold qx in Bx.
    assert (F1 : outside_kept b a s0 (DropLock p s))
      by (apply outside_same with (s := s); [apply blocks_DropLock | exact F]).
    match goal with |- context [GetLockedBlockRef b qx qy ?ji (DropLock p s)] =>
      assert (F3 : outside_kept b a s0 (snd (GetLockedBlockRef b qx qy ji (DropLock p s))));
      [ apply outside_fetch; [|exact F1]
      | destruct (GetLockedBlockRef b qx qy ji (DropLock p s)) as [ok s3] ] end.
    { intro T. rewrite !andb_true_iff in T. rewrite ?Z.leb_le in T.
      apply block_in_window_intro; lia. }
    cbn [snd] in F3. destruct ok; cbn [negb]; [|exact F3].
    destruct (GDALDataType_eqb (eDataType b) (eBufType a)); apply Copy;
      try assumption;
      try (apply outside_same with (s := s3); [reflexivity | exact F3]).
    + intros o Ho. apply memcpy_frame. lia.
    + intros o Ho. apply GDALCopyWords_frame_strided; try assumption.
      intros k Hk. assert (k = 0) by lia. subst k. lia.
  - apply orb_false_iff in C. destruct C as [C C4].
    apply orb_false_iff in C. destruct C as [C C3].
    apply orb_false_iff in C. destruct C as [C1 C2].
    apply Z.ltb_ge in C1. apply Z.leb_gt in C2.
    destruct (GDALDataType_eqb (eDataType b) (eBufType a)); apply Copy;
      try assumption; try lia.
    + intros o Ho. apply memcpy_frame. lia.
    + intros o Ho. apply GDALCopyWords_frame_strided; try assumption.
      intros k Hk. assert (k = 0) by lia. subst k. lia.
Qed.

Lemma gwrite_row_outside (y : Z) (st : CPLErr * option (Z * Z) * Z * Z * IOState) :
  nYOff a <= y < nYOff a + nYSize a ->
  (let '(_, _, _, _, s) := st in outside_kept b a s0 s) ->
  match gwrite_row cfg i2f32 i2f64 fconv b a y st with
  | Next st' | Break st' => let '(_, _, _, _, s) := st' in outside_kept b a s0 s
  | Return _ s => outside_kept b a s0 s
  | Fuel => True
  end.
Proof.
  intros Hwy F. unfold gwrite_row. cbv zeta.
  match goal with |- context [for_ctl ?n ?i0 ?body st] =>
    assert (G := @for_ctl_indexed _
                   (fun (_ : Z) (st : CPLErr * option (Z * Z) * Z * Z * IOState) =>
                      let '(_, _, _, _, s) := st in outside_kept b a s0 s)
                   (fun st : CPLErr * option (Z * Z) * Z * Z * IOState =>
                      let '(_, _, _, _, s) := st in outside_kept b a s0 s)
                   (fun (_ : CPLErr) (s : IOState) => outside_kept b a s0 s)
                   body n i0 st
                   (fun x st' Hx' I => @gwrite_pixel_outside y _ x st' ltac:(lia) Hwy I) F);
    destruct (for_ctl n i0 body st)
      as [[[[[e p] bx] by_] s1] | [[[[e p] bx] by_] s1] | e s1 |] end;
    try exact G.
  - match goal with |- context [progress_stops a ?q s1] =>
      assert (F3 : outside_kept b a s0 (snd (progress_stops a q s1)))
        by (apply outside_same with (s := s1); [apply blocks_progress_stops | exact G]);
      destruct (progress_stops a q s1) as [stop s2] end.
    cbn [snd] in F3. destruct stop; exact F3.
  - match goal with |- context [progress_stops a ?q s1] =>
      assert (F3 : outside_kept b a s0 (snd (progress_stops a q s1)))
        by (apply outside_same with (s := s1); [apply blocks_progress_stops | exact G]);
      destruct (progress_stops a q s1) as [stop s2] end.
    cbn [snd] in F3. destruct stop; exact F3.
Qed.

Lemma IRasterIO_general_write_outside (e : CPLErr) (s' : IOState) :
  IRasterIO_general_write cfg i2f32 i2f64 fconv b a s0 = Some (e, s') ->
  outside_kept b a s0 s'.
Proof.
  unfold IRasterIO_general_write.
  assert (G := @for_ctl_indexed _
                 (fun (_ : Z) (st : CPLErr * option (Z * Z) * Z * Z * IOState) =>
                    let '(_, _, _, _, s) := st in outside_kept b a s0 s)
                 (fun st : CPLErr * option (Z * Z) * Z * Z * IOState =>
                    let '(_, _, _, _, s) := st in outside_kept b a s0 s)
                 (fun (_ : CPLErr) (s : IOState) => outside_kept b a s0 s)
                 (gwrite_row cfg i2f32 i2f64 fconv b a)
                 (Z.to_nat (nYSize a)) (nYOff a) (CE_None, None, -1, -1, s0)
                 (fun y st Hy' I => @gwrite_row_outside y st ltac:(lia) I)
                 (fun x y _ _ _ => eq_refl)).
  destruct (for_ctl _ _ _ _)
    as [[[[[e1 p] bx] by_] s1] | [[[[e1 p] bx] by_] s1] | e1 s1 |];
    intro E; inversion E; subst;
    try (apply outside_same with (s := s1); [apply blocks_DropLock | exact G]); exact G.
Qed.

End WFrame.

(** X28: a write leaves the raster outside the window alone: for a valid
    write request with known pixel types, whatever the case that serves it
    (a stored flush error, the packed full-width case, the arbitrary
    window, the write without a 1:1 mapping), the call returns, and
    whether it succeeds or fails, and whether the blocks it fetched were
    loaded, found in the cache, created without loading or zeroed, every
    pixel of the raster that is not in the window holds in its block what
    it held before the call. *)
Theorem write_leaves_the_rest_of_the_raster_alone :
  forall (cfg : BuildConfig) (i2f32 i2f64 : Z -> list byte)
         (fconv : CType -> CType -> list byte -> list byte)
         (b : Band) (a : RasterIOArgs) (s : IOState),
    eRWFlag a = GF_Write ->
    known_type (eDataType b) = true -> known_type (eBufType a) = true ->
    0 <= nXOff a -> 0 <= nYOff a -> 0 <= nBufXSize a ->
    nXOff a + nXSize a <= nRasterXSize b -> nYOff a + nYSize a <= nRasterYSize b ->
    nRasterXSize b <= INT_MAX -> nRasterYSize b <= INT_MAX ->
    nBufXSize a + nXOff a <= INT_MAX ->
    exists e s',
      IRasterIO cfg i2f32 i2f64 fconv b a s = Some (e, s')
      /\ forall x y, 0 <= x < nRasterXSize b -> 0 <= y < nRasterYSize b ->
           ~ in_window a x y -> raster_pixel b s' x y = raster_pixel b s x y.
Proof.
  intros cfg i2f32 i2f64 fconv b a s Hr Hband Hbuf Hx Hy Hw Hfx _ Hrx _ Hmax.
  assert (Hwrite : is_write (eRWFlag a) = true) by (rewrite Hr; reflexivity).
  assert (Hown : own_loops b a = true) by (unfold own_loops; rewrite Hwrite; reflexivity).
  destruct (@IRasterIO_returns cfg i2f32 i2f64 fconv b a s Hown Hx Hy Hmax) as [[e s'] E].
  exists e, s'. split; [exact E|]. fold (outside_kept b a s s').
  revert E. unfold IRasterIO. rewrite Hwrite. cbn [andb negb].
  destruct (negb (CPLErr_eqb (eFlushBlockErr s) CE_None)).
  { intro E; inversion E; subst. intros x y _ _ _. reflexivity. }
  destruct ((nBlockXSize b <=? 0) || (nBlockYSize b <=? 0)) eqn:Eb.
  { intro E; inversion E; subst. intros x y _ _ _. reflexivity. }
  apply orb_false_iff in Eb. destruct Eb as [Ebw Ebh].
  apply Z.leb_gt in Ebw. apply Z.leb_gt in Ebh.
  destruct (is_packed_case b a) eqn:Pk.
  { unfold is_packed_case in Pk. rewrite !andb_true_iff, !Z.eqb_eq in Pk.
    destruct Pk as (((((P1 & P2) & P3) & P4) & P5) & _).
    apply IRasterIO_packed_outside; try assumption; lia. }
  cbv zeta. rewrite andb_false_r.
  destruct (is_window_case a) eqn:Wc.
  { unfold is_window_case in Wc. rewrite !andb_true_iff, !Z.eqb_eq in Wc.
    destruct Wc as ((W1 & W2) & _).
    apply IRasterIO_window_outside; assumption. }
  unfold IRasterIO_general. rewrite Hwrite.
  apply IRasterIO_general_write_outside; assumption.
Qed.

(* ------------------------------------------------------------------ *)
(** ** Writing a window and reading it back *)

(** X29: what a 1:1 write stores, a 1:1 read of the same window returns:
    after a successful write of the buffer of [aw] over a window, a
    successful read of that window into the buffer of [ar] gives every
    pixel [(i, j)] the bytes it had in the buffer written, converted to the
    type of the band and from there to the type of the buffer read; when
    the two buffers have the type of the band, the pixels read are the
    pixels written, bit for bit. *)
Theorem written_window_reads_back :
  forall (cfg : BuildConfig) (i2f32 i2f64 : Z -> list byte)
         (fconv : CType -> CType -> list byte -> list byte)
         (b : Band) (aw ar : RasterIOArgs) (s s1 s2 : IOState),
    eRWFlag aw = GF_Write -> eRWFlag ar = GF_Read ->
    nXOff ar = nXOff aw -> nYOff ar = nYOff aw ->
    nXSize ar = nXSize aw -> nYSize ar = nYSize aw ->
    is_window_case aw = true -> is_window_case ar = true ->
    known_type (eDataType b) = true ->
    known_type (eBufType aw) = true -> known_type (eBufType ar) = true ->
    0 < nBlockXSize b -> 0 < nBlockYSize b ->
    0 <= nXOff aw -> 0 <= nYOff aw -> nXSize aw + nXOff aw <= INT_MAX ->
    nXOff aw + nXSize aw <= nRasterXSize b ->
    buffer_layout ar ->
    IRasterIO cfg i2f32 i2f64 fconv b aw s = Some (CE_None, s1) ->
    IRasterIO cfg i2f32 i2f64 fconv b ar s1 = Some (CE_None, s2) ->
    forall i j, 0 <= i < nXSize aw -> 0 <= j < nYSize aw ->
      buf_pixel ar s2 i j
      = pixel_bytes i2f32 i2f64 fconv (eDataType b) (eBufType ar)
          (pixel_bytes i2f32 i2f64 fconv (eBufType aw) (eDataType b) (buf_pixel aw s i j))
      /\ (eBufType aw = eDataType b -> eBufType ar = eDataType b ->
          buf_pixel ar s2 i j = buf_pixel aw s i j).
Proof.
  intros cfg i2f32 i2f64 fconv b aw ar s s1 s2 Hw Hr Ex0 Ey0 Exs Eys Cw Cr
         Hband Hbufw Hbufr Hbw Hbh Hx Hy Hmax Hfit Hlay E1 E2 i j Hi Hj.
  assert (Sw := Cw). unfold is_window_case in Sw.
  rewrite !andb_true_iff, !Z.eqb_eq in Sw. destruct Sw as ((Sw1 & Sw2) & _).
  assert (Sr := Cr). unfold is_window_case in Sr.
  rewrite !andb_true_iff, !Z.eqb_eq in Sr. destruct Sr as ((Sr1 & Sr2) & _).
  destruct (@one_to_one_write_stored cfg i2f32 i2f64 fconv b aw s s1 Hw Cw Hband Hbufw
              Hbw Hbh Hx Hy ltac:(lia) Hfit ltac:(lia) E1) as [_ W].
  destruct (@one_to_one_read_filled cfg i2f32 i2f64 fconv b ar s1 s2 Hr Cr Hband Hbufr
              Hbw Hbh ltac:(lia) ltac:(lia) ltac:(lia) ltac:(lia) ltac:(lia) Hlay E2)
    as [_ R].
  assert (V : buf_pixel ar s2 i j
              = pixel_bytes i2f32 i2f64 fconv (eDataType b) (eBufType ar)
                  (pixel_bytes i2f32 i2f64 fconv (eBufType aw) (eDataType b)
                     (buf_pixel aw s i j))).
  { rewrite (R i j ltac:(lia) ltac:(lia) I). rewrite Ex0, Ey0.
    rewrite (W i j ltac:(lia) ltac:(lia) I). reflexivity. }
  split; [exact V|].
  intros Tw Tr. rewrite V. rewrite Tw, Tr.
  rewrite !pixel_bytes_same; [reflexivity | |].
  - unfold buf_pixel. rewrite load_bytes_length. unfold type_size. rewrite Tw. reflexivity.
  - rewrite pixel_bytes_same; unfold buf_pixel; rewrite load_bytes_length;
      unfold type_size; rewrite Tw; reflexivity.
Qed.

(* ------------------------------------------------------------------ *)
(** ** The fractions reported to the progress callback *)

Lemma frac_ok (k n : Z) :
  0 < k <= n -> (0 < inject_Z k / inject_Z n)%Q /\ (inject_Z k / inject_Z n <= 1)%Q.
Proof.
  intro H.
  assert (Hn : (0 < inject_Z n)%Q)
    by (change 0%Q with (inject_Z 0); rewrite <- Zlt_Qlt; lia).
  split.
  - apply Qlt_shift_div_l; [exact Hn|]. rewrite Qmult_0_l.
    change 0%Q with (inject_Z 0). rewrite <- Zlt_Qlt. lia.
  - apply Qle_shift_div_r; [exact Hn|]. rewrite Qmult_1_l. rewrite <- Zle_Qle. lia.
Qed.

Lemma frac_one (n : Z) : 0 < n -> (inject_Z n / inject_Z n == 1)%Q.
Proof.
  intro H. field. intro E.
  assert (Hn : (0 < inject_Z n)%Q)
    by (change 0%Q with (inject_Z 0); rewrite <- Zlt_Qlt; lia).
  rewrite E in Hn. discriminate Hn.
Qed.

Lemma reports_ok_refl (s : IOState) : reports_ok s s.
Proof. exists []. split; [reflexivity | constructor]. Qed.

Lemma reports_ok_same (s0 s s1 : IOState) :
  trace s1 = trace s -> reports_ok s0 s -> reports_ok s0 s1.
Proof. intros E (new & T & F). exists new. split; [congruence | exact F]. Qed.

Lemma reports_ok_log (s0 s : IOState) (ev : Event) :
  progress_ok ev -> reports_ok s0 s -> reports_ok s0 (log ev s).
Proof.
  intros H (new & T & F). exists (ev :: new). split.
  - cbn [log trace]. rewrite T. reflexivity.
  - constructor; assumption.
Qed.

Lemma reports_ok_DropLock (s0 s : IOState) (p : option (Z * Z)) :
  reports_ok s0 s -> reports_ok s0 (DropLock p s).
Proof.
  intro H. destruct p as [[x y]|]; cbn [DropLock]; [|exact H].
  apply reports_ok_log; [exact I | exact H].
Qed.

Lemma reports_ok_Interrupted (b : Band) (s0 s : IOState) :
  reports_ok s0 s -> reports_ok s0 (snd (Interrupted b s)).
Proof.
  intro H. unfold Interrupted. destruct (poDS b); cbn [snd]; [|exact H].
  apply reports_ok_log; [exact I | exact H].
Qed.

Lemma reports_ok_GetLockedBlockRef (b : Band) (s0 s : IOState) (x y : Z) (ji : bool) :
  reports_ok s0 s -> reports_ok s0 (snd (GetLockedBlockRef b x y ji s)).
Proof.
  intro H. unfold GetLockedBlockRef. cbv zeta.
  destruct (block_ok _ _ _ _ _); cbn [snd]; [destruct (_ && _)|];
    try (apply reports_ok_same with (s := log (EvFetch x y ji true) s); [reflexivity|]);
    apply reports_ok_log; try exact I; exact H.
Qed.

Lemma reports_ok_dirty_zero (b : Band) (a : RasterIOArgs) (s0 s : IOState)
    (x y : Z) (mz : bool) :
  reports_ok s0 s ->
  reports_ok s0 (let s1 := if is_write (eRWFlag a) then MarkDirty x y s else s in
                 if mz then zero_block b x y s1 else s1).
Proof.
  intro H. cbv zeta.
  assert (H1 : reports_ok s0 (if is_write (eRWFlag a) then MarkDirty x y s else s)).
  { destruct (is_write (eRWFlag a)); [|exact H].
    apply reports_ok_log; [exact I | exact H]. }
  destruct mz; [|exact H1].
  eapply reports_ok_same; [|exact H1]. reflexivity.
Qed.

(** A report of a fraction in range keeps the trace in order, and is the
    last report. *)
Lemma reports_ok_progress (a : RasterIOArgs) (s0 s : IOState) (q : Q) :
  (0 < q)%Q /\ (q <= 1)%Q ->
  reports_ok s0 s ->
  reports_ok s0 (snd (progress_stops a q s))
  /\ last_report a s0 (snd (progress_stops a q s)) q.
Proof.
  intros Hq H. unfold progress_stops, last_report.
  destruct (pfnProgress (psExtraArg a)) as [f|]; cbn [snd].
  - split; [apply reports_ok_log; [exact Hq | exact H]|].
    intros _. destruct H as (new & T & _).
    exists (EvProgress q (f q) :: new), q. split; [cbn [log trace]; rewrite T; reflexivity|].
    split; [reflexivity | apply Qeq_refl].
  - split; [exact H|]. intro N. contradiction N. reflexivity.
Qed.

Lemma last_report_DropLock (a : RasterIOArgs) (s0 s : IOState) (p : option (Z * Z))
    (q : Q) :
  last_report a s0 s q -> last_report a s0 (DropLock p s) q.
Proof.
  intros H N. destruct (H N) as (new & q' & T & L & E).
  destruct p as [[x y]|]; cbn [DropLock].
  - exists (EvDrop x y :: new), q'. split; [cbn [log trace]; rewrite T; reflexivity|].
    split; [exact L | exact E].
  - exists new, q'. split; [exact T|]. split; [exact L | exact E].
Qed.

Lemma last_report_eq (a : RasterIOArgs) (s0 s : IOState) (q q1 : Q) :
  (q == q1)%Q -> last_report a s0 s q -> last_report a s0 s q1.
Proof.
  intros E H N. destruct (H N) as (new & q' & T & L & E'). exists new, q'.
  split; [exact T|]. split; [exact L|]. rewrite E'. exact E.
Qed.

(** The last block of the window serves some index of the buffer. *)
Lemma buf_lo_last (blk bsz off size n : Z) :
  0 < size -> 0 < n -> blk * bsz <= off + size - 1 ->
  buf_lo blk bsz off (inject_Z size / inject_Z n) < n.
Proof.
  intros Hs Hn H. unfold buf_lo. cbv zeta.
  set (v := (inject_Z (blk * bsz - off) / (inject_Z size / inject_Z n))%Q).
  destruct (Z.ltb_spec (trunc v) 0) as [L|L]; [lia|].
  destruct (Qlt_le_dec v 0) as [N|N].
  - assert (T := trunc_nonpos (Qlt_le_weak _ _ N)). lia.
  - rewrite (trunc_floor N). rewrite Zlt_Qlt.
    apply (Qle_lt_trans _ v); [apply Qfloor_le|].
    subst v. apply Qlt_shift_div_r; [apply inc_pos; assumption|].
    assert (E : (inject_Z n * (inject_Z size / inject_Z n) == inject_Z size)%Q).
    { field. intro E.
      assert (K : (0 < inject_Z n)%Q)
        by (change 0%Q with (inject_Z 0); rewrite <- Zlt_Qlt; exact Hn).
      rewrite E in K. discriminate K. }
    rewrite E. rewrite <- Zlt_Qlt. lia.
Qed.

Section Progress.

Variable cfg : BuildConfig.
Variable i2f32 : Z -> list byte.
Variable i2f64 : Z -> list byte.
Variable fconv : CType -> CType -> list byte -> list byte.
Variable b : Band.
Variable a : RasterIOArgs.
Variable s0 : IOState.

(** The packed full-width case. *)
Lemma packed_body_reports (i : Z) (st : CPLErr * option (Z * Z) * Z * IOState) :
  0 <= i < nBufYSize a ->
  (let '(e, _, _, s) := st in
   e = CE_None /\ reports_ok s0 s
   /\ (0 < i -> last_report a s0 s (inject_Z i / inject_Z (nBufYSize a)))) ->
  match packed_body cfg i2f32 i2f64 fconv b a i st with
  | Next (e, _, _, s) =>
      e = CE_None /\ reports_ok s0 s
      /\ (0 < i + 1 -> last_report a s0 s (inject_Z (i + 1) / inject_Z (nBufYSize a)))
  | Break (e, _, _, s) => e <> CE_None /\ reports_ok s0 s
  | Return e s => e <> CE_None /\ reports_ok s0 s
  | Fuel => True
  end.
Proof.
  intros Hi. destruct st as [[[e p] yb] s]. intros (-> & F & _).
  assert (Row : forall (p' : option (Z * Z)) (y : Z) (s1 : IOState),
            reports_ok s0 s1 ->
            match packed_copy_row cfg i2f32 i2f64 fconv b a i CE_None p' y s1 with
            | Next (e, _, _, s) =>
                e = CE_None /\ reports_ok s0 s
                /\ (0 < i + 1 ->
                    last_report a s0 s (inject_Z (i + 1) / inject_Z (nBufYSize a)))
            | Break (e, _, _, s) => e <> CE_None /\ reports_ok s0 s
            | Return e s => e <> CE_None /\ reports_ok s0 s
            | Fuel => True
            end).
  { intros p' y s1 F1. unfold packed_copy_row. cbv zeta.
    match goal with |- context [progress_stops a ?q ?s2] =>
      assert (F2 : reports_ok s0 s2);
      [| assert (Hq : (0 < q)%Q /\ (q <= 1)%Q) by (apply frac_ok; lia);
         destruct (@reports_ok_progress a s0 s2 q Hq F2) as [F3 L3];
         destruct (progress_stops a q s2) as [stop s3] ] end.
    - destruct (GDALDataType_eqb (eDataType b) (eBufType a));
        (eapply reports_ok_same; [|exact F1]);
        [apply trace_memcpy_rw | apply trace_copy_words_rw].
    - cbn [snd] in F3, L3. destruct stop.
      + split; [discriminate | exact F3].
      + split; [reflexivity|]. split; [exact F3 | intros _; exact L3]. }
  unfold packed_body. cbv zeta.
  destruct ((i + nYOff a <? yb * nBlockYSize b)
            || (yb * nBlockYSize b <=? i + nYOff a - nBlockYSize b)).
  - assert (F1 : reports_ok s0 (snd (Interrupted b (DropLock p s))))
      by (apply reports_ok_Interrupted, reports_ok_DropLock; exact F).
    destruct (Interrupted b (DropLock p s)) as [intr s2]. cbn [snd] in F1.
    destruct intr; [split; [discriminate | exact F1]|].
    match goal with |- context [GetLockedBlockRef b ?x ?y0 ?ji s2] =>
      assert (F3 := @reports_ok_GetLockedBlockRef b s0 s2 x y0 ji F1);
      destruct (GetLockedBlockRef b x y0 ji s2) as [ok s3] end.
    cbn [snd] in F3. destruct ok; cbn [negb]; [|split; [discriminate | exact F3]].
    apply Row.
    match goal with |- context [if ?mz then zero_block b ?x ?y0 _ else _] =>
      apply (@reports_ok_dirty_zero b a s0 s3 x y0 mz F3) end.
  - apply Row. exact F.
Qed.

Lemma IRasterIO_packed_reports (e : CPLErr) (s' : IOState) :
  0 < nBufYSize a ->
  IRasterIO_packed cfg i2f32 i2f64 fconv b a s0 = Some (e, s') ->
  reports_ok s0 s' /\ (e = CE_None -> last_report a s0 s' 1).
Proof.
  intros Hn. unfold IRasterIO_packed.
  assert (G := @for_ctl_indexed _
                 (fun i (st : CPLErr * option (Z * Z) * Z * IOState) =>
                    let '(e, _, _, s) := st in
                    e = CE_None /\ reports_ok s0 s
                    /\ (0 < i -> last_report a s0 s (inject_Z i / inject_Z (nBufYSize a))))
                 (fun st : CPLErr * option (Z * Z) * Z * IOState =>
                    let '(e, _, _, s) := st in e <> CE_None /\ reports_ok s0 s)
                 (fun e (s : IOState) => e <> CE_None /\ reports_ok s0 s)
                 (packed_body cfg i2f32 i2f64 fconv b a)
                 (Z.to_nat (nBufYSize a)) 0 (CE_None, None, -1, s0)
                 (fun i st Hi I => @packed_body_reports i st ltac:(lia) I)).
  cbv beta iota in G.
  assert (I0 : CE_None = CE_None /\ reports_ok s0 s0
               /\ (0 < 0 -> last_report a s0 s0 (inject_Z 0 / inject_Z (nBufYSize a))))
    by (split; [reflexivity | split; [apply reports_ok_refl | lia]]).
  specialize (G I0).
  destruct (for_ctl _ _ _ _) as [[[[e1 p] y] s1] | [[[e1 p] y] s1] | e1 s1 |];
    intro E; inversion E; subst.
  - destruct G as (_ & F & L). split; [apply reports_ok_DropLock; exact F|].
    intros _. apply last_report_DropLock.
    apply last_report_eq with (q := (inject_Z (nBufYSize a) / inject_Z (nBufYSize a))%Q);
      [apply frac_one; exact Hn|].
    replace (nBufYSize a) with (0 + Z.of_nat (Z.to_nat (nBufYSize a))) at 1 by lia.
    apply L. lia.
  - destruct G as [N F]. split; [apply reports_ok_DropLock; exact F | intro; contradiction].
  - destruct G as [N F]. split; [exact F | intro; contradiction].
Qed.

(** The 1:1 arbitrary-window case. *)
Lemma window_inner_body_reports (J iSrcY y xe : Z) (st : Z * Z * Z * IOState) :
  (let '(_, _, _, s) := st in reports_ok s0 s) ->
  ctl_next (fun st : Z * Z * Z * IOState => let '(_, _, _, s) := st in reports_ok s0 s)
           (fun e s => e <> CE_None /\ reports_ok s0 s)
           (window_inner_body cfg i2f32 i2f64 fconv b a J iSrcY y xe st).
Proof.
  destruct st as [[[iSrcX bx] boff] s]. intro F.
  unfold window_inner_body. cbv zeta.
  assert (F2 := @reports_ok_Interrupted b s0 s F).
  destruct (Interrupted b s) as [intr s2]. cbn [snd] in F2.
  destruct intr; [split; [discriminate | exact F2]|].
  match goal with |- context [GetLockedBlockRef b ?x ?y0 ?ji s2] =>
    assert (F3 := @reports_ok_GetLockedBlockRef b s0 s2 x y0 ji F2);
    destruct (GetLockedBlockRef b x y0 ji s2) as [ok s3] end.
  cbn [snd] in F3. destruct ok; cbn [negb ctl_next]; [|split; [discriminate | exact F3]].
  apply reports_ok_DropLock.
  match goal with |- context [for_loop ?n 0 ?f ?s4] =>
    apply reports_ok_same with (s := s4);
    [ apply trace_for_loop; intros k s5;
      destruct (_ && _); [apply trace_memcpy_rw | apply trace_copy_words_rw] |] end.
  match goal with |- context [if ?mz then zero_block b ?x ?y0 _ else _] =>
    apply (@reports_ok_dirty_zero b a s0 s3 x y0 mz F3) end.
Qed.

Section Window.

Hypothesis Hbh : 0 < nBlockYSize b.
Hypothesis Hy : 0 <= nYOff a.

Lemma window_outer_body_reports (st : Z * Z * IOState) :
  let Outer := fun st : Z * Z * IOState =>
    let '(J, iSrcY, s) := st in
    0 <= J /\ iSrcY = J + nYOff a /\ reports_ok s0 s
    /\ (0 < J ->
        last_report a s0 s
          (inject_Z (Z.min (nBufYSize a) J) / inject_Z (nBufYSize a))) in
  Outer st ->
  (let '(J, _, _) := st in J <? nBufYSize a) = true ->
  ctl_next Outer (fun e s => e <> CE_None /\ reports_ok s0 s)
    (window_outer_body cfg i2f32 i2f64 fconv b a st).
Proof.
  intro Outer. destruct st as [[J iSrcY] s]. subst Outer. cbv beta iota.
  intros (HJ0 & E0 & F & _) C. subst iSrcY.
  apply Z.ltb_lt in C. unfold window_outer_body. cbv zeta.
  assert (Hrem := Z.rem_bound_pos (J + nYOff a) (nBlockYSize b) ltac:(lia) Hbh).
  match goal with |- context [while_ctl ?n ?c ?body ?st0] =>
    assert (W := @while_ctl_next _
                   (fun st : Z * Z * Z * IOState =>
                      let '(_, _, _, s) := st in reports_ok s0 s)
                   (fun e (s : IOState) => e <> CE_None /\ reports_ok s0 s)
                   c body
                   (fun st I _ => @window_inner_body_reports _ _ _ _ st I) n st0 F);
    destruct (while_ctl n c body st0) as [[[[x bx] o] s1] | [[[x bx] o] s1] | e s1 |] end;
    cbn [ctl_next] in W |- *.
  - destruct W as [F1 _].
    match goal with |- context [progress_stops a ?q s1] =>
      assert (Hq : (0 < q)%Q /\ (q <= 1)%Q) by (apply frac_ok; lia);
      destruct (@reports_ok_progress a s0 s1 q Hq F1) as [F3 L3];
      destruct (progress_stops a q s1) as [stop s2] end.
    cbn [snd] in F3, L3. destruct stop; cbn [ctl_next]; [split; [discriminate | exact F3]|].
    split; [lia|]. split; [ring|]. split; [exact F3 | intros _; exact L3].
  - exfalso. exact W.
  - exact W.
  - exact I.
Qed.

Lemma IRasterIO_window_reports (e : CPLErr) (s' : IOState) :
  0 < nBufYSize a ->
  IRasterIO_window cfg i2f32 i2f64 fconv b a s0 = Some (e, s') ->
  reports_ok s0 s' /\ (e = CE_None -> last_report a s0 s' 1).
Proof.
  intros Hn. unfold IRasterIO_window.
  assert (I0 : 0 <= 0 /\ nYOff a = 0 + nYOff a /\ reports_ok s0 s0
               /\ (0 < 0 ->
                   last_report a s0 s0
                     (inject_Z (Z.min (nBufYSize a) 0) / inject_Z (nBufYSize a))))
    by (split; [lia | split; [ring | split; [apply reports_ok_refl | lia]]]).
  match goal with |- context [while_ctl ?n ?c ?body ?st0] =>
    assert (W := @while_ctl_next _ _
                   (fun e (s : IOState) => e <> CE_None /\ reports_ok s0 s)
                   c body (fun st I C' => @window_outer_body_reports st I C') n st0 I0);
    destruct (while_ctl n c body st0) as [[[J y] s1] | [[J y] s1] | e1 s1 |] end;
    cbn [ctl_next] in W; intro E; inversion E; subst.
  - destruct W as [(HJ & _ & F & L) C]. apply Z.ltb_ge in C.
    split; [exact F|]. intros _.
    apply last_report_eq with (q := (inject_Z (nBufYSize a) / inject_Z (nBufYSize a))%Q);
      [apply frac_one; exact Hn|].
    replace (nBufYSize a) with (Z.min (nBufYSize a) J) at 1 by lia.
    apply L. lia.
  - exfalso. exact W.
  - destruct W as [N F]. split; [exact F | intro; contradiction].
Qed.

End Window.


(** The write without a 1:1 mapping. *)
Lemma gwrite_pixel_reports (y ybuf x : Z)
    (st : CPLErr * option (Z * Z) * Z * Z * IOState) :
  (let '(e, _, _, _, s) := st in e = CE_None /\ reports_ok s0 s) ->
  match gwrite_pixel cfg i2f32 i2f64 fconv b a y ybuf x st with
  | Next (e, _, _, _, s) => e = CE_None /\ reports_ok s0 s
  | Break _ => False
  | Return e s => e <> CE_None /\ reports_ok s0 s
  | Fuel => True
  end.
Proof.
  destruct st as [[[[e p] bx] by_] s]. intros [-> F]. unfold gwrite_pixel. cbv zeta.
  destruct (_ || _).
  - match goal with |- context [GetLockedBlockRef b ?x0 ?y0 ?ji (DropLock p s)] =>
      assert (F3 := @reports_ok_GetLockedBlockRef b s0 (DropLock p s) x0 y0 ji
                      (reports_ok_DropLock p F));
      destruct (GetLockedBlockRef b x0 y0 ji (DropLock p s)) as [ok s3] end.
    cbn [snd] in F3. destruct ok; cbn [negb]; [|split; [discriminate | exact F3]].
    split; [reflexivity|].
    match goal with |- context [MarkDirty ?x0 ?y0 s3] =>
      assert (F4 : reports_ok s0 (MarkDirty x0 y0 s3))
        by (apply reports_ok_log; [exact I | exact F3]) end.
    destruct (GDALDataType_eqb _ _); (eapply reports_ok_same; [|exact F4]); reflexivity.
  - split; [reflexivity|].
    destruct (GDALDataType_eqb _ _); (eapply reports_ok_same; [|exact F]); reflexivity.
Qed.

Lemma gwrite_row_reports (y : Z) (st : CPLErr * option (Z * Z) * Z * Z * IOState) :
  nYOff a <= y < nYOff a + nYSize a ->
  (let '(e, _, _, _, s) := st in
   e = CE_None /\ reports_ok s0 s
   /\ (nYOff a < y ->
       last_report a s0 s (inject_Z (y - nYOff a) / inject_Z (nYSize a)))) ->
  match gwrite_row cfg i2f32 i2f64 fconv b a y st with
  | Next (e, _, _, _, s) =>
      e = CE_None /\ reports_ok s0 s
      /\ (nYOff a < y + 1 ->
          last_report a s0 s (inject_Z (y + 1 - nYOff a) / inject_Z (nYSize a)))
  | Break (e, _, _, _, s) => e <> CE_None /\ reports_ok s0 s
  | Return e s => e <> CE_None /\ reports_ok s0 s
  | Fuel => True
  end.
Proof.
  intros Hwy I0. unfold gwrite_row. cbv zeta.
  match goal with |- context [for_ctl ?n ?i0 ?body st] =>
    assert (G := @for_ctl_indexed _
                   (fun (_ : Z) (st : CPLErr * option (Z * Z) * Z * Z * IOState) =>
                      let '(e, _, _, _, s) := st in e = CE_None /\ reports_ok s0 s)
                   (fun _ => False)
                   (fun e (s : IOState) => e <> CE_None /\ reports_ok s0 s)
                   body n i0 st
                   (fun x st' _ I => @gwrite_pixel_reports y _ x st' I));
    assert (I1 : let '(e, _, _, _, s) := st in e = CE_None /\ reports_ok s0 s)
      by (destruct st as [[[[e p] bx] by_] s]; destruct I0 as (E & F & _);
          split; assumption);
    specialize (G I1);
    destruct (for_ctl n i0 body st)
      as [[[[[e p] bx] by_] s1] | [[[[e p] bx] by_] s1] | e s1 |] end;
    try exact G; [|contradiction].
  destruct G as [-> F].
  match goal with |- context [progress_stops a ?q s1] =>
    assert (Hq : (0 < q)%Q /\ (q <= 1)%Q) by (apply frac_ok; lia);
    destruct (@reports_ok_progress a s0 s1 q Hq F) as [F3 L3];
    destruct (progress_stops a q s1) as [stop s2] end.
  cbn [snd] in F3, L3. destruct stop; [split; [discriminate | exact F3]|].
  split; [reflexivity|]. split; [exact F3|]. intros _.
  replace (y + 1 - nYOff a) with (y - nYOff a + 1) by lia. exact L3.
Qed.

Lemma IRasterIO_general_write_reports (e : CPLErr) (s' : IOState) :
  0 < nYSize a ->
  IRasterIO_general_write cfg i2f32 i2f64 fconv b a s0 = Some (e, s') ->
  reports_ok s0 s' /\ (e = CE_None -> last_report a s0 s' 1).
Proof.
  intros Hn. unfold IRasterIO_general_write.
  assert (G := @for_ctl_indexed _
                 (fun y (st : CPLErr * option (Z * Z) * Z * Z * IOState) =>
                    let '(e, _, _, _, s) := st in
                    e = CE_None /\ reports_ok s0 s
                    /\ (nYOff a < y ->
                        last_report a s0 s
                          (inject_Z (y - nYOff a) / inject_Z (nYSize a))))
                 (fun st : CPLErr * option (Z * Z) * Z * Z * IOState =>
                    let '(e, _, _, _, s) := st in e <> CE_None /\ reports_ok s0 s)
                 (fun e (s : IOState) => e <> CE_None /\ reports_ok s0 s)
                 (gwrite_row cfg i2f32 i2f64 fconv b a)
                 (Z.to_nat (nYSize a)) (nYOff a) (CE_None, None, -1, -1, s0)
                 (fun y st Hy' I => @gwrite_row_reports y st ltac:(lia) I)).
  cbv beta iota in G.
  assert (I0 : CE_None = CE_None /\ reports_ok s0 s0
               /\ (nYOff a < nYOff a ->
                   last_report a s0 s0
                     (inject_Z (nYOff a - nYOff a) / inject_Z (nYSize a))))
    by (split; [reflexivity | split; [apply reports_ok_refl | lia]]).
  specialize (G I0).
  destruct (for_ctl _ _ _ _)
    as [[[[[e1 p] bx] by_] s1] | [[[[e1 p] bx] by_] s1] | e1 s1 |];
    intro E; inversion E; subst.
  - destruct G as (_ & F & L). split; [apply reports_ok_DropLock; exact F|].
    intros _. apply last_report_DropLock.
    apply last_report_eq with (q := (inject_Z (nYSize a) / inject_Z (nYSize a))%Q);
      [apply frac_one; exact Hn|].
    replace (nYSize a)
      with (nYOff a + Z.of_nat (Z.to_nat (nYSize a)) - nYOff a) at 1 by lia.
    apply L. lia.
  - destruct G as [N F]. split; [apply reports_ok_DropLock; exact F | intro; contradiction].
  - destruct G as [N F]. split; [exact F | intro; contradiction].
Qed.


(** The read without a 1:1 mapping. *)
Lemma gread_row_reports (bx by_ j : Z) (st : CPLErr * option (Z * Z) * IOState) :
  0 <= j < nBufYSize a ->
  (let '(_, _, s) := st in reports_ok s0 s) ->
  match gread_row cfg i2f32 i2f64 fconv b a bx by_ j st with
  | Next (_, _, s) =>
      reports_ok s0 s /\ last_report a s0 s (inject_Z (j + 1) / inject_Z (nBufYSize a))
  | Break (e, _, s) => e <> CE_None /\ reports_ok s0 s
  | Return _ _ => False
  | Fuel => True
  end.
Proof.
  destruct st as [[e p] s]. intros Hj F. unfold gread_row. cbv zeta.
  match goal with |- context [for_loop ?n ?i0 ?f s] =>
    assert (T : trace (for_loop n i0 f s) = trace s)
      by (apply trace_for_loop; intros; apply trace_gread_pixel);
    generalize dependent (for_loop n i0 f s) end.
  intros s1 T. assert (F1 : reports_ok s0 s1) by (apply reports_ok_same with (s := s); assumption).
  assert (Hq : (0 < inject_Z (j + 1) / inject_Z (nBufYSize a))%Q
               /\ (inject_Z (j + 1) / inject_Z (nBufYSize a) <= 1)%Q)
    by (apply frac_ok; lia).
  destruct (@reports_ok_progress a s0 s1 _ Hq F1) as [F3 L3].
  destruct e; try (split; [discriminate | exact F1]);
    destruct (progress_stops a _ s1) as [stop s2]; cbn [snd] in F3, L3;
    (destruct stop; [split; [discriminate | exact F3] | split; [exact F3 | exact L3]]).
Qed.

Lemma gread_block_reports (by_ bx : Z) (st : CPLErr * option (Z * Z) * IOState) :
  (let '(_, _, s) := st in reports_ok s0 s) ->
  match gread_block cfg i2f32 i2f64 fconv b a by_ bx st with
  | Next (e, _, s) =>
      reports_ok s0 s
      /\ (e = CE_None ->
          buf_lo by_ (nBlockYSize b) (nYOff a) (dfSrcYInc a)
          < buf_lim by_ (nBlockYSize b) (nYOff a) (dfSrcYInc a) (nBufYSize a) ->
          last_report a s0 s
            (inject_Z (buf_lim by_ (nBlockYSize b) (nYOff a) (dfSrcYInc a) (nBufYSize a))
             / inject_Z (nBufYSize a)))
  | Break (e, _, s) => e <> CE_None /\ reports_ok s0 s
  | Return e s => e <> CE_None /\ reports_ok s0 s
  | Fuel => True
  end.
Proof.
  destruct st as [[e p] s]. intro F. unfold gread_block. cbv zeta.
  assert (F1 := @reports_ok_Interrupted b s0 (DropLock p s) (reports_ok_DropLock p F)).
  destruct (Interrupted b (DropLock p s)) as [intr s2]. cbn [snd] in F1.
  destruct intr; [split; [discriminate | exact F1]|].
  assert (F3 := @reports_ok_GetLockedBlockRef b s0 s2 bx by_ false F1).
  destruct (GetLockedBlockRef b bx by_ false s2) as [ok s3]. cbn [snd] in F3.
  destruct ok; cbn [negb]; [|split; [discriminate | exact F3]].
  set (lo := buf_lo by_ (nBlockYSize b) (nYOff a) (dfSrcYInc a)).
  set (lim := buf_lim by_ (nBlockYSize b) (nYOff a) (dfSrcYInc a) (nBufYSize a)).
  assert (Hlo : 0 <= lo) by apply buf_lo_nonneg.
  assert (Hlim : lim <= nBufYSize a) by apply buf_lim_le.
  assert (G := @for_ctl_indexed _
                 (fun j (st : CPLErr * option (Z * Z) * IOState) =>
                    let '(_, _, s) := st in
                    reports_ok s0 s
                    /\ (lo < j ->
                        last_report a s0 s (inject_Z j / inject_Z (nBufYSize a))))
                 (fun st : CPLErr * option (Z * Z) * IOState =>
                    let '(e, _, s) := st in e <> CE_None /\ reports_ok s0 s)
                 (fun _ (_ : IOState) => False)
                 (gread_row cfg i2f32 i2f64 fconv b a bx by_)
                 (Z.to_nat (lim - lo)) lo (e, Some (bx, by_), s3)).
  cbv beta iota in G.
  assert (Step : forall j (st : CPLErr * option (Z * Z) * IOState),
            lo <= j < lo + Z.of_nat (Z.to_nat (lim - lo)) ->
            (let '(_, _, s) := st in
             reports_ok s0 s
             /\ (lo < j -> last_report a s0 s (inject_Z j / inject_Z (nBufYSize a)))) ->
            match gread_row cfg i2f32 i2f64 fconv b a bx by_ j st with
            | Next st' =>
                let '(_, _, s) := st' in
                reports_ok s0 s
                /\ (lo < j + 1 ->
                    last_report a s0 s (inject_Z (j + 1) / inject_Z (nBufYSize a)))
            | Break st' => let '(e, _, s) := st' in e <> CE_None /\ reports_ok s0 s
            | Return _ _ => False
            | Fuel => True
            end).
  { intros j [[e1 p1] s1] Hj [I _].
    assert (K := @gread_row_reports bx by_ j (e1, p1, s1) ltac:(lia) I).
    destruct (gread_row _ _ _ _ _ _ _ _ _ _) as [[[e2 p2] s4] | [[e2 p2] s4] | e2 s4 |];
      try exact K.
    destruct K as [K1 K2]. split; [exact K1 | intros _; exact K2]. }
  assert (I0 : reports_ok s0 s3
               /\ (lo < lo -> last_report a s0 s3 (inject_Z lo / inject_Z (nBufYSize a))))
    by (split; [exact F3 | lia]).
  specialize (G Step I0).
  destruct (for_ctl _ _ _ _) as [[[e2 p2] s4] | [[e2 p2] s4] | e2 s4 |].
  - destruct G as [G1 G2]. split; [exact G1|]. intros _ L.
    replace (lo + Z.of_nat (Z.to_nat (lim - lo))) with lim in G2 by lia.
    apply G2. exact L.
  - destruct G as [N G1]. split; [exact G1 | intro; contradiction].
  - contradiction.
  - exact I.
Qed.

Lemma gread_block_row_reports (fx lx by_ : Z) (st : CPLErr * option (Z * Z) * IOState) :
  fx <= lx ->
  (let '(_, _, s) := st in reports_ok s0 s) ->
  match gread_block_row cfg i2f32 i2f64 fconv b a fx lx by_ st with
  | Next (e, _, s) =>
      reports_ok s0 s
      /\ (e = CE_None ->
          buf_lo by_ (nBlockYSize b) (nYOff a) (dfSrcYInc a)
          < buf_lim by_ (nBlockYSize b) (nYOff a) (dfSrcYInc a) (nBufYSize a) ->
          last_report a s0 s
            (inject_Z (buf_lim by_ (nBlockYSize b) (nYOff a) (dfSrcYInc a) (nBufYSize a))
             / inject_Z (nBufYSize a)))
  | Break _ => False
  | Return e s => e <> CE_None /\ reports_ok s0 s
  | Fuel => True
  end.
Proof.
  intros Hfl F. unfold gread_block_row.
  set (lo := buf_lo by_ (nBlockYSize b) (nYOff a) (dfSrcYInc a)).
  set (lim := buf_lim by_ (nBlockYSize b) (nYOff a) (dfSrcYInc a) (nBufYSize a)).
  assert (G := @for_ctl_indexed _
                 (fun bx (st : CPLErr * option (Z * Z) * IOState) =>
                    let '(e, _, s) := st in
                    reports_ok s0 s
                    /\ (fx < bx -> e = CE_None -> lo < lim ->
                        last_report a s0 s (inject_Z lim / inject_Z (nBufYSize a))))
                 (fun st : CPLErr * option (Z * Z) * IOState =>
                    let '(e, _, s) := st in e <> CE_None /\ reports_ok s0 s)
                 (fun e (s : IOState) => e <> CE_None /\ reports_ok s0 s)
                 (gread_block cfg i2f32 i2f64 fconv b a by_)
                 (Z.to_nat (lx - fx + 1)) fx st).
  cbv beta iota in G.
  assert (Step : forall bx (st : CPLErr * option (Z * Z) * IOState),
            fx <= bx < fx + Z.of_nat (Z.to_nat (lx - fx + 1)) ->
            (let '(e, _, s) := st in
             reports_ok s0 s
             /\ (fx < bx -> e = CE_None -> lo < lim ->
                 last_report a s0 s (inject_Z lim / inject_Z (nBufYSize a)))) ->
            match gread_block cfg i2f32 i2f64 fconv b a by_ bx st with
            | Next st' =>
                let '(e, _, s) := st' in
                reports_ok s0 s
                /\ (fx < bx + 1 -> e = CE_None -> lo < lim ->
                    last_report a s0 s (inject_Z lim / inject_Z (nBufYSize a)))
            | Break st' => let '(e, _, s) := st' in e <> CE_None /\ reports_ok s0 s
            | Return e s => e <> CE_None /\ reports_ok s0 s
            | Fuel => True
            end).
  { intros bx [[e1 p1] s1] Hbx [I _].
    assert (K := @gread_block_reports by_ bx (e1, p1, s1) I).
    destruct (gread_block _ _ _ _ _ _ _ _ _) as [[[e2 p2] s4] | [[e2 p2] s4] | e2 s4 |];
      try exact K.
    destruct K as [K1 K2]. split; [exact K1 | intros _; exact K2]. }
  assert (I0 : let '(e, _, s) := st in
               reports_ok s0 s
               /\ (fx < fx -> e = CE_None -> lo < lim ->
                   last_report a s0 s (inject_Z lim / inject_Z (nBufYSize a))))
    by (destruct st as [[e p] s]; split; [exact F | lia]).
  specialize (G Step I0).
  destruct (for_ctl _ _ _ _) as [[[e2 p2] s4] | [[e2 p2] s4] | e2 s4 |].
  - destruct G as [G1 G2]. split; [exact G1|]. apply G2. lia.
  - destruct G as [N G1]. split; [exact G1 | intro; contradiction].
  - exact G.
  - exact I.
Qed.

Lemma IRasterIO_general_read_reports (e : CPLErr) (s' : IOState) :
  0 < nBlockXSize b -> 0 < nBlockYSize b -> 0 <= nXOff a -> 0 <= nYOff a ->
  bFloatingPointWindowValidity (psExtraArg a) = false ->
  0 < nXSize a -> 0 < nYSize a -> 0 < nBufYSize a ->
  IRasterIO_general_read cfg i2f32 i2f64 fconv b a s0 = Some (e, s') ->
  reports_ok s0 s' /\ (e = CE_None -> last_report a s0 s' 1).
Proof.
  intros Hbw Hbh Hx Hy Hfp Hxs Hys Hn. unfold IRasterIO_general_read. cbv zeta.
  assert (X1 := @quot_block_bounds (nXOff a) (nBlockXSize b) Hx Hbw).
  assert (X2 := @quot_block_bounds (nXOff a + nXSize a - 1) (nBlockXSize b)
                  ltac:(lia) Hbw).
  assert (Y1 := @quot_block_bounds (nYOff a) (nBlockYSize b) Hy Hbh).
  assert (Y2 := @quot_block_bounds (nYOff a + nYSize a - 1) (nBlockYSize b)
                  ltac:(lia) Hbh).
  set (fx := Z.quot (nXOff a) (nBlockXSize b)) in *.
  set (lx := Z.quot (nXOff a + nXSize a - 1) (nBlockXSize b)) in *.
  set (first := Z.quot (nYOff a) (nBlockYSize b)) in *.
  set (last := Z.quot (nYOff a + nYSize a - 1) (nBlockYSize b)) in *.
  assert (Hx' : fx <= lx) by nia.
  assert (Hy' : first <= last) by nia.
  assert (Einc : dfSrcYInc a = (inject_Z (nYSize a) / inject_Z (nBufYSize a))%Q)
    by (unfold dfSrcYInc; rewrite Hfp; reflexivity).
  assert (Llo : buf_lo last (nBlockYSize b) (nYOff a) (dfSrcYInc a) < nBufYSize a)
    by (rewrite Einc; apply buf_lo_last; lia).
  assert (Llim : buf_lim last (nBlockYSize b) (nYOff a) (dfSrcYInc a) (nBufYSize a)
                 = nBufYSize a)
    by (rewrite Einc; apply buf_lim_last; lia).
  assert (G := @for_ctl_indexed _
                 (fun by_ (st : CPLErr * option (Z * Z) * IOState) =>
                    let '(e, _, s) := st in
                    reports_ok s0 s
                    /\ (first < by_ -> e = CE_None ->
                        buf_lo (by_ - 1) (nBlockYSize b) (nYOff a) (dfSrcYInc a)
                        < buf_lim (by_ - 1) (nBlockYSize b) (nYOff a) (dfSrcYInc a)
                            (nBufYSize a) ->
                        last_report a s0 s
                          (inject_Z (buf_lim (by_ - 1) (nBlockYSize b) (nYOff a)
                                       (dfSrcYInc a) (nBufYSize a))
                           / inject_Z (nBufYSize a))))
                 (fun _ : CPLErr * option (Z * Z) * IOState => False)
                 (fun e (s : IOState) => e <> CE_None /\ reports_ok s0 s)
                 (gread_block_row cfg i2f32 i2f64 fconv b a fx lx)
                 (Z.to_nat (last - first + 1)) first (CE_None, None, s0)).
  cbv beta iota in G.
  match type of G with ?S -> ?I0 -> _ =>
    assert (Step : S);
    [ intros by_ [[e1 p1] s1] Hby [I _];
      assert (K := @gread_block_row_reports fx lx by_ (e1, p1, s1) Hx' I);
      destruct (gread_block_row _ _ _ _ _ _ _ _ _ _)
        as [[[e2 p2] s4] | [[e2 p2] s4] | e2 s4 |]; try exact K;
      destruct K as [K1 K2]; split; [exact K1|]; intros _;
      replace (by_ + 1 - 1) with by_ by lia; exact K2
    | assert (I1 : I0) by (split; [apply reports_ok_refl | lia]);
      specialize (G Step I1) ] end.
  destruct (for_ctl _ _ _ _) as [[[e2 p2] s4] | [[e2 p2] s4] | e2 s4 |];
    intro E; inversion E; subst.
  - destruct G as [G1 G2]. split; [apply reports_ok_DropLock; exact G1|].
    intros ->. apply last_report_DropLock.
    replace (first + Z.of_nat (Z.to_nat (last - first + 1)) - 1) with last in G2 by lia.
    rewrite Llim in G2.
    apply last_report_eq with (q := (inject_Z (nBufYSize a) / inject_Z (nBufYSize a))%Q);
      [apply frac_one; exact Hn|].
    apply G2; [lia | reflexivity | exact Llo].
  - contradiction.
  - destruct G as [N G1]. split; [exact G1 | intro; contradiction].
Qed.

End Progress.

(** X30: the fractions handed to the progress callback.  On every path
    through the loops of [IRasterIO] itself (packed, 1:1 window,
    resampled write, nearest-neighbour read) and however the request
    ends, each fraction reported to [pfnProgress] lies in (0, 1]; and
    when the request succeeds with a callback installed, the last
    fraction reported is 1.  The shortcut of [GDAL_NO_COSTLY_OVERVIEW],
    which blanks the buffer and reports nothing, is excluded, and so is a
    floating-point window, whose size is not tied to [nYSize]. *)
Theorem progress_reports_stay_in_range_and_end_at_one :
  forall (cfg : BuildConfig) (i2f32 i2f64 : Z -> list byte)
         (fconv : CType -> CType -> list byte -> list byte)
         (b : Band) (a : RasterIOArgs) (s : IOState),
    own_loops b a = true ->
    GDAL_NO_COSTLY_OVERVIEW b = false ->
    bFloatingPointWindowValidity (psExtraArg a) = false ->
    0 <= nXOff a -> 0 <= nYOff a -> 0 < nXSize a -> 0 < nYSize a ->
    0 < nBufYSize a -> nBufXSize a + nXOff a <= INT_MAX ->
    exists e s',
      IRasterIO cfg i2f32 i2f64 fconv b a s = Some (e, s')
      /\ reports_ok s s'
      /\ (e = CE_None -> last_report a s s' 1).
Proof.
  intros cfg i2f32 i2f64 fconv b a s Hown Hcostly Hfp Hx Hy Hxs Hys Hn Hmax.
  destruct (@IRasterIO_returns cfg i2f32 i2f64 fconv b a s Hown Hx Hy Hmax) as [[e s'] E].
  exists e, s'. split; [exact E|].
  revert E. unfold IRasterIO.
  match goal with |- context [if ?c then Some (eFlushBlockErr s, ?z) else ?g] =>
    destruct c eqn:Fl end.
  { cbv zeta. intro E; inversion E; subst. clear E.
    apply andb_true_iff in Fl. destruct Fl as [_ Fl].
    split; [apply reports_ok_same with (s := s); [reflexivity | apply reports_ok_refl]|].
    intro C. rewrite C in Fl. discriminate Fl. }
  clear Fl.
  destruct ((nBlockXSize b <=? 0) || (nBlockYSize b <=? 0)) eqn:Eb.
  { intro E; inversion E; subst. split; [apply reports_ok_refl | discriminate]. }
  apply orb_false_iff in Eb. destruct Eb as [Ebw Ebh].
  apply Z.leb_gt in Ebw. apply Z.leb_gt in Ebh.
  destruct (is_packed_case b a).
  { apply IRasterIO_packed_reports. exact Hn. }
  cbv zeta. rewrite Hcostly, !andb_false_r.
  assert (Own : forall r : option (CPLErr * IOState),
            (if is_window_case a
             then IRasterIO_window cfg i2f32 i2f64 fconv b a s
             else IRasterIO_general cfg i2f32 i2f64 fconv b a s) = Some (e, s') ->
            reports_ok s s' /\ (e = CE_None -> last_report a s s' 1)).
  { intros _. destruct (is_window_case a).
    - apply IRasterIO_window_reports; assumption.
    - unfold IRasterIO_general. destruct (is_write (eRWFlag a)) eqn:W.
      + apply IRasterIO_general_write_reports. exact Hys.
      + destruct (own_loops_read b a Hown W) as [_ Halg]. rewrite Halg.
        apply IRasterIO_general_read_reports; assumption. }
  destruct (is_write (eRWFlag a)) eqn:W.
  - cbn [negb]. rewrite andb_false_r. apply (Own None).
  - destruct (own_loops_read b a Hown W) as [Hov _].
    replace (0 <? Z.of_nat (List.length (overviews b))) with false
      by (symmetry; apply Z.ltb_ge; lia).
    rewrite andb_false_r. cbn [andb]. apply (Own None).
Qed.

(* ------------------------------------------------------------------ *)
(** * Further properties: witnesses *)

(** X1, witness: byte 17 of twenty bytes widened to 16-bit words. *)
Lemma copied_pixel_is_converted_source_pixel_witness :
  load_bytes
    (GDALCopyWords cfg_sse2 ex_i2f32 ex_i2f64 ex_fconv ex_src 0 GDT_Byte 1
                   zero_mem 0 GDT_UInt16 2 20)
    (0 + 17 * 2) (pixel_size (component_type GDT_UInt16) (GDALDataTypeIsComplex GDT_UInt16))
  = pixel_bytes ex_i2f32 ex_i2f64 ex_fconv GDT_Byte GDT_UInt16
      (load_bytes ex_src (0 + 17 * 1)
         (pixel_size (component_type GDT_Byte) (GDALDataTypeIsComplex GDT_Byte))).
Proof.
  apply (@copied_pixel_is_converted_source_pixel cfg_sse2 ex_i2f32 ex_i2f64 ex_fconv
           GDT_Byte GDT_UInt16 ex_src 0 1 zero_mem 0 2 20 17).
  - reflexivity.
  - reflexivity.
  - simpl. lia.
  - lia.
Defined.

(** X2, witness: the byte after the twenty words written. *)
Lemma copy_leaves_other_bytes_alone_witness :
  GDALCopyWords cfg_sse2 ex_i2f32 ex_i2f64 ex_fconv ex_src 0 GDT_Byte 1
                zero_mem 0 GDT_UInt16 2 20 40
  = zero_mem 40.
Proof.
  apply (@copy_leaves_other_bytes_alone cfg_sse2 ex_i2f32 ex_i2f64 ex_fconv
           GDT_Byte GDT_UInt16 ex_src 0 1 zero_mem 0 2 20 40).
  - reflexivity.
  - reflexivity.
  - intros k Hk. simpl. lia.
Defined.

(** X3, witness: twenty words as seventeen words and three words. *)
Lemma copy_of_a_run_splits_witness :
  GDALCopyWords cfg_sse2 ex_i2f32 ex_i2f64 ex_fconv ex_src 0 GDT_Byte 1
                zero_mem 0 GDT_UInt16 2 (17 + 3)
  = GDALCopyWords cfg_sse2 ex_i2f32 ex_i2f64 ex_fconv ex_src (0 + 17 * 1) GDT_Byte 1
      (GDALCopyWords cfg_sse2 ex_i2f32 ex_i2f64 ex_fconv ex_src 0 GDT_Byte 1
                     zero_mem 0 GDT_UInt16 2 17)
      (0 + 17 * 2) GDT_UInt16 2 3.
Proof.
  apply (@copy_of_a_run_splits cfg_sse2 ex_i2f32 ex_i2f64 ex_fconv
           GDT_Byte GDT_UInt16 ex_src 0 1 zero_mem 0 2 17 3).
  - reflexivity.
  - reflexivity.
  - lia.
  - lia.
Defined.

(** X4, witness: every third 16-bit word of a buffer, packed. *)
Lemma same_type_copy_is_byte_exact_witness :
  load_bytes
    (GDALCopyWords cfg_sse2 ex_i2f32 ex_i2f64 ex_fconv ex_src 0 GDT_UInt16 6
                   zero_mem 0 GDT_UInt16 2 5)
    (0 + 3 * 2) (Z.to_nat (GDALGetDataTypeSizeBytes GDT_UInt16))
  = load_bytes ex_src (0 + 3 * 6) (Z.to_nat (GDALGetDataTypeSizeBytes GDT_UInt16)).
Proof.
  apply (@same_type_copy_is_byte_exact cfg_sse2 ex_i2f32 ex_i2f64 ex_fconv
           GDT_UInt16 ex_src 0 6 zero_mem 0 2 5 3).
  - reflexivity.
  - simpl. lia.
  - lia.
Defined.

(** X5, witness: twenty bytes, there and back. *)
Lemma widened_bytes_narrow_back_witness :
  GDALCopyWords cfg_sse2 ex_i2f32 ex_i2f64 ex_fconv
    (GDALCopyWords cfg_sse2 ex_i2f32 ex_i2f64 ex_fconv ex_src 0 GDT_Byte 1
                   zero_mem 0 GDT_UInt16 2 20)
    0 GDT_UInt16 2 zero_mem 0 GDT_Byte 1 20 (0 + 17)
  = ex_src (0 + 17).
Proof.
  apply (@widened_bytes_narrow_back cfg_sse2 ex_i2f32 ex_i2f64 ex_fconv
           ex_src 0 zero_mem 0 zero_mem 0 20 17).
  - reflexivity.
  - reflexivity.
  - lia.
Defined.

(** X6, witness: word 9 of ten 16-bit words. *)
Lemma narrowed_words_are_clamped_witness :
  GDALCopyWords cfg_sse2 ex_i2f32 ex_i2f64 ex_fconv ex_src 0 GDT_UInt16 2
                zero_mem 0 GDT_Byte 1 10 (0 + 9)
  = byte_of_Z (Z.min (le_unsigned (load_bytes ex_src (0 + 9 * 2) 2)) 255).
Proof.
  apply (@narrowed_words_are_clamped cfg_sse2 ex_i2f32 ex_i2f64 ex_fconv
           ex_src 0 zero_mem 0 10 9).
  - reflexivity.
  - reflexivity.
  - lia.
Defined.

(** X7, witness: the 1:1 write of the 4 x 4 window of a raster in blocks
    of 2 x 2. *)
Lemma write_leaves_the_buffer_alone_witness :
  exists e s',
    IRasterIO cfg_sse2 ex_i2f32 ex_i2f64 ex_fconv
      (ex_band 4 4 2 2 None) (ex_args GF_Write 4 4) (ex_state ex_px 2 2 CE_None)
    = Some (e, s')
    /\ buf s' = buf (ex_state ex_px 2 2 CE_None).
Proof.
  destruct (IRasterIO cfg_sse2 ex_i2f32 ex_i2f64 ex_fconv
              (ex_band 4 4 2 2 None) (ex_args GF_Write 4 4) (ex_state ex_px 2 2 CE_None))
    as [[e s']|] eqn:E.
  - exists e, s'. split; [reflexivity|].
    exact (@write_leaves_the_buffer_alone cfg_sse2 ex_i2f32 ex_i2f64 ex_fconv
             (ex_band 4 4 2 2 None) (ex_args GF_Write 4 4) (ex_state ex_px 2 2 CE_None)
             e s' eq_refl E).
  - exfalso.
    assert (X : result_err
                  (IRasterIO cfg_sse2 ex_i2f32 ex_i2f64 ex_fconv
                     (ex_band 4 4 2 2 None) (ex_args GF_Write 4 4)
                     (ex_state ex_px 2 2 CE_None)) = Some CE_None)
      by (vm_compute; reflexivity).
    rewrite E in X. discriminate X.
Defined.

(** X8, witness: the decimated read of the 4 x 4 window into a buffer of
    2 x 2 pixels. *)
Lemma read_leaves_the_band_alone_witness :
  exists e s',
    IRasterIO cfg_sse2 ex_i2f32 ex_i2f64 ex_fconv
      (ex_band 4 4 2 2 None) (ex_args GF_Read 2 2) (ex_state ex_px 2 2 CE_None)
    = Some (e, s')
    /\ blocks s' = blocks (ex_state ex_px 2 2 CE_None)
    /\ eFlushBlockErr s' = eFlushBlockErr (ex_state ex_px 2 2 CE_None)
    /\ exists new, trace s' = new ++ trace (ex_state ex_px 2 2 CE_None)
                   /\ forallb read_event new = true.
Proof.
  destruct (IRasterIO cfg_sse2 ex_i2f32 ex_i2f64 ex_fconv
              (ex_band 4 4 2 2 None) (ex_args GF_Read 2 2) (ex_state ex_px 2 2 CE_None))
    as [[e s']|] eqn:E.
  - exists e, s'. split; [reflexivity|].
    exact (@read_leaves_the_band_alone cfg_sse2 ex_i2f32 ex_i2f64 ex_fconv
             (ex_band 4 4 2 2 None) (ex_args GF_Read 2 2) (ex_state ex_px 2 2 CE_None)
             e s' eq_refl eq_refl E).
  - exfalso.
    assert (X : result_err
                  (IRasterIO cfg_sse2 ex_i2f32 ex_i2f64 ex_fconv
                     (ex_band 4 4 2 2 None) (ex_args GF_Read 2 2)
                     (ex_state ex_px 2 2 CE_None)) = Some CE_None)
      by (vm_compute; reflexivity).
    rewrite E in X. discriminate X.
Defined.


(** X10, witness: the 1:1 read of the 4 x 4 window of a raster in blocks
    of 2 x 2, without dataset and without progress callback. *)
Lemma cooperative_request_succeeds_witness :
  exists s',
    IRasterIO cfg_sse2 ex_i2f32 ex_i2f64 ex_fconv
      (ex_band 4 4 2 2 None) (ex_args GF_Read 4 4) (ex_state ex_px 2 2 CE_None)
    = Some (CE_None, s').
Proof.
  apply (@cooperative_request_succeeds cfg_sse2 ex_i2f32 ex_i2f64 ex_fconv
           (ex_band 4 4 2 2 None) (ex_args GF_Read 4 4) (ex_state ex_px 2 2 CE_None)).
  - reflexivity.
  - simpl. lia.
  - simpl. lia.
  - simpl. lia.
  - simpl. lia.
  - vm_compute. discriminate.
  - reflexivity.
  - intros f n H. discriminate H.
  - intros n x y ji. reflexivity.
  - intros f q H. discriminate H.
Defined.

(** X11, witness: three packed 4-byte words at the aligned address 16. *)
Lemma swap_reverses_each_word_in_place_witness :
  (forall i j, 0 <= i < 3 -> 0 <= j < 4 ->
     GDALSwapWords ex_src 16 4 3 4 (16 + i * 4 + j) = ex_src (16 + i * 4 + (4 - 1 - j)))
  /\ (forall x,
        (forall i, 0 <= i < 3 -> x < 16 + i * 4 \/ 16 + i * 4 + 4 <= x) ->
        GDALSwapWords ex_src 16 4 3 4 x = ex_src x).
Proof.
  apply (@swap_reverses_each_word_in_place ex_src 16 4 3 4).
  - lia.
  - right. right. left. reflexivity.
  - lia.
Defined.

(** X12, witness: three 8-byte words, 12 bytes apart, at the unaligned
    address 17. *)
Lemma swapping_twice_restores_witness :
  GDALSwapWords (GDALSwapWords ex_src 17 8 3 12) 17 8 3 12 = ex_src.
Proof. apply (@swapping_twice_restores ex_src 17 8 3 12). lia. Defined.

(** X13, witness: five packed 2-byte words. *)
Lemma chunked_swap_is_one_swap_witness :
  GDALSwapWordsEx ex_src 16 2 5 2 = Some (GDALSwapWords ex_src 16 2 5 2).
Proof. apply (@chunked_swap_is_one_swap ex_src 16 2 5 2); lia. Defined.

(** X14, witness: three words of 5 bits, packed in the source from bit 3
    on, laid out every 7 bits in the destination from bit 2 on. *)
Lemma copied_bits_arrive_and_no_other_bit_changes_witness :
  (forall i l, 0 <= i < 3 -> 0 <= l < 5 ->
     get_bit (GDALCopyBits ex_src 100 3 5 200 2 7 5 3) 200 (2 + i * 7 + l)
     = get_bit ex_src 100 (3 + i * 5 + l))
  /\ (forall n,
        (forall i, 0 <= i < 3 -> n < 2 + i * 7 \/ 2 + i * 7 + 5 <= n) ->
        get_bit (GDALCopyBits ex_src 100 3 5 200 2 7 5 3) 200 n = get_bit ex_src 200 n).
Proof.
  apply (@copied_bits_arrive_and_no_other_bit_changes ex_src 100 3 5 200 2 7 5 3).
  - lia.
  - lia.
  - intros i l i' l' Hi Hl Hi' Hl'. Z.to_euclidean_division_equations. lia.
Defined.

(** X15, witness: the third of four bytes, 3 apart in the source, packed
    in the destination. *)
Lemma byte_aligned_bit_copy_copies_bytes_witness :
  GDALCopyBits ex_src 100 (8 * 2) (8 * 3) 200 (8 * 1) (8 * 1) 8 4 (200 + 1 + 2 * 1)
  = ex_src (100 + 2 + 2 * 3).
Proof.
  apply (@byte_aligned_bit_copy_copies_bytes ex_src 100 2 3 200 1 1 4).
  - lia.
  - lia.
  - intros i i' Hi Hi'. lia.
  - lia.
Defined.

(** X16, witness: the window [(40, 40, 6, 6)] of a band of side 64 with
    overviews of sides 64, 32, 16 and 8, for a buffer of 2 x 2 pixels. *)
Lemma recast_window_lies_inside_the_overview_witness :
  let '(lvl, w', e') :=
    GDALBandGetBestOverviewLevel2 (ex_ovr_band 64 [64; 32; 16; 8])
      {| wXOff := 40; wYOff := 40; wXSize := 6; wYSize := 6 |} 2 2 None in
  (lvl = -1 /\ w' = {| wXOff := 40; wYOff := 40; wXSize := 6; wYSize := 6 |} /\ e' = None)
  \/ (exists o, 0 <= lvl
                /\ nth_error (overviews (ex_ovr_band 64 [64; 32; 16; 8])) (Z.to_nat lvl)
                   = Some (Some o)
                /\ window_inside o w').
Proof.
  apply (@recast_window_lies_inside_the_overview (ex_ovr_band 64 [64; 32; 16; 8])
           {| wXOff := 40; wYOff := 40; wXSize := 6; wYSize := 6 |} 2 2 None).
  - simpl. lia.
  - simpl. lia.
  - intros o H. simpl in H.
    destruct H as [H|[H|[H|[H|[]]]]]; inversion H; subst; simpl; lia.
  - simpl. lia.
  - simpl. lia.
Defined.


(** X18, witness: a compressed interleaved destination of three bands. *)
Lemma swath_is_not_empty_and_not_wider_than_the_raster_witness :
  let '(nSwathCols, nSwathLines) :=
    GDALCopyWholeRasterGetSwathSize (ex_swath None) 3 true true in
  1 <= nSwathCols <= sw_nXSize (ex_swath None) /\ 1 <= nSwathLines.
Proof.
  apply (@swath_is_not_empty_and_not_wider_than_the_raster (ex_swath None) 3 true true).
  unfold swath_valid. cbn. lia.
Defined.

(** X19, witness: the same destination. *)
Lemma compressed_destination_gets_whole_block_rows_witness :
  Z.rem (snd (GDALCopyWholeRasterGetSwathSize (ex_swath None) 3 true true))
        (sw_nBlockYSize (ex_swath None)) = 0.
Proof.
  apply (@compressed_destination_gets_whole_block_rows (ex_swath None) 3 true).
  unfold swath_valid. cbn. lia.
Defined.

(** X20, witness: a budget of 2000000 bytes. *)
Lemma swath_fits_the_budget_witness :
  let '(nSwathCols, nSwathLines) :=
    GDALCopyWholeRasterGetSwathSize (ex_swath (Some 2000000)) 3 false true in
  nSwathLines = 1
  \/ nSwathCols * nSwathLines * swath_pixel_size (ex_swath (Some 2000000)) 3 true <= 2000000.
Proof.
  apply (@swath_fits_the_budget (ex_swath (Some 2000000)) 3 true 2000000).
  - unfold swath_valid. cbn. lia.
  - reflexivity.
  - reflexivity.
  - unfold INT_MAX. lia.
Defined.

(** X21, witness: the read of the 4 x 4 window of a raster in blocks of
    2 x 2, pixel (2, 3). *)
Lemma one_to_one_read_fills_the_buffer_witness :
  exists s',
    IRasterIO cfg_sse2 ex_i2f32 ex_i2f64 ex_fconv
      (ex_band 4 4 2 2 None) (ex_args GF_Read 4 4) (ex_state ex_px 2 2 CE_None)
    = Some (CE_None, s')
    /\ buf_pixel (ex_args GF_Read 4 4) s' 2 3
       = pixel_bytes ex_i2f32 ex_i2f64 ex_fconv GDT_Byte GDT_Byte
           (raster_pixel (ex_band 4 4 2 2 None) (ex_state ex_px 2 2 CE_None) (0 + 2) (0 + 3)).
Proof.
  assert (X : result_err
                (IRasterIO cfg_sse2 ex_i2f32 ex_i2f64 ex_fconv
                   (ex_band 4 4 2 2 None) (ex_args GF_Read 4 4)
                   (ex_state ex_px 2 2 CE_None)) = Some CE_None)
    by (vm_compute; reflexivity).
  destruct (IRasterIO cfg_sse2 ex_i2f32 ex_i2f64 ex_fconv
              (ex_band 4 4 2 2 None) (ex_args GF_Read 4 4) (ex_state ex_px 2 2 CE_None))
    as [[e s']|] eqn:E; [|discriminate X].
  cbn in X. inversion X; subst e.
  exists s'. split; [reflexivity|].
  apply (@one_to_one_read_fills_the_buffer cfg_sse2 ex_i2f32 ex_i2f64 ex_fconv
           (ex_band 4 4 2 2 None) (ex_args GF_Read 4 4) (ex_state ex_px 2 2 CE_None) s');
    try reflexivity; try (simpl; lia); try exact E.
  - vm_compute. discriminate.
  - unfold buffer_layout. simpl. lia.
Defined.

(** X22, witness: the write of a 4 x 4 buffer over a raster in blocks of
    2 x 2, pixel (2, 3). *)
Lemma one_to_one_write_stores_the_buffer_witness :
  exists s',
    IRasterIO cfg_sse2 ex_i2f32 ex_i2f64 ex_fconv
      (ex_band 4 4 2 2 None) (ex_args GF_Write 4 4) (ex_state ex_px 2 2 CE_None)
    = Some (CE_None, s')
    /\ raster_pixel (ex_band 4 4 2 2 None) s' (0 + 2) (0 + 3)
       = pixel_bytes ex_i2f32 ex_i2f64 ex_fconv GDT_Byte GDT_Byte
           (buf_pixel (ex_args GF_Write 4 4) (ex_state ex_px 2 2 CE_None) 2 3).
Proof.
  assert (X : result_err
                (IRasterIO cfg_sse2 ex_i2f32 ex_i2f64 ex_fconv
                   (ex_band 4 4 2 2 None) (ex_args GF_Write 4 4)
                   (ex_state ex_px 2 2 CE_None)) = Some CE_None)
    by (vm_compute; reflexivity).
  destruct (IRasterIO cfg_sse2 ex_i2f32 ex_i2f64 ex_fconv
              (ex_band 4 4 2 2 None) (ex_args GF_Write 4 4) (ex_state ex_px 2 2 CE_None))
    as [[e s']|] eqn:E; [|discriminate X].
  cbn in X. inversion X; subst e.
  exists s'. split; [reflexivity|].
  apply (@one_to_one_write_stores_the_buffer cfg_sse2 ex_i2f32 ex_i2f64 ex_fconv
           (ex_band 4 4 2 2 None) (ex_args GF_Write 4 4) (ex_state ex_px 2 2 CE_None) s');
    try reflexivity; try (simpl; lia); try exact E.
  vm_compute. discriminate.
Defined.


(** X24, witness: the decimated read of a 4 x 4 window into a 2 x 2
    buffer. *)
Lemma other_cases_hold_one_lock_witness :
  exists e s',
    IRasterIO cfg_sse2 ex_i2f32 ex_i2f64 ex_fconv
      (ex_band 4 4 2 2 None) (ex_args GF_Read 2 2) (ex_state ex_px 2 2 CE_None)
    = Some (e, s')
    /\ lock_inv None s'.
Proof.
  apply (@other_cases_hold_one_lock cfg_sse2 ex_i2f32 ex_i2f64 ex_fconv
           (ex_band 4 4 2 2 None) (ex_args GF_Read 2 2) (ex_state ex_px 2 2 CE_None)).
  - reflexivity.
  - intros n a' s1 H. exact H.
  - intros a' s1 H. exact H.
  - split; [exact I | reflexivity].
Defined.



(** X27, witness: the read of a 4 x 4 window into a 4 x 4 buffer. *)
Lemma read_writes_only_buffer_pixels_witness :
  exists e s',
    IRasterIO cfg_sse2 ex_i2f32 ex_i2f64 ex_fconv
      (ex_band 4 4 2 2 None) (ex_args GF_Read 4 4) (ex_state ex_px 2 2 CE_None)
    = Some (e, s')
    /\ forall o, pixel_free (ex_args GF_Read 4 4) o ->
         buf s' o = buf (ex_state ex_px 2 2 CE_None) o.
Proof.
  apply (@read_writes_only_buffer_pixels cfg_sse2 ex_i2f32 ex_i2f64 ex_fconv
           (ex_band 4 4 2 2 None) (ex_args GF_Read 4 4) (ex_state ex_px 2 2 CE_None));
    try reflexivity; try (simpl; lia); try (unfold INT_MAX; simpl; lia).
  unfold buffer_layout. simpl. lia.
Defined.

(** X28, witness: a 2 x 2 window written at (1, 1) of a 4 x 4 raster in
    blocks of 2 x 2. *)
Lemma write_leaves_the_rest_of_the_raster_alone_witness :
  exists e s',
    IRasterIO cfg_sse2 ex_i2f32 ex_i2f64 ex_fconv
      (ex_band 4 4 2 2 None) ex_inner_args ex_buffer_state
    = Some (e, s')
    /\ forall x y, 0 <= x < 4 -> 0 <= y < 4 ->
         ~ in_window ex_inner_args x y ->
         raster_pixel (ex_band 4 4 2 2 None) s' x y
         = raster_pixel (ex_band 4 4 2 2 None) ex_buffer_state x y.
Proof.
  apply (@write_leaves_the_rest_of_the_raster_alone cfg_sse2 ex_i2f32 ex_i2f64 ex_fconv
           (ex_band 4 4 2 2 None) ex_inner_args ex_buffer_state);
    try reflexivity; try (simpl; lia); try (unfold INT_MAX; simpl; lia).
Defined.

(** X29, witness: the buffer written over the window [(1, 1, 2, 2)] and
    read back, pixel (1, 0). *)
Lemma written_window_reads_back_witness :
  exists s1 s2,
    IRasterIO cfg_sse2 ex_i2f32 ex_i2f64 ex_fconv
      (ex_band 4 4 2 2 None) ex_inner_args ex_buffer_state = Some (CE_None, s1)
    /\ IRasterIO cfg_sse2 ex_i2f32 ex_i2f64 ex_fconv
         (ex_band 4 4 2 2 None) ex_back_args s1 = Some (CE_None, s2)
    /\ buf_pixel ex_back_args s2 1 0 = buf_pixel ex_inner_args ex_buffer_state 1 0.
Proof.
  assert (X : match IRasterIO cfg_sse2 ex_i2f32 ex_i2f64 ex_fconv
                      (ex_band 4 4 2 2 None) ex_inner_args ex_buffer_state with
              | Some (e1, s1) =>
                  match IRasterIO cfg_sse2 ex_i2f32 ex_i2f64 ex_fconv
                          (ex_band 4 4 2 2 None) ex_back_args s1 with
                  | Some (e2, _) => Some (e1, e2)
                  | None => None
                  end
              | None => None
              end = Some (CE_None, CE_None))
    by (vm_compute; reflexivity).
  revert X.
  destruct (IRasterIO cfg_sse2 ex_i2f32 ex_i2f64 ex_fconv
              (ex_band 4 4 2 2 None) ex_inner_args ex_buffer_state)
    as [[e1 s1]|] eqn:E1; [|discriminate].
  destruct (IRasterIO cfg_sse2 ex_i2f32 ex_i2f64 ex_fconv
              (ex_band 4 4 2 2 None) ex_back_args s1)
    as [[e2 s2]|] eqn:E2; [|discriminate].
  intro X. inversion X; subst e1 e2.
  exists s1, s2. split; [reflexivity|]. split; [exact E2|].
  apply (@written_window_reads_back cfg_sse2 ex_i2f32 ex_i2f64 ex_fconv
           (ex_band 4 4 2 2 None) ex_inner_args ex_back_args ex_buffer_state s1 s2);
    try reflexivity; try (simpl; lia); try (unfold INT_MAX; simpl; lia);
    try exact E1; try exact E2.
  unfold buffer_layout. simpl. lia.
Defined.

(** X30, witness: a 4 x 4 window read into a 2 x 2 buffer, with a
    callback that lets the request go on. *)
Lemma progress_reports_stay_in_range_and_end_at_one_witness :
  exists e s',
    IRasterIO cfg_sse2 ex_i2f32 ex_i2f64 ex_fconv
      (ex_band 4 4 2 2 None) (ex_progress_args GF_Read 2 2) (ex_state ex_px 2 2 CE_None)
    = Some (e, s')
    /\ reports_ok (ex_state ex_px 2 2 CE_None) s'
    /\ (e = CE_None ->
        last_report (ex_progress_args GF_Read 2 2) (ex_state ex_px 2 2 CE_None) s' 1).
Proof.
  apply (@progress_reports_stay_in_range_and_end_at_one cfg_sse2 ex_i2f32 ex_i2f64 ex_fconv
           (ex_band 4 4 2 2 None) (ex_progress_args GF_Read 2 2)
           (ex_state ex_px 2 2 CE_None));
    try reflexivity; try (simpl; lia); try (unfold INT_MAX; simpl; lia).
Defined.
